(** * Sim_CEDIS: the discrete-time warehouse simulator, its A* planner and
    its space-time reservation table, embedded from the Python sources
    [a_estrella.py], [tabla_reservas.py] and [sim_core.py]. *)

From stdpp Require Import gmap list sorting.
From Stdlib Require Import ZArith Lia QArith.
Local Open Scope Z_scope.

(** ** Cells and the grid *)

(** [Celda = Tuple[int, int]]: a pair [(x, y)] of Python integers. *)
Abbreviation Celda := (Z * Z)%type.

(** The grid is a two-dimensional numpy array of integers, [grid[y, x]];
    rows are indexed by [y].  A numpy array is rectangular, so the width
    is the length of any row. *)
Abbreviation Grid := (list (list Z)).

Definition LIBRE : Z := 0.
Definition ESTACION : Z := 2.

(** [alto, ancho = grid.shape] *)
Definition alto (grid : Grid) : Z := Z.of_nat (length grid).
Definition ancho (grid : Grid) : Z :=
  match grid with
  | [] => 0
  | fila :: _ => Z.of_nat (length fila)
  end.

(** [grid[y, x]], read only at indices that passed [en_rango]; the default
    is never returned for such indices on a rectangular array. *)
Definition leer (grid : Grid) (x y : Z) : Z :=
  nth (Z.to_nat x) (nth (Z.to_nat y) grid []) 3.

Definition en_rango (grid : Grid) (x y : Z) : bool :=
  (0 <=? x) && (x <? ancho grid) && ((0 <=? y) && (y <? alto grid)).

Definition transitable (grid : Grid) (x y : Z) : bool :=
  (leer grid x y =? LIBRE) || (leer grid x y =? ESTACION).

(** A cell that is both in range and transitable; every use in the sources
    tests [en_rango] before it reads the array. *)
Definition pasable (grid : Grid) (c : Celda) : bool :=
  en_rango grid c.1 c.2 && transitable grid c.1 c.2.

(** ** a_estrella.py *)

Module AEstrella.

(** An entry of the open heap: [(f, g, (x, y))]. *)
Abbreviation Entrada := (Z * Z * Celda)%type.

(** Python compares the tuples lexicographically. *)
Definition celda_ltb (a b : Celda) : bool :=
  (a.1 <? b.1) || ((a.1 =? b.1) && (a.2 <? b.2)).

Definition entrada_ltb (a b : Entrada) : bool :=
  let '(fa, ga, ca) := a in
  let '(fb, gb, cb) := b in
  (fa <? fb) || ((fa =? fb) && ((ga <? gb) || ((ga =? gb) && celda_ltb ca cb))).

(** The heap is kept as the multiset of its entries: [heappush] adds one,
    [heappop] takes the least one out.  Entries that compare equal are the
    same tuple, so the popped value does not depend on the heap's shape. *)
Definition heappush (h : list Entrada) (e : Entrada) : list Entrada := e :: h.

Fixpoint minimo (e : Entrada) (h : list Entrada) : Entrada :=
  match h with
  | [] => e
  | e' :: h' => minimo (if entrada_ltb e' e then e' else e) h'
  end.

Fixpoint quitar (e : Entrada) (h : list Entrada) : list Entrada :=
  match h with
  | [] => []
  | e' :: h' => if decide (e' = e) then h' else e' :: quitar e h'
  end.

Definition heappop (h : list Entrada) : option (Entrada * list Entrada) :=
  match h with
  | [] => None
  | e :: h' => let m := minimo e h' in Some (m, quitar m h)
  end.

Definition heuristica (meta c : Celda) : Z :=
  Z.abs (c.1 - meta.1) + Z.abs (c.2 - meta.2).

(** The order in which the four neighbours are tried. *)
Definition direcciones : list (Z * Z) := [(1, 0); (-1, 0); (0, 1); (0, -1)].

Record Busqueda : Type := mkBusqueda {
  abiertos : list Entrada;
  vino_de : gmap Celda Celda;
  costo_g : gmap Celda Z;
  cerrados : gset Celda
}.

(** Result of a loop that is run with a bound on its iterations. *)
Inductive Resultado (A : Type) : Type :=
  | SinCombustible : Resultado A
  | Retorna : A -> Resultado A.
Arguments SinCombustible {A}.
Arguments Retorna {A} _.

(** One pass of the body of [for dx, dy in [...]]. *)
Definition expandir (grid : Grid) (meta : Celda) (g_actual : Z) (actual : Celda)
    (b : Busqueda) (d : Z * Z) : Busqueda :=
  let nx := actual.1 + d.1 in
  let ny := actual.2 + d.2 in
  if negb (en_rango grid nx ny) || negb (transitable grid nx ny) then b
  else
    let nuevo_g := g_actual + 1 in
    if nuevo_g <? default (10 ^ 9) (costo_g b !! (nx, ny)) then
      {| abiertos := heappush (abiertos b)
                       (nuevo_g + heuristica meta (nx, ny), nuevo_g, (nx, ny));
         vino_de := <[(nx, ny) := actual]> (vino_de b);
         costo_g := <[(nx, ny) := nuevo_g]> (costo_g b);
         cerrados := cerrados b |}
    else b.

(** [while actual in vino_de: actual = vino_de[actual]; ruta.append(actual)];
    returns the list as appended, before [ruta.reverse()]. *)
Fixpoint reconstruir (n : nat) (vd : gmap Celda Celda) (actual : Celda)
    (ruta : list Celda) : Resultado (list Celda) :=
  match vd !! actual with
  | None => Retorna ruta
  | Some p =>
      match n with
      | O => SinCombustible
      | S n' => reconstruir n' vd p (ruta ++ [p])
      end
  end.

(** [while abiertos: ...].  The parent walk of the reconstruction lowers
    [costo_g] at each step, so [g_actual] steps are allowed for it. *)
Fixpoint bucle (n : nat) (grid : Grid) (meta : Celda) (b : Busqueda)
    : Resultado (option (list Celda)) :=
  match n with
  | O => SinCombustible
  | S n' =>
      match heappop (abiertos b) with
      | None => Retorna None
      | Some ((_, g_actual, actual), resto) =>
          if decide (actual ∈ cerrados b) then
            bucle n' grid meta
              {| abiertos := resto; vino_de := vino_de b;
                 costo_g := costo_g b; cerrados := cerrados b |}
          else
            let b1 := {| abiertos := resto; vino_de := vino_de b;
                         costo_g := costo_g b;
                         cerrados := {[actual]} ∪ cerrados b |} in
            if decide (actual = meta) then
              match reconstruir (Z.to_nat g_actual) (vino_de b1) actual [actual] with
              | SinCombustible => SinCombustible
              | Retorna ruta => Retorna (Some (rev ruta))
              end
            else
              bucle n' grid meta
                (foldl (expandir grid meta g_actual actual) b1 direcciones)
      end
  end.

Definition inicial (inicio meta : Celda) : Busqueda :=
  {| abiertos := heappush [] (heuristica meta inicio, 0, inicio);
     vino_de := ∅;
     costo_g := {[inicio := 0]};
     cerrados := ∅ |}.

Definition a_estrella_n (n : nat) (grid : Grid) (inicio meta : Celda)
    : Resultado (option (list Celda)) :=
  if negb (en_rango grid inicio.1 inicio.2)
     || negb (en_rango grid meta.1 meta.2)
     || negb (transitable grid inicio.1 inicio.2)
     || negb (transitable grid meta.1 meta.2)
  then Retorna None
  else bucle n grid meta (inicial inicio meta).

(** Every pass pops one entry and at most one pass per cell pushes, four
    entries at most: [4 * alto * ancho + 2] passes are never used up
    (lemma [a_estrella_n_termina]). *)
Definition combustible (grid : Grid) : nat :=
  Z.to_nat (4 * (alto grid * ancho grid) + 2).

Definition a_estrella (grid : Grid) (inicio meta : Celda) : option (list Celda) :=
  match a_estrella_n (combustible grid) grid inicio meta with
  | Retorna r => r
  | SinCombustible => None
  end.

End AEstrella.

(** ** tabla_reservas.py *)

Record TablaReservas : Type := mkTabla {
  (* (x, y, t) -> robot_id *)
  reserva_celdas : gmap (Z * Z * Z) Z;
  (* (x1, y1, x2, y2, t) -> robot_id *)
  reserva_aristas : gmap (Z * Z * Z * Z * Z) Z
}.

Definition tabla_vacia : TablaReservas :=
  {| reserva_celdas := ∅; reserva_aristas := ∅ |}.

Definition celda_libre (tr : TablaReservas) (celda : Celda) (tick : Z) : bool :=
  bool_decide (reserva_celdas tr !! (celda.1, celda.2, tick) = None).

Definition reservar_celda (tr : TablaReservas) (robot_id : Z) (celda : Celda)
    (tick : Z) : TablaReservas :=
  {| reserva_celdas := <[(celda.1, celda.2, tick) := robot_id]> (reserva_celdas tr);
     reserva_aristas := reserva_aristas tr |}.

Definition arista_libre (tr : TablaReservas) (a b : Celda) (tick : Z) : bool :=
  bool_decide (reserva_aristas tr !! (a.1, a.2, b.1, b.2, tick) = None).

Definition reservar_arista (tr : TablaReservas) (robot_id : Z) (a b : Celda)
    (tick : Z) : TablaReservas :=
  {| reserva_celdas := reserva_celdas tr;
     reserva_aristas := <[(a.1, a.2, b.1, b.2, tick) := robot_id]> (reserva_aristas tr) |}.

Definition puede_moverse (tr : TablaReservas) (actual siguiente : Celda)
    (tick_siguiente : Z) : bool :=
  if negb (celda_libre tr siguiente tick_siguiente) then false
  else if negb (arista_libre tr siguiente actual tick_siguiente) then false
  else true.

Definition confirmar_movimiento (tr : TablaReservas) (robot_id : Z)
    (actual siguiente : Celda) (tick_siguiente : Z) : TablaReservas :=
  reservar_arista (reservar_celda tr robot_id siguiente tick_siguiente)
    robot_id actual siguiente tick_siguiente.

Definition confirmar_espera (tr : TablaReservas) (robot_id : Z) (actual : Celda)
    (tick_siguiente : Z) : TablaReservas :=
  reservar_celda tr robot_id actual tick_siguiente.

(** ** sim_core.py: the data model *)

Record Pedido : Type := mkPedido {
  pedido_id : Z;
  anaquel_id : Z;
  estacion_id : Z;
  tick_creacion : Z;
  tick_asignacion : option Z;
  tick_completado : option Z
}.

(** The four strings that [Robot.estado] takes. *)
Inductive Estado : Type := INACTIVO | A_RECOGER | A_ESTACION | RETORNO.

#[global] Instance Estado_eq_dec : EqDecision Estado.
Proof. solve_decision. Defined.

(** The fields [pedido_id], [anaquel_home] and [estacion_dock] of a robot
    carry the prefix [r_]: the order and the simulator have fields of the
    same names.  [idx_ruta] starts at 0 and is only ever incremented. *)
Record Robot : Type := mkRobot {
  robot_id : Z;
  pos : Celda;
  estado : Estado;
  r_pedido_id : option Z;
  r_anaquel_home : option Celda;
  r_estacion_dock : option Celda;
  ruta : list Celda;
  idx_ruta : nat;
  ticks_espera : Z;
  celdas_movidas : Z;
  ticks_ocupado : Z
}.

Record SimAlmacen : Type := mkSim {
  grid : Grid;
  estacion_dock : gmap Z Celda;
  anaquel_home : gmap Z Celda;
  pedidos : list Pedido;
  seed : Z;
  tick : Z;
  tabla_reservas : TablaReservas;
  lista_robots : list Robot;
  colisiones_vertice : Z;
  intercambios_arista : Z;
  conteo_deadlock : Z;
  eventos_alto : Z;
  (* indices into [pedidos] *)
  pendientes : list nat;
  no_liberados : list nat
}.

(** *** Field updates *)

Definition con_asignacion (p : Pedido) (t : option Z) : Pedido :=
  {| pedido_id := pedido_id p; anaquel_id := anaquel_id p;
     estacion_id := estacion_id p; tick_creacion := tick_creacion p;
     tick_asignacion := t; tick_completado := tick_completado p |}.

Definition con_completado (p : Pedido) (t : option Z) : Pedido :=
  {| pedido_id := pedido_id p; anaquel_id := anaquel_id p;
     estacion_id := estacion_id p; tick_creacion := tick_creacion p;
     tick_asignacion := tick_asignacion p; tick_completado := t |}.

(** [r.pedido_id = ..; r.anaquel_home = ..; r.estacion_dock = ..; r.estado = ..] *)
Definition con_tarea (r : Robot) (e : Estado) (pid : option Z)
    (ah ed : option Celda) : Robot :=
  {| robot_id := robot_id r; pos := pos r; estado := e; r_pedido_id := pid;
     r_anaquel_home := ah; r_estacion_dock := ed; ruta := ruta r;
     idx_ruta := idx_ruta r; ticks_espera := ticks_espera r;
     celdas_movidas := celdas_movidas r; ticks_ocupado := ticks_ocupado r |}.

Definition con_estado (r : Robot) (e : Estado) : Robot :=
  con_tarea r e (r_pedido_id r) (r_anaquel_home r) (r_estacion_dock r).

(** [r.ruta = ruta; r.idx_ruta = 0] *)
Definition con_ruta (r : Robot) (l : list Celda) : Robot :=
  {| robot_id := robot_id r; pos := pos r; estado := estado r;
     r_pedido_id := r_pedido_id r; r_anaquel_home := r_anaquel_home r;
     r_estacion_dock := r_estacion_dock r; ruta := l; idx_ruta := 0;
     ticks_espera := ticks_espera r; celdas_movidas := celdas_movidas r;
     ticks_ocupado := ticks_ocupado r |}.

(** [r.ticks_ocupado += 1] *)
Definition mas_ocupado (r : Robot) : Robot :=
  {| robot_id := robot_id r; pos := pos r; estado := estado r;
     r_pedido_id := r_pedido_id r; r_anaquel_home := r_anaquel_home r;
     r_estacion_dock := r_estacion_dock r; ruta := ruta r;
     idx_ruta := idx_ruta r; ticks_espera := ticks_espera r;
     celdas_movidas := celdas_movidas r; ticks_ocupado := ticks_ocupado r + 1 |}.

(** [r.pos = siguiente; r.idx_ruta += 1; r.celdas_movidas += 1] *)
Definition avanzar (r : Robot) (siguiente : Celda) : Robot :=
  {| robot_id := robot_id r; pos := siguiente; estado := estado r;
     r_pedido_id := r_pedido_id r; r_anaquel_home := r_anaquel_home r;
     r_estacion_dock := r_estacion_dock r; ruta := ruta r;
     idx_ruta := S (idx_ruta r); ticks_espera := ticks_espera r;
     celdas_movidas := celdas_movidas r + 1; ticks_ocupado := ticks_ocupado r |}.

(** [r.ticks_espera += 1] *)
Definition mas_espera (r : Robot) : Robot :=
  {| robot_id := robot_id r; pos := pos r; estado := estado r;
     r_pedido_id := r_pedido_id r; r_anaquel_home := r_anaquel_home r;
     r_estacion_dock := r_estacion_dock r; ruta := ruta r;
     idx_ruta := idx_ruta r; ticks_espera := ticks_espera r + 1;
     celdas_movidas := celdas_movidas r; ticks_ocupado := ticks_ocupado r |}.

(** The order queue: [self.pedidos] and [self.pendientes]. *)
Definition con_cola (s : SimAlmacen) (ps : list Pedido) (pend : list nat)
    : SimAlmacen :=
  {| grid := grid s; estacion_dock := estacion_dock s;
     anaquel_home := anaquel_home s; pedidos := ps; seed := seed s;
     tick := tick s; tabla_reservas := tabla_reservas s;
     lista_robots := lista_robots s;
     colisiones_vertice := colisiones_vertice s;
     intercambios_arista := intercambios_arista s;
     conteo_deadlock := conteo_deadlock s; eventos_alto := eventos_alto s;
     pendientes := pend; no_liberados := no_liberados s |}.

Definition con_robots (s : SimAlmacen) (rs : list Robot) : SimAlmacen :=
  {| grid := grid s; estacion_dock := estacion_dock s;
     anaquel_home := anaquel_home s; pedidos := pedidos s; seed := seed s;
     tick := tick s; tabla_reservas := tabla_reservas s;
     lista_robots := rs;
     colisiones_vertice := colisiones_vertice s;
     intercambios_arista := intercambios_arista s;
     conteo_deadlock := conteo_deadlock s; eventos_alto := eventos_alto s;
     pendientes := pendientes s; no_liberados := no_liberados s |}.

(** ** sim_core.py: construction *)

Definition crear_robot (i : nat) (p : Celda) : Robot :=
  {| robot_id := Z.of_nat i; pos := p; estado := INACTIVO; r_pedido_id := None;
     r_anaquel_home := None; r_estacion_dock := None; ruta := [];
     idx_ruta := 0; ticks_espera := 0; celdas_movidas := 0; ticks_ocupado := 0 |}.

(** [sorted(range(n), key=...)]: Python's sort is stable, which fixes the
    result; the insertion keeps an index in front of the later indices
    whose key is the same. *)
Fixpoint insertar_estable (clave : nat -> Z) (i : nat) (l : list nat) : list nat :=
  match l with
  | [] => [i]
  | j :: l' =>
      if clave i <=? clave j then i :: l else j :: insertar_estable clave i l'
  end.

Definition sorted (clave : nat -> Z) (l : list nat) : list nat :=
  foldr (insertar_estable clave) [] l.

(** [for r in self.lista_robots: confirmar_espera(r.robot_id, r.pos, 0)] *)
Definition reservar_iniciales (rs : list Robot) : TablaReservas :=
  foldl (fun tr r => confirmar_espera tr (robot_id r) (pos r) 0) tabla_vacia rs.

(** [SimAlmacen.__init__]; [None] is the [RuntimeError]. *)
Definition construir (grid : Grid) (estacion_dock anaquel_home : gmap Z Celda)
    (robots : Z) (puntos_spawn : list Celda) (pedidos : list Pedido) (seed : Z)
    : option SimAlmacen :=
  if Z.of_nat (length puntos_spawn) <? robots then None
  else
    lista ← mapM (fun i => crear_robot i <$> puntos_spawn !! i)
                 (seq 0 (Z.to_nat robots));
    Some {| grid := grid; estacion_dock := estacion_dock;
            anaquel_home := anaquel_home; pedidos := pedidos; seed := seed;
            tick := 0; tabla_reservas := reservar_iniciales lista;
            lista_robots := lista;
            colisiones_vertice := 0; intercambios_arista := 0;
            conteo_deadlock := 0; eventos_alto := 0;
            pendientes := [];
            no_liberados :=
              sorted (fun i => default 0 (tick_creacion <$> pedidos !! i))
                     (seq 0 (length pedidos)) |}.

(** ** sim_core.py: releasing and assigning orders

    In the functions below [None] stands for a Python exception (a
    [KeyError] of one of the two tables, an index out of range); the run
    stops there. *)

Fixpoint liberar_bucle (ps : list Pedido) (t : Z) (no_lib pend : list nat)
    : option (list nat * list nat) :=
  match no_lib with
  | [] => Some ([], pend)
  | i :: resto =>
      p ← ps !! i;
      if tick_creacion p <=? t then liberar_bucle ps t resto (pend ++ [i])
      else Some (no_lib, pend)
  end.

Definition liberar_pedidos (s : SimAlmacen) : option SimAlmacen :=
  '(no_lib, pend) ← liberar_bucle (pedidos s) (tick s) (no_liberados s) (pendientes s);
  Some {| grid := grid s; estacion_dock := estacion_dock s;
          anaquel_home := anaquel_home s; pedidos := pedidos s; seed := seed s;
          tick := tick s; tabla_reservas := tabla_reservas s;
          lista_robots := lista_robots s;
          colisiones_vertice := colisiones_vertice s;
          intercambios_arista := intercambios_arista s;
          conteo_deadlock := conteo_deadlock s; eventos_alto := eventos_alto s;
          pendientes := pend; no_liberados := no_lib |}.

Definition celdas_adyacentes (celda : Celda) : list Celda :=
  [(celda.1 + 1, celda.2); (celda.1 - 1, celda.2);
   (celda.1, celda.2 + 1); (celda.1, celda.2 - 1)].

Definition elegir_objetivo_adyacente (grid : Grid) (celda_anaquel : Celda)
    : option Celda :=
  find (fun c => en_rango grid c.1 c.2 && transitable grid c.1 c.2)
       (celdas_adyacentes celda_anaquel).

Definition distancia (a b : Celda) : Z :=
  Z.abs (a.1 - b.1) + Z.abs (a.2 - b.2).

(** The body of the scan [for pi in self.pendientes[:...]], on the pair
    [(mejor_idx, mejor_dist)]. *)
Definition examinar (s : SimAlmacen) (r : Robot) (mejor : option nat * Z)
    (pi : nat) : option (option nat * Z) :=
  p ← pedidos s !! pi;
  anaquel ← anaquel_home s !! anaquel_id p;
  match elegir_objetivo_adyacente (grid s) anaquel with
  | None => Some mejor
  | Some pickup =>
      let dist := distancia (pos r) pickup in
      if dist <? mejor.2 then Some (Some pi, dist) else Some mejor
  end.

Fixpoint escanear (s : SimAlmacen) (r : Robot) (l : list nat)
    (mejor : option nat * Z) : option (option nat * Z) :=
  match l with
  | [] => Some mejor
  | pi :: l' => m ← examinar s r mejor pi; escanear s r l' m
  end.

Definition elegir_pedido (s : SimAlmacen) (r : Robot) : option (option nat) :=
  fst <$> escanear s r
            (take (Nat.min 50 (length (pendientes s))) (pendientes s))
            (None, 10 ^ 9).

(** [list.remove(x)]: drops the first occurrence, [ValueError] without one. *)
Fixpoint lista_remove (x : nat) (l : list nat) : option (list nat) :=
  match l with
  | [] => None
  | y :: l' => if decide (y = x) then Some l' else (y ::.) <$> lista_remove x l'
  end.

(** How the attempt for one idle robot ended. *)
Inductive Intento : Type :=
  | SinCandidato
  | SinPickup (mejor_idx : nat)
  | SinRuta (mejor_idx : nat)
  | Asignado (mejor_idx : nat).

(** The body of [for r in inactivos] after the test for an empty queue. *)
Definition asignar_robot (s : SimAlmacen) (r : Robot)
    : option (SimAlmacen * Robot * Intento) :=
  mejor ← elegir_pedido s r;
  match mejor with
  | None => Some (s, r, SinCandidato)
  | Some mejor_idx =>
      p ← pedidos s !! mejor_idx;
      let p1 := con_asignacion p (Some (tick s)) in
      pend1 ← lista_remove mejor_idx (pendientes s);
      ah ← anaquel_home s !! anaquel_id p1;
      ed ← estacion_dock s !! estacion_id p1;
      let r1 := con_tarea r A_RECOGER (Some (pedido_id p1)) (Some ah) (Some ed) in
      match elegir_objetivo_adyacente (grid s) ah with
      | None =>
          Some (con_cola s (<[mejor_idx := con_asignacion p1 None]> (pedidos s))
                         (pend1 ++ [mejor_idx]),
                con_tarea r1 INACTIVO None None None, SinPickup mejor_idx)
      | Some pickup =>
          match AEstrella.a_estrella (grid s) (pos r1) pickup with
          | None =>
              Some (con_cola s (<[mejor_idx := con_asignacion p1 None]> (pedidos s))
                             (pend1 ++ [mejor_idx]),
                    con_tarea r1 INACTIVO None None None, SinRuta mejor_idx)
          | Some l =>
              Some (con_cola s (<[mejor_idx := p1]> (pedidos s)) pend1,
                    con_ruta r1 l, Asignado mejor_idx)
          end
      end
  end.

(** [for r in inactivos]: a robot is in [inactivos] when its state was
    [INACTIVO] as the list was built, and only its own pass changes it, so
    the test is made as the robot is reached.  The simulator carries the
    queue; the robots are handed back in a list of their own. *)
Fixpoint asignar_bucle (s : SimAlmacen) (rs : list Robot)
    : option (SimAlmacen * list Robot) :=
  match rs with
  | [] => Some (s, [])
  | r :: rs' =>
      if decide (estado r = INACTIVO) then
        match pendientes s with
        | [] => Some (s, rs)
        | _ :: _ =>
            '(s1, r1, _) ← asignar_robot s r;
            '(s2, rs2) ← asignar_bucle s1 rs';
            Some (s2, r1 :: rs2)
        end
      else
        '(s2, rs2) ← asignar_bucle s rs';
        Some (s2, r :: rs2)
  end.

Definition es_vacia {A : Type} (l : list A) : bool :=
  match l with [] => true | _ :: _ => false end.

Definition asignar_pedidos (s : SimAlmacen) : option SimAlmacen :=
  let inactivos := filter (fun r => estado r = INACTIVO) (lista_robots s) in
  if es_vacia inactivos || es_vacia (pendientes s) then Some s
  else
    '(s1, rs) ← asignar_bucle s (lista_robots s);
    Some (con_robots s1 rs).

(** ** sim_core.py: leg transitions and the tick *)

(** [_completar_pedido]: the first order with that id gets the tick. *)
Fixpoint completar_pedido (t : Z) (pid : Z) (ps : list Pedido) : list Pedido :=
  match ps with
  | [] => []
  | p :: ps' =>
      if pedido_id p =? pid then con_completado p (Some t) :: ps'
      else p :: completar_pedido t pid ps'
  end.

(** [r.ruta = []; r.idx_ruta = 0] after the task fields are cleared. *)
Definition liberar_robot (r : Robot) : Robot :=
  con_ruta (con_tarea r INACTIVO None None None) [].

Definition planear_siguiente_tramo_si_llego (s : SimAlmacen) (ps : list Pedido)
    (r : Robot) : option (list Pedido * Robot) :=
  if es_vacia (ruta r)
     || negb (Z.of_nat (idx_ruta r) =? Z.of_nat (length (ruta r)) - 1)
  then Some (ps, r)
  else
    match estado r with
    | A_RECOGER =>
        let r1 := con_estado r A_ESTACION in
        dock ← r_estacion_dock r1;
        match AEstrella.a_estrella (grid s) (pos r1) dock with
        | None => Some (ps, con_estado r1 A_RECOGER)
        | Some l => Some (ps, con_ruta r1 l)
        end
    | A_ESTACION =>
        let r1 := con_estado r RETORNO in
        let pickup :=
          match r_anaquel_home r1 with
          | Some ah => elegir_objetivo_adyacente (grid s) ah
          | None => None
          end in
        match pickup with
        | None => Some (ps, con_estado r1 A_ESTACION)
        | Some pk =>
            match AEstrella.a_estrella (grid s) (pos r1) pk with
            | None => Some (ps, con_estado r1 A_ESTACION)
            | Some l => Some (ps, con_ruta r1 l)
            end
        end
    | RETORNO =>
        let ps1 :=
          match r_pedido_id r with
          | Some pid => completar_pedido (tick s) pid ps
          | None => ps
          end in
        Some (ps1, liberar_robot r)
    | INACTIVO => Some (ps, r)
    end.

(** The cell a robot proposes; [ruta[idx_ruta + 1]] is an [IndexError]
    when it is out of range. *)
Definition propuesta (r : Robot) : option Celda :=
  if bool_decide (estado r = INACTIVO) || es_vacia (ruta r) then Some (pos r)
  else if Z.of_nat (idx_ruta r) <? Z.of_nat (length (ruta r)) - 1
       then ruta r !! S (idx_ruta r)
       else Some (pos r).

(** The first loop of [step], over [self.lista_robots]. *)
Fixpoint proponer (s : SimAlmacen) (ps : list Pedido) (propuestas : gmap Z Celda)
    (rs : list Robot) : option (list Pedido * gmap Z Celda * list Robot) :=
  match rs with
  | [] => Some (ps, propuestas, [])
  | r :: rs' =>
      let r1 := if bool_decide (estado r ≠ INACTIVO) then mas_ocupado r else r in
      '(ps1, r2) ← planear_siguiente_tramo_si_llego s ps r1;
      c ← propuesta r2;
      '(ps2, props2, rs2) ← proponer s ps1 (<[robot_id r2 := c]> propuestas) rs';
      Some (ps2, props2, r2 :: rs2)
  end.

(** What the second loop of [step] carries along. *)
Record Resolucion : Type := mkResolucion {
  res_tabla : TablaReservas;
  res_movio_alguien : bool;
  res_eventos_alto : Z
}.

(** The body of the second loop for one robot. *)
Definition resolver_robot (propuestas : gmap Z Celda) (tick_siguiente : Z)
    (st : Resolucion) (r : Robot) : option (Resolucion * Robot) :=
  let actual := pos r in
  siguiente ← propuestas !! robot_id r;
  if decide (siguiente = actual) then
    Some ({| res_tabla := confirmar_espera (res_tabla st) (robot_id r) actual tick_siguiente;
             res_movio_alguien := res_movio_alguien st;
             res_eventos_alto := res_eventos_alto st |}, r)
  else if puede_moverse (res_tabla st) actual siguiente tick_siguiente then
    Some ({| res_tabla := confirmar_movimiento (res_tabla st) (robot_id r) actual
                            siguiente tick_siguiente;
             res_movio_alguien := true;
             res_eventos_alto := res_eventos_alto st |}, avanzar r siguiente)
  else
    Some ({| res_tabla := confirmar_espera (res_tabla st) (robot_id r) actual tick_siguiente;
             res_movio_alguien := res_movio_alguien st;
             res_eventos_alto := res_eventos_alto st + 1 |}, mas_espera r).

(** The second loop of [step], in the order of [self.lista_robots]. *)
Fixpoint resolver (propuestas : gmap Z Celda) (tick_siguiente : Z)
    (st : Resolucion) (rs : list Robot) : option (Resolucion * list Robot) :=
  match rs with
  | [] => Some (st, [])
  | r :: rs' =>
      '(st1, r1) ← resolver_robot propuestas tick_siguiente st r;
      '(st2, rs2) ← resolver propuestas tick_siguiente st1 rs';
      Some (st2, r1 :: rs2)
  end.

(** [any(r.estado != "INACTIVO" for r in self.lista_robots)] *)
Definition alguno_ocupado (rs : list Robot) : bool :=
  existsb (fun r => bool_decide (estado r ≠ INACTIVO)) rs.

Definition step (s : SimAlmacen) : option SimAlmacen :=
  s1 ← liberar_pedidos s;
  s2 ← asignar_pedidos s1;
  '(ps3, propuestas, rs3) ← proponer s2 (pedidos s2) ∅ (lista_robots s2);
  let tick_siguiente := tick s2 + 1 in
  '(st, rs4) ← resolver propuestas tick_siguiente
                 {| res_tabla := tabla_reservas s2; res_movio_alguien := false;
                    res_eventos_alto := eventos_alto s2 |} rs3;
  Some {| grid := grid s2; estacion_dock := estacion_dock s2;
          anaquel_home := anaquel_home s2; pedidos := ps3; seed := seed s2;
          tick := tick_siguiente; tabla_reservas := res_tabla st;
          lista_robots := rs4;
          colisiones_vertice := colisiones_vertice s2;
          intercambios_arista := intercambios_arista s2;
          conteo_deadlock :=
            if negb (res_movio_alguien st) && alguno_ocupado rs4
            then conteo_deadlock s2 + 1 else conteo_deadlock s2;
          eventos_alto := res_eventos_alto st;
          pendientes := pendientes s2; no_liberados := no_liberados s2 |}.

(** [run(ticks)]: [for _ in range(ticks): self.step()] *)
Fixpoint run (ticks : nat) (s : SimAlmacen) : option SimAlmacen :=
  match ticks with
  | O => Some s
  | S n => s1 ← step s; run n s1
  end.

Definition obtener_posiciones_robots (s : SimAlmacen) : list Celda :=
  pos <$> lista_robots s.

Definition obtener_estados_robots (s : SimAlmacen) : list Estado :=
  estado <$> lista_robots s.

(** ** sim_core.py: metrics

    The fields that Python computes in floating point are kept as the
    exact quotients they are rounded from; the properties of the metrics
    are stated of the integer fields. *)

Record Metricas : Type := mkMetricas {
  m_seed : Z;
  m_tick_final : Z;
  m_robots : Z;
  m_pedidos_totales : Z;
  m_pedidos_completados : Z;
  m_tiempo_promedio_pedido_ticks : option Q;
  m_throughput_pedidos_por_1000_ticks : Q;
  m_tiempo_promedio_espera_ticks : Q;
  m_utilizacion_promedio : Q;
  m_colisiones_vertice : Z;
  m_intercambios_arista : Z;
  m_deadlock : Z;
  m_eventos_alto : Z;
  m_distancia_total_celdas : Z
}.

(** [np.mean] of a non-empty list. *)
Definition media (l : list Q) : Q :=
  Qdiv (foldr Qplus (inject_Z 0) l) (inject_Z (Z.of_nat (length l))).

Definition suma (l : list Z) : Z := foldr Z.add 0 l.

Definition metricas (s : SimAlmacen) : Metricas :=
  let completados :=
    filter (fun p => tick_completado p ≠ None) (pedidos s) in
  let completados_n := Z.of_nat (length completados) in
  let utilizacion :=
    (fun r => Qdiv (inject_Z (ticks_ocupado r)) (inject_Z (Z.max 1 (tick s))))
      <$> lista_robots s in
  let esperas := (fun r => inject_Z (ticks_espera r)) <$> lista_robots s in
  {| m_seed := seed s;
     m_tick_final := tick s;
     m_robots := Z.of_nat (length (lista_robots s));
     m_pedidos_totales := Z.of_nat (length (pedidos s));
     m_pedidos_completados := completados_n;
     m_tiempo_promedio_pedido_ticks :=
       if 0 <? completados_n then
         Some (media ((fun p => inject_Z (default 0 (tick_completado p) - tick_creacion p))
                        <$> completados))
       else None;
     m_throughput_pedidos_por_1000_ticks :=
       if 0 <? tick s
       then Qdiv (inject_Z completados_n) (Qdiv (inject_Z (tick s)) (inject_Z 1000))
       else inject_Z 0;
     m_tiempo_promedio_espera_ticks :=
       if es_vacia esperas then inject_Z 0 else media esperas;
     m_utilizacion_promedio :=
       if es_vacia utilizacion then inject_Z 0 else media utilizacion;
     m_colisiones_vertice := colisiones_vertice s;
     m_intercambios_arista := intercambios_arista s;
     m_deadlock := conteo_deadlock s;
     m_eventos_alto := eventos_alto s;
     m_distancia_total_celdas := suma (celdas_movidas <$> lista_robots s) |}.

(** ** sim_core.py: the identifiers of the robots *)

Definition obtener_ids_robots (s : SimAlmacen) : list Z :=
  robot_id <$> lista_robots s.

(** ** visualiza_simulacion.py: the orders as the animation takes them *)

(** [p.tick_creacion = t] *)
Definition con_creacion (p : Pedido) (t : Z) : Pedido :=
  {| pedido_id := pedido_id p; anaquel_id := anaquel_id p;
     estacion_id := estacion_id p; tick_creacion := t;
     tick_asignacion := tick_asignacion p; tick_completado := tick_completado p |}.

(** [normalizar_ticks_pedidos]: [min] runs over a list that is not empty.
    The code shifts the order objects in place, once for each place of
    the list; the list of records stands for a list of distinct objects,
    as [cargar_pedidos] builds them, in which each one is shifted once.
    The properties of this function are stated for lists without
    repetition, which hold no object twice. *)
Definition normalizar_ticks_pedidos (pedidos : list Pedido) : list Pedido :=
  match pedidos with
  | [] => pedidos
  | p :: ps =>
      let t0 := foldl Z.min (tick_creacion p) (tick_creacion <$> ps) in
      if 0 <? t0
      then (fun q => con_creacion q (tick_creacion q - t0)) <$> pedidos
      else pedidos
  end.

(** * Specification

    The predicates in which the properties of the program are stated, the
    invariants of its loops, and the worked examples. *)

(** ** Routes on the grid *)

(** Consecutive cells are one 4-connected move apart. *)
Fixpoint enlazada (l : list Celda) : Prop :=
  match l with
  | [] => True
  | a :: l' =>
      match l' with
      | [] => True
      | b :: _ => distancia a b = 1
      end /\ enlazada l'
  end.

(** [l] leads from [s] to [m] through passable cells only. *)
Definition es_ruta (grid : Grid) (s m : Celda) (l : list Celda) : Prop :=
  head l = Some s /\ last l = Some m
  /\ Forall (fun c => pasable grid c = true) l /\ enlazada l.

(** All the cells of the rectangle. *)
Definition celdas_grid (grid : Grid) : list Celda :=
  list_prod (seqZ 0 (ancho grid)) (seqZ 0 (alto grid)).

(** ** The search of [a_estrella] *)

Import AEstrella.

(** The first component of a heap entry, by which entries are compared first. *)
Definition clave_f (e : Entrada) : Z := e.1.1.

(** The search state after a pop of an entry of a closed cell. *)
Definition sin_abierto (b : Busqueda) (resto : list Entrada) : Busqueda :=
  {| abiertos := resto; vino_de := vino_de b; costo_g := costo_g b;
     cerrados := cerrados b |}.

(** The search state after a pop that closes the cell [a]. *)
Definition cerrar (b : Busqueda) (resto : list Entrada) (a : Celda) : Busqueda :=
  {| abiertos := resto; vino_de := vino_de b; costo_g := costo_g b;
     cerrados := {[a]} ∪ cerrados b |}.

(** What holds of the search state each time the test of the [while] loop
    is reached. *)
Record Inv (grid : Grid) (inicio meta : Celda) (b : Busqueda) : Prop := {
  inv_inicio : costo_g b !! inicio = Some 0;
  inv_inicio_vd : vino_de b !! inicio = None;
  inv_costo : forall c gc, costo_g b !! c = Some gc ->
    pasable grid c = true /\ 0 <= gc /\ gc < 10 ^ 9;
  inv_padre : forall c gc, costo_g b !! c = Some gc -> c ≠ inicio ->
    exists p gp, vino_de b !! c = Some p /\ costo_g b !! p = Some gp
                 /\ gp + 1 <= gc /\ distancia p c = 1;
  inv_abiertos : forall f ge c, (f, ge, c) ∈ abiertos b ->
    f = ge + heuristica meta c /\ exists gc, costo_g b !! c = Some gc /\ gc <= ge;
  inv_pend : forall c gc, costo_g b !! c = Some gc -> c ∉ cerrados b ->
    (gc + heuristica meta c, gc, c) ∈ abiertos b;
  inv_cerrados : forall c, c ∈ cerrados b -> is_Some (costo_g b !! c)
}.

(** The work that remains: the entries to pop, and four more for every
    cell that is not closed yet. *)
Definition medida (grid : Grid) (b : Busqueda) : Z :=
  Z.of_nat (length (abiertos b))
  + 4 * (alto grid * ancho grid - Z.of_nat (size (cerrados b))).

(** The closed cells carry their true distance; [hecho c d] says that the
    neighbour of the closed cell [c] in direction [d] has been looked at,
    and such a neighbour has a cost unless that cost would reach the
    constant [10 ** 9] of [costo_g.get]. *)
Record InvO (grid : Grid) (inicio meta : Celda)
    (hecho : Celda -> Z * Z -> Prop) (b : Busqueda) : Prop := {
  o_meta : meta ∉ cerrados b;
  o_opt : forall c gc l, c ∈ cerrados b -> costo_g b !! c = Some gc ->
    es_ruta grid inicio c l -> gc + 1 <= Z.of_nat (length l);
  o_vec : forall c gc d, c ∈ cerrados b -> costo_g b !! c = Some gc ->
    d ∈ direcciones -> hecho c d -> pasable grid (c.1 + d.1, c.2 + d.2) = true ->
    gc + 1 < 10 ^ 9 ->
    exists gn, costo_g b !! (c.1 + d.1, c.2 + d.2) = Some gn /\ gn <= gc + 1;
  o_cota : forall c gc, costo_g b !! c = Some gc ->
    gc <= Z.of_nat (size (cerrados b))
    /\ (c ∈ cerrados b -> gc + 1 <= Z.of_nat (size (cerrados b)))
}.

(** Every neighbour of every closed cell has been looked at. *)
Definition todo : Celda -> Z * Z -> Prop := fun _ _ => True.

(** A route that the search cannot miss: it has at most [10 ** 9] cells,
    or the grid is too small for any cost to reach [10 ** 9]. *)
Definition alcanzable_en_cota (grid : Grid) (l : list Celda) : Prop :=
  Z.of_nat (length l) <= 10 ^ 9 \/ alto grid * ancho grid < 10 ^ 9.

(** ** A corridor longer than the constant of [costo_g.get] *)

Definition largo : Z := 10 ^ 9.

(** One row of [largo + 1] free cells. *)
Definition corredor : Grid := [repeat LIBRE (Z.to_nat (largo + 1))].

(** The corridor from end to end. *)
Definition ruta_corredor : list Celda := (fun x => (x, 0)) <$> seqZ 0 (largo + 1).

(** The state of the search as the cell [(k, 0)] is about to be popped. *)
Record EnCorredor (k : Z) (b : Busqueda) : Prop := {
  ec_abiertos : abiertos b = [(largo, k, (k, 0))];
  ec_k : 0 <= k <= largo - 1;
  ec_cerrados : forall x, k <= x -> (x, 0) ∉ cerrados b;
  ec_costo : forall x, 0 <= x <= k -> costo_g b !! (x, 0) = Some x;
  ec_sin_costo : forall x, k < x -> costo_g b !! (x, 0) = None
}.

(** ** The tick *)

(** The directed edge from [a] to [b] is booked at tick [t]. *)
Definition arista_reservada (tr : TablaReservas) (a b : Celda) (t : Z) : Prop :=
  is_Some (reserva_aristas tr !! (a.1, a.2, b.1, b.2, t)).

(** The parts of the simulator that only the end of [step] writes. *)
Definition marco (s s' : SimAlmacen) : Prop :=
  grid s' = grid s /\ estacion_dock s' = estacion_dock s
  /\ anaquel_home s' = anaquel_home s /\ seed s' = seed s /\ tick s' = tick s
  /\ tabla_reservas s' = tabla_reservas s
  /\ colisiones_vertice s' = colisiones_vertice s
  /\ intercambios_arista s' = intercambios_arista s
  /\ conteo_deadlock s' = conteo_deadlock s
  /\ eventos_alto s' = eventos_alto s.

(** The robot with the task of the order [p] attached. *)
Definition tarea_de (s : SimAlmacen) (r : Robot) (p : Pedido) (ah ed : Celda) : Robot :=
  con_tarea r A_RECOGER (Some (pedido_id p)) (Some ah) (Some ed).

(** The queue after a failed attempt on the order at index [mi]. *)
Definition cola_revertida (s : SimAlmacen) (mi : nat) (p : Pedido)
    (pend1 : list nat) : SimAlmacen :=
  con_cola s (<[mi := con_asignacion (con_asignacion p (Some (tick s))) None]> (pedidos s))
           (pend1 ++ [mi]).

(** The four ways in which [asignar_robot] returns. *)
Inductive AsignarCaso (s : SimAlmacen) (r : Robot)
    : SimAlmacen -> Robot -> Intento -> Prop :=
  | caso_sin_candidato :
      elegir_pedido s r = Some None ->
      AsignarCaso s r s r SinCandidato
  | caso_sin_pickup mi p pend1 ah ed :
      elegir_pedido s r = Some (Some mi) ->
      pedidos s !! mi = Some p ->
      lista_remove mi (pendientes s) = Some pend1 ->
      anaquel_home s !! anaquel_id p = Some ah ->
      estacion_dock s !! estacion_id p = Some ed ->
      elegir_objetivo_adyacente (grid s) ah = None ->
      AsignarCaso s r (cola_revertida s mi p pend1)
        (con_tarea (tarea_de s r p ah ed) INACTIVO None None None) (SinPickup mi)
  | caso_sin_ruta mi p pend1 ah ed pickup :
      elegir_pedido s r = Some (Some mi) ->
      pedidos s !! mi = Some p ->
      lista_remove mi (pendientes s) = Some pend1 ->
      anaquel_home s !! anaquel_id p = Some ah ->
      estacion_dock s !! estacion_id p = Some ed ->
      elegir_objetivo_adyacente (grid s) ah = Some pickup ->
      AEstrella.a_estrella (grid s) (pos r) pickup = None ->
      AsignarCaso s r (cola_revertida s mi p pend1)
        (con_tarea (tarea_de s r p ah ed) INACTIVO None None None) (SinRuta mi)
  | caso_asignado mi p pend1 ah ed pickup l :
      elegir_pedido s r = Some (Some mi) ->
      pedidos s !! mi = Some p ->
      lista_remove mi (pendientes s) = Some pend1 ->
      anaquel_home s !! anaquel_id p = Some ah ->
      estacion_dock s !! estacion_id p = Some ed ->
      elegir_objetivo_adyacente (grid s) ah = Some pickup ->
      AEstrella.a_estrella (grid s) (pos r) pickup = Some l ->
      AsignarCaso s r
        (con_cola s (<[mi := con_asignacion p (Some (tick s))]> (pedidos s)) pend1)
        (con_ruta (tarea_de s r p ah ed) l) (Asignado mi).

(** The ways in which a leg transition returns. *)
Inductive PlanearCaso (s : SimAlmacen) (ps : list Pedido) (r : Robot)
    : list Pedido -> Robot -> Prop :=
  | plan_nada : PlanearCaso s ps r ps r
  | plan_reintento e e' :
      e ≠ INACTIVO -> e' ≠ INACTIVO -> estado r ≠ INACTIVO ->
      PlanearCaso s ps r ps (con_estado (con_estado r e) e')
  | plan_tramo e c l :
      e ≠ INACTIVO -> estado r ≠ INACTIVO ->
      AEstrella.a_estrella (grid s) (pos r) c = Some l ->
      PlanearCaso s ps r ps (con_ruta (con_estado r e) l)
  | plan_fin ps1 :
      length ps1 = length ps ->
      PlanearCaso s ps r ps1 (liberar_robot r).

(** The robot is the same one and stands where it stood. *)
Definition mismo_lugar (r r' : Robot) : Prop :=
  pos r' = pos r /\ robot_id r' = robot_id r.

(** An idle robot carries no task and no route. *)
Definition robot_libre (r : Robot) : Prop :=
  estado r = INACTIVO ->
  r_pedido_id r = None /\ r_anaquel_home r = None /\ r_estacion_dock r = None
  /\ ruta r = [].

(** The robot stands on a passable cell and so are the cells of its route. *)
Definition robot_en_grid (g : Grid) (r : Robot) : Prop :=
  pasable g (pos r) = true /\ Forall (fun c => pasable g c = true) (ruta r).

(** An update of a robot that keeps the property [P]. *)
Definition lleva (P : Robot -> Prop) (r r' : Robot) : Prop := P r -> P r'.

(** The distance from the robot to the pickup cell of the order [pi]:
    [None] is an exception, [Some None] an order whose shelf has no
    transitable neighbour. *)
Definition dist_pickup (s : SimAlmacen) (r : Robot) (pi : nat) : option (option Z) :=
  p ← pedidos s !! pi;
  anaquel ← anaquel_home s !! anaquel_id p;
  Some (distancia (pos r) <$> elegir_objetivo_adyacente (grid s) anaquel).

(** The entries that a robot looks at. *)
Definition examinados (s : SimAlmacen) : list nat :=
  take (Nat.min 50 (length (pendientes s))) (pendientes s).

(** The simulator with another seed and another deadlock count. *)
Definition con_informe (s : SimAlmacen) (sd dl : Z) : SimAlmacen :=
  {| grid := grid s; estacion_dock := estacion_dock s;
     anaquel_home := anaquel_home s; pedidos := pedidos s; seed := sd;
     tick := tick s; tabla_reservas := tabla_reservas s;
     lista_robots := lista_robots s;
     colisiones_vertice := colisiones_vertice s;
     intercambios_arista := intercambios_arista s;
     conteo_deadlock := dl; eventos_alto := eventos_alto s;
     pendientes := pendientes s; no_liberados := no_liberados s |}.

(** No robot changed its cell between [s] and [s']. *)
Definition quietos (s s' : SimAlmacen) : Prop :=
  obtener_posiciones_robots s' = obtener_posiciones_robots s.

(** Some robot of [s] is not idle. *)
Definition hay_ocupado (s : SimAlmacen) : Prop :=
  exists r, r ∈ lista_robots s /\ estado r ≠ INACTIVO.

(** A run of [ticks] ticks from the inputs handed to the simulator. *)
Definition ejecutar (g : Grid) (ed ah : gmap Z Celda) (robots : Z)
    (spawn : list Celda) (ps : list Pedido) (sd : Z) (ticks : nat)
    : option SimAlmacen :=
  construir g ed ah robots spawn ps sd ≫= run ticks.

(** The metrics without the seed that they echo. *)
Definition sin_seed (m : Metricas) : Metricas :=
  {| m_seed := 0; m_tick_final := m_tick_final m; m_robots := m_robots m;
     m_pedidos_totales := m_pedidos_totales m;
     m_pedidos_completados := m_pedidos_completados m;
     m_tiempo_promedio_pedido_ticks := m_tiempo_promedio_pedido_ticks m;
     m_throughput_pedidos_por_1000_ticks := m_throughput_pedidos_por_1000_ticks m;
     m_tiempo_promedio_espera_ticks := m_tiempo_promedio_espera_ticks m;
     m_utilizacion_promedio := m_utilizacion_promedio m;
     m_colisiones_vertice := m_colisiones_vertice m;
     m_intercambios_arista := m_intercambios_arista m;
     m_deadlock := m_deadlock m; m_eventos_alto := m_eventos_alto m;
     m_distancia_total_celdas := m_distancia_total_celdas m |}.

(** What is observed of a state: the positions, the states, the time
    stamps of the orders and the metrics without the seed. *)
Definition observar_sin_seed (s : SimAlmacen)
    : list Celda * list Estado * list (option Z * option Z) * Metricas :=
  (obtener_posiciones_robots s, obtener_estados_robots s,
   (fun p => (tick_asignacion p, tick_completado p)) <$> pedidos s,
   sin_seed (metricas s)).

(** ** Worked examples *)

(** A simulator with nothing in it, the default of the examples. *)
Definition sim_vacio : SimAlmacen :=
  {| grid := []; estacion_dock := ∅; anaquel_home := ∅; pedidos := []; seed := 0;
     tick := 0; tabla_reservas := tabla_vacia; lista_robots := [];
     colisiones_vertice := 0; intercambios_arista := 0; conteo_deadlock := 0;
     eventos_alto := 0; pendientes := []; no_liberados := [] |}.

(** The robot at index [i], for states that have one. *)
Definition robot_de (s : SimAlmacen) (i : nat) : Robot :=
  default (crear_robot 0 (0, 0)) (lista_robots s !! i).

(** A corridor with a shelf at each end, two robots side by side, and one
    order for each shelf: robot 0 is sent to the right, robot 1 to the
    left. *)
Definition ej_pasillo : Grid := [[1; 0; 0; 0; 0; 0; 1]].

(** Two orders created at tick 0, for the shelves 0 and 1. *)
Definition ej_pedidos : list Pedido :=
  [mkPedido 0 0 0 0 None None; mkPedido 1 1 0 0 None None].

(** The corridor as it is built. *)
Definition ej_s0 : SimAlmacen :=
  default sim_vacio
    (construir ej_pasillo {[0 := (1, 0)]} {[0 := (6, 0); 1 := (0, 0)]} 2
               [(3, 0); (4, 0)] ej_pedidos 0).

(** The corridor after one tick. *)
Definition ej_s1 : SimAlmacen := default sim_vacio (step ej_s0).

(** One order, for the shelf at the right end of a row; robot 0 has to go
    through the cell where robot 1 stays idle. *)
Definition ej_choque : SimAlmacen :=
  default sim_vacio
    (construir [[0; 0; 0; 1]] {[0 := (0, 0)]} {[0 := (3, 0)]} 2 [(0, 0); (1, 0)]
               [mkPedido 0 0 0 0 None None] 0).

(** The same after one tick. *)
Definition ej_choque1 : SimAlmacen := default sim_vacio (step ej_choque).

(** A robot whose station cannot be reached: it stays at its pickup cell,
    busy, and nothing moves. *)
Definition ej_bloqueo : SimAlmacen :=
  default sim_vacio
    (construir [[1; 0; 0]] {[0 := (0, 0)]} {[0 := (0, 0)]} 1 [(1, 0)]
               [mkPedido 0 0 0 0 None None] 0).

(** The same after one tick. *)
Definition ej_bloqueo1 : SimAlmacen := default sim_vacio (step ej_bloqueo).

(** A small warehouse with a shelf, a blocked cell and a station. *)
Definition ej_almacen : Grid := [[0; 0; 0; 1]; [0; 3; 0; 0]; [0; 0; 0; 2]].

(** One robot spawned on a shelf cell. *)
Definition ej_sobre_anaquel : SimAlmacen :=
  default sim_vacio (construir [[1; 0]] ∅ ∅ 1 [(0, 0)] [] 0).

(** A robot walled off from the two shelves, whose pickup cells are as far
    from it one as the other. *)
Definition ej_muro : Grid := [[0; 3; 0; 1; 0; 1]].

(** The state of that warehouse after the release of tick 0. *)
Definition ej_cola : SimAlmacen :=
  default sim_vacio
    (construir ej_muro {[0 := (0, 0)]} {[0 := (3, 0); 1 := (5, 0)]} 1 [(0, 0)]
               ej_pedidos 0 ≫= liberar_pedidos).

(** The attempt of assignment of the robot on that queue. *)
Definition ej_intento : SimAlmacen * Robot * Intento :=
  default (sim_vacio, crear_robot 0 (0, 0), SinCandidato)
    (asignar_robot ej_cola (robot_de ej_cola 0)).

(** A robot placed [10 ** 9] cells away from the pickup cell of the only
    order, after the release of tick 0. *)
Definition ej_lejos : SimAlmacen :=
  default sim_vacio
    (construir [[0; 1]] ∅ {[0 := (1, 0)]} 1 [(1000000000, 0)]
               [mkPedido 0 0 0 0 None None] 0 ≫= liberar_pedidos).

(** ** Routes without obstacles *)

(** The [n] cells that follow [c] in the direction [d]. *)
Fixpoint andar (n : nat) (c : Celda) (d : Z * Z) : list Celda :=
  match n with
  | O => []
  | S n' => (c.1 + d.1, c.2 + d.2) :: andar n' (c.1 + d.1, c.2 + d.2) d
  end.

(** From [a] along its row to the column of [b], then along that column
    to [b]. *)
Definition ruta_en_L (a b : Celda) : list Celda :=
  a :: andar (Z.to_nat (Z.abs (b.1 - a.1))) a (Z.sgn (b.1 - a.1), 0)
    ++ andar (Z.to_nat (Z.abs (b.2 - a.2))) (b.1, a.2) (0, Z.sgn (b.2 - a.2)).

(** ** The first loop of a tick, robot by robot *)

(** [if r.estado != "INACTIVO": r.ticks_ocupado += 1] *)
Definition ocupar (r : Robot) : Robot :=
  if bool_decide (estado r ≠ INACTIVO) then mas_ocupado r else r.

(** The simulator with another list of orders. *)
Definition con_pedidos (s : SimAlmacen) (ps : list Pedido) : SimAlmacen :=
  con_cola s ps (pendientes s).

(** ** What identifies an order *)

(** The fields of an order that the simulator only reads. *)
Definition mismo_pedido (p p' : Pedido) : Prop :=
  pedido_id p' = pedido_id p /\ anaquel_id p' = anaquel_id p
  /\ estacion_id p' = estacion_id p /\ tick_creacion p' = tick_creacion p.

(** The robot stands on the last cell of a route. *)
Definition llego (r : Robot) : Prop :=
  ruta r ≠ [] /\ S (idx_ruta r) = length (ruta r).

(** ** The queues of the orders *)

(** The creation tick of the order at index [i]. *)
Definition creacion (ps : list Pedido) (i : nat) : Z :=
  default 0 (tick_creacion <$> ps !! i).

(** An index stands before the indices of a later key, and before the
    larger indices of its own key. *)
Definition antes (clave : nat -> Z) (i j : nat) : Prop :=
  clave i <= clave j /\ (clave i = clave j -> (i < j)%nat).

(** The indices of [l] are in the order of their creation ticks. *)
Definition en_orden (ps : list Pedido) (l : list nat) : Prop :=
  StronglySorted (fun i j => creacion ps i <= creacion ps j) l.

(** ** The life of a robot *)

(** The states that a robot can be in one tick after the state [e]. *)
Definition transicion (e e' : Estado) : Prop :=
  match e with
  | INACTIVO => e' = INACTIVO \/ e' = A_RECOGER \/ e' = A_ESTACION
  | A_RECOGER => e' = A_RECOGER \/ e' = A_ESTACION
  | A_ESTACION => e' = A_ESTACION \/ e' = RETORNO
  | RETORNO => e' = RETORNO \/ e' = INACTIVO
  end.

(** The route of the robot is linked and the robot stands on the cell of
    the route that its index names. *)
Definition en_su_ruta (r : Robot) : Prop :=
  enlazada (ruta r) /\ (ruta r = [] \/ ruta r !! idx_ruta r = Some (pos r)).

(** ** The orders through a run *)

(** The orders as [cargar_pedidos] builds them: neither assigned nor
    complete. *)
Definition pedidos_nuevos (ps : list Pedido) : Prop :=
  Forall (fun p => tick_asignacion p = None /\ tick_completado p = None) ps.

(** The indices that wait in one of the two queues. *)
Definition en_espera (s : SimAlmacen) : list nat :=
  no_liberados s ++ pendientes s.

(** The two queues hold, once each, the indices of the orders that are
    not assigned. *)
Record Colas (s : SimAlmacen) : Prop := {
  col_nodup : NoDup (en_espera s);
  col_espera : forall i p, pedidos s !! i = Some p ->
    (tick_asignacion p = None <-> i ∈ en_espera s);
  col_rango : forall i, i ∈ en_espera s -> (i < length (pedidos s))%nat
}.

(** The time stamps of the orders follow one another. *)
Record Tiempos (s : SimAlmacen) : Prop := {
  t_pend : forall i p, i ∈ pendientes s -> pedidos s !! i = Some p ->
    tick_creacion p <= tick s;
  t_asig : forall p ta, p ∈ pedidos s -> tick_asignacion p = Some ta ->
    tick_creacion p <= ta <= tick s;
  t_comp : forall p tc, p ∈ pedidos s -> tick_completado p = Some tc ->
    exists ta, tick_asignacion p = Some ta /\ ta <= tc <= tick s
}.

(** A busy robot carries the identifier of an assigned order. *)
Definition con_pedido (ps : list Pedido) (r : Robot) : Prop :=
  estado r ≠ INACTIVO ->
  exists i p, ps !! i = Some p /\ r_pedido_id r = Some (pedido_id p)
    /\ is_Some (tick_asignacion p).

(** Every order names a shelf and a station of the two tables. *)
Definition claves_conocidas (s : SimAlmacen) : Prop :=
  Forall (fun p => is_Some (anaquel_home s !! anaquel_id p)
                   /\ is_Some (estacion_dock s !! estacion_id p)) (pedidos s).

(** A busy robot has a dock to go to. *)
Definition con_dock (r : Robot) : Prop :=
  estado r ≠ INACTIVO -> is_Some (r_estacion_dock r).

(** Two states with the same orders, the same queues and the same grid
    and tables, the second one at the same tick or one tick later. *)
Definition misma_cola (s s' : SimAlmacen) : Prop :=
  pedidos s' = pedidos s /\ pendientes s' = pendientes s
  /\ no_liberados s' = no_liberados s /\ grid s' = grid s
  /\ estacion_dock s' = estacion_dock s /\ anaquel_home s' = anaquel_home s
  /\ tick s <= tick s' <= tick s + 1.

(** The queues name orders of the list, and the orders name shelves and
    stations of the tables. *)
Definition bien_formado (s : SimAlmacen) : Prop :=
  (forall i, i ∈ en_espera s -> (i < length (pedidos s))%nat)
  /\ claves_conocidas s.

(** An order that was completed is still completed. *)
Definition sigue_completado (p p' : Pedido) : Prop :=
  tick_completado p ≠ None -> tick_completado p' ≠ None.

(** Two orders are compared field by field.  A list of orders without
    repetition holds no order object twice: an object that is listed
    twice shows the same fields at both places. *)
#[global] Instance Pedido_eq_dec : EqDecision Pedido.
Proof. solve_decision. Defined.

(** ** More worked examples *)

(** Four orders that are not listed in the order of their creation. *)
Definition ej_cuatro : list Pedido :=
  [mkPedido 0 0 0 5 None None; mkPedido 1 0 0 2 None None;
   mkPedido 2 0 0 5 None None; mkPedido 3 0 0 0 None None].

(** A simulator without robots for those orders. *)
Definition ej_cuatro_s : SimAlmacen :=
  default sim_vacio (construir [[0]] ∅ ∅ 0 [] ej_cuatro 0).

(** One robot that fetches the shelf next to it for the station it starts
    on: to the pickup cell, back to the station, to the pickup cell
    again. *)
Definition ej_vuelta : SimAlmacen :=
  default sim_vacio
    (construir [[0; 0; 1]] {[0 := (0, 0)]} {[0 := (2, 0)]} 1 [(0, 0)]
               [mkPedido 0 0 0 0 None None] 0).

(** The same after four ticks. *)
Definition ej_vuelta4 : SimAlmacen := default sim_vacio (run 4 ej_vuelta).

(** An order for a shelf that the table of the shelves does not have. *)
Definition ej_sin_anaquel : SimAlmacen :=
  default sim_vacio
    (construir [[0; 0; 1]] {[0 := (0, 0)]} {[0 := (2, 0)]} 1 [(0, 0)]
               [mkPedido 0 9 0 0 None None] 0).

(** The four orders after three ticks. *)
Definition ej_cuatro3 : SimAlmacen := default sim_vacio (run 3 ej_cuatro_s).

(** The four orders created ten ticks later. *)
Definition ej_cuatro_tarde : list Pedido :=
  [mkPedido 0 0 0 15 None None; mkPedido 1 0 0 12 None None;
   mkPedido 2 0 0 15 None None; mkPedido 3 0 0 10 None None].

(** One robot that starts on the pickup cell of the shelf it is sent to. *)
Definition ej_en_pickup : SimAlmacen :=
  default sim_vacio
    (construir [[0; 0; 1]] {[0 := (0, 0)]} {[0 := (2, 0)]} 1 [(1, 0)]
               [mkPedido 0 0 0 0 None None] 0).

(** The same after one tick. *)
Definition ej_en_pickup1 : SimAlmacen := default sim_vacio (step ej_en_pickup).

(** * Properties *)

(** * Paths on the grid *)

Lemma distancia_sim a b : distancia a b = distancia b a.
Proof. unfold distancia. lia. Qed.

Lemma enlazada_snoc l b :
  enlazada (l ++ [b]) <->
  enlazada l /\ (forall a, last l = Some a -> distancia a b = 1).
Proof.
  induction l as [|a l IH]; simpl.
  - split; [intros _; split; [done | intros a Ha; discriminate] | done].
  - destruct l as [|c l]; simpl in *.
    + split.
      * intros [H _]. split; [done|]. intros a' [= ->]. done.
      * intros [_ H]. split; [apply H; done | done].
    + rewrite IH. split.
      * intros [H1 [H2 H3]]. done.
      * intros [[H1 H2] H3]. done.
Qed.

Lemma enlazada_rev l : enlazada l -> enlazada (rev l).
Proof.
  induction l as [|a l IH]; simpl; [done|].
  intros [H1 H2]. apply enlazada_snoc. split; [by apply IH|].
  intros b Hb. destruct l as [|c l]; [done|].
  simpl in Hb. rewrite last_snoc in Hb. injection Hb as <-.
  by rewrite distancia_sim.
Qed.

Lemma heuristica_paso meta a b :
  distancia a b = 1 -> heuristica meta a <= heuristica meta b + 1.
Proof. unfold distancia, heuristica. lia. Qed.

Lemma heuristica_meta meta : heuristica meta meta = 0.
Proof. unfold heuristica. lia. Qed.

Lemma direcciones_distancia (a : Celda) d :
  d ∈ direcciones -> distancia a (a.1 + d.1, a.2 + d.2) = 1.
Proof.
  unfold direcciones. rewrite !elem_of_cons, elem_of_nil.
  unfold distancia. intros [->|[->|[->|[->|[]]]]]; simpl; lia.
Qed.

Lemma distancia_direcciones (a b : Celda) :
  distancia a b = 1 -> exists d, d ∈ direcciones /\ b = (a.1 + d.1, a.2 + d.2).
Proof.
  destruct a as [ax ay], b as [bx by']. unfold distancia. simpl. intros H.
  assert ((bx = ax + 1 /\ by' = ay) \/ (bx = ax - 1 /\ by' = ay)
          \/ (bx = ax /\ by' = ay + 1) \/ (bx = ax /\ by' = ay - 1))
    as [[-> ->]|[[-> ->]|[[-> ->]|[-> ->]]]] by lia.
  - exists (1, 0). split; [set_solver|]. simpl. f_equal; lia.
  - exists (-1, 0). split; [set_solver|]. simpl. f_equal; lia.
  - exists (0, 1). split; [set_solver|]. simpl. f_equal; lia.
  - exists (0, -1). split; [set_solver|]. simpl. f_equal; lia.
Qed.

(** * The heap *)

Lemma entrada_ltb_f a b : entrada_ltb a b = true -> clave_f a <= clave_f b.
Proof.
  destruct a as [[fa ga] ca], b as [[fb gb] cb]. unfold entrada_ltb, clave_f.
  simpl. intros H. apply orb_true_iff in H as [H|H]; [lia|].
  apply andb_true_iff in H as [H _]. lia.
Qed.

Lemma entrada_ltb_f_no a b : entrada_ltb a b = false -> clave_f b <= clave_f a.
Proof.
  destruct a as [[fa ga] ca], b as [[fb gb] cb]. unfold entrada_ltb, clave_f.
  simpl. intros H. apply orb_false_iff in H as [H _]. lia.
Qed.

Lemma minimo_spec e h :
  (minimo e h = e \/ minimo e h ∈ h)
  /\ clave_f (minimo e h) <= clave_f e
  /\ forall e', e' ∈ h -> clave_f (minimo e h) <= clave_f e'.
Proof.
  revert e. induction h as [|x h IH]; intros e; simpl.
  - split; [by left|]. split; [lia|]. intros e' He'. by apply elem_of_nil in He'.
  - destruct (entrada_ltb x e) eqn:Hlt.
    + destruct (IH x) as (Hm & Hx & Hall). apply entrada_ltb_f in Hlt.
      split; [right; destruct Hm as [->|Hm]; set_solver|].
      split; [lia|]. intros e' He'. apply elem_of_cons in He' as [->|He']; auto.
    + destruct (IH e) as (Hm & Hx & Hall). apply entrada_ltb_f_no in Hlt.
      split; [destruct Hm as [Hm|Hm]; [by left | right; set_solver]|].
      split; [lia|]. intros e' He'. apply elem_of_cons in He' as [->|He']; auto.
      lia.
Qed.

Lemma quitar_sub e h x : x ∈ quitar e h -> x ∈ h.
Proof.
  induction h as [|y h IH]; simpl; [done|].
  case_decide; set_solver.
Qed.

Lemma quitar_otro e h x : x ∈ h -> x ≠ e -> x ∈ quitar e h.
Proof.
  induction h as [|y h IH]; simpl; [done|].
  intros Hx Hne. case_decide; set_solver.
Qed.

Lemma quitar_length e h : e ∈ h -> S (length (quitar e h)) = length h.
Proof.
  induction h as [|y h IH]; simpl; [by intros ?%elem_of_nil|].
  intros He. case_decide; [done|]. simpl. f_equal. apply IH. set_solver.
Qed.

Lemma heappop_spec h e resto :
  heappop h = Some (e, resto) ->
  e ∈ h
  /\ (forall x, x ∈ h -> clave_f e <= clave_f x)
  /\ (forall x, x ∈ resto -> x ∈ h)
  /\ (forall x, x ∈ h -> x ≠ e -> x ∈ resto)
  /\ S (length resto) = length h.
Proof.
  destruct h as [|x h]; [done|]. unfold heappop. intros [= <- <-].
  destruct (minimo_spec x h) as (Hm & Hx & Hall).
  assert (minimo x h ∈ x :: h) as Hin by (destruct Hm as [->|Hm]; set_solver).
  split; [done|]. split.
  - intros y Hy. apply elem_of_cons in Hy as [->|Hy]; auto.
  - split; [intros y; apply (quitar_sub _ (x :: h))|].
    split; [intros y; apply (quitar_otro _ (x :: h))
           | by apply (quitar_length _ (x :: h))].
Qed.

Lemma heappop_None h : heappop h = None -> h = [].
Proof. by destruct h. Qed.

(** * Counting the cells of the grid *)

Lemma pasable_en_rango grid c :
  pasable grid c = true ->
  0 <= c.1 < ancho grid /\ 0 <= c.2 < alto grid.
Proof.
  unfold pasable, en_rango. intros H.
  apply andb_true_iff in H as [H _].
  apply andb_true_iff in H as [H1 H2].
  apply andb_true_iff in H1 as [? ?]. apply andb_true_iff in H2 as [? ?]. lia.
Qed.

Lemma pasable_intro grid x y :
  negb (en_rango grid x y) || negb (transitable grid x y) = false ->
  pasable grid (x, y) = true.
Proof.
  unfold pasable. simpl. intros H. apply orb_false_iff in H as [H1 H2].
  apply negb_false_iff in H1, H2. by rewrite H1, H2.
Qed.

Lemma pasable_elim grid x y :
  pasable grid (x, y) = true ->
  negb (en_rango grid x y) || negb (transitable grid x y) = false.
Proof.
  unfold pasable. simpl. intros H. apply andb_true_iff in H as [-> ->]. done.
Qed.

Lemma celdas_grid_length grid :
  Z.of_nat (length (celdas_grid grid)) = alto grid * ancho grid.
Proof.
  unfold celdas_grid. rewrite length_prod, !length_seqZ.
  unfold alto, ancho. destruct grid; simpl; lia.
Qed.

Lemma pasable_celdas_grid grid c : pasable grid c = true -> c ∈ celdas_grid grid.
Proof.
  intros H. apply pasable_en_rango in H. destruct c as [x y]. simpl in H.
  unfold celdas_grid. apply list_elem_of_In, in_prod; apply list_elem_of_In;
    apply elem_of_seqZ; lia.
Qed.

Lemma cota_conjunto (grid : Grid) (X : gset Celda) :
  (forall c, c ∈ X -> pasable grid c = true) ->
  Z.of_nat (size X) <= alto grid * ancho grid.
Proof.
  intros H. rewrite <- celdas_grid_length. apply inj_le.
  unfold size, set_size. simpl.
  apply submseteq_length, NoDup_submseteq; [apply NoDup_elements|].
  intros c Hc. apply pasable_celdas_grid, H. by apply elem_of_elements.
Qed.

Section Correccion.

Variable grid : Grid.
Variables inicio meta : Celda.

Local Abbreviation h := (heuristica meta).
Local Abbreviation ok c := (pasable grid c = true).

Lemma Inv_inicial : ok inicio -> Inv grid inicio meta (inicial inicio meta).
Proof.
  intros Hok. split; simpl.
  - apply lookup_singleton_eq.
  - apply lookup_empty.
  - intros c gc [<- <-]%lookup_singleton_Some. split; [done | lia].
  - intros c gc [<- <-]%lookup_singleton_Some Hne. done.
  - intros f ge c Hin. unfold heappush in Hin.
    apply list_elem_of_singleton in Hin as [= -> -> ->].
    split; [lia|]. exists 0. by rewrite lookup_singleton_eq.
  - intros c gc [<- <-]%lookup_singleton_Some _. unfold heappush.
    by apply list_elem_of_singleton.
  - intros c Hc. by apply not_elem_of_empty in Hc.
Qed.

Lemma Inv_cerrados_ok b c : Inv grid inicio meta b -> c ∈ cerrados b -> ok c.
Proof.
  intros HI Hc. destruct (inv_cerrados _ _ _ b HI c Hc) as [gc Hgc].
  by destruct (inv_costo _ _ _ b HI c gc Hgc) as (? & _).
Qed.

(** The walk along [vino_de] ends at the start, within [gc] steps. *)
Lemma reconstruir_ok b :
  Inv grid inicio meta b ->
  forall n c gc acc,
    costo_g b !! c = Some gc -> gc <= Z.of_nat n ->
    exists l, reconstruir n (vino_de b) c acc = Retorna (acc ++ l)
      /\ Z.of_nat (length l) <= gc
      /\ last (c :: l) = Some inicio
      /\ Forall (fun c => ok c) (c :: l)
      /\ enlazada (c :: l).
Proof.
  intros HI. induction n as [|n IH]; intros c gc acc Hc Hn.
  - destruct (inv_costo _ _ _ b HI c gc Hc) as (Hok & Hpos & _).
    assert (gc = 0) as -> by lia.
    destruct (decide (c = inicio)) as [->|Hne].
    + exists []. simpl. rewrite (inv_inicio_vd _ _ _ b HI), app_nil_r.
      repeat split; auto; lia.
    + destruct (inv_padre _ _ _ b HI c 0 Hc Hne) as (p & gp & _ & Hp & Hle & _).
      destruct (inv_costo _ _ _ b HI p gp Hp) as (_ & ? & _). lia.
  - destruct (inv_costo _ _ _ b HI c gc Hc) as (Hok & Hpos & _).
    destruct (decide (c = inicio)) as [->|Hne].
    + exists []. simpl. rewrite (inv_inicio_vd _ _ _ b HI), app_nil_r.
      repeat split; auto; lia.
    + destruct (inv_padre _ _ _ b HI c gc Hc Hne) as (p & gp & Hvd & Hp & Hle & Hd).
      destruct (IH p gp (acc ++ [p]) Hp ltac:(lia)) as (l & Hr & Hlen & Hlast & Hall & Hen).
      exists (p :: l). simpl. rewrite Hvd, Hr, <- app_assoc. simpl.
      split; [done|]. split; [simpl in *; lia|].
      split; [done|]. split; [by constructor|].
      split; [by rewrite distancia_sim | done].
Qed.

Lemma rev_es_reverse {A} (l : list A) : rev l = reverse l.
Proof. unfold reverse. apply rev_alt. Qed.

Lemma es_ruta_rev c l :
  last (c :: l) = Some inicio -> Forall (fun c => ok c) (c :: l) ->
  enlazada (c :: l) -> es_ruta grid inicio c (rev (c :: l)).
Proof.
  intros Hlast Hall Hen. unfold es_ruta.
  rewrite rev_es_reverse, head_reverse, last_reverse, <- rev_es_reverse.
  split; [done|]. split; [done|].
  split; [|by apply enlazada_rev].
  apply Forall_forall. intros x Hx. rewrite Forall_forall in Hall.
  apply Hall. apply list_elem_of_In. apply list_elem_of_In, in_rev in Hx. done.
Qed.

Lemma ruta_de_costo b c gc :
  Inv grid inicio meta b -> costo_g b !! c = Some gc ->
  exists l, es_ruta grid inicio c l /\ Z.of_nat (length l) <= gc + 1.
Proof.
  intros HI Hc. destruct (inv_costo _ _ _ b HI c gc Hc) as (_ & Hpos & _).
  destruct (reconstruir_ok b HI (Z.to_nat gc) c gc [c] Hc ltac:(lia))
    as (l & _ & Hlen & Hlast & Hall & Hen).
  exists (rev (c :: l)). split; [by apply es_ruta_rev|].
  rewrite length_rev. simpl length. lia.
Qed.

Lemma es_ruta_snoc s c n l :
  es_ruta grid s c l -> ok n -> distancia c n = 1 ->
  es_ruta grid s n (l ++ [n]).
Proof.
  intros (Hh & Hl & Hall & Hen) Hok Hd. unfold es_ruta.
  split; [destruct l; [done | done]|]. split; [by rewrite last_snoc|].
  split; [apply Forall_app; split; [done | by constructor]|].
  apply enlazada_snoc. split; [done|]. intros a Ha. congruence.
Qed.

(** ** Expanding one neighbour *)

Lemma expandir_Inv b ga a d :
  Inv grid inicio meta b -> costo_g b !! a = Some ga -> d ∈ direcciones ->
  Inv grid inicio meta (expandir grid meta ga a b d).
Proof.
  intros HI Ha Hd. unfold expandir.
  set (n := (a.1 + d.1, a.2 + d.2)).
  destruct (negb (en_rango grid (a.1 + d.1) (a.2 + d.2))
            || negb (transitable grid (a.1 + d.1) (a.2 + d.2))) eqn:Hg; [done|].
  apply pasable_intro in Hg. fold n in Hg.
  destruct (ga + 1 <? default (10 ^ 9) (costo_g b !! n)) eqn:Hlt; [|done].
  apply Z.ltb_lt in Hlt.
  destruct (inv_costo _ _ _ b HI a ga Ha) as (Hoka & Hga & _).
  assert (distancia a n = 1) as Hdist by (by apply direcciones_distancia).
  assert (n ≠ a) as Hna.
  { intros Heq. rewrite Heq in Hdist. unfold distancia in Hdist. lia. }
  assert (n ≠ inicio) as Hni.
  { intros Heq. rewrite Heq, (inv_inicio _ _ _ b HI) in Hlt. simpl in Hlt. lia. }
  assert (ga + 1 < 10 ^ 9) as Hmen.
  { destruct (costo_g b !! n) as [viejo|] eqn:Hv; simpl in Hlt; [|done].
    destruct (inv_costo _ _ _ b HI n viejo Hv) as (_ & _ & ?). lia. }
  split; simpl.
  - rewrite lookup_insert_ne; [apply HI | done].
  - rewrite lookup_insert_ne; [apply HI | done].
  - intros c gc. rewrite lookup_insert. case_decide as Hc.
    + intros [= <-]. subst c. split; [done | lia].
    + apply HI.
  - intros c gc. rewrite lookup_insert. case_decide as Hc.
    + intros [= <-] _. subst c. exists a, ga.
      rewrite lookup_insert_eq, lookup_insert_ne by done.
      repeat split; auto; lia.
    + intros Hgc Hne. destruct (inv_padre _ _ _ b HI c gc Hgc Hne) as (p & gp & Hvd & Hp & Hle & Hdp).
      destruct (decide (p = n)) as [->|Hpn].
      * exists n, (ga + 1). rewrite lookup_insert_ne, lookup_insert_eq by done.
        rewrite Hp in Hlt. simpl in Hlt. repeat split; auto; lia.
      * exists p, gp. rewrite !lookup_insert_ne by done. done.
  - intros f ge c Hin. unfold heappush in Hin. apply elem_of_cons in Hin as [Heq|Hin].
    + injection Heq as -> -> ->. split; [done|]. exists (ga + 1).
      rewrite lookup_insert_eq. split; [done | lia].
    + destruct (inv_abiertos _ _ _ b HI f ge c Hin) as (Hf & gc & Hgc & Hle).
      split; [done|]. destruct (decide (c = n)) as [->|Hcn].
      * exists (ga + 1). rewrite lookup_insert_eq. rewrite Hgc in Hlt.
        simpl in Hlt. split; [done | lia].
      * exists gc. by rewrite lookup_insert_ne.
  - intros c gc. rewrite lookup_insert. case_decide as Hc.
    + intros [= <-] _. subst c. unfold heappush. apply elem_of_cons. by left.
    + intros Hgc Hnc. unfold heappush. apply elem_of_cons. right.
      by apply (inv_pend _ _ _ b HI).
  - intros c Hc. rewrite lookup_insert. case_decide; [done|].
    by apply (inv_cerrados _ _ _ b HI).
Qed.

Lemma expandir_marco b ga a d :
  costo_g b !! a = Some ga -> d ∈ direcciones ->
  cerrados (expandir grid meta ga a b d) = cerrados b
  /\ costo_g (expandir grid meta ga a b d) !! a = Some ga
  /\ (length (abiertos (expandir grid meta ga a b d)) <= S (length (abiertos b)))%nat.
Proof.
  intros Ha Hd. unfold expandir.
  destruct (negb _ || negb _); [auto|].
  destruct (_ <? _); [|auto]. simpl.
  split; [done|]. split; [|lia].
  rewrite lookup_insert_ne; [done|].
  intros Heq. pose proof (direcciones_distancia a d Hd) as Hdist.
  rewrite Heq in Hdist. unfold distancia in Hdist. lia.
Qed.

Lemma expandir_todas ds b ga a :
  (forall d, d ∈ ds -> d ∈ direcciones) ->
  Inv grid inicio meta b -> costo_g b !! a = Some ga ->
  let b' := foldl (expandir grid meta ga a) b ds in
  Inv grid inicio meta b' /\ cerrados b' = cerrados b /\ costo_g b' !! a = Some ga
  /\ (length (abiertos b') <= length (abiertos b) + length ds)%nat.
Proof.
  revert b. induction ds as [|d ds IH]; intros b Hds HI Ha; simpl.
  - split; [done|]. split; [done|]. split; [done | lia].
  - assert (d ∈ direcciones) as Hd by (apply Hds; set_solver).
    destruct (expandir_marco b ga a d Ha Hd) as (Hc & Ha' & Hlen).
    destruct (IH (expandir grid meta ga a b d)) as (HI2 & Hc2 & Ha2 & Hlen2).
    + intros d' Hd'. apply Hds. set_solver.
    + by apply expandir_Inv.
    + done.
    + split; [done|]. split; [congruence|]. split; [done | lia].
Qed.

(** ** Popping an entry *)

Lemma Inv_sin_abierto b f ga a resto :
  Inv grid inicio meta b -> heappop (abiertos b) = Some ((f, ga, a), resto) ->
  a ∈ cerrados b -> Inv grid inicio meta (sin_abierto b resto).
Proof.
  intros HI Hpop Ha. apply heappop_spec in Hpop as (Hin & Hmin & Hsub & Hotro & Hlen).
  split; simpl; try apply HI.
  - intros f' ge c Hc. apply (inv_abiertos _ _ _ b HI). by apply Hsub.
  - intros c gc Hgc Hnc. apply Hotro; [by apply (inv_pend _ _ _ b HI)|].
    intros [= _ _ ->]. done.
Qed.

Lemma costo_al_sacar b f ga a resto :
  Inv grid inicio meta b -> heappop (abiertos b) = Some ((f, ga, a), resto) ->
  a ∉ cerrados b -> costo_g b !! a = Some ga /\ f = ga + h a.
Proof.
  intros HI Hpop Ha. apply heappop_spec in Hpop as (Hin & Hmin & _).
  destruct (inv_abiertos _ _ _ b HI f ga a Hin) as (Hf & gc & Hgc & Hle).
  pose proof (inv_pend _ _ _ b HI a gc Hgc Ha) as Hin2.
  apply Hmin in Hin2. unfold clave_f in Hin2. simpl in Hin2.
  assert (gc = ga) as -> by lia. done.
Qed.

Lemma Inv_cerrar b f ga a resto :
  Inv grid inicio meta b -> heappop (abiertos b) = Some ((f, ga, a), resto) ->
  a ∉ cerrados b -> Inv grid inicio meta (cerrar b resto a).
Proof.
  intros HI Hpop Ha.
  destruct (costo_al_sacar b f ga a resto HI Hpop Ha) as [Hga Hf].
  apply heappop_spec in Hpop as (Hin & Hmin & Hsub & Hotro & Hlen).
  split; simpl; try apply HI.
  - intros f' ge c Hc. apply (inv_abiertos _ _ _ b HI). by apply Hsub.
  - intros c gc Hgc Hnc. apply Hotro; [apply (inv_pend _ _ _ b HI); set_solver|].
    intros [= _ _ ->]. set_solver.
  - intros c [->%elem_of_singleton|Hc]%elem_of_union; [done|].
    by apply (inv_cerrados _ _ _ b HI).
Qed.

End Correccion.

Section Terminacion.

Variable grid : Grid.
Variables inicio meta : Celda.

Local Abbreviation h := (heuristica meta).
Local Abbreviation ok c := (pasable grid c = true).

Lemma bucle_eq n b :
  bucle (S n) grid meta b =
  match heappop (abiertos b) with
  | None => Retorna None
  | Some ((_, g_actual, actual), resto) =>
      if decide (actual ∈ cerrados b) then bucle n grid meta (sin_abierto b resto)
      else if decide (actual = meta) then
        match reconstruir (Z.to_nat g_actual) (vino_de b) actual [actual] with
        | SinCombustible => SinCombustible
        | Retorna ruta => Retorna (Some (rev ruta))
        end
      else bucle n grid meta
             (foldl (expandir grid meta g_actual actual) (cerrar b resto actual)
                    direcciones)
  end.
Proof. reflexivity. Qed.

Lemma cerrados_cota b : Inv grid inicio meta b -> Z.of_nat (size (cerrados b)) <= alto grid * ancho grid.
Proof.
  intros HI. apply cota_conjunto. intros c Hc.
  by apply (Inv_cerrados_ok grid inicio meta b).
Qed.

Lemma size_cerrar (X : gset Celda) a : a ∉ X -> size ({[a]} ∪ X) = S (size X).
Proof. intros Ha. rewrite size_union by set_solver. by rewrite size_singleton. Qed.

Lemma bucle_termina n b :
  Inv grid inicio meta b -> medida grid b < Z.of_nat n -> exists r, bucle n grid meta b = Retorna r.
Proof.
  revert b. induction n as [|n IH]; intros b HI Hm.
  - pose proof (cerrados_cota b HI). unfold medida in Hm. lia.
  - rewrite bucle_eq. destruct (heappop (abiertos b)) as [[[[f ga] a] resto]|] eqn:Hpop;
      [|by eexists].
    pose proof (heappop_spec _ _ _ Hpop) as (_ & _ & _ & _ & Hlen).
    case_decide as Hc.
    + apply IH; [by eapply Inv_sin_abierto|].
      unfold medida in *. simpl. lia.
    + destruct (costo_al_sacar grid inicio meta b f ga a resto HI Hpop Hc) as [Hga Hf].
      destruct (inv_costo _ _ _ b HI a ga Hga) as (_ & Hpos & Hmen).
      case_decide as Hmeta.
      * destruct (reconstruir_ok grid inicio meta b HI (Z.to_nat ga) a ga [a] Hga)
          as (l & -> & _); [lia|]. by eexists.
      * pose proof (Inv_cerrar grid inicio meta b f ga a resto HI Hpop Hc) as HI1.
        destruct (expandir_todas grid inicio meta direcciones (cerrar b resto a) ga a)
          as (HI2 & Hcer & _ & Hlen2); [done | done | done |].
        apply IH; [done|].
        pose proof (cerrados_cota _ HI1) as Hcota. simpl in Hcota.
        unfold medida in *. rewrite Hcer. simpl in *.
        rewrite size_cerrar in * by done. lia.
Qed.

Lemma medida_inicial : medida grid (inicial inicio meta) = 4 * (alto grid * ancho grid) + 1.
Proof.
  unfold medida, inicial, heappush. cbn [abiertos cerrados length].
  rewrite size_empty. lia.
Qed.

(** The built-in bound on the passes is never reached. *)
Lemma a_estrella_n_termina :
  exists r, a_estrella_n (combustible grid) grid inicio meta = Retorna r.
Proof.
  unfold a_estrella_n.
  destruct (negb (en_rango grid inicio.1 inicio.2)
            || negb (en_rango grid meta.1 meta.2)
            || negb (transitable grid inicio.1 inicio.2)
            || negb (transitable grid meta.1 meta.2)) eqn:Hg; [by eexists|].
  apply bucle_termina.
  - apply Inv_inicial. unfold pasable.
    repeat (apply orb_false_iff in Hg as [Hg ?]).
    apply negb_false_iff in Hg. rewrite Hg. simpl. by apply negb_false_iff.
  - rewrite medida_inicial. unfold combustible.
    assert (0 <= alto grid * ancho grid); [|lia].
    unfold alto, ancho. destruct grid; lia.
Qed.

(** More passes than needed change nothing. *)
Lemma bucle_mas n b r :
  bucle n grid meta b = Retorna r -> forall n', (n <= n')%nat ->
  bucle n' grid meta b = Retorna r.
Proof.
  revert b. induction n as [|n IH]; intros b Hr n' Hn'; [done|].
  destruct n' as [|n']; [lia|]. rewrite bucle_eq in *.
  destruct (heappop (abiertos b)) as [[[[f ga] a] resto]|]; [|done].
  repeat case_decide; try done; apply IH; auto; lia.
Qed.

(** ** The returned list is a route *)

Lemma bucle_valida n b l :
  Inv grid inicio meta b -> bucle n grid meta b = Retorna (Some l) ->
  es_ruta grid inicio meta l /\ Z.of_nat (length l) <= 10 ^ 9.
Proof.
  revert b. induction n as [|n IH]; intros b HI Hr; [done|].
  rewrite bucle_eq in Hr.
  destruct (heappop (abiertos b)) as [[[[f ga] a] resto]|] eqn:Hpop; [|done].
  case_decide as Hc.
  - eapply IH; [|done]. by eapply Inv_sin_abierto.
  - destruct (costo_al_sacar grid inicio meta b f ga a resto HI Hpop Hc) as [Hga Hf].
    destruct (inv_costo _ _ _ b HI a ga Hga) as (_ & Hpos & Hmen).
    case_decide as Hmeta.
    + destruct (reconstruir_ok grid inicio meta b HI (Z.to_nat ga) a ga [a] Hga)
        as (l0 & Hrec & Hlen & Hlast & Hall & Hen); [lia|].
      rewrite Hrec in Hr. injection Hr as <-. subst a.
      split; [by apply es_ruta_rev|].
      rewrite length_app, length_rev. simpl length. lia.
    + eapply IH; [|done].
      pose proof (Inv_cerrar grid inicio meta b f ga a resto HI Hpop Hc) as HI1.
      by destruct (expandir_todas grid inicio meta direcciones (cerrar b resto a) ga a)
        as (HI2 & _).
Qed.

End Terminacion.

Section Optimalidad.

Variable grid : Grid.
Variables inicio meta : Celda.

Local Abbreviation h := (heuristica meta).
Local Abbreviation ok c := (pasable grid c = true).

Lemma InvO_mono (P Q : Celda -> Z * Z -> Prop) b :
  (forall c d, d ∈ direcciones -> Q c d -> P c d) -> InvO grid inicio meta P b -> InvO grid inicio meta Q b.
Proof.
  intros HPQ HO. split; try apply HO.
  intros c gc d Hc Hgc Hd HQ. apply (o_vec _ _ _ P b HO); auto.
Qed.

Lemma InvO_inicial : InvO grid inicio meta todo (inicial inicio meta).
Proof.
  split; simpl.
  - set_solver.
  - intros c gc l Hc. set_solver.
  - intros c gc d Hc. set_solver.
  - intros c gc [<- <-]%lookup_singleton_Some. split; [lia | set_solver].
Qed.

(** Along such a route a cell is closed, or an open entry stands before
    it. *)
Lemma frontera b :
  Inv grid inicio meta b -> InvO grid inicio meta todo b ->
  forall l c, es_ruta grid inicio c l -> alcanzable_en_cota grid l ->
    c ∈ cerrados b \/
    exists x gx, (gx + h x, gx, x) ∈ abiertos b
      /\ gx + h x + 1 <= Z.of_nat (length l) + h c.
Proof.
  intros HI HO. induction l as [|c' l IH] using rev_ind;
    intros c (Hh & Hl & Hall & Hen) Hcota.
  - done.
  - rewrite last_snoc in Hl. injection Hl as ->.
    apply Forall_app in Hall as [Hall Hokc]. rewrite Forall_singleton in Hokc.
    apply enlazada_snoc in Hen as [Hen Hpaso].
    assert (alcanzable_en_cota grid l) as Hcota'.
    { destruct Hcota as [Hlen|?]; [left | by right].
      rewrite length_app in Hlen. simpl in Hlen. lia. }
    destruct (last l) as [c0|] eqn:Hlast.
    + assert (es_ruta grid inicio c0 l) as Hr0.
      { split; [by destruct l|]. done. }
      specialize (Hpaso c0 eq_refl).
      destruct (IH c0 Hr0 Hcota') as [Hc0|(x & gx & Hx & Hle)].
      * destruct (inv_cerrados _ _ _ b HI c0 Hc0) as [g0 Hg0].
        pose proof (o_opt _ _ _ todo b HO c0 g0 l Hc0 Hg0 Hr0) as Hopt.
        destruct (distancia_direcciones c0 c Hpaso) as (d & Hd & ->).
        assert (g0 + 1 < 10 ^ 9) as Hmen.
        { destruct Hcota as [Hlen|Hgrande].
          - rewrite length_app in Hlen. simpl in Hlen. lia.
          - destruct (o_cota _ _ _ todo b HO c0 g0 Hg0) as [_ Hcc].
            pose proof (cerrados_cota grid inicio meta b HI). specialize (Hcc Hc0). lia. }
        destruct (o_vec _ _ _ todo b HO c0 g0 d Hc0 Hg0 Hd I Hokc Hmen) as (gn & Hgn & Hgnle).
        rewrite length_app. simpl length.
        destruct (decide ((c0.1 + d.1, c0.2 + d.2) ∈ cerrados b)) as [?|Hnc]; [by left|].
        right. eexists _, gn. split; [by apply (inv_pend _ _ _ b HI)|]. lia.
      * right. exists x, gx. split; [done|]. rewrite length_app. simpl length.
        pose proof (heuristica_paso meta c0 c Hpaso). lia.
    + apply last_None in Hlast. subst l. simpl in Hh. injection Hh as ->.
      destruct (decide (inicio ∈ cerrados b)) as [?|Hnc]; [by left|].
      right. exists inicio, 0. split; [|simpl; lia].
      apply (inv_pend _ _ _ b HI); [apply HI | done].
Qed.

(** The entry that is popped for a cell not yet closed has the length of
    a shortest route to it. *)
Lemma optimo_al_sacar b f ga a resto l :
  Inv grid inicio meta b -> InvO grid inicio meta todo b ->
  heappop (abiertos b) = Some ((f, ga, a), resto) -> a ∉ cerrados b ->
  es_ruta grid inicio a l -> ga + 1 <= Z.of_nat (length l).
Proof.
  intros HI HO Hpop Ha Hl.
  destruct (costo_al_sacar grid inicio meta b f ga a resto HI Hpop Ha) as [Hga Hf].
  destruct (inv_costo _ _ _ b HI a ga Hga) as (_ & _ & Hmen).
  destruct (decide (Z.of_nat (length l) <= 10 ^ 9)) as [Hlen|Hlen]; [|lia].
  apply heappop_spec in Hpop as (_ & Hmin & _).
  destruct (frontera b HI HO l a Hl) as [?|(x & gx & Hx & Hle)]; [by left | done |].
  apply Hmin in Hx. unfold clave_f in Hx. simpl in Hx. lia.
Qed.

Lemma InvO_sin_abierto b resto : InvO grid inicio meta todo b -> InvO grid inicio meta todo (sin_abierto b resto).
Proof. intros HO. split; apply HO. Qed.

Lemma InvO_cerrar b f ga a resto :
  Inv grid inicio meta b -> InvO grid inicio meta todo b ->
  heappop (abiertos b) = Some ((f, ga, a), resto) -> a ∉ cerrados b ->
  a ≠ meta ->
  InvO grid inicio meta (fun c _ => c ≠ a) (cerrar b resto a)
  /\ ga + 1 <= Z.of_nat (size (cerrados (cerrar b resto a))).
Proof.
  intros HI HO Hpop Ha Hmeta.
  destruct (costo_al_sacar grid inicio meta b f ga a resto HI Hpop Ha) as [Hga Hf].
  simpl. rewrite size_cerrar by done.
  split; [|destruct (o_cota _ _ _ todo b HO a ga Hga); lia].
  split; simpl.
  - pose proof (o_meta _ _ _ todo b HO). set_solver.
  - intros c gc l [->%elem_of_singleton|Hc]%elem_of_union Hgc Hl.
    + assert (gc = ga) as -> by congruence.
      apply (optimo_al_sacar b f ga a resto l HI HO Hpop Ha Hl).
    + apply (o_opt _ _ _ todo b HO c gc l Hc Hgc Hl).
  - intros c gc d Hc Hgc Hd Hca Hok.
    apply (o_vec _ _ _ todo b HO c gc d); [set_solver | done | done | exact I | done].
  - intros c gc Hgc. rewrite size_cerrar by done.
    destruct (o_cota _ _ _ todo b HO c gc Hgc) as [Hle Hcc]. split; [lia|].
    intros [->%elem_of_singleton|Hc]%elem_of_union; [|specialize (Hcc Hc)]; lia.
Qed.

Lemma expandir_InvO hecho b ga a d :
  Inv grid inicio meta b -> InvO grid inicio meta hecho b -> a ∈ cerrados b -> costo_g b !! a = Some ga ->
  d ∈ direcciones -> ga + 1 <= Z.of_nat (size (cerrados b)) ->
  InvO grid inicio meta (fun c d' => hecho c d' \/ (c = a /\ d' = d)) (expandir grid meta ga a b d).
Proof.
  intros HI HO Hac Ha Hd Hsize.
  unfold expandir. set (n := (a.1 + d.1, a.2 + d.2)).
  destruct (negb (en_rango grid (a.1 + d.1) (a.2 + d.2))
            || negb (transitable grid (a.1 + d.1) (a.2 + d.2))) eqn:Hg.
  { split; try apply HO. intros c gc d' Hc Hgc Hd' [Hh|[-> ->]] Hok.
    - by apply (o_vec _ _ _ hecho b HO).
    - apply pasable_elim in Hok. congruence. }
  apply pasable_intro in Hg. fold n in Hg.
  destruct (ga + 1 <? default (10 ^ 9) (costo_g b !! n)) eqn:Hlt.
  2:{ apply Z.ltb_ge in Hlt. split; try apply HO.
      intros c gc d' Hc Hgc Hd' [Hh|[-> ->]] Hok Hmen.
      - by apply (o_vec _ _ _ hecho b HO).
      - fold n. assert (gc = ga) by congruence.
        destruct (costo_g b !! n) as [gn|]; simpl in Hlt.
        + exists gn. split; [done | lia].
        + lia. }
  apply Z.ltb_lt in Hlt.
  assert (distancia a n = 1) as Hdist by (by apply direcciones_distancia).
  assert (n ∉ cerrados b) as Hnc.
  { intros Hn. destruct (inv_cerrados _ _ _ b HI n Hn) as [gn Hgn].
    rewrite Hgn in Hlt. simpl in Hlt.
    destruct (ruta_de_costo grid inicio meta b a ga HI Ha) as (la & Hla & Hlen).
    pose proof (es_ruta_snoc grid inicio a n la Hla Hg Hdist) as Hln.
    pose proof (o_opt _ _ _ hecho b HO n gn _ Hn Hgn Hln) as Hopt.
    rewrite length_app in Hopt. simpl in Hopt. lia. }
  split; simpl.
  - apply HO.
  - intros c gc l Hc. rewrite lookup_insert_ne by (intros ->; done).
    by apply (o_opt _ _ _ hecho b HO).
  - intros c gc d' Hc. rewrite lookup_insert_ne by (intros ->; done).
    intros Hgc Hd' Hh Hok Hmen.
    destruct (decide ((c.1 + d'.1, c.2 + d'.2) = n)) as [Heq|Hne].
    + rewrite Heq, lookup_insert_eq. exists (ga + 1). split; [done|].
      destruct Hh as [Hh|[-> ->]].
      * destruct (o_vec _ _ _ hecho b HO c gc d' Hc Hgc Hd' Hh Hok Hmen) as (gn & Hgn & Hle).
        rewrite Heq in Hgn. rewrite Hgn in Hlt. simpl in Hlt. lia.
      * assert (gc = ga) by congruence. lia.
    + rewrite lookup_insert_ne by done. destruct Hh as [Hh|[-> ->]].
      * by apply (o_vec _ _ _ hecho b HO).
      * done.
  - intros c gc. rewrite lookup_insert. case_decide as Hcn.
    + intros [= <-]. subst c. split; [lia | done].
    + apply HO.
Qed.

Lemma expandir_todas_O ds : forall hecho b ga a,
  (forall d, d ∈ ds -> d ∈ direcciones) ->
  Inv grid inicio meta b -> InvO grid inicio meta hecho b -> a ∈ cerrados b -> costo_g b !! a = Some ga ->
  ga + 1 <= Z.of_nat (size (cerrados b)) ->
  InvO grid inicio meta (fun c d' => hecho c d' \/ (c = a /\ d' ∈ ds))
       (foldl (expandir grid meta ga a) b ds).
Proof.
  induction ds as [|d ds IH]; intros hecho b ga a Hds HI HO Hac Ha Hsize; simpl.
  - eapply InvO_mono; [|done]. intros c d Hd [?|[_ Hin]]; [done|].
    by apply elem_of_nil in Hin.
  - assert (d ∈ direcciones) as Hd by (apply Hds; set_solver).
    destruct (expandir_marco grid meta b ga a d Ha Hd) as (Hc & Ha' & _).
    apply (InvO_mono (fun c d' => (hecho c d' \/ (c = a /\ d' = d))
                                  \/ (c = a /\ d' ∈ ds))); [|apply IH].
    + intros c d' Hd' [Hh|[-> Hin]]; [left; by left|].
      apply elem_of_cons in Hin as [->|Hin]; [left; by right | right; done].
    + intros d' Hd'. apply Hds. set_solver.
    + by apply expandir_Inv.
    + by apply expandir_InvO.
    + by rewrite Hc.
    + done.
    + by rewrite Hc.
Qed.

(** The returned route is a shortest one, and nothing is returned only if
    no route is within reach of the search. *)
Lemma bucle_optima n b r :
  Inv grid inicio meta b -> InvO grid inicio meta todo b -> bucle n grid meta b = Retorna r ->
  match r with
  | Some l => forall l', es_ruta grid inicio meta l' -> (length l <= length l')%nat
  | None => forall l', es_ruta grid inicio meta l' -> ~ alcanzable_en_cota grid l'
  end.
Proof.
  revert b. induction n as [|n IH]; intros b HI HO Hr; [done|].
  rewrite bucle_eq in Hr.
  destruct (heappop (abiertos b)) as [[[[f ga] a] resto]|] eqn:Hpop.
  2:{ injection Hr as <-. intros l' Hl' Hcota. apply heappop_None in Hpop.
      destruct (frontera b HI HO l' meta Hl' Hcota) as [Hc|(x & gx & Hx & _)].
      - by apply (o_meta _ _ _ todo b HO).
      - rewrite Hpop in Hx. by apply elem_of_nil in Hx. }
  case_decide as Hc.
  - eapply IH; [| |done]; [by eapply Inv_sin_abierto | by apply InvO_sin_abierto].
  - destruct (costo_al_sacar grid inicio meta b f ga a resto HI Hpop Hc) as [Hga Hf].
    destruct (inv_costo _ _ _ b HI a ga Hga) as (_ & Hpos & Hmen).
    case_decide as Hmeta.
    + destruct (reconstruir_ok grid inicio meta b HI (Z.to_nat ga) a ga [a] Hga)
        as (l0 & Hrec & Hlen & _); [lia|].
      rewrite Hrec in Hr. injection Hr as <-. subst a. intros l' Hl'.
      pose proof (optimo_al_sacar b f ga meta resto l' HI HO Hpop Hc Hl') as Hopt.
      rewrite length_app, length_rev. simpl length. lia.
    + pose proof (Inv_cerrar grid inicio meta b f ga a resto HI Hpop Hc) as HI1.
      destruct (InvO_cerrar b f ga a resto HI HO Hpop Hc Hmeta) as [HO1 Hsize].
      destruct (expandir_todas grid inicio meta direcciones (cerrar b resto a) ga a)
        as (HI2 & _); [done | done | done |].
      eapply IH; [done | | done].
      apply (InvO_mono (fun c d' => c ≠ a \/ (c = a /\ d' ∈ direcciones)));
        [|apply expandir_todas_O; try done].
      * intros c d Hd _. destruct (decide (c = a)); auto.
      * simpl. set_solver.
Qed.

End Optimalidad.

Lemma validacion_rapida grid (inicio meta : Celda) :
  negb (en_rango grid inicio.1 inicio.2)
  || negb (en_rango grid meta.1 meta.2)
  || negb (transitable grid inicio.1 inicio.2)
  || negb (transitable grid meta.1 meta.2) = false
  <-> pasable grid inicio = true /\ pasable grid meta = true.
Proof.
  unfold pasable.
  destruct (en_rango grid inicio.1 inicio.2), (en_rango grid meta.1 meta.2),
    (transitable grid inicio.1 inicio.2), (transitable grid meta.1 meta.2);
    simpl; intuition congruence.
Qed.

Lemma a_estrella_desplegar grid inicio meta :
  (pasable grid inicio = true /\ pasable grid meta = true
   /\ bucle (combustible grid) grid meta (inicial inicio meta)
      = Retorna (a_estrella grid inicio meta))
  \/ ((pasable grid inicio = false \/ pasable grid meta = false)
      /\ a_estrella grid inicio meta = None).
Proof.
  destruct (a_estrella_n_termina grid inicio meta) as [r Hr].
  unfold a_estrella. rewrite Hr. unfold a_estrella_n in Hr.
  destruct (negb _ || _ || _ || _) eqn:Hg.
  - right. injection Hr as <-. split; [|done].
    destruct (pasable grid inicio) eqn:Hi; [|by left].
    destruct (pasable grid meta) eqn:Hm; [|by right].
    assert (true = false); [|done]. rewrite <- Hg. by apply validacion_rapida.
  - left. apply validacion_rapida in Hg as [? ?]. done.
Qed.

Lemma es_ruta_pasable grid s m l :
  es_ruta grid s m l -> pasable grid s = true /\ pasable grid m = true.
Proof.
  intros (Hh & Hl & Hall & _). rewrite Forall_forall in Hall. split; apply Hall.
  - destruct l; [done|]. injection Hh as ->. set_solver.
  - apply last_Some in Hl as [l' ->]. set_solver.
Qed.

Lemma a_estrella_es_ruta grid inicio meta l :
  a_estrella grid inicio meta = Some l -> es_ruta grid inicio meta l.
Proof.
  intros Hl. destruct (a_estrella_desplegar grid inicio meta)
    as [(Hi & Hm & Hb)|[_ Hn]]; [|congruence].
  rewrite Hl in Hb. eapply bucle_valida; [|done]. by apply Inv_inicial.
Qed.

Lemma a_estrella_inicio_es_meta grid c :
  pasable grid c = true -> a_estrella grid c c = Some [c].
Proof.
  intros Hc. unfold a_estrella, a_estrella_n.
  destruct (negb _ || _ || _ || _) eqn:Hg.
  { assert (true = false); [|done]. rewrite <- Hg. by apply validacion_rapida. }
  unfold combustible.
  assert (exists n, Z.to_nat (4 * (alto grid * ancho grid) + 2) = S n) as [n ->].
  { exists (Z.to_nat (4 * (alto grid * ancho grid) + 1)).
    assert (0 <= alto grid * ancho grid); [|lia].
    unfold alto, ancho. destruct grid; lia. }
  rewrite bucle_eq. simpl. rewrite decide_False by set_solver.
  rewrite decide_True by done. by rewrite lookup_empty.
Qed.

Lemma a_estrella_minima grid inicio meta l l' :
  a_estrella grid inicio meta = Some l -> es_ruta grid inicio meta l' ->
  (length l <= length l')%nat.
Proof.
  intros Hl Hl'. destruct (a_estrella_desplegar grid inicio meta)
    as [(Hi & Hm & Hb)|[_ Hn]]; [|congruence].
  rewrite Hl in Hb.
  apply (bucle_optima grid inicio meta _ _ _
           (Inv_inicial grid inicio meta Hi) (InvO_inicial grid inicio meta) Hb l' Hl').
Qed.

Lemma a_estrella_Some_cota grid inicio meta l :
  a_estrella grid inicio meta = Some l -> Z.of_nat (length l) <= 10 ^ 9.
Proof.
  intros Hl. destruct (a_estrella_desplegar grid inicio meta)
    as [(Hi & Hm & Hb)|[_ Hn]]; [|congruence].
  rewrite Hl in Hb. eapply bucle_valida; [|done]. by apply Inv_inicial.
Qed.

(** Nothing is returned exactly when no route is within reach. *)
Lemma a_estrella_None_cota grid inicio meta :
  a_estrella grid inicio meta = None <->
  forall l', es_ruta grid inicio meta l' -> ~ alcanzable_en_cota grid l'.
Proof.
  split.
  - intros Hn. destruct (a_estrella_desplegar grid inicio meta)
      as [(Hi & Hm & Hb)|[Hp _]].
    + rewrite Hn in Hb.
      apply (bucle_optima grid inicio meta _ _ _
               (Inv_inicial grid inicio meta Hi) (InvO_inicial grid inicio meta) Hb).
    + intros l' Hl'. apply es_ruta_pasable in Hl' as [? ?].
      destruct Hp; congruence.
  - intros Hno. destruct (a_estrella grid inicio meta) as [l|] eqn:Hl; [|done].
    exfalso. apply (Hno l); [by apply a_estrella_es_ruta|].
    left. by eapply a_estrella_Some_cota.
Qed.

(** * A corridor longer than the constant of [costo_g.get] *)

Lemma alto_corredor : alto corredor = 1.
Proof. reflexivity. Qed.

Lemma ancho_corredor : ancho corredor = largo + 1.
Proof.
  unfold ancho, corredor. rewrite repeat_length. apply Z2Nat.id. unfold largo. lia.
Qed.

Lemma en_rango_corredor x y :
  en_rango corredor x y = bool_decide (0 <= x <= largo /\ y = 0).
Proof.
  unfold en_rango. rewrite ancho_corredor, alto_corredor.
  case_bool_decide as H.
  - destruct H as [[? ?] ->]. repeat (apply andb_true_iff; split); lia.
  - apply not_true_is_false. intros Ht. apply H.
    apply andb_true_iff in Ht as [H1 H2].
    apply andb_true_iff in H1 as [? ?]. apply andb_true_iff in H2 as [? ?]. lia.
Qed.

Lemma transitable_corredor x :
  0 <= x <= largo -> transitable corredor x 0 = true.
Proof.
  intros Hx. unfold transitable, leer, corredor.
  change (Z.to_nat 0) with 0%nat. cbn [nth].
  rewrite nth_repeat_lt by (unfold largo in *; lia). done.
Qed.

Lemma pasable_corredor x : 0 <= x <= largo -> pasable corredor (x, 0) = true.
Proof.
  intros Hx. unfold pasable. cbn [fst snd].
  rewrite en_rango_corredor, transitable_corredor by done.
  by rewrite bool_decide_eq_true_2.
Qed.

Lemma heappop_uno (e : Entrada) : heappop [e] = Some (e, []).
Proof. unfold heappop. cbn [minimo quitar]. by rewrite decide_True. Qed.

Lemma expandir_corredor k b :
  EnCorredor k b ->
  foldl (expandir corredor (largo, 0) k (k, 0)) (cerrar b [] (k, 0)) direcciones
  = if decide (k = largo - 1) then cerrar b [] (k, 0)
    else {| abiertos := [(largo, k + 1, (k + 1, 0))];
            vino_de := <[(k + 1, 0) := (k, 0)]> (vino_de b);
            costo_g := <[(k + 1, 0) := k + 1]> (costo_g b);
            cerrados := {[(k, 0)]} ∪ cerrados b |}.
Proof.
  intros HE. destruct HE as [Hab Hk Hce Hco Hsc].
  unfold direcciones. cbn [foldl].
  (* (1, 0) *)
  set (b1 := expandir corredor (largo, 0) k (k, 0) (cerrar b [] (k, 0)) (1, 0)).
  assert (b1 = if decide (k = largo - 1) then cerrar b [] (k, 0)
               else {| abiertos := [(largo, k + 1, (k + 1, 0))];
                       vino_de := <[(k + 1, 0) := (k, 0)]> (vino_de b);
                       costo_g := <[(k + 1, 0) := k + 1]> (costo_g b);
                       cerrados := {[(k, 0)]} ∪ cerrados b |}) as Hb1.
  { unfold b1, expandir. cbn [fst snd cerrar costo_g abiertos vino_de cerrados].
    replace (0 + 0) with 0 by lia.
    rewrite en_rango_corredor, transitable_corredor by lia.
    rewrite bool_decide_eq_true_2 by lia. cbn [negb orb].
    rewrite (Hsc (k + 1)) by lia.
    change (default (10 ^ 9) (@None Z)) with largo.
    case_decide as Hkl.
    - rewrite (proj2 (Z.ltb_ge _ _)) by lia. done.
    - rewrite (proj2 (Z.ltb_lt _ _)) by lia.
      unfold heappush.
      assert (k + 1 + heuristica (largo, 0) (k + 1, 0) = largo) as ->
        by (unfold heuristica; cbn [fst snd]; lia).
      done. }
  (* (-1, 0) *)
  set (b2 := expandir corredor (largo, 0) k (k, 0) b1 (-1, 0)).
  assert (b2 = b1) as Hb2.
  { unfold b2, expandir. cbn [fst snd]. replace (0 + 0) with 0 by lia.
    rewrite en_rango_corredor.
    destruct (decide (k = 0)) as [Hk0|Hk0].
    - rewrite bool_decide_eq_false_2 by lia. done.
    - rewrite bool_decide_eq_true_2, transitable_corredor by lia. cbn [negb orb].
      assert (costo_g b1 !! (k + -1, 0) = Some (k - 1)) as ->.
      { rewrite Hb1. case_decide; cbn [costo_g cerrar].
        - replace (k + -1) with (k - 1) by lia. apply Hco. lia.
        - rewrite lookup_insert_ne by (intros [=]; lia).
          replace (k + -1) with (k - 1) by lia. apply Hco. lia. }
      change (default (10 ^ 9) (Some (k - 1))) with (k - 1).
      rewrite (proj2 (Z.ltb_ge _ _)) by lia. done. }
  rewrite Hb2.
  (* (0, 1) and (0, -1) *)
  assert (forall b', expandir corredor (largo, 0) k (k, 0) b' (0, 1) = b') as H3.
  { intros b'. unfold expandir. cbn [fst snd]. rewrite en_rango_corredor.
    rewrite bool_decide_eq_false_2 by lia. done. }
  assert (forall b', expandir corredor (largo, 0) k (k, 0) b' (0, -1) = b') as H4.
  { intros b'. unfold expandir. cbn [fst snd]. rewrite en_rango_corredor.
    rewrite bool_decide_eq_false_2 by lia. done. }
  by rewrite H3, H4.
Qed.

Lemma bucle_corredor m : forall k b n,
  EnCorredor k b -> largo - 1 - k = Z.of_nat m -> (m + 2 <= n)%nat ->
  bucle n corredor (largo, 0) b = Retorna None.
Proof.
  induction m as [|m IH]; intros k b n HE Hm Hn.
  - destruct n as [|[|n]]; [lia | lia |].
    rewrite bucle_eq, (ec_abiertos k b HE), heappop_uno.
    rewrite decide_False by (apply (ec_cerrados k b HE); lia).
    rewrite decide_False by (intros [=]; lia).
    rewrite expandir_corredor by done.
    rewrite decide_True by lia. done.
  - destruct n as [|n]; [lia|].
    rewrite bucle_eq, (ec_abiertos k b HE), heappop_uno.
    rewrite decide_False by (apply (ec_cerrados k b HE); lia).
    rewrite decide_False by (intros [=]; lia).
    rewrite expandir_corredor by done.
    rewrite decide_False by lia.
    apply (IH (k + 1)); [|lia|lia].
    destruct HE as [Hab Hk Hce Hco Hsc]. split; cbn [abiertos cerrados costo_g].
    + done.
    + lia.
    + intros x Hx. intros [Hin%elem_of_singleton|Hin]%elem_of_union.
      * injection Hin as ?. lia.
      * revert Hin. apply Hce. lia.
    + intros x Hx. destruct (decide (x = k + 1)) as [->|Hne].
      * by rewrite lookup_insert_eq.
      * rewrite lookup_insert_ne by (intros [=]; lia). apply Hco. lia.
    + intros x Hx. rewrite lookup_insert_ne by (intros [=]; lia). apply Hsc. lia.
Qed.

Lemma largo_valor : largo = 1000000000.
Proof. reflexivity. Qed.

Lemma EnCorredor_inicial : EnCorredor 0 (inicial (0, 0) (largo, 0)).
Proof.
  split; cbn [inicial abiertos cerrados costo_g].
  - unfold heappush.
    assert (heuristica (largo, 0) (0, 0) = largo) as ->; [|done].
    unfold heuristica. cbn [fst snd]. pose proof largo_valor. lia.
  - pose proof largo_valor. lia.
  - intros x _. apply not_elem_of_empty.
  - intros x Hx. assert (x = 0) as -> by lia. apply lookup_singleton_eq.
  - intros x Hx. apply lookup_singleton_ne. intros [=]. lia.
Qed.

Lemma a_estrella_corredor : a_estrella corredor (0, 0) (largo, 0) = None.
Proof.
  assert (bucle (combustible corredor) corredor (largo, 0) (inicial (0, 0) (largo, 0))
          = Retorna None) as Hnone.
  { apply (bucle_corredor (Z.to_nat (largo - 1)) 0).
    - apply EnCorredor_inicial.
    - pose proof largo_valor. lia.
    - unfold combustible. rewrite alto_corredor, ancho_corredor.
      pose proof largo_valor. lia. }
  destruct (a_estrella_desplegar corredor (0, 0) (largo, 0)) as [H|H].
  - destruct H as (_ & _ & Hb).
    assert (Retorna (a_estrella corredor (0, 0) (largo, 0))
            = Retorna (@None (list Celda))) as Heq.
    { transitivity (bucle (combustible corredor) corredor (largo, 0)
                      (inicial (0, 0) (largo, 0))).
      - symmetry. exact Hb.
      - exact Hnone. }
    exact (f_equal (fun r => match r with
                             | Retorna x => x
                             | SinCombustible => None
                             end) Heq).
  - destruct H as [_ Hn]. exact Hn.
Qed.

Lemma enlazada_fila n : forall m,
  enlazada ((fun x => (x, 0)) <$> seqZ m (Z.of_nat n)).
Proof.
  induction n as [|n IH]; intros m; [done|].
  rewrite seqZ_cons by lia. rewrite fmap_cons.
  replace (Z.pred (Z.of_nat (S n))) with (Z.of_nat n) by lia.
  specialize (IH (Z.succ m)). cbn [enlazada]. split; [|done].
  destruct n as [|n]; [done|].
  rewrite seqZ_cons by lia. rewrite fmap_cons.
  unfold distancia. cbn [fst snd]. lia.
Qed.

Lemma ruta_corredor_es_ruta : es_ruta corredor (0, 0) (largo, 0) ruta_corredor.
Proof.
  pose proof largo_valor as Hl. unfold es_ruta, ruta_corredor.
  split; [|split; [|split]].
  - rewrite seqZ_cons by lia. reflexivity.
  - replace (largo + 1) with (Z.of_nat (S (Z.to_nat largo))) by lia.
    rewrite seqZ_S, fmap_app. cbn [fmap list_fmap]. rewrite last_snoc.
    rewrite Z2Nat.id by lia. rewrite Z.add_0_l. reflexivity.
  - apply Forall_fmap, Forall_forall. intros x Hx. apply elem_of_seqZ in Hx.
    apply pasable_corredor. lia.
  - replace (largo + 1) with (Z.of_nat (Z.to_nat (largo + 1))) by lia.
    apply enlazada_fila.
Qed.

(** * The reservation table *)

Lemma arista_libre_false tr a b t :
  arista_reservada tr a b t -> arista_libre tr a b t = false.
Proof.
  intros [x Hx]. unfold arista_libre. apply bool_decide_eq_false_2. congruence.
Qed.

Lemma puede_moverse_arista tr actual siguiente t :
  puede_moverse tr actual siguiente t = true ->
  ~ arista_reservada tr siguiente actual t.
Proof.
  unfold puede_moverse. intros H Hres. apply arista_libre_false in Hres.
  rewrite Hres in H. simpl in H. by destruct (negb (celda_libre tr siguiente t)).
Qed.

Lemma confirmar_movimiento_arista tr rid a b t :
  arista_reservada (confirmar_movimiento tr rid a b t) a b t.
Proof.
  unfold arista_reservada, confirmar_movimiento, reservar_arista. simpl.
  rewrite lookup_insert_eq. by eexists.
Qed.

Lemma confirmar_movimiento_mono tr rid a b t c d t' :
  arista_reservada tr c d t' ->
  arista_reservada (confirmar_movimiento tr rid a b t) c d t'.
Proof.
  unfold arista_reservada, confirmar_movimiento, reservar_arista. simpl.
  intros H. rewrite lookup_insert. by case_decide.
Qed.

Lemma confirmar_espera_aristas tr rid a t :
  reserva_aristas (confirmar_espera tr rid a t) = reserva_aristas tr.
Proof. reflexivity. Qed.

(** * The second loop of a tick *)

(** What one pass of the loop does to a robot and to the table. *)
Lemma resolver_robot_casos props ts st r st' r' :
  resolver_robot props ts st r = Some (st', r') ->
  (pos r' = pos r
   /\ reserva_aristas (res_tabla st') = reserva_aristas (res_tabla st)
   /\ res_movio_alguien st' = res_movio_alguien st
   /\ estado r' = estado r)
  \/ (pos r' ≠ pos r
      /\ props !! robot_id r = Some (pos r')
      /\ puede_moverse (res_tabla st) (pos r) (pos r') ts = true
      /\ res_tabla st' = confirmar_movimiento (res_tabla st) (robot_id r) (pos r) (pos r') ts
      /\ res_movio_alguien st' = true
      /\ estado r' = estado r).
Proof.
  unfold resolver_robot. destruct (props !! robot_id r) as [sig|]; [|done]. simpl.
  case_decide as Heq.
  - intros [= <- <-]. left. done.
  - destruct (puede_moverse (res_tabla st) (pos r) sig ts) eqn:Hp.
    + intros [= <- <-]. right. simpl. done.
    + intros [= <- <-]. left. done.
Qed.

Lemma resolver_robot_mono props ts st r st' r' a b t :
  resolver_robot props ts st r = Some (st', r') ->
  arista_reservada (res_tabla st) a b t -> arista_reservada (res_tabla st') a b t.
Proof.
  intros H Hres. apply resolver_robot_casos in H as [(_ & He & _)|(_ & _ & _ & -> & _)].
  - unfold arista_reservada. by rewrite He.
  - by apply confirmar_movimiento_mono.
Qed.

Lemma resolver_cons props ts st r rs st' rs' :
  resolver props ts st (r :: rs) = Some (st', rs') ->
  exists st1 r1 rs1, resolver_robot props ts st r = Some (st1, r1)
    /\ resolver props ts st1 rs = Some (st', rs1) /\ rs' = r1 :: rs1.
Proof.
  simpl. destruct (resolver_robot props ts st r) as [[st1 r1]|]; [|done]. simpl.
  destruct (resolver props ts st1 rs) as [[st2 rs2]|] eqn:H2; [|done]. simpl.
  intros [= <- <-]. by eexists _, _, _.
Qed.

Lemma resolver_length props ts rs : forall st st' rs',
  resolver props ts st rs = Some (st', rs') -> length rs' = length rs.
Proof.
  induction rs as [|r rs IH]; intros st st' rs' H.
  - by injection H as <- <-.
  - apply resolver_cons in H as (st1 & r1 & rs1 & _ & H2 & ->).
    simpl. f_equal. by eapply IH.
Qed.

Lemma resolver_mono props ts rs : forall st st' rs' a b t,
  resolver props ts st rs = Some (st', rs') ->
  arista_reservada (res_tabla st) a b t -> arista_reservada (res_tabla st') a b t.
Proof.
  induction rs as [|r rs IH]; intros st st' rs' a b t H Hres.
  - by injection H as <- <-.
  - apply resolver_cons in H as (st1 & r1 & rs1 & H1 & H2 & ->).
    eapply IH; [done|]. by eapply resolver_robot_mono.
Qed.

(** A robot that moves found the opposite edge free, so it was free when
    the loop began, and it leaves its own edge booked. *)
Lemma resolver_movido props ts rs : forall st st' rs' j r r',
  resolver props ts st rs = Some (st', rs') ->
  rs !! j = Some r -> rs' !! j = Some r' -> pos r' ≠ pos r ->
  ~ arista_reservada (res_tabla st) (pos r') (pos r) ts
  /\ arista_reservada (res_tabla st') (pos r) (pos r') ts.
Proof.
  induction rs as [|r0 rs IH]; intros st st' rs' j r r' H Hj Hj' Hmov; [done|].
  apply resolver_cons in H as (st1 & r1 & rs1 & H1 & H2 & ->).
  destruct j as [|j]; simpl in Hj, Hj'.
  - injection Hj as ->. injection Hj' as ->.
    pose proof H1 as Hc. apply resolver_robot_casos in Hc as [(Hp & _)|(_ & _ & Hpm & Htab & _)]; [done|].
    split; [by apply puede_moverse_arista|].
    eapply resolver_mono; [done|]. rewrite Htab. apply confirmar_movimiento_arista.
  - destruct (IH st1 st' rs1 j r r' H2 Hj Hj' Hmov) as [Hlibre Hres].
    split; [|done]. intros Hr. apply Hlibre. by eapply resolver_robot_mono.
Qed.

Lemma resolver_sin_intercambio props ts rs : forall st st' rs' i j ri rj ri' rj',
  resolver props ts st rs = Some (st', rs') -> (i < j)%nat ->
  rs !! i = Some ri -> rs !! j = Some rj ->
  rs' !! i = Some ri' -> rs' !! j = Some rj' ->
  pos ri ≠ pos rj ->
  ~ (pos ri' = pos rj /\ pos rj' = pos ri).
Proof.
  induction rs as [|r0 rs IH]; intros st st' rs' i j ri rj ri' rj' H Hij Hi Hj Hi' Hj' Hne;
    [done|].
  apply resolver_cons in H as (st1 & r1 & rs1 & H1 & H2 & ->).
  destruct j as [|j]; [lia|]. simpl in Hj, Hj'.
  destruct i as [|i]; simpl in Hi, Hi'.
  - injection Hi as ->. injection Hi' as ->. intros [Hsw1 Hsw2].
    pose proof H1 as Hc.
    apply resolver_robot_casos in Hc as [(Hp & _)|(_ & _ & _ & Htab & _)]; [congruence|].
    assert (pos rj' ≠ pos rj) as Hmov by congruence.
    destruct (resolver_movido props ts rs st1 st' rs1 j rj rj' H2 Hj Hj' Hmov) as [Hlibre _].
    apply Hlibre. rewrite Htab, Hsw2, <- Hsw1. apply confirmar_movimiento_arista.
  - eapply (IH st1 st' rs1 i j); eauto. lia.
Qed.

(** * What the phases of a tick leave alone *)

Lemma marco_refl s : marco s s.
Proof. by repeat split. Qed.

Lemma marco_trans s1 s2 s3 : marco s1 s2 -> marco s2 s3 -> marco s1 s3.
Proof.
  unfold marco. intros (?&?&?&?&?&?&?&?&?&?) (?&?&?&?&?&?&?&?&?&?).
  repeat split; congruence.
Qed.

Lemma marco_con_cola s ps pend : marco s (con_cola s ps pend).
Proof. by repeat split. Qed.

Lemma marco_con_robots s rs : marco s (con_robots s rs).
Proof. by repeat split. Qed.

Lemma liberar_pedidos_marco s s1 :
  liberar_pedidos s = Some s1 ->
  marco s s1 /\ lista_robots s1 = lista_robots s /\ pedidos s1 = pedidos s.
Proof.
  unfold liberar_pedidos.
  destruct (liberar_bucle _ _ _ _) as [[nl pe]|]; [|done]. simpl.
  intros [= <-]. by repeat split.
Qed.

(** ** One attempt of assignment, case by case *)

Lemma asignar_robot_casos s r s' r' i :
  asignar_robot s r = Some (s', r', i) <-> AsignarCaso s r s' r' i.
Proof.
  split.
  - unfold asignar_robot.
    destruct (elegir_pedido s r) as [[mi|]|] eqn:He; simpl; [| |done].
    2:{ intros [= <- <- <-]. by constructor. }
    destruct (pedidos s !! mi) as [p|] eqn:Hp; simpl; [|done].
    destruct (lista_remove mi (pendientes s)) as [pend1|] eqn:Hrem; simpl; [|done].
    destruct (anaquel_home s !! anaquel_id p) as [ah|] eqn:Hah; simpl; [|done].
    destruct (estacion_dock s !! estacion_id p) as [ed|] eqn:Hed; simpl; [|done].
    destruct (elegir_objetivo_adyacente (grid s) ah) as [pickup|] eqn:Hpk.
    + destruct (AEstrella.a_estrella (grid s) (pos r) pickup) as [l|] eqn:Hl.
      * intros [= <- <- <-]. by eapply caso_asignado.
      * intros [= <- <- <-]. by eapply caso_sin_ruta.
    + intros [= <- <- <-]. by eapply caso_sin_pickup.
  - intros H. unfold asignar_robot. destruct H as
      [He|mi p pend1 ah ed He Hp Hrem Hah Hed Hpk
         |mi p pend1 ah ed pickup He Hp Hrem Hah Hed Hpk Hl
         |mi p pend1 ah ed pickup l He Hp Hrem Hah Hed Hpk Hl];
      rewrite He; simpl; [done| | |];
      rewrite Hp; simpl; rewrite Hrem; simpl; rewrite Hah; simpl; rewrite Hed; simpl;
      rewrite Hpk; [done| |]; simpl; by rewrite Hl.
Qed.

Lemma asignar_robot_marco s r s' r' i :
  asignar_robot s r = Some (s', r', i) ->
  marco s s' /\ lista_robots s' = lista_robots s
  /\ no_liberados s' = no_liberados s
  /\ pos r' = pos r /\ robot_id r' = robot_id r
  /\ length (pedidos s') = length (pedidos s).
Proof.
  intros H. apply asignar_robot_casos in H. destruct H; simpl;
    rewrite ?length_insert; repeat split; done.
Qed.

(** ** Leg transitions, case by case *)

Lemma completar_pedido_length t pid ps :
  length (completar_pedido t pid ps) = length ps.
Proof.
  induction ps as [|p ps IH]; simpl; [done|].
  destruct (pedido_id p =? pid); simpl; congruence.
Qed.

Lemma planear_casos s ps r ps' r' :
  planear_siguiente_tramo_si_llego s ps r = Some (ps', r') ->
  PlanearCaso s ps r ps' r'.
Proof.
  unfold planear_siguiente_tramo_si_llego.
  destruct (es_vacia (ruta r) || _); [intros [= <- <-]; constructor|].
  destruct (estado r) eqn:He.
  - intros [= <- <-]. constructor.
  - simpl. destruct (r_estacion_dock r) as [dock|]; simpl; [|done].
    destruct (AEstrella.a_estrella (grid s) (pos r) dock) as [l|] eqn:Hl.
    + intros [= <- <-]. by eapply plan_tramo; [| |done]; [done | congruence].
    + intros [= <- <-]. by apply plan_reintento; [| |congruence].
  - simpl. destruct (r_anaquel_home r) as [ah|]; simpl.
    + destruct (elegir_objetivo_adyacente (grid s) ah) as [pk|].
      * destruct (AEstrella.a_estrella (grid s) (pos r) pk) as [l|] eqn:Hl.
        -- intros [= <- <-]. by eapply plan_tramo; [| |done]; [done | congruence].
        -- intros [= <- <-]. by apply plan_reintento; [| |congruence].
      * intros [= <- <-]. by apply plan_reintento; [| |congruence].
    + intros [= <- <-]. by apply plan_reintento; [| |congruence].
  - intros [= <- <-]. apply plan_fin.
    destruct (r_pedido_id r); [apply completar_pedido_length | done].
Qed.

(** * Relating the robots before and after each loop *)

Section Relacion.

Variable R : Robot -> Robot -> Prop.
Hypothesis R_refl : forall r, R r r.
Hypothesis R_trans : forall r1 r2 r3, R r1 r2 -> R r2 r3 -> R r1 r3.

Lemma Forall2_R_refl rs : Forall2 R rs rs.
Proof. induction rs; constructor; auto. Qed.

Lemma Forall2_R_trans rs1 rs2 rs3 :
  Forall2 R rs1 rs2 -> Forall2 R rs2 rs3 -> Forall2 R rs1 rs3.
Proof.
  intros H. revert rs3. induction H; intros rs3 H3; inversion H3; subst;
    constructor; eauto.
Qed.

Variable g : Grid.

Lemma asignar_bucle_rel :
  (forall s r s' r' i, grid s = g -> estado r = INACTIVO ->
     asignar_robot s r = Some (s', r', i) -> R r r') ->
  forall rs s s' rs', grid s = g -> asignar_bucle s rs = Some (s', rs') ->
  Forall2 R rs rs' /\ marco s s'.
Proof.
  intros HA. induction rs as [|r rs IH]; intros s s' rs' Hg H; simpl in H.
  - injection H as <- <-. split; [constructor | apply marco_refl].
  - case_decide as He.
    + destruct (pendientes s) eqn:Hpend.
      * injection H as <- <-. split; [apply Forall2_R_refl | apply marco_refl].
      * destruct (asignar_robot s r) as [[[s1 r1] i]|] eqn:Hr; [|done]. simpl in H.
        destruct (asignar_bucle s1 rs) as [[s2 rs2]|] eqn:Hb; [|done]. simpl in H.
        injection H as <- <-.
        destruct (asignar_robot_marco _ _ _ _ _ Hr) as (Hm & _).
        destruct (IH s1 s2 rs2) as [HF Hm2]; [destruct Hm; congruence | done |].
        split; [constructor; eauto | by eapply marco_trans].
    + destruct (asignar_bucle s rs) as [[s2 rs2]|] eqn:Hb; [|done]. simpl in H.
      injection H as <- <-. destruct (IH s s2 rs2) as [HF Hm2]; [done | done |].
      split; [constructor; auto | done].
Qed.

Lemma asignar_pedidos_rel :
  (forall s r s' r' i, grid s = g -> estado r = INACTIVO ->
     asignar_robot s r = Some (s', r', i) -> R r r') ->
  forall s s', grid s = g -> asignar_pedidos s = Some s' ->
  Forall2 R (lista_robots s) (lista_robots s') /\ marco s s'.
Proof.
  intros HA s s' Hg. unfold asignar_pedidos.
  destruct (es_vacia _ || es_vacia _).
  - intros [= <-]. split; [apply Forall2_R_refl | apply marco_refl].
  - destruct (asignar_bucle s (lista_robots s)) as [[s1 rs]|] eqn:Hb; [|done].
    simpl. intros [= <-].
    destruct (asignar_bucle_rel HA _ _ _ _ Hg Hb) as [HF Hm].
    split; [done|]. eapply marco_trans; [done | apply marco_con_robots].
Qed.

Lemma proponer_rel s :
  grid s = g ->
  (forall r, R r (mas_ocupado r)) ->
  (forall ps r ps' r',
     planear_siguiente_tramo_si_llego s ps r = Some (ps', r') -> R r r') ->
  forall rs ps props ps' props' rs',
    proponer s ps props rs = Some (ps', props', rs') -> Forall2 R rs rs'.
Proof.
  intros Hg HO HP. induction rs as [|r rs IH]; intros ps props ps' props' rs' H;
    simpl in H.
  - injection H as <- <- <-. constructor.
  - destruct (planear_siguiente_tramo_si_llego s ps _) as [[ps1 r2]|] eqn:Hpl; [|done].
    simpl in H. destruct (propuesta r2) as [c|]; [|done]. simpl in H.
    destruct (proponer s ps1 _ rs) as [[[ps2 props2] rs2]|] eqn:Hrec; [|done].
    simpl in H. injection H as <- <- <-. constructor; [|by eapply IH].
    apply HP in Hpl. case_bool_decide; eauto.
Qed.

Lemma resolver_rel props ts :
  (forall st r st' r', resolver_robot props ts st r = Some (st', r') -> R r r') ->
  forall rs st st' rs', resolver props ts st rs = Some (st', rs') -> Forall2 R rs rs'.
Proof.
  intros HR. induction rs as [|r rs IH]; intros st st' rs' H.
  - injection H as <- <-. constructor.
  - apply resolver_cons in H as (st1 & r1 & rs1 & H1 & H2 & ->).
    constructor; eauto.
Qed.

End Relacion.

(** The proposals recorded by the first loop. *)
Lemma proponer_propuestas (Q : Celda -> Prop) s :
  forall rs ps props ps' props' rs',
    proponer s ps props rs = Some (ps', props', rs') ->
    (forall k c, props !! k = Some c -> Q c) ->
    Forall (fun r => forall c, propuesta r = Some c -> Q c) rs' ->
    forall k c, props' !! k = Some c -> Q c.
Proof.
  induction rs as [|r rs IH]; intros ps props ps' props' rs' H Hprops Hrs'; simpl in H.
  - by injection H as <- <- <-.
  - destruct (planear_siguiente_tramo_si_llego s ps _) as [[ps1 r2]|] eqn:Hpl; [|done].
    simpl in H. destruct (propuesta r2) as [c|] eqn:Hc; [|done]. simpl in H.
    destruct (proponer s ps1 _ rs) as [[[ps2 props2] rs2]|] eqn:Hrec; [|done].
    simpl in H. injection H as <- <- <-. apply Forall_cons in Hrs' as [Hr2 Hrs2].
    eapply IH; [done| |done].
    intros k c'. destruct (decide (robot_id r2 = k)) as [->|Hk].
    + rewrite lookup_insert_eq. intros [= <-]. by apply Hr2.
    + rewrite lookup_insert_ne by done. apply Hprops.
Qed.

Lemma proponer_pedidos s :
  forall rs ps props ps' props' rs',
    proponer s ps props rs = Some (ps', props', rs') -> length ps' = length ps.
Proof.
  induction rs as [|r rs IH]; intros ps props ps' props' rs' H; simpl in H.
  - by injection H as <- <- <-.
  - destruct (planear_siguiente_tramo_si_llego s ps _) as [[ps1 r2]|] eqn:Hpl; [|done].
    simpl in H. destruct (propuesta r2) as [c|] eqn:Hc; [|done]. simpl in H.
    destruct (proponer s ps1 _ rs) as [[[ps2 props2] rs2]|] eqn:Hrec; [|done].
    simpl in H. injection H as <- <- <-. apply IH in Hrec. rewrite Hrec.
    apply planear_casos in Hpl. by destruct Hpl.
Qed.

(** ** The tick, phase by phase *)

Lemma step_fases s s' :
  step s = Some s' ->
  exists s1 s2 ps3 props rs3 st,
    liberar_pedidos s = Some s1 /\ asignar_pedidos s1 = Some s2
    /\ proponer s2 (pedidos s2) ∅ (lista_robots s2) = Some (ps3, props, rs3)
    /\ resolver props (tick s2 + 1)
         {| res_tabla := tabla_reservas s2; res_movio_alguien := false;
            res_eventos_alto := eventos_alto s2 |} rs3
       = Some (st, lista_robots s')
    /\ grid s' = grid s2 /\ estacion_dock s' = estacion_dock s2
    /\ anaquel_home s' = anaquel_home s2 /\ seed s' = seed s2
    /\ pedidos s' = ps3 /\ tick s' = tick s2 + 1
    /\ tabla_reservas s' = res_tabla st
    /\ conteo_deadlock s' =
         (if negb (res_movio_alguien st) && alguno_ocupado (lista_robots s')
          then conteo_deadlock s2 + 1 else conteo_deadlock s2)
    /\ eventos_alto s' = res_eventos_alto st
    /\ pendientes s' = pendientes s2 /\ no_liberados s' = no_liberados s2
    /\ colisiones_vertice s' = colisiones_vertice s2
    /\ intercambios_arista s' = intercambios_arista s2.
Proof.
  unfold step.
  destruct (liberar_pedidos s) as [s1|] eqn:H1; [|done]. simpl.
  destruct (asignar_pedidos s1) as [s2|] eqn:H2; [|done]. simpl.
  destruct (proponer s2 _ _ _) as [[[ps3 props] rs3]|] eqn:H3; [|done]. simpl.
  destruct (resolver _ _ _ _) as [[st rs4]|] eqn:H4; [|done]. simpl.
  intros [= <-]. simpl. exists s1, s2, ps3, props, rs3, st. by repeat split.
Qed.

(** * Positions before the second loop *)

Lemma planear_mismo_lugar s ps r ps' r' :
  planear_siguiente_tramo_si_llego s ps r = Some (ps', r') -> mismo_lugar r r'.
Proof. intros H. apply planear_casos in H. by destruct H. Qed.

Lemma mismo_lugar_trans r1 r2 r3 :
  mismo_lugar r1 r2 -> mismo_lugar r2 r3 -> mismo_lugar r1 r3.
Proof. unfold mismo_lugar. intros [? ?] [? ?]. split; congruence. Qed.

Lemma step_antes_de_resolver s s' :
  step s = Some s' ->
  exists props rs3 st s2,
    Forall2 mismo_lugar (lista_robots s) rs3
    /\ marco s s2
    /\ resolver props (tick s + 1)
         {| res_tabla := tabla_reservas s; res_movio_alguien := false;
            res_eventos_alto := eventos_alto s |} rs3
       = Some (st, lista_robots s')
    /\ tabla_reservas s' = res_tabla st
    /\ tick s' = tick s + 1
    /\ grid s' = grid s
    /\ conteo_deadlock s' =
         (if negb (res_movio_alguien st) && alguno_ocupado (lista_robots s')
          then conteo_deadlock s + 1 else conteo_deadlock s).
Proof.
  intros H. apply step_fases in H
    as (s1 & s2 & ps3 & props & rs3 & st & H1 & H2 & H3 & H4 & Hg & _ & _ & _ & _
        & Ht & Htab & Hdl & _).
  apply liberar_pedidos_marco in H1 as (Hm1 & Hr1 & _).
  destruct (asignar_pedidos_rel mismo_lugar ltac:(done) mismo_lugar_trans (grid s1)
              ltac:(intros ????? _ _ Ha; apply asignar_robot_marco in Ha; by destruct Ha as (_&_&_&?&?&_))
              s1 s2 eq_refl H2) as [HF2 Hm2].
  pose proof (proponer_rel mismo_lugar ltac:(done) mismo_lugar_trans (grid s2) s2 eq_refl
                ltac:(done) ltac:(intros ????; apply planear_mismo_lugar)
                _ _ _ _ _ _ H3) as HF3.
  pose proof (marco_trans _ _ _ Hm1 Hm2) as Hm.
  destruct Hm as (Hgr & _ & _ & _ & Htk & Htb & _ & _ & Hcd & Hev).
  exists props, rs3, st, s2. rewrite <- Htk, <- Htb, <- Hev, <- Hcd.
  split; [|by repeat split; try congruence; apply (marco_trans _ _ _ Hm1 Hm2)].
  rewrite <- Hr1.
  eapply Forall2_R_trans; [apply mismo_lugar_trans | done | done].
Qed.

(** * No swap *)

Lemma step_sin_intercambio_orden s s' i j ri rj ri' rj' :
  step s = Some s' -> (i < j)%nat ->
  lista_robots s !! i = Some ri -> lista_robots s !! j = Some rj ->
  lista_robots s' !! i = Some ri' -> lista_robots s' !! j = Some rj' ->
  pos ri ≠ pos rj ->
  ~ (pos ri' = pos rj /\ pos rj' = pos ri).
Proof.
  intros H Hij Hi Hj Hi' Hj' Hne.
  apply step_antes_de_resolver in H as (props & rs3 & st & s2 & HF & _ & Hres & _).
  destruct (Forall2_lookup_l _ _ _ _ _ HF Hi) as (qi & Hqi & [Hpi _]).
  destruct (Forall2_lookup_l _ _ _ _ _ HF Hj) as (qj & Hqj & [Hpj _]).
  rewrite <- Hpi, <- Hpj in *.
  by eapply (resolver_sin_intercambio props _ rs3 _ _ _ i j qi qj ri' rj').
Qed.

(** * The deadlock counter *)

Lemma resolver_movio props ts rs : forall st st' rs',
  resolver props ts st rs = Some (st', rs') ->
  res_movio_alguien st' =
  res_movio_alguien st || negb (bool_decide (pos <$> rs' = pos <$> rs)).
Proof.
  induction rs as [|r rs IH]; intros st st' rs' H.
  - injection H as <- <-. simpl. by rewrite orb_false_r.
  - apply resolver_cons in H as (st1 & r1 & rs1 & H1 & H2 & ->).
    rewrite (IH _ _ _ H2). rewrite !fmap_cons.
    apply resolver_robot_casos in H1 as [(Hp & _ & Hm & _)|(Hp & _ & _ & _ & Hm & _)].
    + rewrite Hm. f_equal. f_equal. apply bool_decide_ext. rewrite Hp.
      split; [by intros -> | by intros [= ->]].
    + rewrite Hm. simpl. rewrite bool_decide_eq_false_2; [by rewrite orb_true_r|].
      intros [= ? _]. done.
Qed.

Lemma resolver_estados props ts rs st st' rs' :
  resolver props ts st rs = Some (st', rs') -> estado <$> rs' = estado <$> rs.
Proof.
  intros H.
  assert (Forall2 (fun r r' => estado r' = estado r) rs rs') as HF.
  { eapply resolver_rel; [| done]. intros ???? Hc.
    apply resolver_robot_casos in Hc. by destruct Hc as [(_&_&_&?)|(_&_&_&_&_&?)]. }
  clear H. induction HF; simpl; [done|]. by f_equal.
Qed.

Lemma mismo_lugar_posiciones rs rs' :
  Forall2 mismo_lugar rs rs' -> pos <$> rs' = pos <$> rs.
Proof. intros HF. induction HF as [|r r' rs rs' [Hp _] _ IH]; simpl; [done|]. by f_equal. Qed.

Lemma step_deadlock s s' :
  step s = Some s' ->
  conteo_deadlock s' =
  if bool_decide (obtener_posiciones_robots s' = obtener_posiciones_robots s)
     && alguno_ocupado (lista_robots s')
  then conteo_deadlock s + 1 else conteo_deadlock s.
Proof.
  intros H.
  apply step_antes_de_resolver in H as (props & rs3 & st & s2 & HF & _ & Hres & _ & _ & _ & ->).
  rewrite (resolver_movio _ _ _ _ _ _ Hres). simpl.
  rewrite negb_involutive. unfold obtener_posiciones_robots.
  by rewrite (mismo_lugar_posiciones _ _ HF).
Qed.

(** * Invariants of a run *)

(** How an invariant of the robots is carried through a tick: [P] is kept
    by every update of a robot, given that the cell of a move satisfies
    [Q], which every proposal does. *)
Section Invariante.

Variable g : Grid.
Variable P : Robot -> Prop.
Variable Q : Celda -> Prop.

Hypothesis P_asignar : forall s r s' r' i,
  grid s = g -> estado r = INACTIVO -> P r ->
  asignar_robot s r = Some (s', r', i) -> P r'.
Hypothesis P_ocupado : forall r, P r -> P (mas_ocupado r).
Hypothesis P_planear : forall s ps r ps' r',
  grid s = g -> P r ->
  planear_siguiente_tramo_si_llego s ps r = Some (ps', r') -> P r'.
Hypothesis P_propuesta : forall r c, P r -> propuesta r = Some c -> Q c.
Hypothesis P_avanzar : forall r c, P r -> Q c -> P (avanzar r c).
Hypothesis P_espera : forall r, P r -> P (mas_espera r).

Lemma lleva_Forall rs rs' : Forall2 (lleva P) rs rs' -> Forall P rs -> Forall P rs'.
Proof.
  intros HF. induction HF as [|r r' rs rs' Hr _ IH]; intros HP; [done|].
  apply Forall_cons in HP as [? ?]. constructor; auto.
Qed.

Lemma lleva_trans r1 r2 r3 : (lleva P) r1 r2 -> (lleva P) r2 r3 -> (lleva P) r1 r3.
Proof. unfold lleva. auto. Qed.

Lemma resolver_robot_lleva props ts st r st' r' :
  (forall k c, props !! k = Some c -> Q c) ->
  resolver_robot props ts st r = Some (st', r') -> (lleva P) r r'.
Proof.
  intros Hprops. unfold resolver_robot.
  destruct (props !! robot_id r) as [sig|] eqn:Hs; [|done]. simpl.
  case_decide; [intros [= <- <-]; by intros ?|].
  destruct (puede_moverse _ _ _ _); intros [= <- <-] HP.
  - apply P_avanzar; [done|]. by eapply Hprops.
  - by apply P_espera.
Qed.

Lemma step_invariante s s' :
  grid s = g -> step s = Some s' ->
  Forall P (lista_robots s) -> Forall P (lista_robots s').
Proof.
  intros Hg H HP. apply step_fases in H
    as (s1 & s2 & ps3 & props & rs3 & st & H1 & H2 & H3 & H4 & _).
  apply liberar_pedidos_marco in H1 as ((Hg1 & _) & Hr1 & _).
  rewrite <- Hr1 in HP.
  destruct (asignar_pedidos_rel (lleva P) ltac:(by intros ? ?) lleva_trans g
              ltac:(intros ????? ? ? Ha ?; eapply P_asignar; eauto)
              s1 s2 ltac:(congruence) H2) as [HF2 (Hg2 & _)].
  pose proof (lleva_Forall _ _ HF2 HP) as HP2.
  pose proof (proponer_rel (lleva P) ltac:(by intros ? ?) lleva_trans g s2 ltac:(congruence)
                P_ocupado
                ltac:(intros ???? Hpl ?; eapply (P_planear s2); eauto; congruence)
                _ _ _ _ _ _ H3) as HF3.
  pose proof (lleva_Forall _ _ HF3 HP2) as HP3.
  assert (forall k c, props !! k = Some c -> Q c) as Hprops.
  { eapply (proponer_propuestas Q); [done | by intros ?? ?%lookup_empty_Some |].
    eapply Forall_impl; [done|]. intros r Hr c. by apply P_propuesta. }
  eapply lleva_Forall; [|done].
  eapply resolver_rel; [|done].
  intros ????. by apply resolver_robot_lleva.
Qed.

Lemma step_grid s s' : step s = Some s' -> grid s' = grid s.
Proof.
  intros H. by apply step_antes_de_resolver in H as (_&_&_&_&_&_&_&_&_&?&_).
Qed.

Lemma run_grid n : forall s s', run n s = Some s' -> grid s' = grid s.
Proof.
  induction n as [|n IH]; intros s s' H; simpl in H; [by injection H as <-|].
  destruct (step s) as [s1|] eqn:Hs; [|done]. simpl in H.
  rewrite (IH _ _ H). by apply step_grid.
Qed.

Lemma run_invariante n : forall s s',
  grid s = g -> run n s = Some s' ->
  Forall P (lista_robots s) -> Forall P (lista_robots s').
Proof.
  induction n as [|n IH]; intros s s' Hg H HP; simpl in H; [by injection H as <-|].
  destruct (step s) as [s1|] eqn:Hs; [|done]. simpl in H.
  eapply (IH s1); [|done|].
  - rewrite <- Hg. by apply step_grid.
  - by eapply step_invariante.
Qed.

End Invariante.

(** ** The idle robots *)

Lemma asignar_robot_libre s r s' r' i :
  estado r = INACTIVO -> robot_libre r ->
  asignar_robot s r = Some (s', r', i) -> robot_libre r'.
Proof.
  intros He Hl H. apply asignar_robot_casos in H.
  destruct H; [done| | |]; intros He'; simpl in *; try done;
    by destruct (Hl He) as (_&_&_&?).
Qed.

Lemma planear_libre s ps r ps' r' :
  robot_libre r ->
  planear_siguiente_tramo_si_llego s ps r = Some (ps', r') -> robot_libre r'.
Proof.
  intros Hl H. apply planear_casos in H. destruct H; [done| | |]; intros He'; done.
Qed.

Lemma run_libre n s s' :
  run n s = Some s' ->
  Forall robot_libre (lista_robots s) -> Forall robot_libre (lista_robots s').
Proof.
  apply (run_invariante (grid s) robot_libre (fun _ => True)); auto;
    [intros ????? _; apply asignar_robot_libre
    |intros ????? _; apply planear_libre].
Qed.

(** ** The robots stay on passable cells *)

Lemma asignar_robot_en_grid s r s' r' i :
  robot_en_grid (grid s) r ->
  asignar_robot s r = Some (s', r', i) -> robot_en_grid (grid s) r'.
Proof.
  intros [Hp Hr] H. apply asignar_robot_casos in H.
  destruct H as [| | |????? pickup l _ _ _ _ _ _ Hl]; try done.
  split; [done|]. simpl. apply a_estrella_es_ruta in Hl. apply Hl.
Qed.

Lemma planear_en_grid s ps r ps' r' :
  robot_en_grid (grid s) r ->
  planear_siguiente_tramo_si_llego s ps r = Some (ps', r') ->
  robot_en_grid (grid s) r'.
Proof.
  intros [Hp Hr] H. apply planear_casos in H.
  destruct H as [| |e c l _ _ Hl|]; try done.
  split; [done|]. simpl. apply a_estrella_es_ruta in Hl. apply Hl.
Qed.

Lemma propuesta_en_grid g r c :
  robot_en_grid g r -> propuesta r = Some c -> pasable g c = true.
Proof.
  intros [Hp Hr]. unfold propuesta.
  destruct (bool_decide _ || es_vacia _); [by intros [= <-]|].
  destruct (_ <? _); [|by intros [= <-]].
  intros Hc. rewrite Forall_forall in Hr. apply Hr.
  by eapply list_elem_of_lookup_2.
Qed.

Lemma run_en_grid n s s' :
  run n s = Some s' ->
  Forall (robot_en_grid (grid s)) (lista_robots s) ->
  Forall (robot_en_grid (grid s)) (lista_robots s').
Proof.
  apply (run_invariante (grid s) (robot_en_grid (grid s))
           (fun c => pasable (grid s) c = true)); auto.

  - intros ????? <- _. apply asignar_robot_en_grid.
  - intros ????? <-. apply planear_en_grid.
  - intros r c. apply propuesta_en_grid.
  - intros r c [? ?] ?. by split.
Qed.

(** * Construction *)

Lemma construir_robots g ed ah robots spawn ps sd s :
  construir g ed ah robots spawn ps sd = Some s ->
  ~ (Z.of_nat (length spawn) < robots)
  /\ grid s = g /\ tick s = 0 /\ seed s = sd /\ pedidos s = ps
  /\ tabla_reservas s = reservar_iniciales (lista_robots s)
  /\ length (lista_robots s) = Z.to_nat robots
  /\ forall i r, lista_robots s !! i = Some r <->
       (i < Z.to_nat robots)%nat /\ exists c, spawn !! i = Some c /\ r = crear_robot i c.
Proof.
  unfold construir. destruct (_ <? _) eqn:Hlt; [done|]. apply Z.ltb_ge in Hlt.
  destruct (mapM _ _) as [lista|] eqn:Hm; [|done]. simpl. intros [= <-]. simpl.
  apply mapM_Some in Hm. pose proof (Forall2_length _ _ _ Hm) as Hlen.
  rewrite length_seq in Hlen.
  split; [lia|]. do 5 (split; [done|]). split; [done|].
  intros i r. split.
  - intros Hi. pose proof (lookup_lt_Some _ _ _ Hi) as Hil.
    split; [lia|].
    destruct (Forall2_lookup_r _ _ _ _ _ Hm Hi) as (j & Hj & Hf).
    apply lookup_seq in Hj as [-> _]. simpl in Hf.
    destruct (spawn !! i) as [c|]; [|done]. injection Hf as <-. by exists c.
  - intros (Hi & c & Hc & ->).
    destruct (Forall2_lookup_l _ _ _ i i Hm) as (r & Hr & Hf).
    { apply lookup_seq. split; [done | lia]. }
    rewrite Hc in Hf. simpl in Hf. by injection Hf as <-.
Qed.

Lemma construir_Some g ed ah robots spawn ps sd :
  robots <= Z.of_nat (length spawn) ->
  is_Some (construir g ed ah robots spawn ps sd).
Proof.
  intros Hle. unfold construir. rewrite (proj2 (Z.ltb_ge _ _)) by lia.
  destruct (mapM_is_Some_2 (fun i => crear_robot i <$> spawn !! i)
              (seq 0 (Z.to_nat robots))) as [lista ->]; [|by eexists].
  apply Forall_forall. intros i Hi. apply elem_of_seq in Hi. simpl.
  destruct (lookup_lt_is_Some_2 spawn i) as [c ->]; [lia | by eexists].
Qed.

Lemma construir_None g ed ah robots spawn ps sd :
  construir g ed ah robots spawn ps sd = None <-> Z.of_nat (length spawn) < robots.
Proof.
  split.
  - intros Hn. destruct (decide (Z.of_nat (length spawn) < robots)); [done|].
    destruct (construir_Some g ed ah robots spawn ps sd) as [s Hs]; [lia | congruence].
  - intros Hlt. unfold construir. by rewrite (proj2 (Z.ltb_lt _ _)).
Qed.

(** The reservation of a cell at tick 0 names the last robot placed on it. *)
Lemma reservar_iniciales_ultimo rs (c : Celda) k :
  reserva_celdas (reservar_iniciales rs) !! (c.1, c.2, 0) = Some k <->
  exists i r, rs !! i = Some r /\ pos r = c /\ robot_id r = k
    /\ forall j r', (i < j)%nat -> rs !! j = Some r' -> pos r' ≠ c.
Proof.
  unfold reservar_iniciales. induction rs as [|r rs IH] using rev_ind.
  - simpl. rewrite lookup_empty. split; [done | by intros (i & r & ? & _)].
  - rewrite foldl_snoc. unfold confirmar_espera at 1, reservar_celda at 1. simpl.
    destruct (decide (pos r = c)) as [Hrc|Hrc].
    + rewrite Hrc, lookup_insert_eq. split.
      * intros [= <-]. exists (length rs), r. rewrite lookup_app_r, Nat.sub_diag by lia.
        repeat split; [done|]. intros j r' Hj Hr'.
        apply lookup_lt_Some in Hr'. rewrite length_app in Hr'. simpl in Hr'. lia.
      * intros (i & r0 & Hi & Hp & Hid & Hlast).
        destruct (decide (i = length rs)) as [->|Hne].
        -- rewrite lookup_app_r, Nat.sub_diag in Hi by lia. injection Hi as <-.
           by rewrite Hid.
        -- pose proof (lookup_lt_Some _ _ _ Hi) as Hil.
           rewrite length_app in Hil. simpl in Hil.
           exfalso. apply (Hlast (length rs) r); [lia | | done].
           by rewrite lookup_app_r, Nat.sub_diag by lia.
    + rewrite lookup_insert_ne.
      2:{ intros [= H1 H2]. apply Hrc. destruct (pos r), c. simpl in *. congruence. }
      rewrite IH. split.
      * intros (i & r0 & Hi & Hp & Hid & Hlast). exists i, r0.
        split; [by apply lookup_app_l_Some|]. repeat split; [done..|].
        intros j r' Hj Hr'. apply lookup_app_Some in Hr' as [Hr'|[_ Hr']].
        -- by eapply Hlast.
        -- apply list_lookup_singleton_Some in Hr' as [_ <-]. done.
      * intros (i & r0 & Hi & Hp & Hid & Hlast). exists i, r0.
        apply lookup_app_Some in Hi as [Hi|[_ Hi]].
        -- repeat split; [done..|]. intros j r' Hj Hr'.
           apply (Hlast j r' Hj). by apply lookup_app_l_Some.
        -- apply list_lookup_singleton_Some in Hi as [_ <-]. done.
Qed.

(** * The scan of the pending queue *)

Lemma examinar_dist s r mejor pi :
  examinar s r mejor pi =
  match dist_pickup s r pi with
  | None => None
  | Some None => Some mejor
  | Some (Some dist) => if dist <? mejor.2 then Some (Some pi, dist) else Some mejor
  end.
Proof.
  unfold examinar, dist_pickup.
  destruct (pedidos s !! pi) as [p|]; [|done]. simpl.
  destruct (anaquel_home s !! anaquel_id p) as [a|]; [|done]. simpl.
  by destruct (elegir_objetivo_adyacente (grid s) a).
Qed.

(** The neighbours are tried in a fixed order and the first passable one
    is taken. *)
Lemma find_head_filter {A} (f : A -> bool) (l : list A) :
  find f l = head (filter (fun x => f x = true) l).
Proof.
  induction l as [|x l IH]; simpl; [done|].
  rewrite filter_cons. destruct (f x) eqn:Hx.
  - by rewrite decide_True.
  - by rewrite decide_False by congruence.
Qed.

Lemma elegir_objetivo_adyacente_primero g (c : Celda) :
  elegir_objetivo_adyacente g c =
  head (filter (fun n => pasable g n = true)
          [(c.1 + 1, c.2); (c.1 - 1, c.2); (c.1, c.2 + 1); (c.1, c.2 - 1)]).
Proof. unfold elegir_objetivo_adyacente. apply find_head_filter. Qed.

(** What the scan has found after a prefix [l], from the pair
    [(m0, d0)]. *)
Lemma escanear_spec s r l : forall m0 d0 m d,
  escanear s r l (m0, d0) = Some (m, d) ->
  (forall k pi, l !! k = Some pi -> is_Some (dist_pickup s r pi))
  /\ d <= d0
  /\ (forall k pi dp, l !! k = Some pi -> dist_pickup s r pi = Some (Some dp) -> d <= dp)
  /\ ((m = m0 /\ d = d0)
      \/ exists k pi, l !! k = Some pi /\ m = Some pi
           /\ dist_pickup s r pi = Some (Some d) /\ d < d0
           /\ forall k' pi' dp', (k' < k)%nat -> l !! k' = Some pi' ->
                dist_pickup s r pi' = Some (Some dp') -> d < dp').
Proof.
  induction l as [|pi l IH]; intros m0 d0 m d H; simpl in H.
  - injection H as <- <-. split; [done|]. split; [lia|]. split; [done|]. by left.
  - rewrite examinar_dist in H. simpl in H.
    destruct (dist_pickup s r pi) as [[dist|]|] eqn:Hd; [| |done]; simpl in H.
    + destruct (dist <? d0) eqn:Hlt.
      * apply Z.ltb_lt in Hlt.
        destruct (IH _ _ _ _ H) as (Hex & Hle & Hmin & Hcase).
        split; [intros [|k] pi' Hk; simpl in Hk; [by simplify_eq | by eapply Hex]|].
        split; [lia|].
        split.
        { intros [|k] pi' dp Hk Hdp; simpl in Hk; [simplify_eq; lia | by eapply Hmin]. }
        right. destruct Hcase as [[-> ->]|(k & pi' & Hk & -> & Hdk & Hlt' & Hprev)].
        -- exists 0%nat, pi. repeat split; try done. intros k' ??? . lia.
        -- exists (S k), pi'. repeat split; try done; [lia|].
           intros [|k'] pi'' dp' Hk' Hl' Hdp'; simpl in Hl'.
           ++ simplify_eq. lia.
           ++ eapply (Hprev k'); eauto. lia.
      * apply Z.ltb_ge in Hlt.
        destruct (IH _ _ _ _ H) as (Hex & Hle & Hmin & Hcase).
        split; [intros [|k] pi' Hk; simpl in Hk; [by simplify_eq | by eapply Hex]|].
        split; [lia|].
        split.
        { intros [|k] pi' dp Hk Hdp; simpl in Hk; [simplify_eq; lia | by eapply Hmin]. }
        destruct Hcase as [[-> ->]|(k & pi' & Hk & -> & Hdk & Hlt' & Hprev)]; [by left|].
        right. exists (S k), pi'. repeat split; try done.
        intros [|k'] pi'' dp' Hk' Hl' Hdp'; simpl in Hl'.
        -- simplify_eq. lia.
        -- eapply (Hprev k'); eauto. lia.
    + destruct (IH _ _ _ _ H) as (Hex & Hle & Hmin & Hcase).
      split; [intros [|k] pi' Hk; simpl in Hk; [by simplify_eq | by eapply Hex]|].
      split; [lia|].
      split.
      { intros [|k] pi' dp Hk Hdp; simpl in Hk; [simplify_eq | by eapply Hmin]. }
      destruct Hcase as [[-> ->]|(k & pi' & Hk & -> & Hdk & Hlt' & Hprev)]; [by left|].
      right. exists (S k), pi'. repeat split; try done.
      intros [|k'] pi'' dp' Hk' Hl' Hdp'; simpl in Hl'.
      * simplify_eq.
      * eapply (Hprev k'); eauto. lia.
Qed.

Lemma examinados_take s : examinados s = take 50 (pendientes s).
Proof.
  unfold examinados. destruct (decide (50 <= length (pendientes s))%nat).
  - by rewrite Nat.min_l.
  - rewrite Nat.min_r by lia. by rewrite !take_ge by lia.
Qed.

Lemma elegir_pedido_spec s r mejor :
  elegir_pedido s r = Some mejor ->
  (forall k pi, examinados s !! k = Some pi -> is_Some (dist_pickup s r pi))
  /\ match mejor with
     | None =>
         forall k pi dp, examinados s !! k = Some pi ->
           dist_pickup s r pi = Some (Some dp) -> 10 ^ 9 <= dp
     | Some mi =>
         exists k d, examinados s !! k = Some mi
           /\ dist_pickup s r mi = Some (Some d) /\ d < 10 ^ 9
           /\ forall k' pi' dp', examinados s !! k' = Some pi' ->
                dist_pickup s r pi' = Some (Some dp') ->
                d <= dp' /\ ((k' < k)%nat -> d < dp')
     end.
Proof.
  unfold elegir_pedido. fold (examinados s).
  destruct (escanear s r (examinados s) (None, 10 ^ 9)) as [[m d]|] eqn:He; [|done].
  simpl. intros [= <-].
  destruct (escanear_spec _ _ _ _ _ _ _ He) as (Hex & Hle & Hmin & Hcase).
  split; [done|].
  destruct Hcase as [[-> ->]|(k & pi & Hk & -> & Hdk & Hlt & Hprev)]; [done|].
  exists k, d. split; [done|]. split; [done|]. split; [done|].
  intros k' pi' dp' Hk' Hdp'. split; [by eapply Hmin|].
  intros Hlt'. by eapply (Hprev k').
Qed.

(** [list.remove] takes out the first occurrence and keeps the rest in
    order. *)
Lemma lista_remove_spec x l l' :
  lista_remove x l = Some l' <->
  exists l1 l2, l = l1 ++ (x :: l2) /\ (x ∉ l1) /\ l' = l1 ++ l2.
Proof.
  revert l'. induction l as [|y l IH]; intros l'; simpl.
  - split; [done|]. intros (l1 & l2 & H & _). by destruct l1.
  - case_decide as Hy.
    + subst y. split.
      * intros [= <-]. exists [], l. split; [done|]. split; [|done].
        apply not_elem_of_nil.
      * intros (l1 & l2 & H & Hnin & ->). destruct l1 as [|z l1]; simpl in *.
        -- by injection H as ->.
        -- injection H as -> _. exfalso. apply Hnin. by left.
    + split.
      * destruct (lista_remove x l) as [l0|] eqn:Hl0; simpl; [|done].
        intros [= <-]. destruct (proj1 (IH l0) eq_refl) as (l1 & l2 & -> & Hnin & ->).
        exists (y :: l1), l2. split; [done|]. split; [|done].
        apply not_elem_of_cons. split; [congruence | done].
      * intros (l1 & l2 & H & Hnin & ->). destruct l1 as [|z l1]; simpl in *.
        -- injection H as ? _. congruence.
        -- injection H as -> ->. apply not_elem_of_cons in Hnin as [_ Hnin].
           rewrite (proj2 (IH (l1 ++ l2))); [done|]. by exists l1, l2.
Qed.

(** * The seed and the deadlock counter are only reported *)

Lemma liberar_pedidos_informe s sd dl :
  liberar_pedidos (con_informe s sd dl)
  = (fun s' => con_informe s' sd dl) <$> liberar_pedidos s.
Proof.
  unfold liberar_pedidos. simpl.
  by destruct (liberar_bucle _ _ _ _) as [[nl pe]|].
Qed.

Lemma escanear_informe s sd dl r l : forall m,
  escanear (con_informe s sd dl) r l m = escanear s r l m.
Proof.
  induction l as [|pi l IH]; intros m; simpl; [done|].
  change (examinar (con_informe s sd dl) r m pi) with (examinar s r m pi).
  destruct (examinar s r m pi); simpl; [apply IH | done].
Qed.

Lemma asignar_robot_informe s sd dl r :
  asignar_robot (con_informe s sd dl) r
  = (fun x => (con_informe x.1.1 sd dl, x.1.2, x.2)) <$> asignar_robot s r.
Proof.
  unfold asignar_robot, elegir_pedido. simpl. rewrite escanear_informe.
  destruct (escanear s r _ _) as [[[mi|] d]|]; simpl; [|done|done].
  destruct (pedidos s !! mi) as [p|]; simpl; [|done].
  destruct (lista_remove mi (pendientes s)) as [pend1|]; simpl; [|done].
  destruct (anaquel_home s !! anaquel_id p) as [ah|]; simpl; [|done].
  destruct (estacion_dock s !! estacion_id p) as [ed|]; simpl; [|done].
  destruct (elegir_objetivo_adyacente (grid s) ah) as [pk|]; [|done].
  by destruct (AEstrella.a_estrella (grid s) (pos r) pk).
Qed.

Lemma asignar_bucle_informe sd dl rs : forall s,
  asignar_bucle (con_informe s sd dl) rs
  = (fun x => (con_informe x.1 sd dl, x.2)) <$> asignar_bucle s rs.
Proof.
  induction rs as [|r rs IH]; intros s; simpl; [done|].
  case_decide.
  - destruct (pendientes s); [done|]. rewrite asignar_robot_informe.
    destruct (asignar_robot s r) as [[[s1 r1] i]|]; simpl; [|done].
    rewrite IH. by destruct (asignar_bucle s1 rs) as [[s2 rs2]|].
  - rewrite IH. by destruct (asignar_bucle s rs) as [[s2 rs2]|].
Qed.

Lemma asignar_pedidos_informe s sd dl :
  asignar_pedidos (con_informe s sd dl)
  = (fun s' => con_informe s' sd dl) <$> asignar_pedidos s.
Proof.
  unfold asignar_pedidos. simpl.
  destruct (es_vacia _ || es_vacia _); [done|].
  rewrite asignar_bucle_informe.
  by destruct (asignar_bucle s (lista_robots s)) as [[s1 rs]|].
Qed.

Lemma proponer_informe s sd dl rs : forall ps props,
  proponer (con_informe s sd dl) ps props rs = proponer s ps props rs.
Proof.
  induction rs as [|r rs IH]; intros ps props; simpl; [done|].
  change (planear_siguiente_tramo_si_llego (con_informe s sd dl))
    with (planear_siguiente_tramo_si_llego s).
  destruct (planear_siguiente_tramo_si_llego s ps _) as [[ps1 r2]|]; simpl; [|done].
  destruct (propuesta r2); simpl; [|done]. by rewrite IH.
Qed.

(** A tick from another seed and another count is the same tick. *)
Lemma step_informe s sd dl :
  step (con_informe s sd dl)
  = (fun s' => con_informe s' sd (dl + (conteo_deadlock s' - conteo_deadlock s)))
      <$> step s.
Proof.
  unfold step. rewrite liberar_pedidos_informe.
  destruct (liberar_pedidos s) as [s1|] eqn:H1; simpl; [|done].
  rewrite asignar_pedidos_informe.
  destruct (asignar_pedidos s1) as [s2|] eqn:H2; simpl; [|done].
  rewrite proponer_informe. simpl.
  destruct (proponer s2 _ _ _) as [[[ps3 props] rs3]|]; simpl; [|done].
  destruct (resolver _ _ _ _) as [[st rs4]|]; simpl; [|done].
  apply liberar_pedidos_marco in H1 as ((_&_&_&_&_&_&_&_&Hd1&_) & _).
  assert (conteo_deadlock s2 = conteo_deadlock s1) as Hd2.
  { destruct (asignar_pedidos_rel (fun _ _ => True) ltac:(done) ltac:(done) (grid s1)
                ltac:(done) s1 s2 eq_refl H2) as [_ Hm]. apply Hm. }
  unfold con_informe. simpl. f_equal. f_equal.
  destruct (negb _ && _); lia.
Qed.

Lemma run_informe n : forall s sd dl,
  run n (con_informe s sd dl)
  = (fun s' => con_informe s' sd (dl + (conteo_deadlock s' - conteo_deadlock s)))
      <$> run n s.
Proof.
  induction n as [|n IH]; intros s sd dl; simpl.
  - f_equal. unfold con_informe. f_equal. lia.
  - rewrite step_informe. destruct (step s) as [s1|]; simpl; [|done].
    rewrite IH. destruct (run n s1) as [s2|]; simpl; [|done].
    f_equal. unfold con_informe. f_equal. lia.
Qed.

Lemma construir_informe g ed ah robots spawn ps sd sd' :
  construir g ed ah robots spawn ps sd'
  = (fun s => con_informe s sd' 0) <$> construir g ed ah robots spawn ps sd.
Proof.
  unfold construir. destruct (_ <? _); [done|].
  by destruct (mapM _ _).
Qed.

(** * Worked examples *)

(** C1. The claim fails on the code: robot 1 is idle and stays on
    [(1, 0)], it has not booked that cell for tick 1 when robot 0 asks for
    it, so robot 0 is let in, and at tick 1 the two robots stand on the
    same cell; no stop is counted and the collision counter stays at 0. *)
Lemma colision_en_el_pasillo :
  step ej_choque = Some ej_choque1
  /\ obtener_posiciones_robots ej_choque = [(0, 0); (1, 0)]
  /\ obtener_estados_robots ej_choque1 = [A_RECOGER; INACTIVO]
  /\ obtener_posiciones_robots ej_choque1 = [(1, 0); (1, 0)]
  /\ tick ej_choque1 = 1
  /\ reserva_celdas (tabla_reservas ej_choque1) !! (1, 0, 1) = Some 1
  /\ eventos_alto ej_choque1 = 0
  /\ colisiones_vertice ej_choque1 = 0.
Proof. vm_compute. repeat split; reflexivity. Qed.

(** In the corridor the robots also meet, on [(4, 0)]: robot 0 moves in
    first, and robot 1, refused the swap, waits where it is. *)
Lemma ej_pasillo_tick_1 :
  step ej_s0 = Some ej_s1
  /\ obtener_posiciones_robots ej_s0 = [(3, 0); (4, 0)]
  /\ obtener_posiciones_robots ej_s1 = [(4, 0); (4, 0)]
  /\ eventos_alto ej_s1 = 1.
Proof. vm_compute. repeat split; reflexivity. Qed.

(** C2. No two robots exchange their cells in a tick; a robot that moves
    leaves its directed edge booked at the arrival tick, and from then on
    the table refuses the opposite move. *)
Theorem robots_sin_intercambio s s' i j ri rj ri' rj' :
  step s = Some s' -> i ≠ j ->
  lista_robots s !! i = Some ri -> lista_robots s !! j = Some rj ->
  lista_robots s' !! i = Some ri' -> lista_robots s' !! j = Some rj' ->
  pos ri ≠ pos rj ->
  ~ (pos ri' = pos rj /\ pos rj' = pos ri)
  /\ (pos ri' ≠ pos ri ->
      arista_reservada (tabla_reservas s') (pos ri) (pos ri') (tick s + 1)
      /\ puede_moverse (tabla_reservas s') (pos ri') (pos ri) (tick s + 1) = false).
Proof.
  intros H Hij Hi Hj Hi' Hj' Hne. split.
  - destruct (decide (i < j)%nat).
    + by eapply (step_sin_intercambio_orden s s' i j).
    + intros [H1 H2]. eapply (step_sin_intercambio_orden s s' j i rj ri rj' ri');
        eauto; lia.
  - intros Hmov.
    apply step_antes_de_resolver in H as (props & rs3 & st & s2 & HF & _ & Hres & -> & _).
    destruct (Forall2_lookup_l _ _ _ _ _ HF Hi) as (qi & Hqi & [Hpi _]).
    rewrite <- Hpi in *.
    destruct (resolver_movido _ _ _ _ _ _ _ _ _ Hres Hqi Hi' Hmov) as [_ Hres'].
    split; [done|]. unfold puede_moverse.
    rewrite (arista_libre_false _ _ _ _ Hres'). simpl.
    by destruct (negb (celda_libre _ _ _)).
Qed.

Lemma robots_sin_intercambio_witness :
  ~ (pos (robot_de ej_s1 0) = pos (robot_de ej_s0 1)
     /\ pos (robot_de ej_s1 1) = pos (robot_de ej_s0 0))
  /\ (pos (robot_de ej_s1 0) ≠ pos (robot_de ej_s0 0) ->
      arista_reservada (tabla_reservas ej_s1) (pos (robot_de ej_s0 0))
        (pos (robot_de ej_s1 0)) (tick ej_s0 + 1)
      /\ puede_moverse (tabla_reservas ej_s1) (pos (robot_de ej_s1 0))
           (pos (robot_de ej_s0 0)) (tick ej_s0 + 1) = false).
Proof.
  apply (robots_sin_intercambio ej_s0 ej_s1 0 1
           (robot_de ej_s0 0) (robot_de ej_s0 1) (robot_de ej_s1 0) (robot_de ej_s1 1)).
  - vm_compute. reflexivity.
  - lia.
  - vm_compute. reflexivity.
  - vm_compute. reflexivity.
  - vm_compute. reflexivity.
  - vm_compute. reflexivity.
  - vm_compute. intros [=].
Defined.

(** C8. A tick adds one to the deadlock counter exactly when no robot
    changed its cell and some robot is not idle after the second loop, and
    leaves the counter alone otherwise; the tick is carried out either
    way, and it is the same tick whatever the counter holds. *)
Theorem deadlock_cuenta s s' :
  step s = Some s' ->
  (quietos s s' /\ hay_ocupado s' -> conteo_deadlock s' = conteo_deadlock s + 1)
  /\ (~ (quietos s s' /\ hay_ocupado s') -> conteo_deadlock s' = conteo_deadlock s)
  /\ tick s' = tick s + 1
  /\ forall dl, step (con_informe s (seed s) dl)
       = Some (con_informe s' (seed s) (dl + (conteo_deadlock s' - conteo_deadlock s))).
Proof.
  intros H. pose proof (step_deadlock s s' H) as Hd.
  assert (alguno_ocupado (lista_robots s') = true <-> hay_ocupado s') as Hoc.
  { unfold alguno_ocupado, hay_ocupado. rewrite existsb_exists. split.
    - intros (r & Hr & He). exists r. split; [by apply list_elem_of_In|].
      by apply bool_decide_eq_true in He.
    - intros (r & Hr & He). exists r. split; [by apply list_elem_of_In|].
      by apply bool_decide_eq_true. }
  unfold quietos. split; [|split; [|split]].
  - intros [Hq Ho]. rewrite Hd, bool_decide_eq_true_2 by done.
    apply Hoc in Ho. by rewrite Ho.
  - intros Hno. rewrite Hd. case_bool_decide as Hq; [|done]. simpl.
    destruct (alguno_ocupado (lista_robots s')) eqn:Ho; [|done].
    exfalso. apply Hno. split; [done | by apply Hoc].
  - by apply step_antes_de_resolver in H as (_&_&_&_&_&_&_&_&?&_).
  - intros dl. by rewrite step_informe, H.
Qed.

Lemma deadlock_cuenta_witness :
  (quietos ej_bloqueo ej_bloqueo1 /\ hay_ocupado ej_bloqueo1 ->
   conteo_deadlock ej_bloqueo1 = conteo_deadlock ej_bloqueo + 1)
  /\ (~ (quietos ej_bloqueo ej_bloqueo1 /\ hay_ocupado ej_bloqueo1) ->
      conteo_deadlock ej_bloqueo1 = conteo_deadlock ej_bloqueo)
  /\ tick ej_bloqueo1 = tick ej_bloqueo + 1
  /\ forall dl, step (con_informe ej_bloqueo (seed ej_bloqueo) dl)
       = Some (con_informe ej_bloqueo1 (seed ej_bloqueo)
                 (dl + (conteo_deadlock ej_bloqueo1 - conteo_deadlock ej_bloqueo))).
Proof.
  apply (deadlock_cuenta ej_bloqueo ej_bloqueo1). vm_compute. reflexivity.
Defined.

Lemma ej_bloqueo_cuenta :
  quietos ej_bloqueo ej_bloqueo1 /\ hay_ocupado ej_bloqueo1
  /\ conteo_deadlock ej_bloqueo = 0 /\ conteo_deadlock ej_bloqueo1 = 1.
Proof.
  split; [vm_compute; reflexivity|]. split; [|vm_compute; split; reflexivity].
  exists (robot_de ej_bloqueo1 0). split; [vm_compute; left | vm_compute; intros [=]].
Qed.

(** C3, as amended. On every grid what the planner returns is a shortest
    route from [inicio] to [meta] through cells that are in range and
    transitable, of at most [10 ** 9] cells, and it returns nothing exactly
    when no such route has at most [10 ** 9] cells; on a grid of fewer
    than [10 ** 9] cells that is exactly when [meta] cannot be reached
    from [inicio], in particular when an endpoint is out of range or not
    transitable.  It returns the one-cell route when the endpoints
    coincide, and never runs out of the passes it is given. *)
Theorem a_estrella_correcto grid inicio meta :
  (forall ruta, a_estrella grid inicio meta = Some ruta ->
     es_ruta grid inicio meta ruta
     /\ Z.of_nat (length ruta) <= 10 ^ 9
     /\ forall l', es_ruta grid inicio meta l' -> (length ruta <= length l')%nat)
  /\ (a_estrella grid inicio meta = None <->
      forall l', es_ruta grid inicio meta l' -> 10 ^ 9 < Z.of_nat (length l'))
  /\ (alto grid * ancho grid < 10 ^ 9 ->
      (a_estrella grid inicio meta = None <->
       pasable grid inicio = false \/ pasable grid meta = false
       \/ forall l', ~ es_ruta grid inicio meta l'))
  /\ (inicio = meta -> pasable grid inicio = true ->
      a_estrella grid inicio meta = Some [inicio])
  /\ a_estrella_n (combustible grid) grid inicio meta
     = Retorna (a_estrella grid inicio meta).
Proof.
  split; [|split; [|split; [|split]]].
  - intros ruta Hr. split; [by apply a_estrella_es_ruta|].
    split; [by eapply a_estrella_Some_cota|].
    intros l' Hl'. by eapply a_estrella_minima.
  - split.
    + intros Hn l' Hl'.
      pose proof (proj1 (a_estrella_None_cota grid inicio meta) Hn l' Hl') as Hc.
      unfold alcanzable_en_cota in Hc. lia.
    + intros Hno. destruct (a_estrella grid inicio meta) as [l|] eqn:Hl; [|done].
      pose proof (a_estrella_Some_cota _ _ _ _ Hl).
      apply a_estrella_es_ruta, Hno in Hl. lia.
  - intros Hgrande. rewrite a_estrella_None_cota. split.
    + intros Hno. right. right. intros l' Hl'. apply (Hno l' Hl'). by right.
    + intros [Hi|[Hm|Hno]] l' Hl'; [| |by apply Hno in Hl'];
        apply es_ruta_pasable in Hl' as [? ?]; congruence.
  - intros <- Hp. by apply a_estrella_inicio_es_meta.
  - destruct (a_estrella_n_termina grid inicio meta) as [r Hr].
    unfold a_estrella. by rewrite Hr.
Qed.

Lemma a_estrella_correcto_witness :
  alto ej_almacen * ancho ej_almacen < 10 ^ 9
  /\ (a_estrella ej_almacen (0, 0) (3, 0) = None <->
      pasable ej_almacen (0, 0) = false \/ pasable ej_almacen (3, 0) = false
      \/ forall l', ~ es_ruta ej_almacen (0, 0) (3, 0) l').
Proof.
  split; [vm_compute; reflexivity|].
  apply (a_estrella_correcto ej_almacen (0, 0) (3, 0)). vm_compute. reflexivity.
Defined.

Lemma ej_almacen_ruta :
  a_estrella ej_almacen (0, 0) (3, 2)
  = Some [(0, 0); (0, 1); (0, 2); (1, 2); (2, 2); (3, 2)]
  /\ a_estrella ej_almacen (0, 0) (3, 0) = None
  /\ a_estrella ej_almacen (0, 2) (0, 2) = Some [(0, 2)].
Proof. vm_compute. repeat split; reflexivity. Qed.

(** C3, as stated, fails on a corridor of [10 ** 9 + 1] free cells: its
    two ends are joined by a route and the planner returns nothing. *)
Lemma corredor_largo_sin_ruta :
  a_estrella corredor (0, 0) (largo, 0) = None
  /\ es_ruta corredor (0, 0) (largo, 0) ruta_corredor.
Proof. split; [apply a_estrella_corredor | apply ruta_corredor_es_ruta]. Qed.

(** C4, as amended. When the spawn cells of the robots are passable, every
    robot stands on a cell that is in range and transitable at every tick
    of the run. *)
Theorem posiciones_transitables g ed ah robots spawn ps sd s0 n s r :
  construir g ed ah robots spawn ps sd = Some s0 ->
  (forall i c, (i < Z.to_nat robots)%nat -> spawn !! i = Some c -> pasable g c = true) ->
  run n s0 = Some s -> r ∈ lista_robots s ->
  grid s = g
  /\ en_rango g (pos r).1 (pos r).2 = true
  /\ transitable g (pos r).1 (pos r).2 = true.
Proof.
  intros Hc Hspawn Hrun Hr.
  apply construir_robots in Hc as (_ & Hg & _ & _ & _ & _ & _ & Hrobots).
  pose proof (run_grid _ _ _ Hrun) as Hgs. rewrite Hg in Hgs.
  split; [done|].
  assert (Forall (robot_en_grid (grid s0)) (lista_robots s0)) as H0.
  { apply Forall_forall. intros r0 Hr0. apply list_elem_of_lookup in Hr0 as [i Hi].
    apply Hrobots in Hi as (Hi & c & Hc & ->). rewrite Hg.
    split; [by eapply Hspawn | constructor]. }
  pose proof (run_en_grid _ _ _ Hrun H0) as Hn.
  rewrite Forall_forall in Hn. destruct (Hn r Hr) as [Hp _].
  rewrite Hg in Hp. unfold pasable in Hp. by apply andb_true_iff in Hp.
Qed.

Lemma posiciones_transitables_witness :
  grid ej_s1 = ej_pasillo
  /\ en_rango ej_pasillo (pos (robot_de ej_s1 0)).1 (pos (robot_de ej_s1 0)).2 = true
  /\ transitable ej_pasillo (pos (robot_de ej_s1 0)).1 (pos (robot_de ej_s1 0)).2 = true.
Proof.
  apply (posiciones_transitables ej_pasillo {[0 := (1, 0)]} {[0 := (6, 0); 1 := (0, 0)]}
           2 [(3, 0); (4, 0)] ej_pedidos 0 ej_s0 1 ej_s1 (robot_de ej_s1 0)).
  - vm_compute. reflexivity.
  - intros [|[|i]] c Hi Hc; simpl in Hc; [by injection Hc as <-..|done].
  - vm_compute. reflexivity.
  - vm_compute. left.
Defined.

(** C4, as stated, fails at tick 0 of the run of a robot spawned on a
    shelf. *)
Lemma robot_sobre_anaquel :
  construir [[1; 0]] ∅ ∅ 1 [(0, 0)] [] 0 = Some ej_sobre_anaquel
  /\ run 0 ej_sobre_anaquel = Some ej_sobre_anaquel
  /\ obtener_posiciones_robots ej_sobre_anaquel = [(0, 0)]
  /\ transitable (grid ej_sobre_anaquel) 0 0 = false.
Proof. vm_compute. repeat split; reflexivity. Qed.

(** C5, as stated, fails: order 0 stood first in the queue, is selected,
    has no route, and is put back behind order 1. *)
Lemma pedido_fallido_cambia_de_lugar :
  pendientes ej_cola = [0; 1]%nat
  /\ asignar_robot ej_cola (robot_de ej_cola 0) = Some ej_intento
  /\ ej_intento.2 = SinRuta 0
  /\ pendientes ej_intento.1.1 = [1; 0]%nat.
Proof. vm_compute. repeat split; reflexivity. Qed.

(** C5, as amended. An order that was selected and could not be assigned
    is taken out of the queue and put back at its end; the other orders
    keep their relative order. *)
Theorem pedido_fallido_al_final s r s' r' i mi :
  asignar_robot s r = Some (s', r', i) ->
  i = SinPickup mi \/ i = SinRuta mi ->
  exists l1 l2, pendientes s = l1 ++ (mi :: l2) /\ (mi ∉ l1)
    /\ pendientes s' = l1 ++ l2 ++ [mi].
Proof.
  intros H Hi. apply asignar_robot_casos in H.
  destruct H as [|mi' p pend1 ah ed _ _ Hrem|mi' p pend1 ah ed pk _ _ Hrem|];
    try (by destruct Hi).
  - assert (mi' = mi) as -> by (destruct Hi; congruence).
    apply lista_remove_spec in Hrem as (l1 & l2 & Hl & Hnin & ->).
    exists l1, l2. simpl. by rewrite <- app_assoc.
  - assert (mi' = mi) as -> by (destruct Hi; congruence).
    apply lista_remove_spec in Hrem as (l1 & l2 & Hl & Hnin & ->).
    exists l1, l2. simpl. by rewrite <- app_assoc.
Qed.

Lemma pedido_fallido_al_final_witness :
  exists l1 l2, pendientes ej_cola = l1 ++ (0%nat :: l2) /\ (0%nat ∉ l1)
    /\ pendientes ej_intento.1.1 = l1 ++ l2 ++ [0%nat].
Proof.
  apply (pedido_fallido_al_final ej_cola (robot_de ej_cola 0)
           ej_intento.1.1 ej_intento.1.2 ej_intento.2 0).
  - vm_compute. reflexivity.
  - right. vm_compute. reflexivity.
Defined.

(** The branch for a selected order without a pickup cell is never taken:
    the scan only selects orders that have one. *)
Lemma sin_pickup_inalcanzable s r s' r' mi :
  asignar_robot s r ≠ Some (s', r', SinPickup mi).
Proof.
  intros H. apply asignar_robot_casos in H.
  inversion H as [|? p pend1 ah ed He Hp _ Hah _ Hpk| |]; subst.
  apply elegir_pedido_spec in He as (_ & k & d & _ & Hd & _).
  unfold dist_pickup in Hd. rewrite Hp in Hd. simpl in Hd.
  rewrite Hah in Hd. simpl in Hd. by rewrite Hpk in Hd.
Qed.

(** C6. A robot that is idle at the start of a tick of a run, and whose
    attempt of assignment fails, in whatever state the queue is, is idle
    afterwards, with no order, shelf, dock or route; the order that had
    been selected, if any, is in the queue again and its assignment tick
    is unset. *)
Theorem asignacion_atomica g ed ah robots spawn ps sd s0 n s r sq s' r' i :
  construir g ed ah robots spawn ps sd = Some s0 ->
  run n s0 = Some s -> r ∈ lista_robots s -> estado r = INACTIVO ->
  asignar_robot sq r = Some (s', r', i) -> (forall mi, i ≠ Asignado mi) ->
  estado r' = INACTIVO /\ r_pedido_id r' = None /\ r_anaquel_home r' = None
  /\ r_estacion_dock r' = None /\ ruta r' = []
  /\ match i with
     | SinCandidato => s' = sq
     | SinPickup mi | SinRuta mi =>
         mi ∈ pendientes s'
         /\ exists p, pedidos s' !! mi = Some p /\ tick_asignacion p = None
     | Asignado _ => False
     end.
Proof.
  intros Hc Hrun Hr He Ha Hi.
  assert (robot_libre r) as Hl.
  { apply construir_robots in Hc as (_ & _ & _ & _ & _ & _ & _ & Hrobots).
    assert (Forall robot_libre (lista_robots s0)) as H0.
    { apply Forall_forall. intros r0 Hr0. apply list_elem_of_lookup in Hr0 as [k Hk].
      apply Hrobots in Hk as (_ & c & _ & ->). by intros _. }
    pose proof (run_libre _ _ _ Hrun H0) as Hn. rewrite Forall_forall in Hn. auto. }
  destruct (Hl He) as (Hpid & Hah & Hed & Hruta).
  apply asignar_robot_casos in Ha.
  destruct Ha as [|mi p pend1 ah' ed' _ Hp|mi p pend1 ah' ed' pk _ Hp|mi]; simpl.
  - done.
  - repeat split; try done; [set_solver|].
    eexists. rewrite list_lookup_insert_eq by (by eapply lookup_lt_Some). done.
  - repeat split; try done; [set_solver|].
    eexists. rewrite list_lookup_insert_eq by (by eapply lookup_lt_Some). done.
  - by destruct (Hi mi).
Qed.

Lemma asignacion_atomica_witness :
  estado ej_intento.1.2 = INACTIVO /\ r_pedido_id ej_intento.1.2 = None
  /\ r_anaquel_home ej_intento.1.2 = None /\ r_estacion_dock ej_intento.1.2 = None
  /\ ruta ej_intento.1.2 = []
  /\ (0%nat ∈ pendientes ej_intento.1.1
      /\ exists p, pedidos ej_intento.1.1 !! 0%nat = Some p /\ tick_asignacion p = None).
Proof.
  apply (asignacion_atomica ej_muro {[0 := (0, 0)]} {[0 := (3, 0); 1 := (5, 0)]} 1
           [(0, 0)] ej_pedidos 0
           (default sim_vacio
              (construir ej_muro {[0 := (0, 0)]} {[0 := (3, 0); 1 := (5, 0)]} 1
                 [(0, 0)] ej_pedidos 0))
           0
           (default sim_vacio
              (construir ej_muro {[0 := (0, 0)]} {[0 := (3, 0); 1 := (5, 0)]} 1
                 [(0, 0)] ej_pedidos 0))
           (robot_de ej_cola 0) ej_cola ej_intento.1.1 ej_intento.1.2 (SinRuta 0)).
  - vm_compute. reflexivity.
  - vm_compute. reflexivity.
  - vm_compute. left.
  - vm_compute. reflexivity.
  - vm_compute. reflexivity.
  - intros mi [=].
Defined.

(** C7, as amended. The scan looks at the first [min 50 |pendientes|]
    entries only; the pickup cell of a shelf is its first passable
    neighbour in the order (+1,0), (-1,0), (0,+1), (0,-1), and an order
    without one is passed over; the order chosen is the first one scanned
    among the candidates at the least distance from the robot, provided
    that distance is below [10 ** 9]; when no candidate is that near, no
    order is chosen. *)
Theorem politica_de_asignacion s r mejor :
  elegir_pedido s r = Some mejor ->
  examinados s = take 50 (pendientes s)
  /\ length (examinados s) = Nat.min 50 (length (pendientes s))
  /\ (forall c, elegir_objetivo_adyacente (grid s) c =
        head (filter (fun n => pasable (grid s) n = true)
                [(c.1 + 1, c.2); (c.1 - 1, c.2); (c.1, c.2 + 1); (c.1, c.2 - 1)]))
  /\ (forall k pi, examinados s !! k = Some pi -> is_Some (dist_pickup s r pi))
  /\ match mejor with
     | None =>
         forall k pi dp, examinados s !! k = Some pi ->
           dist_pickup s r pi = Some (Some dp) -> 10 ^ 9 <= dp
     | Some mi =>
         exists k d, examinados s !! k = Some mi
           /\ dist_pickup s r mi = Some (Some d) /\ d < 10 ^ 9
           /\ forall k' pi' dp', examinados s !! k' = Some pi' ->
                dist_pickup s r pi' = Some (Some dp') ->
                d <= dp' /\ ((k' < k)%nat -> d < dp')
     end.
Proof.
  intros H. split; [apply examinados_take|].
  split; [rewrite examinados_take, length_take; lia|].
  split; [intros c; apply elegir_objetivo_adyacente_primero|].
  by apply elegir_pedido_spec.
Qed.

Lemma politica_de_asignacion_witness :
  examinados ej_cola = take 50 (pendientes ej_cola)
  /\ length (examinados ej_cola) = Nat.min 50 (length (pendientes ej_cola))
  /\ (forall c, elegir_objetivo_adyacente (grid ej_cola) c =
        head (filter (fun n => pasable (grid ej_cola) n = true)
                [(c.1 + 1, c.2); (c.1 - 1, c.2); (c.1, c.2 + 1); (c.1, c.2 - 1)]))
  /\ (forall k pi, examinados ej_cola !! k = Some pi ->
        is_Some (dist_pickup ej_cola (robot_de ej_cola 0) pi))
  /\ exists k d, examinados ej_cola !! k = Some 0%nat
       /\ dist_pickup ej_cola (robot_de ej_cola 0) 0 = Some (Some d) /\ d < 10 ^ 9
       /\ forall k' pi' dp', examinados ej_cola !! k' = Some pi' ->
            dist_pickup ej_cola (robot_de ej_cola 0) pi' = Some (Some dp') ->
            d <= dp' /\ ((k' < k)%nat -> d < dp').
Proof.
  apply (politica_de_asignacion ej_cola (robot_de ej_cola 0) (Some 0%nat)).
  vm_compute. reflexivity.
Defined.

(** C7, as stated, fails for that robot: the order is a candidate, at
    distance [10 ** 9], and no order is chosen. *)
Lemma candidato_lejano_sin_elegir :
  examinados ej_lejos = [0%nat]
  /\ elegir_objetivo_adyacente (grid ej_lejos) (1, 0) = Some (0, 0)
  /\ dist_pickup ej_lejos (robot_de ej_lejos 0) 0 = Some (Some 1000000000)
  /\ elegir_pedido ej_lejos (robot_de ej_lejos 0) = Some None.
Proof. vm_compute. repeat split; reflexivity. Qed.

(** C10. Only the number of spawn points is checked: with enough of them
    the simulator is built, robot [i] idle on the [i]-th point whatever
    that cell is, and the reservation of a cell at tick 0 is held by the
    last of the robots placed on it. *)
Theorem construir_solo_cuenta g ed ah robots spawn ps sd :
  robots <= Z.of_nat (length spawn) ->
  exists s, construir g ed ah robots spawn ps sd = Some s
    /\ tick s = 0
    /\ length (lista_robots s) = Z.to_nat robots
    /\ (forall i c, (i < Z.to_nat robots)%nat -> spawn !! i = Some c ->
          exists r, lista_robots s !! i = Some r /\ pos r = c
            /\ robot_id r = Z.of_nat i /\ estado r = INACTIVO)
    /\ (forall (c : Celda) k,
          reserva_celdas (tabla_reservas s) !! (c.1, c.2, 0) = Some k <->
          exists i, k = Z.of_nat i /\ (i < Z.to_nat robots)%nat
            /\ spawn !! i = Some c
            /\ forall j, (i < j < Z.to_nat robots)%nat -> spawn !! j ≠ Some c)
    /\ (forall spawn', construir g ed ah robots spawn' ps sd = None <->
          Z.of_nat (length spawn') < robots).
Proof.
  intros Hle. destruct (construir_Some g ed ah robots spawn ps sd Hle) as [s Hs].
  exists s. split; [done|].
  apply construir_robots in Hs as (_ & _ & Ht & _ & _ & Htab & Hlen & Hrobots).
  split; [done|]. split; [done|]. split; [|split].
  - intros i c Hi Hc. exists (crear_robot i c). split; [|done].
    apply Hrobots. split; [done|]. by exists c.
  - intros c k. rewrite Htab, reservar_iniciales_ultimo. split.
    + intros (i & r & Hi & Hp & Hid & Hlast).
      apply Hrobots in Hi as (Hi & c' & Hc' & ->). simpl in Hp, Hid. subst c' k.
      exists i. repeat split; try done. intros j Hj Hcj.
      apply (Hlast j (crear_robot j c)); [lia | | done].
      apply Hrobots. split; [lia|]. by exists c.
    + intros (i & -> & Hi & Hc & Hlast). exists i, (crear_robot i c).
      split; [apply Hrobots; split; [done | by exists c]|].
      repeat split; try done. intros j r' Hj Hr'.
      apply Hrobots in Hr' as (Hjn & c' & Hc' & ->). simpl. intros ->.
      by apply (Hlast j); [lia|].
  - intros spawn'. apply construir_None.
Qed.

(** Two robots on one shelf cell: both are built there and the
    reservation names the second. *)
Lemma construir_solo_cuenta_witness :
  exists s, construir [[1; 0]] ∅ ∅ 2 [(0, 0); (0, 0)] [] 0 = Some s
    /\ tick s = 0
    /\ length (lista_robots s) = Z.to_nat 2
    /\ (forall i c, (i < Z.to_nat 2)%nat -> [(0, 0); (0, 0)] !! i = Some c ->
          exists r, lista_robots s !! i = Some r /\ pos r = c
            /\ robot_id r = Z.of_nat i /\ estado r = INACTIVO)
    /\ (forall (c : Celda) k,
          reserva_celdas (tabla_reservas s) !! (c.1, c.2, 0) = Some k <->
          exists i, k = Z.of_nat i /\ (i < Z.to_nat 2)%nat
            /\ [(0, 0); (0, 0)] !! i = Some c
            /\ forall j, (i < j < Z.to_nat 2)%nat -> [(0, 0); (0, 0)] !! j ≠ Some c)
    /\ (forall spawn', construir [[1; 0]] ∅ ∅ 2 spawn' [] 0 = None <->
          Z.of_nat (length spawn') < 2).
Proof.
  apply (construir_solo_cuenta [[1; 0]] ∅ ∅ 2 [(0, 0); (0, 0)] [] 0).
  vm_compute. intros [=].
Defined.

Lemma ej_dos_en_una_celda :
  (fun s => (obtener_posiciones_robots s,
             reserva_celdas (tabla_reservas s) !! (0, 0, 0),
             transitable (grid s) 0 0))
    <$> construir [[1; 0]] ∅ ∅ 2 [(0, 0); (0, 0)] [] 0
  = Some ([(0, 0); (0, 0)], Some 1, false).
Proof. vm_compute. reflexivity. Qed.

(** * The seed *)

Lemma construir_conteo g ed ah robots spawn ps sd s :
  construir g ed ah robots spawn ps sd = Some s -> conteo_deadlock s = 0.
Proof.
  unfold construir. destruct (_ <? _); [done|].
  destruct (mapM _ _); [|done]. simpl. by intros [= <-].
Qed.

(** The seed reaches nothing but the field of the metrics that echoes it:
    runs that differ in the seed alone agree on everything else that is
    observed. *)
Lemma ejecutar_seed g ed ah robots spawn ps sd sd' t :
  observar_sin_seed <$> ejecutar g ed ah robots spawn ps sd' t
  = observar_sin_seed <$> ejecutar g ed ah robots spawn ps sd t.
Proof.
  unfold ejecutar. rewrite (construir_informe g ed ah robots spawn ps sd sd').
  destruct (construir g ed ah robots spawn ps sd) as [s0|] eqn:Hc; simpl; [|done].
  apply construir_conteo in Hc.
  rewrite run_informe. destruct (run t s0) as [s|]; simpl; [|done].
  f_equal. unfold observar_sin_seed, sin_seed, metricas, con_informe. simpl.
  repeat f_equal. lia.
Qed.

(** The run of the example, observed after five ticks. *)
Lemma ej_pasillo_tick_5 :
  (fun s => (obtener_posiciones_robots s, obtener_estados_robots s,
             m_distancia_total_celdas (metricas s), m_deadlock (metricas s)))
    <$> ejecutar ej_pasillo {[0 := (1, 0)]} {[0 := (6, 0); 1 := (0, 0)]} 2
          [(3, 0); (4, 0)] ej_pedidos 7 5
  = Some ([(2, 0); (1, 0)], [A_ESTACION; A_ESTACION], 8, 0).
Proof. vm_compute. reflexivity. Qed.

(** * Further properties of the code *)

(** * The reservation table, operation by operation *)

Lemma clave_celda_eq (c c' : Celda) (t t' : Z) :
  (c.1, c.2, t) = (c'.1, c'.2, t') <-> c = c' /\ t = t'.
Proof. destruct c, c'. simpl. split; [by intros [= -> -> ->] | by intros [[= -> ->] ->]]. Qed.

Lemma clave_arista_eq (a b a' b' : Celda) (t t' : Z) :
  (a.1, a.2, b.1, b.2, t) = (a'.1, a'.2, b'.1, b'.2, t') <-> a = a' /\ b = b' /\ t = t'.
Proof.
  destruct a, b, a', b'. simpl.
  split; [by intros [= -> -> -> -> ->] | by intros ([= -> ->] & [= -> ->] & ->)].
Qed.

Lemma celda_libre_reservar tr rid (c c' : Celda) t t' :
  celda_libre (reservar_celda tr rid c t) c' t'
  = celda_libre tr c' t' && negb (bool_decide (c' = c /\ t' = t)).
Proof.
  unfold celda_libre, reservar_celda. simpl. rewrite lookup_insert.
  case_decide as Hk.
  - apply clave_celda_eq in Hk as [-> ->].
    rewrite (bool_decide_eq_true_2 (c' = c' /\ t' = t')) by done.
    rewrite andb_false_r. by apply bool_decide_eq_false_2.
  - rewrite (bool_decide_eq_false_2 (c' = c /\ t' = t)); [by rewrite andb_true_r|].
    intros [-> ->]. by apply Hk.
Qed.

Lemma arista_libre_reservar tr rid (a b a' b' : Celda) t t' :
  arista_libre (reservar_arista tr rid a b t) a' b' t'
  = arista_libre tr a' b' t' && negb (bool_decide (a' = a /\ b' = b /\ t' = t)).
Proof.
  unfold arista_libre, reservar_arista. simpl. rewrite lookup_insert.
  case_decide as Hk.
  - apply clave_arista_eq in Hk as (-> & -> & ->).
    rewrite (bool_decide_eq_true_2 (a' = a' /\ b' = b' /\ t' = t')) by done.
    rewrite andb_false_r. by apply bool_decide_eq_false_2.
  - rewrite (bool_decide_eq_false_2 (a' = a /\ b' = b /\ t' = t)); [by rewrite andb_true_r|].
    intros (-> & -> & ->). by apply Hk.
Qed.

Lemma puede_moverse_y tr x y t :
  puede_moverse tr x y t = celda_libre tr y t && arista_libre tr y x t.
Proof.
  unfold puede_moverse. by destruct (celda_libre tr y t), (arista_libre tr y x t).
Qed.

(** X1. A robot that waits on [c] at tick [t] closes that cell at that
    tick to every robot, whoever asks and wherever from, the robot that
    booked it included; every other move is judged as before. *)
Theorem puede_moverse_tras_espera tr rid (c x y : Celda) t t' :
  puede_moverse (confirmar_espera tr rid c t) x y t'
  = puede_moverse tr x y t' && negb (bool_decide (y = c /\ t' = t)).
Proof.
  rewrite !puede_moverse_y. unfold confirmar_espera.
  rewrite celda_libre_reservar. unfold arista_libre, reservar_celda. simpl.
  by destruct (celda_libre tr y t'), (bool_decide (y = c /\ t' = t)),
    (bool_decide (reserva_aristas tr !! (y.1, y.2, x.1, x.2, t') = None)).
Qed.

(** X2. A confirmed move from [a] to [b] at tick [t] closes the cell [b]
    at that tick and the opposite move from [b] to [a]; every other move
    is judged as before, the same move from [a] to [b] at another tick
    and moves into [a] from elsewhere included. *)
Theorem puede_moverse_tras_movimiento tr rid (a b x y : Celda) t t' :
  puede_moverse (confirmar_movimiento tr rid a b t) x y t'
  = puede_moverse tr x y t'
    && negb (bool_decide (y = b /\ t' = t))
    && negb (bool_decide (y = a /\ x = b /\ t' = t)).
Proof.
  rewrite !puede_moverse_y. unfold confirmar_movimiento.
  rewrite arista_libre_reservar.
  assert (celda_libre (reservar_arista (reservar_celda tr rid b t) rid a b t) y t'
          = celda_libre (reservar_celda tr rid b t) y t') as -> by done.
  assert (arista_libre (reservar_celda tr rid b t) y x t' = arista_libre tr y x t')
    as -> by done.
  rewrite celda_libre_reservar.
  by destruct (celda_libre tr y t'), (arista_libre tr y x t'),
    (bool_decide (y = b /\ t' = t)), (bool_decide (y = a /\ x = b /\ t' = t)).
Qed.

(** * More on the routes of the planner *)

Lemma es_ruta_invertir grid a b l : es_ruta grid a b l -> es_ruta grid b a (rev l).
Proof.
  intros (Hh & Hl & Hall & Hen). unfold es_ruta.
  rewrite rev_es_reverse, head_reverse, last_reverse, <- rev_es_reverse.
  split; [done|]. split; [done|]. split; [|by apply enlazada_rev].
  apply Forall_forall. intros x Hx. rewrite Forall_forall in Hall.
  apply Hall. apply list_elem_of_In. apply list_elem_of_In, in_rev in Hx. done.
Qed.

Lemma distancia_triangulo a b c : distancia a c <= distancia a b + distancia b c.
Proof. unfold distancia. lia. Qed.

Lemma distancia_cero a : distancia a a = 0.
Proof. unfold distancia. lia. Qed.

Lemma enlazada_larga l : forall a b,
  enlazada l -> head l = Some a -> last l = Some b ->
  distancia a b + 1 <= Z.of_nat (length l).
Proof.
  induction l as [|x l IH]; intros a b Hen Hh Hl; [done|].
  injection Hh as ->. destruct l as [|y l].
  - injection Hl as ->. rewrite distancia_cero. simpl. lia.
  - destruct Hen as [Hd Hen]. specialize (IH y b Hen eq_refl Hl).
    pose proof (distancia_triangulo a y b). simpl length in *. lia.
Qed.

Lemma enlazada_cola x l : enlazada (x :: l) -> enlazada l.
Proof. by intros [_ ?]. Qed.

Lemma enlazada_sufijo l1 l2 : enlazada (l1 ++ l2) -> enlazada l2.
Proof.
  induction l1 as [|x l1 IH]; [done|]. intros H. apply IH. by eapply enlazada_cola.
Qed.

Lemma enlazada_cambiar_cola x l l' :
  enlazada (x :: l) -> enlazada l' -> head l' = head l -> l ≠ [] -> enlazada (x :: l').
Proof.
  intros [Hd _] Hen Hh Hne. destruct l as [|y l]; [done|].
  destruct l' as [|y' l']; [done|]. injection Hh as ->. by split.
Qed.

(** A linked list with a repeated cell can be cut short between the two
    occurrences. *)
Lemma acortar l :
  enlazada l -> ~ NoDup l ->
  exists l', head l' = head l /\ last l' = last l /\ l' ⊆ l /\ enlazada l'
    /\ (length l' < length l)%nat.
Proof.
  induction l as [|x l IH]; intros Hen Hnd.
  { exfalso. apply Hnd. constructor. }
  destruct (decide (x ∈ l)) as [Hx|Hx].
  - apply list_elem_of_split in Hx as (l1 & l2 & ->).
    exists (x :: l2). split; [done|]. split.
    + change (x :: l1 ++ x :: l2) with ((x :: l1) ++ x :: l2).
      by rewrite last_app_cons.
    + split; [set_solver|]. split.
      * apply (enlazada_sufijo (x :: l1)). done.
      * simpl. rewrite length_app. simpl. lia.
  - destruct IH as (l' & Hh & Hl & Hsub & Hen' & Hlen).
    + by eapply enlazada_cola.
    + intros Hnd'. apply Hnd. by constructor.
    + assert (l ≠ []) as Hne. { intros ->. simpl in Hlen. lia. }
      assert (l' ≠ []) as Hne'. { intros ->. destruct l; done. }
      exists (x :: l'). split; [done|]. split.
      * destruct l as [|y l]; [done|]. destruct l' as [|y' l']; [done|]. done.
      * split; [set_solver|]. split; [|simpl; lia].
        by eapply enlazada_cambiar_cola.
Qed.

Lemma es_ruta_acortar grid a b l :
  es_ruta grid a b l -> ~ NoDup l ->
  exists l', es_ruta grid a b l' /\ (length l' < length l)%nat.
Proof.
  intros (Hh & Hl & Hall & Hen) Hnd.
  destruct (acortar l Hen Hnd) as (l' & Hh' & Hl' & Hsub & Hen' & Hlen).
  exists l'. split; [|done]. split; [congruence|]. split; [congruence|].
  split; [|done]. rewrite Forall_forall in *. intros x Hx. apply Hall. by apply Hsub.
Qed.

(** X3. The planner finds a route from [a] to [b] exactly when it finds
    one from [b] to [a], and the two have the same number of cells. *)
Theorem a_estrella_simetrica grid a b :
  match a_estrella grid a b, a_estrella grid b a with
  | Some l, Some l' => length l = length l'
  | None, None => True
  | _, _ => False
  end.
Proof.
  assert (forall x y l, a_estrella grid x y = Some l ->
            exists l', a_estrella grid y x = Some l' /\ (length l' <= length l)%nat)
    as Hida.
  { intros x y l Hl.
    pose proof (a_estrella_Some_cota _ _ _ _ Hl) as Hcota.
    apply a_estrella_es_ruta, es_ruta_invertir in Hl.
    destruct (a_estrella grid y x) as [l'|] eqn:Hl'.
    - exists l'. split; [done|].
      pose proof (a_estrella_minima _ _ _ _ _ Hl' Hl) as Hmin.
      by rewrite length_rev in Hmin.
    - exfalso. apply (proj1 (a_estrella_None_cota grid y x) Hl' _ Hl).
      left. by rewrite length_rev. }
  destruct (a_estrella grid a b) as [l|] eqn:Hab.
  - destruct (Hida _ _ _ Hab) as (l' & Hl' & Hle). rewrite Hl'.
    destruct (Hida _ _ _ Hl') as (l'' & Hl'' & Hle'). simplify_eq. lia.
  - destruct (a_estrella grid b a) as [l'|] eqn:Hba; [|done].
    destruct (Hida _ _ _ Hba) as (l'' & Hl'' & _). congruence.
Qed.

(** X4. The route that the planner returns passes through no cell twice. *)
Theorem a_estrella_sin_repetir grid a b l :
  a_estrella grid a b = Some l -> NoDup l.
Proof.
  intros Hl. destruct (decide (NoDup l)) as [|Hnd]; [done|]. exfalso.
  destruct (es_ruta_acortar grid a b l) as (l' & Hl' & Hlen); [|done|].
  - by apply a_estrella_es_ruta.
  - pose proof (a_estrella_minima _ _ _ _ _ Hl Hl'). lia.
Qed.

Lemma a_estrella_sin_repetir_witness :
  NoDup [(0, 0); (1, 0); (2, 0)].
Proof.
  apply (a_estrella_sin_repetir [[0; 0; 0; 1]] (0, 0) (2, 0)). vm_compute. reflexivity.
Defined.

(** ** Routes without obstacles *)

Lemma andar_length n c d : length (andar n c d) = n.
Proof. revert c. induction n as [|n IH]; intros c; simpl; [done|]. by rewrite IH. Qed.

Lemma andar_last n : forall c d,
  last (c :: andar n c d) = Some (c.1 + Z.of_nat n * d.1, c.2 + Z.of_nat n * d.2).
Proof.
  induction n as [|n IH]; intros c d.
  - simpl. destruct c. simpl. f_equal. f_equal; lia.
  - cbn [andar]. rewrite last_cons_cons, IH. cbn [fst snd]. f_equal. f_equal; lia.
Qed.

Lemma andar_enlazada n : forall c d,
  Z.abs d.1 + Z.abs d.2 = 1 -> enlazada (c :: andar n c d).
Proof.
  induction n as [|n IH]; intros c d Hd; [done|].
  cbn [andar]. split; [|by apply IH]. unfold distancia. cbn [fst snd]. lia.
Qed.

Lemma andar_elem n : forall c d x,
  x ∈ andar n c d ->
  exists k, 1 <= k <= Z.of_nat n /\ x = (c.1 + k * d.1, c.2 + k * d.2).
Proof.
  induction n as [|n IH]; intros c d x Hx; [by apply elem_of_nil in Hx|].
  cbn [andar] in Hx. apply elem_of_cons in Hx as [->|Hx].
  - exists 1. split; [lia|]. f_equal; lia.
  - apply IH in Hx as (k & Hk & ->). cbn [fst snd]. exists (k + 1).
    split; [lia|]. f_equal; lia.
Qed.

Lemma enlazada_app l1 l2 :
  enlazada l1 -> enlazada l2 ->
  (forall x y, last l1 = Some x -> head l2 = Some y -> distancia x y = 1) ->
  enlazada (l1 ++ l2).
Proof.
  induction l1 as [|a l1 IH]; intros H1 H2 H12; [done|].
  destruct l1 as [|a' l1].
  - simpl. destruct l2 as [|y l2]; [done|]. split; [by apply H12 | done].
  - destruct H1 as [Hd H1]. simpl. split; [done|]. apply IH; [done | done |].
    intros x y Hx Hy. apply H12; [|done]. by rewrite last_cons_cons.
Qed.

Lemma ruta_en_L_length a b :
  Z.of_nat (length (ruta_en_L a b)) = distancia a b + 1.
Proof.
  unfold ruta_en_L, distancia. simpl. rewrite length_app, !andar_length. lia.
Qed.

Lemma ruta_en_L_enlazada a b : enlazada (ruta_en_L a b).
Proof.
  unfold ruta_en_L.
  destruct (decide (b.1 = a.1)) as [Hx|Hx].
  - rewrite Hx, Z.sub_diag. simpl andar. simpl app.
    destruct (decide (b.2 = a.2)) as [Hy|Hy].
    + rewrite Hy, Z.sub_diag. done.
    + assert ((a.1, a.2) = a) as -> by by destruct a.
      apply andar_enlazada. simpl. lia.
  - change (?x :: ?l ++ ?l') with ((x :: l) ++ l').
    destruct (Z.to_nat (Z.abs (b.2 - a.2))) as [|m] eqn:Hm.
    + simpl andar. rewrite app_nil_r. apply andar_enlazada. simpl. lia.
    + apply enlazada_app.
      * apply andar_enlazada. simpl. lia.
      * cbn [andar]. eapply enlazada_cola. apply (andar_enlazada (S m) (b.1, a.2)).
        simpl. lia.
      * intros x y. rewrite andar_last. cbn [andar head fst snd].
        intros [= <-] [= <-]. unfold distancia. cbn [fst snd]. lia.
Qed.

Lemma ruta_en_L_last a b : last (ruta_en_L a b) = Some b.
Proof.
  unfold ruta_en_L.
  change (?x :: ?l ++ ?l') with ((x :: l) ++ l').
  destruct (Z.to_nat (Z.abs (b.2 - a.2))) as [|m] eqn:Hm.
  - simpl andar. rewrite app_nil_r, andar_last. cbn [fst snd]. destruct b as [bx by'].
    cbn [fst snd] in *. f_equal. f_equal; lia.
  - cbn [andar]. rewrite last_app_cons.
    pose proof (andar_last (S m) (b.1, a.2) (0, Z.sgn (b.2 - a.2))) as Hl.
    cbn [andar] in Hl. rewrite last_cons_cons in Hl. rewrite Hl.
    cbn [fst snd]. destruct b as [bx by']. cbn [fst snd] in *. f_equal. f_equal; lia.
Qed.

Lemma ruta_en_L_caja a b c :
  c ∈ ruta_en_L a b ->
  Z.min a.1 b.1 <= c.1 <= Z.max a.1 b.1 /\ Z.min a.2 b.2 <= c.2 <= Z.max a.2 b.2.
Proof.
  unfold ruta_en_L. intros Hc. apply elem_of_cons in Hc as [->|Hc]; [lia|].
  apply elem_of_app in Hc as [Hc|Hc]; apply andar_elem in Hc as (k & Hk & ->);
    cbn [fst snd]; nia.
Qed.

(** X5. A route has at least as many cells as the Manhattan distance
    between its ends, plus one; and when no cell of the rectangle spanned
    by [a] and [b] is an obstacle or out of range, and the distance is
    below [10 ** 9], the planner returns a route of exactly that many
    cells. *)
Theorem a_estrella_sin_obstaculos grid a b :
  (forall l, a_estrella grid a b = Some l ->
     distancia a b + 1 <= Z.of_nat (length l))
  /\ ((forall x y, Z.min a.1 b.1 <= x <= Z.max a.1 b.1 ->
         Z.min a.2 b.2 <= y <= Z.max a.2 b.2 -> pasable grid (x, y) = true) ->
      distancia a b < 10 ^ 9 ->
      exists l, a_estrella grid a b = Some l
        /\ Z.of_nat (length l) = distancia a b + 1).
Proof.
  split.
  - intros l Hl. apply a_estrella_es_ruta in Hl as (Hh & Hl & _ & Hen).
    by apply enlazada_larga.
  - intros Hcaja Hd.
    assert (es_ruta grid a b (ruta_en_L a b)) as HL.
    { split; [done|]. split; [apply ruta_en_L_last|].
      split; [|apply ruta_en_L_enlazada].
      apply Forall_forall. intros c Hc. apply ruta_en_L_caja in Hc as [? ?].
      destruct c as [x y]. by apply Hcaja. }
    destruct (a_estrella grid a b) as [l|] eqn:Hl.
    + exists l. split; [done|].
      pose proof (a_estrella_minima _ _ _ _ _ Hl HL) as Hmin.
      pose proof (ruta_en_L_length a b).
      apply a_estrella_es_ruta in Hl as (Hh & Hl & _ & Hen).
      pose proof (enlazada_larga _ _ _ Hen Hh Hl). lia.
    + exfalso. apply (proj1 (a_estrella_None_cota grid a b) Hl _ HL).
      left. rewrite ruta_en_L_length. lia.
Qed.

Lemma a_estrella_sin_obstaculos_witness :
  exists l, a_estrella [[0; 0; 0]; [0; 0; 0]] (0, 0) (2, 1) = Some l
    /\ Z.of_nat (length l) = distancia (0, 0) (2, 1) + 1.
Proof.
  apply (a_estrella_sin_obstaculos [[0; 0; 0]; [0; 0; 0]] (0, 0) (2, 1)).
  - simpl. intros x y Hx Hy.
    assert (x = 0 \/ x = 1 \/ x = 2) as [->|[->| ->]] by lia;
      (assert (y = 0 \/ y = 1) as [->| ->] by lia); reflexivity.
  - vm_compute. reflexivity.
Defined.

(** ** Only passability matters *)

Lemma expandir_pasable g1 g2 meta ga a b d :
  (forall c, pasable g1 c = pasable g2 c) ->
  expandir g1 meta ga a b d = expandir g2 meta ga a b d.
Proof.
  intros Hp. unfold expandir.
  specialize (Hp (a.1 + d.1, a.2 + d.2)). unfold pasable in Hp. cbn [fst snd] in Hp.
  rewrite <- !negb_andb, Hp. done.
Qed.

Lemma bucle_pasable g1 g2 meta n :
  (forall c, pasable g1 c = pasable g2 c) ->
  forall b, bucle n g1 meta b = bucle n g2 meta b.
Proof.
  intros Hp. induction n as [|n IH]; intros b; [done|]. simpl.
  destruct (heappop (abiertos b)) as [[[[f ga] a] resto]|]; [|done].
  repeat case_decide; try done; rewrite ?IH; try done.
  f_equal. by rewrite !(expandir_pasable g1 g2 _ _ _ _ _ Hp).
Qed.

(** X6. The planner only looks at which cells are in range and
    transitable: on two grids that agree on that, of whatever shapes and
    whatever the values of their obstacles, it returns the same route. *)
Theorem a_estrella_solo_pasables g1 g2 a b :
  (forall c, pasable g1 c = pasable g2 c) ->
  a_estrella g1 a b = a_estrella g2 a b.
Proof.
  intros Hp.
  destruct (a_estrella_desplegar g1 a b) as [(Hi1 & Hm1 & Hb1)|[Hno1 Hn1]];
    destruct (a_estrella_desplegar g2 a b) as [(Hi2 & Hm2 & Hb2)|[Hno2 Hn2]].
  - rewrite (bucle_pasable g1 g2 _ _ Hp) in Hb1.
    pose proof (bucle_mas g2 b _ _ _ Hb1 (combustible g1 + combustible g2)%nat
                  ltac:(lia)) as H1.
    pose proof (bucle_mas g2 b _ _ _ Hb2 (combustible g1 + combustible g2)%nat
                  ltac:(lia)) as H2.
    congruence.
  - rewrite !Hp in *. destruct Hno2; congruence.
  - rewrite <- !Hp in *. destruct Hno1; congruence.
  - congruence.
Qed.

Lemma a_estrella_solo_pasables_witness :
  a_estrella [[0; 1; 0]] (0, 0) (2, 0) = a_estrella [[2; 3; 2; 7]; [5; 5; 5; 5]] (0, 0) (2, 0).
Proof.
  apply a_estrella_solo_pasables. intros [x y].
  destruct (pasable [[0; 1; 0]] (x, y)) eqn:H1.
  - pose proof (pasable_en_rango _ _ H1) as [Hx Hy]. unfold alto, ancho in Hx, Hy. simpl in Hx, Hy.
    assert (y = 0) as -> by lia.
    assert (x = 0 \/ x = 1 \/ x = 2) as [->|[->| ->]] by lia;
      vm_compute in H1; vm_compute; congruence.
  - destruct (pasable [[2; 3; 2; 7]; [5; 5; 5; 5]] (x, y)) eqn:H2; [|done].
    pose proof (pasable_en_rango _ _ H2) as [Hx Hy]. unfold alto, ancho in Hx, Hy. simpl in Hx, Hy.
    assert (y = 0 \/ y = 1) as [->| ->] by lia;
      (assert (x = 0 \/ x = 1 \/ x = 2 \/ x = 3) as [->|[->|[->| ->]]] by lia);
      vm_compute in H1; vm_compute in H2; congruence.
Defined.

(** * Invariants of the loops of a tick that speak of the orders *)

Section Bucles.

(** [J] is a property of the simulator without its robots, [P] one of a
    robot that may speak of the orders. *)
Variable J : SimAlmacen -> Prop.
Variable P : SimAlmacen -> Robot -> Prop.

Hypothesis J_asignar : forall s r s' r' i,
  J s -> P s r -> estado r = INACTIVO -> pendientes s ≠ [] ->
  asignar_robot s r = Some (s', r', i) ->
  J s' /\ P s' r' /\ forall q, P s q -> P s' q.

Lemma asignar_bucle_inv : forall rs s s' rs',
  J s -> Forall (P s) rs -> asignar_bucle s rs = Some (s', rs') ->
  J s' /\ Forall (P s') rs' /\ forall q, P s q -> P s' q.
Proof.
  induction rs as [|r rs IH]; intros s s' rs' HJ HP H; simpl in H.
  - injection H as <- <-. done.
  - apply Forall_cons in HP as [Hr Hrs]. case_decide as He.
    + destruct (pendientes s) as [|pi pend] eqn:Hpend.
      * injection H as <- <-. split; [done|]. split; [by constructor | done].
      * destruct (asignar_robot s r) as [[[s1 r1] i]|] eqn:Ha; [|done]. simpl in H.
        destruct (asignar_bucle s1 rs) as [[s2 rs2]|] eqn:Hb; [|done]. simpl in H.
        injection H as <- <-.
        destruct (J_asignar s r s1 r1 i) as (HJ1 & Hr1 & Hmono1);
          [done | done | done | by rewrite Hpend | done |].
        destruct (IH s1 s2 rs2) as (HJ2 & Hrs2 & Hmono2);
          [done | by eapply Forall_impl | done |].
        split; [done|]. split; [constructor; auto | auto].
    + destruct (asignar_bucle s rs) as [[s2 rs2]|] eqn:Hb; [|done]. simpl in H.
      injection H as <- <-.
      destruct (IH s s2 rs2) as (HJ2 & Hrs2 & Hmono2); [done..|].
      split; [done|]. split; [constructor; auto | auto].
Qed.

Hypothesis J_robots : forall s rs, J s -> J (con_robots s rs).
Hypothesis P_robots : forall s rs q, P s q -> P (con_robots s rs) q.

Lemma asignar_pedidos_inv s s' :
  J s -> Forall (P s) (lista_robots s) -> asignar_pedidos s = Some s' ->
  J s' /\ Forall (P s') (lista_robots s').
Proof.
  intros HJ HP. unfold asignar_pedidos.
  destruct (es_vacia _ || es_vacia _); [by intros [= <-]|].
  destruct (asignar_bucle s (lista_robots s)) as [[s1 rs]|] eqn:Hb; [|done].
  simpl. intros [= <-].
  destruct (asignar_bucle_inv _ _ _ _ HJ HP Hb) as (HJ1 & HP1 & _).
  split; [by apply J_robots|]. simpl. eapply Forall_impl; [done|].
  intros q. apply P_robots.
Qed.

End Bucles.

Section Proponer.

Variable s : SimAlmacen.
Variable J : list Pedido -> Prop.
Variable P : list Pedido -> Robot -> Prop.

Hypothesis J_planear : forall ps r ps' r',
  J ps -> P ps r ->
  planear_siguiente_tramo_si_llego s ps (ocupar r) = Some (ps', r') ->
  J ps' /\ P ps' r' /\ forall q, P ps q -> P ps' q.

Lemma proponer_inv : forall rs ps props ps' props' rs',
  J ps -> Forall (P ps) rs -> proponer s ps props rs = Some (ps', props', rs') ->
  J ps' /\ Forall (P ps') rs' /\ forall q, P ps q -> P ps' q.
Proof.
  induction rs as [|r rs IH]; intros ps props ps' props' rs' HJ HP H; simpl in H.
  - injection H as <- <- <-. done.
  - apply Forall_cons in HP as [Hr Hrs].
    fold (ocupar r) in H.
    destruct (planear_siguiente_tramo_si_llego s ps (ocupar r)) as [[ps1 r2]|] eqn:Hpl;
      [|done].
    simpl in H. destruct (propuesta r2) as [c|]; [|done]. simpl in H.
    destruct (proponer s ps1 _ rs) as [[[ps2 props2] rs2]|] eqn:Hrec; [|done].
    simpl in H. injection H as <- <- <-.
    destruct (J_planear _ _ _ _ HJ Hr Hpl) as (HJ1 & Hr1 & Hmono1).
    destruct (IH _ _ _ _ _ HJ1 ltac:(by eapply Forall_impl) Hrec) as (HJ2 & Hrs2 & Hmono2).
    split; [done|]. split; [constructor; auto | auto].
Qed.

End Proponer.

(** ** What the first loop records *)

Lemma proponer_cons s ps props r rs ps' props' rs' :
  proponer s ps props (r :: rs) = Some (ps', props', rs') ->
  exists ps1 r2 c rs2,
    planear_siguiente_tramo_si_llego s ps (ocupar r) = Some (ps1, r2)
    /\ propuesta r2 = Some c
    /\ proponer s ps1 (<[robot_id r2 := c]> props) rs = Some (ps', props', rs2)
    /\ rs' = r2 :: rs2.
Proof.
  simpl. fold (ocupar r).
  destruct (planear_siguiente_tramo_si_llego s ps (ocupar r)) as [[ps1 r2]|]; [|done].
  simpl. destruct (propuesta r2) as [c|] eqn:Hc; [|done]. simpl.
  destruct (proponer s ps1 _ rs) as [[[ps2 props2] rs2]|] eqn:Hrec; [|done].
  simpl. intros [= <- <- <-]. by exists ps1, r2, c, rs2.
Qed.

Lemma proponer_ajenas s : forall rs ps props ps' props' rs' k,
  proponer s ps props rs = Some (ps', props', rs') ->
  k ∉ robot_id <$> rs' -> props' !! k = props !! k.
Proof.
  induction rs as [|r rs IH]; intros ps props ps' props' rs' k H Hk.
  - by injection H as <- <- <-.
  - apply proponer_cons in H as (ps1 & r2 & c & rs2 & _ & _ & Hrec & ->).
    rewrite fmap_cons in Hk. apply not_elem_of_cons in Hk as [Hk1 Hk2].
    rewrite (IH _ _ _ _ _ _ Hrec Hk2). by rewrite lookup_insert_ne.
Qed.

(** With distinct identifiers every robot finds its own proposal. *)
Lemma proponer_propias s : forall rs ps props ps' props' rs' r',
  proponer s ps props rs = Some (ps', props', rs') ->
  NoDup (robot_id <$> rs') -> r' ∈ rs' -> props' !! robot_id r' = propuesta r'.
Proof.
  induction rs as [|r rs IH]; intros ps props ps' props' rs' r' H Hnd Hr'.
  - injection H as <- <- <-. by apply elem_of_nil in Hr'.
  - apply proponer_cons in H as (ps1 & r2 & c & rs2 & _ & Hc & Hrec & ->).
    rewrite fmap_cons in Hnd. apply NoDup_cons in Hnd as [Hnin Hnd].
    apply elem_of_cons in Hr' as [->|Hr'].
    + rewrite (proponer_ajenas _ _ _ _ _ _ _ _ Hrec Hnin).
      by rewrite lookup_insert_eq.
    + by eapply IH.
Qed.

(** Every robot finds some proposal under its identifier. *)
Lemma proponer_todas s : forall rs ps props ps' props' rs',
  proponer s ps props rs = Some (ps', props', rs') ->
  (forall k, is_Some (props !! k) -> is_Some (props' !! k))
  /\ forall r', r' ∈ rs' -> is_Some (props' !! robot_id r').
Proof.
  induction rs as [|r rs IH]; intros ps props ps' props' rs' H.
  - injection H as <- <- <-. split; [done|]. by intros r' ?%elem_of_nil.
  - apply proponer_cons in H as (ps1 & r2 & c & rs2 & _ & Hc & Hrec & ->).
    destruct (IH _ _ _ _ _ Hrec) as [Hmono Hrs2]. split.
    + intros k Hk. apply Hmono. rewrite lookup_insert. by case_decide.
    + intros r' [->|Hr']%elem_of_cons; [|by apply Hrs2].
      apply Hmono. rewrite lookup_insert_eq. by eexists.
Qed.

(** ** The robots, one by one, through the two loops *)

Lemma proponer_cada s : forall rs ps props ps' props' rs',
  proponer s ps props rs = Some (ps', props', rs') ->
  Forall2 (fun r r' => exists ps0 ps1,
             planear_siguiente_tramo_si_llego s ps0 (ocupar r) = Some (ps1, r')
             /\ is_Some (propuesta r')) rs rs'.
Proof.
  induction rs as [|r rs IH]; intros ps props ps' props' rs' H.
  - injection H as <- <- <-. constructor.
  - apply proponer_cons in H as (ps1 & r2 & c & rs2 & Hpl & Hc & Hrec & ->).
    constructor; [|by eapply IH]. exists ps, ps1. split; [done|]. by eexists.
Qed.

Lemma resolver_cada props ts : forall rs st st' rs',
  resolver props ts st rs = Some (st', rs') ->
  Forall2 (fun r r' => exists st0 st1, resolver_robot props ts st0 r = Some (st1, r'))
    rs rs'.
Proof.
  intros rs st st' rs' H. eapply resolver_rel; [|done].
  intros st0 r st1 r' Hr. by exists st0, st1.
Qed.

Lemma asignar_bucle_cada : forall rs s s' rs',
  asignar_bucle s rs = Some (s', rs') ->
  marco s s'
  /\ Forall2 (fun r r' => r' = r
                \/ (estado r = INACTIVO
                    /\ exists s0 s1 i, marco s s0
                         /\ asignar_robot s0 r = Some (s1, r', i))) rs rs'.
Proof.
  induction rs as [|r rs IH]; intros s s' rs' H; simpl in H.
  - injection H as <- <-. split; [apply marco_refl | constructor].
  - case_decide as He.
    + destruct (pendientes s) eqn:Hpend.
      * injection H as <- <-. split; [apply marco_refl|].
        apply Forall2_same_length_lookup_2; [done|]. intros i x y Hx Hy. left. congruence.
      * destruct (asignar_robot s r) as [[[s1 r1] i]|] eqn:Hr; [|done]. simpl in H.
        destruct (asignar_bucle s1 rs) as [[s2 rs2]|] eqn:Hb; [|done]. simpl in H.
        injection H as <- <-.
        destruct (asignar_robot_marco _ _ _ _ _ Hr) as (Hm & _).
        destruct (IH _ _ _ Hb) as [Hm2 HF]. split; [by eapply marco_trans|].
        constructor.
        -- right. split; [done|]. exists s, s1, i. split; [apply marco_refl | done].
        -- eapply Forall2_impl; [done|]. intros x y [->|(Hx & s0 & s3 & j & Hm0 & Ha)];
             [by left|]. right. split; [done|]. exists s0, s3, j.
           split; [by eapply marco_trans | done].
    + destruct (asignar_bucle s rs) as [[s2 rs2]|] eqn:Hb; [|done]. simpl in H.
      injection H as <- <-. destruct (IH _ _ _ Hb) as [Hm2 HF].
      split; [done|]. constructor; [by left | done].
Qed.

Lemma asignar_pedidos_cada s s' :
  asignar_pedidos s = Some s' ->
  marco s s'
  /\ Forall2 (fun r r' => r' = r
                \/ (estado r = INACTIVO
                    /\ exists s0 s1 i, marco s s0
                         /\ asignar_robot s0 r = Some (s1, r', i)))
       (lista_robots s) (lista_robots s').
Proof.
  unfold asignar_pedidos. destruct (es_vacia _ || es_vacia _).
  - intros [= <-]. split; [apply marco_refl|].
    apply Forall2_same_length_lookup_2; [done|]. intros i x y Hx Hy. left. congruence.
  - destruct (asignar_bucle s (lista_robots s)) as [[s1 rs]|] eqn:Hb; [|done].
    simpl. intros [= <-]. destruct (asignar_bucle_cada _ _ _ _ Hb) as [Hm HF].
    split; [|done]. eapply marco_trans; [done | apply marco_con_robots].
Qed.

Lemma Forall2_componer {A} (R1 R2 : A -> A -> Prop) l1 l2 l3 :
  Forall2 R1 l1 l2 -> Forall2 R2 l2 l3 ->
  Forall2 (fun x z => exists y, R1 x y /\ R2 y z) l1 l3.
Proof.
  intros H. revert l3. induction H; intros l3 H3; inversion H3; subst;
    constructor; eauto.
Qed.

(** * An invariant of the orders and of the robots through a tick *)

Section Paso.

Variable J : SimAlmacen -> Prop.
Variable P : SimAlmacen -> Robot -> Prop.

Hypothesis J_cola : forall s s', misma_cola s s' ->
  (J s -> J s') /\ forall q, P s q -> P s' q.
Hypothesis J_liberar : forall s s',
  J s -> liberar_pedidos s = Some s' -> J s' /\ forall q, P s q -> P s' q.
Hypothesis J_asignar : forall s r s' r' i,
  J s -> P s r -> estado r = INACTIVO -> pendientes s ≠ [] ->
  asignar_robot s r = Some (s', r', i) ->
  J s' /\ P s' r' /\ forall q, P s q -> P s' q.
Hypothesis J_planear : forall s ps r ps' r',
  J (con_pedidos s ps) -> P (con_pedidos s ps) r ->
  planear_siguiente_tramo_si_llego s ps (ocupar r) = Some (ps', r') ->
  J (con_pedidos s ps') /\ P (con_pedidos s ps') r'
  /\ forall q, P (con_pedidos s ps) q -> P (con_pedidos s ps') q.
Hypothesis P_resolver : forall s props ts st r st' r',
  P s r -> resolver_robot props ts st r = Some (st', r') -> P s r'.

Lemma misma_cola_robots s rs : misma_cola s (con_robots s rs).
Proof. unfold misma_cola. simpl. repeat split; try done; lia. Qed.

Lemma misma_cola_pedidos s : misma_cola s (con_pedidos s (pedidos s)).
Proof. unfold misma_cola. simpl. repeat split; try done; lia. Qed.

Lemma step_inv s s' :
  step s = Some s' -> J s -> Forall (P s) (lista_robots s) ->
  J s' /\ Forall (P s') (lista_robots s').
Proof.
  intros H HJ HP. apply step_fases in H
    as (s1 & s2 & ps3 & props & rs3 & st & H1 & H2 & H3 & H4 & Hg & Hed & Hah & _ & Hps
        & Ht & _ & _ & _ & Hpe & Hnl & _).
  destruct (J_liberar _ _ HJ H1) as [HJ1 Hmono1].
  assert (Forall (P s1) (lista_robots s1)) as HP1.
  { apply liberar_pedidos_marco in H1 as (_ & -> & _). by eapply Forall_impl. }
  destruct (asignar_pedidos_inv J P J_asignar
              ltac:(intros s0 rs; apply J_cola, misma_cola_robots)
              ltac:(intros s0 rs; apply J_cola, misma_cola_robots)
              s1 s2 HJ1 HP1 H2) as [HJ2 HP2].
  destruct (J_cola _ _ (misma_cola_pedidos s2)) as [HJc HPc].
  destruct (proponer_inv s2 (fun ps => J (con_pedidos s2 ps))
              (fun ps r => P (con_pedidos s2 ps) r) (J_planear s2)
              (lista_robots s2) (pedidos s2) ∅ ps3 props rs3 (HJc HJ2)
              ltac:(by eapply Forall_impl) H3) as (HJ3 & HP3 & _).
  assert (misma_cola (con_pedidos s2 ps3) s') as Hmc.
  { unfold misma_cola. simpl. repeat split; try done; lia. }
  destruct (J_cola _ _ Hmc) as [HJf HPf]. split; [by apply HJf|].
  pose proof (resolver_cada _ _ _ _ _ _ H4) as HF4.
  apply Forall_forall. intros r' Hr'. apply list_elem_of_lookup in Hr' as [i Hi].
  destruct (Forall2_lookup_r _ _ _ _ _ HF4 Hi) as (rc & Hrc & st0 & st1 & Hres).
  apply HPf. eapply P_resolver; [|done].
  rewrite Forall_forall in HP3. apply HP3. by eapply list_elem_of_lookup_2.
Qed.

Lemma run_inv n : forall s s',
  run n s = Some s' -> J s -> Forall (P s) (lista_robots s) ->
  J s' /\ Forall (P s') (lista_robots s').
Proof.
  induction n as [|n IH]; intros s s' H HJ HP; simpl in H; [by injection H as <-|].
  destruct (step s) as [s1|] eqn:Hs; [|done]. simpl in H.
  destruct (step_inv _ _ Hs HJ HP) as [HJ1 HP1]. by eapply IH.
Qed.

End Paso.

(** * The updates of a robot and of an order, in full *)

Lemma con_estado_id r e e' : estado r = e -> con_estado (con_estado r e') e = r.
Proof. intros <-. by destruct r. Qed.

Lemma planear_sin_llegar s ps r :
  ~ llego r -> planear_siguiente_tramo_si_llego s ps r = Some (ps, r).
Proof.
  intros Hn. unfold planear_siguiente_tramo_si_llego.
  destruct (es_vacia (ruta r) || _) eqn:Hc; [done|]. exfalso. apply Hn.
  apply orb_false_iff in Hc as [Hv Hi]. apply negb_false_iff, Z.eqb_eq in Hi.
  split; [by destruct (ruta r) | lia].
Qed.

(** Every way in which a leg transition returns. *)
Lemma planear_detalle s ps r ps' r' :
  planear_siguiente_tramo_si_llego s ps r = Some (ps', r') ->
  (ps' = ps /\ r' = r)
  \/ (llego r /\ estado r = A_RECOGER /\ ps' = ps
      /\ exists dock l, r_estacion_dock r = Some dock
           /\ AEstrella.a_estrella (grid s) (pos r) dock = Some l
           /\ r' = con_ruta (con_estado r A_ESTACION) l)
  \/ (llego r /\ estado r = A_ESTACION /\ ps' = ps
      /\ exists ah pk l, r_anaquel_home r = Some ah
           /\ elegir_objetivo_adyacente (grid s) ah = Some pk
           /\ AEstrella.a_estrella (grid s) (pos r) pk = Some l
           /\ r' = con_ruta (con_estado r RETORNO) l)
  \/ (llego r /\ estado r = RETORNO /\ r' = liberar_robot r
      /\ ps' = match r_pedido_id r with
               | Some pid => completar_pedido (tick s) pid ps
               | None => ps
               end).
Proof.
  unfold planear_siguiente_tramo_si_llego.
  destruct (es_vacia (ruta r) || _) eqn:Hc; [intros [= <- <-]; by left|].
  assert (llego r) as Hll.
  { apply orb_false_iff in Hc as [Hv Hi]. apply negb_false_iff, Z.eqb_eq in Hi.
    split; [by destruct (ruta r) | lia]. }
  destruct (estado r) eqn:He.
  - intros [= <- <-]. by left.
  - simpl. destruct (r_estacion_dock r) as [dock|] eqn:Hd; simpl; [|done].
    destruct (AEstrella.a_estrella (grid s) (pos r) dock) as [l|] eqn:Hl.
    + intros [= <- <-]. right. left. do 3 (split; [done|]). by exists dock, l.
    + intros [= <- <-]. left. split; [done|]. by apply con_estado_id.
  - simpl. destruct (r_anaquel_home r) as [ah|] eqn:Hah; simpl.
    + destruct (elegir_objetivo_adyacente (grid s) ah) as [pk|] eqn:Hpk.
      * destruct (AEstrella.a_estrella (grid s) (pos r) pk) as [l|] eqn:Hl.
        -- intros [= <- <-]. right. right. left. do 3 (split; [done|]).
           by exists ah, pk, l.
        -- intros [= <- <-]. left. split; [done|]. by apply con_estado_id.
      * intros [= <- <-]. left. split; [done|]. by apply con_estado_id.
    + intros [= <- <-]. left. split; [done|]. by apply con_estado_id.
  - intros [= <- <-]. right. right. right. done.
Qed.

(** Every way in which the second loop treats a robot. *)
Lemma resolver_robot_detalle props ts st r st' r' :
  resolver_robot props ts st r = Some (st', r') ->
  exists c, props !! robot_id r = Some c
    /\ ((c = pos r /\ r' = r
         /\ res_tabla st' = confirmar_espera (res_tabla st) (robot_id r) (pos r) ts
         /\ res_movio_alguien st' = res_movio_alguien st
         /\ res_eventos_alto st' = res_eventos_alto st)
        \/ (c ≠ pos r /\ puede_moverse (res_tabla st) (pos r) c ts = true
            /\ r' = avanzar r c
            /\ res_tabla st' = confirmar_movimiento (res_tabla st) (robot_id r) (pos r) c ts
            /\ res_movio_alguien st' = true
            /\ res_eventos_alto st' = res_eventos_alto st)
        \/ (c ≠ pos r /\ puede_moverse (res_tabla st) (pos r) c ts = false
            /\ r' = mas_espera r
            /\ res_tabla st' = confirmar_espera (res_tabla st) (robot_id r) (pos r) ts
            /\ res_movio_alguien st' = res_movio_alguien st
            /\ res_eventos_alto st' = res_eventos_alto st + 1)).
Proof.
  unfold resolver_robot. destruct (props !! robot_id r) as [c|]; [|done]. simpl.
  intros H. exists c. split; [done|]. case_decide as Heq.
  - injection H as <- <-. by left.
  - destruct (puede_moverse (res_tabla st) (pos r) c ts) eqn:Hp; injection H as <- <-.
    + right. left. done.
    + right. right. done.
Qed.

(** ** The orders keep their identity *)

Lemma mismo_pedido_refl p : mismo_pedido p p.
Proof. done. Qed.

Lemma mismo_pedido_trans p1 p2 p3 :
  mismo_pedido p1 p2 -> mismo_pedido p2 p3 -> mismo_pedido p1 p3.
Proof. unfold mismo_pedido. intros (?&?&?&?) (?&?&?&?). repeat split; congruence. Qed.

Lemma mismos_refl ps : Forall2 mismo_pedido ps ps.
Proof. induction ps; constructor; done. Qed.

Lemma mismos_insert ps0 ps i p p1 :
  Forall2 mismo_pedido ps0 ps -> ps !! i = Some p -> mismo_pedido p p1 ->
  Forall2 mismo_pedido ps0 (<[i := p1]> ps).
Proof.
  intros HF Hi Hp. destruct (Forall2_lookup_r _ _ _ _ _ HF Hi) as (q & Hq & Hqp).
  rewrite <- (list_insert_id ps0 i q Hq). apply Forall2_insert; [done|].
  by eapply mismo_pedido_trans.
Qed.

Lemma completar_pedido_mismos t pid ps : Forall2 mismo_pedido ps (completar_pedido t pid ps).
Proof.
  induction ps as [|p ps IH]; simpl; [constructor|].
  destruct (pedido_id p =? pid); constructor; try done. apply mismos_refl.
Qed.

Lemma mismos_trans ps1 ps2 ps3 :
  Forall2 mismo_pedido ps1 ps2 -> Forall2 mismo_pedido ps2 ps3 ->
  Forall2 mismo_pedido ps1 ps3.
Proof.
  intros H. revert ps3. induction H; intros ps3 H3; inversion H3; subst;
    constructor; eauto using mismo_pedido_trans.
Qed.

Lemma asignar_robot_mismos s r s' r' i :
  asignar_robot s r = Some (s', r', i) -> Forall2 mismo_pedido (pedidos s) (pedidos s').
Proof.
  intros H. apply asignar_robot_casos in H.
  destruct H; simpl; try apply mismos_refl;
    (eapply mismos_insert; [apply mismos_refl | done | done]).
Qed.

Lemma planear_mismos s ps r ps' r' :
  planear_siguiente_tramo_si_llego s ps r = Some (ps', r') -> Forall2 mismo_pedido ps ps'.
Proof.
  intros H. apply planear_detalle in H
    as [[-> _]|[(_&_&->&_)|[(_&_&->&_)|(_&_&_&->)]]]; try apply mismos_refl.
  destruct (r_pedido_id r); [apply completar_pedido_mismos | apply mismos_refl].
Qed.

Lemma step_mismos s s' :
  step s = Some s' -> Forall2 mismo_pedido (pedidos s) (pedidos s').
Proof.
  intros H. apply step_fases in H
    as (s1 & s2 & ps3 & props & rs3 & st & H1 & H2 & H3 & H4 & _ & _ & _ & _ & Hps & _).
  apply liberar_pedidos_marco in H1 as (_ & _ & Hp1).
  destruct (asignar_pedidos_inv
              (fun s0 => Forall2 mismo_pedido (pedidos s) (pedidos s0))
              (fun _ _ => True)) with (s := s1) (s' := s2) as [HJ2 _]; try done.
  - intros s0 r s0' r' i HJ _ _ _ Ha. split; [|done].
    eapply mismos_trans; [done|]. by eapply asignar_robot_mismos.
  - rewrite Hp1. apply mismos_refl.
  - by apply Forall_true.
  - destruct (proponer_inv s2 (fun ps => Forall2 mismo_pedido (pedidos s) ps)
                (fun _ _ => True)) with (rs := lista_robots s2) (ps := pedidos s2)
      (props := (∅ : gmap Z Celda)) (ps' := ps3) (props' := props) (rs' := rs3)
      as [HJ3 _]; try done.
    + intros ps r ps' r' HJ _ Hpl. split; [|done].
      eapply mismos_trans; [done|]. by eapply planear_mismos.
    + by apply Forall_true.
    + by rewrite Hps.
Qed.

(** * A robot through a tick *)

Lemma asignar_robot_id s r s' r' i :
  asignar_robot s r = Some (s', r', i) -> robot_id r' = robot_id r.
Proof. intros H. apply asignar_robot_marco in H. by destruct H as (_&_&_&_&?&_). Qed.

Lemma ocupar_id r : robot_id (ocupar r) = robot_id r.
Proof. unfold ocupar. by case_bool_decide. Qed.

Lemma planear_id s ps r ps' r' :
  planear_siguiente_tramo_si_llego s ps r = Some (ps', r') -> robot_id r' = robot_id r.
Proof. intros H. apply planear_mismo_lugar in H. by destruct H. Qed.

Lemma Forall2_fmap_eq {A B} (f : A -> B) (l k : list A) :
  Forall2 (fun x y => f y = f x) l k -> f <$> k = f <$> l.
Proof. induction 1; simpl; [done|]. by f_equal. Qed.

(** What happens to one robot in a tick: an attempt of assignment when
    it is idle, the count of a busy tick, a leg transition, and its pass
    of the second loop, in which it finds its own proposal when the
    identifiers of the robots are distinct. *)
Lemma step_cada s s' :
  step s = Some s' ->
  exists s2 props,
    marco s s2
    /\ Forall2 (fun r r' => exists ra rc,
         (ra = r \/ (estado r = INACTIVO
                     /\ exists s0 s1 i, marco s s0
                          /\ asignar_robot s0 r = Some (s1, ra, i)))
         /\ (exists ps0 ps1,
               planear_siguiente_tramo_si_llego s2 ps0 (ocupar ra) = Some (ps1, rc))
         /\ (NoDup (obtener_ids_robots s) -> props !! robot_id rc = propuesta rc)
         /\ (exists st0 st1,
               resolver_robot props (tick s + 1) st0 rc = Some (st1, r')))
       (lista_robots s) (lista_robots s').
Proof.
  intros H. apply step_fases in H
    as (s1 & s2 & ps3 & props & rs3 & st & H1 & H2 & H3 & H4 & _).
  apply liberar_pedidos_marco in H1 as (Hm1 & Hr1 & _).
  destruct (asignar_pedidos_cada _ _ H2) as [Hm2 HF2].
  pose proof (proponer_cada _ _ _ _ _ _ _ H3) as HF3.
  pose proof (resolver_cada _ _ _ _ _ _ H4) as HF4.
  pose proof (marco_trans _ _ _ Hm1 Hm2) as Hm.
  exists s2, props. split; [done|].
  rewrite <- Hr1.
  assert (tick s2 = tick s) as Ht by (by destruct Hm as (_&_&_&_&?&_)).
  rewrite Ht in HF4.
  assert (robot_id <$> rs3 = robot_id <$> lista_robots s1) as Hids.
  { transitivity (robot_id <$> lista_robots s2).
    - apply Forall2_fmap_eq. eapply Forall2_impl; [exact HF3|]. simpl.
      intros x y (ps0 & ps1 & Hpl & _). apply planear_id in Hpl.
      by rewrite Hpl, ocupar_id.
    - apply Forall2_fmap_eq. eapply Forall2_impl; [exact HF2|]. simpl.
      intros x y [->|(_ & s0 & s3 & i & _ & Ha)]; [done|]. by eapply asignar_robot_id. }
  assert (Forall2 (fun rc r' =>
            (NoDup (robot_id <$> lista_robots s1) -> props !! robot_id rc = propuesta rc)
            /\ exists st0 st1, resolver_robot props (tick s + 1) st0 rc = Some (st1, r'))
            rs3 (lista_robots s')) as HF4'.
  { apply Forall2_same_length_lookup. split; [by eapply Forall2_length|].
    intros i rc r' Hrc Hr'. split.
    - intros Hnd. eapply proponer_propias; [done | by rewrite Hids |].
      by eapply list_elem_of_lookup_2.
    - destruct (Forall2_lookup_l _ _ _ _ _ HF4 Hrc) as (y & Hy & Hres).
      assert (y = r') as -> by congruence. done. }
  pose proof (Forall2_componer _ _ _ _ _ HF2 (Forall2_componer _ _ _ _ _ HF3 HF4')) as HF.
  eapply Forall2_impl; [done|]. simpl.
  intros r r' (ra & Ha & rc & (ps0 & ps1 & Hpl & _) & Hown & Hres).
  exists ra, rc. split.
  - destruct Ha as [->|(He & s0 & s3 & i & Hm0 & Ha)]; [by left|]. right.
    split; [done|]. exists s0, s3, i. split; [exact (marco_trans _ _ _ Hm1 Hm0) | done].
  - split; [by exists ps0, ps1|]. split; [|done].
    unfold obtener_ids_robots. by rewrite <- Hr1.
Qed.

(** * What a tick leaves alone *)

Lemma step_ids s s' :
  step s = Some s' -> obtener_ids_robots s' = obtener_ids_robots s.
Proof.
  intros H. apply step_antes_de_resolver in H as (props & rs3 & st & s2 & HF & _ & Hres & _).
  assert (Forall2 (fun r r' => robot_id r' = robot_id r) rs3 (lista_robots s')) as HF'.
  { eapply resolver_rel; [|done]. intros st0 r st1 r' Hr.
    apply resolver_robot_detalle in Hr
      as (c & _ & [(_ & -> & _)|[(_ & _ & -> & _)|(_ & _ & -> & _)]]); done. }
  unfold obtener_ids_robots.
  assert (robot_id <$> rs3 = robot_id <$> lista_robots s) as <-.
  { clear -HF. induction HF as [|r r' rs rs' [_ Hid] _ IH]; simpl; [done|]. by f_equal. }
  clear -HF'. induction HF' as [|r r' rs rs' Hid _ IH]; simpl; [done|]. by f_equal.
Qed.

Lemma step_marco s s' :
  step s = Some s' ->
  tick s' = tick s + 1 /\ grid s' = grid s /\ estacion_dock s' = estacion_dock s
  /\ anaquel_home s' = anaquel_home s /\ seed s' = seed s
  /\ colisiones_vertice s' = colisiones_vertice s
  /\ intercambios_arista s' = intercambios_arista s.
Proof.
  intros H. pose proof H as H'.
  apply step_antes_de_resolver in H' as (_ & _ & _ & s2' & _ & _ & _ & _ & Ht & _).
  apply step_fases in H
    as (s1 & s2 & ps3 & props & rs3 & st & H1 & H2 & H3 & H4 & Hg & Hed & Hah & Hsd
        & _ & _ & _ & _ & _ & _ & _ & Hcv & Hia).
  apply liberar_pedidos_marco in H1 as (Hm1 & _ & _).
  destruct (asignar_pedidos_rel (fun _ _ => True) ltac:(done) ltac:(done) (grid s1)
              ltac:(done) s1 s2 eq_refl H2) as [_ Hm2].
  destruct (marco_trans _ _ _ Hm1 Hm2) as (?&?&?&?&?&?&?&?&?&?).
  repeat split; congruence.
Qed.

Lemma run_ids n : forall s s',
  run n s = Some s' -> obtener_ids_robots s' = obtener_ids_robots s.
Proof.
  induction n as [|n IH]; intros s s' H; simpl in H; [by injection H as <-|].
  destruct (step s) as [s1|] eqn:Hs; [|done]. simpl in H.
  rewrite (IH _ _ H). by apply step_ids.
Qed.

(** X7. A run of [n] ticks advances the tick by [n]; it changes neither
    the grid, nor the two tables, nor the seed, nor the number, the order
    and the identifiers of the robots, nor the number of the orders, and
    no order changes its identifier, its shelf, its station or its
    creation tick. *)
Theorem run_identidad n : forall s s',
  run n s = Some s' ->
  tick s' = tick s + Z.of_nat n
  /\ grid s' = grid s /\ estacion_dock s' = estacion_dock s
  /\ anaquel_home s' = anaquel_home s /\ seed s' = seed s
  /\ obtener_ids_robots s' = obtener_ids_robots s
  /\ Forall2 mismo_pedido (pedidos s) (pedidos s').
Proof.
  induction n as [|n IH]; intros s s' H; simpl in H.
  - injection H as <-. repeat split; try done; [lia | apply mismos_refl].
  - destruct (step s) as [s1|] eqn:Hs; [|done]. simpl in H.
    destruct (IH _ _ H) as (Ht & Hg & Hed & Hah & Hsd & Hid & Hps).
    destruct (step_marco _ _ Hs) as (Ht1 & Hg1 & Hed1 & Hah1 & Hsd1 & _).
    pose proof (step_ids _ _ Hs). pose proof (step_mismos _ _ Hs).
    repeat split; try congruence; [lia|]. by eapply mismos_trans.
Qed.

Lemma run_identidad_witness :
  tick (default sim_vacio (run 5 ej_s0)) = tick ej_s0 + 5
  /\ obtener_ids_robots (default sim_vacio (run 5 ej_s0)) = [0; 1].
Proof.
  destruct (run_identidad 5 ej_s0 (default sim_vacio (run 5 ej_s0)))
    as (Ht & _ & _ & _ & _ & Hid & _); [vm_compute; reflexivity|].
  split; [exact Ht | exact Hid].
Defined.

Lemma run_contadores n : forall s s',
  run n s = Some s' ->
  colisiones_vertice s' = colisiones_vertice s
  /\ intercambios_arista s' = intercambios_arista s.
Proof.
  induction n as [|n IH]; intros s s' H; simpl in H; [by injection H as <-|].
  destruct (step s) as [s1|] eqn:Hs; [|done]. simpl in H.
  destruct (IH _ _ H) as [? ?].
  destruct (step_marco _ _ Hs) as (_ & _ & _ & _ & _ & ? & ?). split; congruence.
Qed.

(** X8. The two collision counters are never written: in every run of a
    simulator as it is built, [colisiones_vertice] and
    [intercambios_arista] are 0 at every tick, in the state and in the
    metrics, whatever the robots did. *)
Theorem colisiones_nunca_contadas g ed ah robots spawn ps sd s0 n s :
  construir g ed ah robots spawn ps sd = Some s0 -> run n s0 = Some s ->
  colisiones_vertice s = 0 /\ intercambios_arista s = 0
  /\ m_colisiones_vertice (metricas s) = 0
  /\ m_intercambios_arista (metricas s) = 0.
Proof.
  intros Hc Hr. destruct (run_contadores _ _ _ Hr) as [Hcv Hia].
  assert (colisiones_vertice s0 = 0 /\ intercambios_arista s0 = 0) as [Hcv0 Hia0].
  { unfold construir in Hc. destruct (_ <? _); [done|].
    destruct (mapM _ _); [|done]. by injection Hc as <-. }
  simpl. repeat split; congruence.
Qed.

Lemma colisiones_nunca_contadas_witness :
  obtener_posiciones_robots ej_choque1 = [(1, 0); (1, 0)]
  /\ colisiones_vertice ej_choque1 = 0 /\ intercambios_arista ej_choque1 = 0
  /\ m_colisiones_vertice (metricas ej_choque1) = 0
  /\ m_intercambios_arista (metricas ej_choque1) = 0.
Proof.
  split; [vm_compute; reflexivity|].
  apply (colisiones_nunca_contadas [[0; 0; 0; 1]] {[0 := (0, 0)]} {[0 := (3, 0)]} 2
           [(0, 0); (1, 0)] [mkPedido 0 0 0 0 None None] 0 ej_choque 1 ej_choque1);
    vm_compute; reflexivity.
Defined.

(** X9. In every run of a simulator as it is built the identifiers that
    [obtener_ids_robots] returns are [0], [1], ... up to the number of
    robots, in that order, at every tick. *)
Theorem ids_de_los_robots g ed ah robots spawn ps sd s0 n s :
  construir g ed ah robots spawn ps sd = Some s0 -> run n s0 = Some s ->
  obtener_ids_robots s = Z.of_nat <$> seq 0 (Z.to_nat robots).
Proof.
  intros Hc Hr. rewrite (run_ids _ _ _ Hr).
  apply construir_robots in Hc as (_ & _ & _ & _ & _ & _ & Hlen & Hrob).
  unfold obtener_ids_robots. apply list_eq. intros i.
  rewrite !list_lookup_fmap.
  destruct (lista_robots s0 !! i) as [r|] eqn:Hi.
  - apply Hrob in Hi as (Hi & c & _ & ->). simpl.
    by rewrite lookup_seq_lt by done.
  - apply lookup_ge_None in Hi. rewrite lookup_seq_ge by lia. done.
Qed.

Lemma ids_de_los_robots_witness :
  obtener_ids_robots (default sim_vacio (run 5 ej_s0)) = [0; 1].
Proof.
  apply (ids_de_los_robots ej_pasillo {[0 := (1, 0)]} {[0 := (6, 0); 1 := (0, 0)]} 2
           [(3, 0); (4, 0)] ej_pedidos 0 ej_s0 5); vm_compute; reflexivity.
Defined.

Lemma run_mas_uno n s : run (n + 1) s = run n s ≫= run 1.
Proof.
  revert s. induction n as [|n IH]; intros s; simpl; [done|].
  destruct (step s) as [s1|]; simpl; [apply IH | done].
Qed.

(** X10. Running [n] ticks and then [m] ticks is running [n + m] ticks,
    an exception in the first part included. *)
Theorem run_suma n m s : run (n + m) s = run n s ≫= run m.
Proof.
  revert s. induction n as [|n IH]; intros s; simpl; [done|].
  destruct (step s) as [s1|]; simpl; [apply IH | done].
Qed.

(** * The pickup cell of a shelf *)

Lemma celdas_adyacentes_distancia (c p : Celda) :
  p ∈ celdas_adyacentes c <-> distancia c p = 1.
Proof.
  unfold celdas_adyacentes, distancia. destruct c as [x y], p as [px py]. simpl.
  rewrite !elem_of_cons, elem_of_nil. split.
  - intros [[= -> ->]|[[= -> ->]|[[= -> ->]|[[= -> ->]|[]]]]]; lia.
  - intros H.
    assert ((px = x + 1 /\ py = y) \/ (px = x - 1 /\ py = y)
            \/ (px = x /\ py = y + 1) \/ (px = x /\ py = y - 1))
      as [[-> ->]|[[-> ->]|[[-> ->]|[-> ->]]]] by lia; auto.
Qed.

(** X11. The pickup cell of a shelf is one step away from it, in range
    and transitable; and there is none exactly when the four neighbours of
    the shelf are all out of range or obstacles. *)
Theorem pickup_adyacente g (c : Celda) :
  (forall p, elegir_objetivo_adyacente g c = Some p ->
     distancia c p = 1 /\ pasable g p = true)
  /\ (elegir_objetivo_adyacente g c = None <->
      forall p, distancia c p = 1 -> pasable g p = false).
Proof.
  unfold elegir_objetivo_adyacente. split.
  - intros p Hp. apply find_some in Hp as [Hin Hpas].
    split; [|done]. apply celdas_adyacentes_distancia. by apply list_elem_of_In.
  - split.
    + intros Hn p Hd. apply celdas_adyacentes_distancia, list_elem_of_In in Hd.
      by apply (find_none _ _ Hn).
    + intros Hno.
      destruct (find _ (celdas_adyacentes c)) as [p|] eqn:Hp; [|done].
      apply find_some in Hp as [Hin Hpas].
      apply list_elem_of_In, celdas_adyacentes_distancia, Hno in Hin.
      unfold pasable in Hin. congruence.
Qed.

(** * Completing an order *)

(** X12. On a list of orders that are pairwise different, so that no
    order object is listed twice, [_completar_pedido] stamps the first
    order of the list that carries the identifier, and that one only,
    whether it was complete already or not; when no order carries the
    identifier the list is left as it is and nothing is raised. *)
Theorem completar_pedido_primero t pid ps :
  NoDup ps ->
  ((forall p, p ∈ ps -> pedido_id p ≠ pid) -> completar_pedido t pid ps = ps)
  /\ (forall l1 p l2, ps = l1 ++ p :: l2 ->
        (forall q, q ∈ l1 -> pedido_id q ≠ pid) -> pedido_id p = pid ->
        completar_pedido t pid ps = l1 ++ con_completado p (Some t) :: l2).
Proof.
  intros _. split.
  - induction ps as [|p ps IH]; intros Hno; simpl; [done|].
    rewrite (proj2 (Z.eqb_neq _ _)) by (apply Hno; left).
    f_equal. apply IH. intros q Hq. apply Hno. by right.
  - intros l1 p l2 -> Hno Hp. induction l1 as [|q l1 IH]; simpl.
    + by rewrite (proj2 (Z.eqb_eq _ _)).
    + rewrite (proj2 (Z.eqb_neq _ _)) by (apply Hno; left).
      f_equal. apply IH. intros q' Hq'. apply Hno. by right.
Qed.

Lemma completar_pedido_primero_witness :
  completar_pedido 9 5 [mkPedido 7 0 0 0 None None; mkPedido 5 1 0 0 None None;
                        mkPedido 5 2 0 3 None None]
  = [mkPedido 7 0 0 0 None None] ++
    con_completado (mkPedido 5 1 0 0 None None) (Some 9) :: [mkPedido 5 2 0 3 None None].
Proof.
  destruct (completar_pedido_primero 9 5
              [mkPedido 7 0 0 0 None None; mkPedido 5 1 0 0 None None;
               mkPedido 5 2 0 3 None None]) as [_ H].
  - apply (bool_decide_unpack _). vm_compute. exact I.
  - apply (H [mkPedido 7 0 0 0 None None]).
    + reflexivity.
    + intros q Hq. apply list_elem_of_singleton in Hq as ->. simpl. lia.
    + reflexivity.
Defined.

(** * The queue of the orders not yet released *)

Section Orden.

Variable clave : nat -> Z.

Lemma insertar_estable_perm i l : insertar_estable clave i l ≡ₚ i :: l.
Proof.
  induction l as [|j l IH]; simpl; [done|].
  destruct (clave i <=? clave j); [done|]. rewrite IH. apply Permutation_swap.
Qed.

Lemma sorted_perm l : sorted clave l ≡ₚ l.
Proof.
  induction l as [|i l IH]; simpl; [done|].
  unfold sorted in *. simpl. rewrite insertar_estable_perm. by f_equiv.
Qed.

Lemma insertar_estable_ordenada i l :
  StronglySorted (antes clave) l -> (forall j, j ∈ l -> (i < j)%nat) ->
  StronglySorted (antes clave) (insertar_estable clave i l).
Proof.
  induction l as [|j l IH]; intros Hs Hlt; simpl.
  - repeat constructor.
  - apply StronglySorted_inv in Hs as [Hs Hj].
    destruct (clave i <=? clave j) eqn:Hc.
    + apply Z.leb_le in Hc. constructor; [by constructor|].
      apply Forall_cons. split.
      * split; [done|]. intros _. apply Hlt. by left.
      * rewrite Forall_forall in *. intros k Hk. destruct (Hj k Hk) as [Hjk _].
        split; [lia|]. intros _. apply Hlt. by right.
    + apply Z.leb_gt in Hc. constructor.
      * apply IH; [done|]. intros k Hk. apply Hlt. by right.
      * rewrite Forall_forall in *. intros k Hk.
        rewrite insertar_estable_perm in Hk. apply elem_of_cons in Hk as [->|Hk].
        -- split; lia.
        -- by apply Hj.
Qed.

Lemma sorted_ordenada n m : StronglySorted (antes clave) (sorted clave (seq n m)).
Proof.
  revert n. induction m as [|m IH]; intros n; [constructor|].
  unfold sorted in *. simpl. apply insertar_estable_ordenada; [apply IH|].
  intros j Hj. change (foldr _ _ _) with (sorted clave (seq (S n) m)) in Hj.
  rewrite sorted_perm in Hj. apply elem_of_seq in Hj. lia.
Qed.

End Orden.

Lemma ordenada_impl {A} (R R' : A -> A -> Prop) l :
  (forall x y, R x y -> R' x y) -> StronglySorted R l -> StronglySorted R' l.
Proof.
  intros HR. induction 1 as [|x l _ IH Hx]; constructor; [done|].
  eapply Forall_impl; [done|]. auto.
Qed.

Lemma antes_en_orden ps l : StronglySorted (antes (creacion ps)) l -> en_orden ps l.
Proof. apply ordenada_impl. by intros i j [? _]. Qed.

Lemma cola_inicial g ed ah robots spawn ps sd s :
  construir g ed ah robots spawn ps sd = Some s ->
  pendientes s = []
  /\ no_liberados s ≡ₚ seq 0 (length ps)
  /\ StronglySorted (antes (creacion ps)) (no_liberados s).
Proof.
  unfold construir. destruct (_ <? _); [done|].
  destruct (mapM _ _); [|done]. simpl. intros [= <-]. simpl.
  split; [done|]. split; [apply sorted_perm | apply sorted_ordenada].
Qed.

(** X13. As the simulator is built no order is pending, and the queue of
    the orders not yet released holds every index of the list of orders
    once, in the order of the creation ticks, the orders of one tick in
    the order of the list. *)
Theorem construir_cola g ed ah robots spawn ps sd s :
  construir g ed ah robots spawn ps sd = Some s ->
  pendientes s = []
  /\ no_liberados s ≡ₚ seq 0 (length ps)
  /\ StronglySorted (antes (creacion ps)) (no_liberados s).
Proof.
  unfold construir. destruct (_ <? _); [done|].
  destruct (mapM _ _); [|done]. simpl. intros [= <-]. simpl.
  split; [done|]. split; [apply sorted_perm | apply sorted_ordenada].
Qed.

Lemma construir_cola_witness :
  no_liberados ej_cuatro_s = [3; 1; 0; 2]%nat
  /\ StronglySorted (antes (creacion ej_cuatro)) (no_liberados ej_cuatro_s).
Proof.
  split; [vm_compute; reflexivity|].
  apply (construir_cola [[0]] ∅ ∅ 0 [] ej_cuatro 0 ej_cuatro_s).
  vm_compute. reflexivity.
Defined.

(** * Releasing the orders *)

Lemma en_orden_cola ps i l : en_orden ps (i :: l) -> en_orden ps l.
Proof. intros H. by apply StronglySorted_inv in H as [? _]. Qed.

Lemma en_orden_cabeza ps i l j : en_orden ps (i :: l) -> j ∈ l -> creacion ps i <= creacion ps j.
Proof.
  intros H Hj. apply StronglySorted_inv in H as [_ H].
  rewrite Forall_forall in H. by apply H.
Qed.

Lemma filter_ninguno {A} (P : A -> Prop) `{forall x, Decision (P x)} (l : list A) :
  Forall (fun x => ~ P x) l -> filter P l = [].
Proof.
  induction 1 as [|x l Hx _ IH]; [done|]. rewrite filter_cons.
  by rewrite decide_False.
Qed.

Lemma filter_todos {A} (P : A -> Prop) `{forall x, Decision (P x)} (l : list A) :
  Forall P l -> filter P l = l.
Proof.
  induction 1 as [|x l Hx _ IH]; [done|]. rewrite filter_cons.
  rewrite decide_True by done. by f_equal.
Qed.

Lemma liberar_bucle_filtra ps t : forall no_lib pend,
  (forall i, i ∈ no_lib -> (i < length ps)%nat) -> en_orden ps no_lib ->
  liberar_bucle ps t no_lib pend
  = Some (filter (fun i => t < creacion ps i) no_lib,
          pend ++ filter (fun i => creacion ps i <= t) no_lib).
Proof.
  induction no_lib as [|i l IH]; intros pend Hr Ho; simpl.
  - by rewrite app_nil_r.
  - destruct (lookup_lt_is_Some_2 ps i) as [p Hp]; [apply Hr; by left|].
    rewrite Hp. simpl. assert (creacion ps i = tick_creacion p) as Hci.
    { unfold creacion. by rewrite Hp. }
    rewrite !filter_cons. destruct (tick_creacion p <=? t) eqn:Hc.
    + apply Z.leb_le in Hc. rewrite IH.
      * rewrite decide_False by lia. rewrite decide_True by lia.
        by rewrite <- app_assoc.
      * intros j Hj. apply Hr. by right.
      * by eapply en_orden_cola.
    + apply Z.leb_gt in Hc. rewrite decide_True by lia. rewrite decide_False by lia.
      assert (Forall (fun j => t < creacion ps j) l) as Hall.
      { apply Forall_forall. intros j Hj. pose proof (en_orden_cabeza _ _ _ _ Ho Hj). lia. }
      rewrite (filter_ninguno (fun j => creacion ps j <= t)).
      2:{ apply Forall_forall. intros j Hj.
          pose proof (en_orden_cabeza _ _ _ _ Ho Hj). lia. }
      rewrite app_nil_r. by rewrite (filter_todos (fun j => t < creacion ps j)).
Qed.

Lemma liberar_bucle_alto ps t l pend :
  (forall i, i ∈ l -> (i < length ps)%nat) -> Forall (fun i => t < creacion ps i) l ->
  liberar_bucle ps t l pend = Some (l, pend).
Proof.
  intros Hr Hall. destruct l as [|i l]; [done|]. simpl.
  destruct (lookup_lt_is_Some_2 ps i) as [p Hp]; [apply Hr; by left|].
  rewrite Hp. simpl. apply Forall_cons in Hall as [Hi _].
  unfold creacion in Hi. rewrite Hp in Hi. simpl in Hi.
  by rewrite (proj2 (Z.leb_gt _ _)) by lia.
Qed.

(** X14. When the queue of the orders not yet released is in the order of
    the creation ticks, as the constructor leaves it, releasing moves to
    the end of the pending queue, in their order, exactly the orders
    created at the current tick or before, and leaves the others; nothing
    else changes, and releasing once more changes nothing. *)
Theorem liberar_pedidos_filtra s :
  Forall (fun i => (i < length (pedidos s))%nat) (no_liberados s) ->
  en_orden (pedidos s) (no_liberados s) ->
  exists s', liberar_pedidos s = Some s'
    /\ pendientes s'
       = pendientes s
         ++ filter (fun i => creacion (pedidos s) i <= tick s) (no_liberados s)
    /\ no_liberados s'
       = filter (fun i => tick s < creacion (pedidos s) i) (no_liberados s)
    /\ pedidos s' = pedidos s /\ lista_robots s' = lista_robots s
    /\ tabla_reservas s' = tabla_reservas s /\ tick s' = tick s
    /\ liberar_pedidos s' = Some s'.
Proof.
  intros Hr Ho. rewrite Forall_forall in Hr. unfold liberar_pedidos.
  rewrite (liberar_bucle_filtra _ _ _ _ Hr Ho). simpl. eexists. split; [done|].
  simpl. do 6 (split; [done|]).
  rewrite liberar_bucle_alto; [done| |].
  - intros i Hi. apply list_elem_of_filter in Hi as [_ Hi]. by apply Hr.
  - apply Forall_forall. intros i Hi. by apply list_elem_of_filter in Hi as [? _].
Qed.

Lemma liberar_pedidos_filtra_witness :
  exists s', liberar_pedidos ej_cuatro_s = Some s'
    /\ pendientes s' = [] ++ [3%nat]
    /\ no_liberados s' = [1; 0; 2]%nat
    /\ pedidos s' = ej_cuatro /\ lista_robots s' = []
    /\ tabla_reservas s' = tabla_vacia /\ tick s' = 0
    /\ liberar_pedidos s' = Some s'.
Proof.
  apply (liberar_pedidos_filtra ej_cuatro_s).
  - apply (bool_decide_unpack _). vm_compute. exact I.
  - apply (bool_decide_unpack _). vm_compute. exact I.
Defined.

(** * The states of a robot *)

Lemma asignar_robot_estado s r s' r' i :
  estado r = INACTIVO -> asignar_robot s r = Some (s', r', i) ->
  estado r' = INACTIVO \/ estado r' = A_RECOGER.
Proof.
  intros He H. apply asignar_robot_casos in H. destruct H; simpl; auto.
Qed.

Lemma ocupar_estado r : estado (ocupar r) = estado r.
Proof. unfold ocupar. by case_bool_decide. Qed.

Lemma planear_estado s ps r ps' r' :
  planear_siguiente_tramo_si_llego s ps r = Some (ps', r') ->
  transicion (estado r) (estado r') /\ (estado r = INACTIVO -> estado r' = INACTIVO).
Proof.
  intros H. apply planear_detalle in H
    as [[_ ->]|[(_ & He & _ & dock & l & _ & _ & ->)
               |[(_ & He & _ & ah & pk & l & _ & _ & _ & ->)|(_ & He & -> & _)]]];
    rewrite ?He; simpl; (split; [|done]); auto.
  destruct (estado r); simpl; auto.
Qed.

Lemma resolver_robot_estado props ts st r st' r' :
  resolver_robot props ts st r = Some (st', r') -> estado r' = estado r.
Proof.
  intros H. apply resolver_robot_detalle in H
    as (c & _ & [(_ & -> & _)|[(_ & _ & -> & _)|(_ & _ & -> & _)]]); done.
Qed.

Lemma llego_ocupar r : llego (ocupar r) -> llego r.
Proof. unfold ocupar. by case_bool_decide. Qed.

Lemma ocupar_tarea r :
  r_pedido_id (ocupar r) = r_pedido_id r
  /\ r_anaquel_home (ocupar r) = r_anaquel_home r /\ pos (ocupar r) = pos r.
Proof. unfold ocupar. by case_bool_decide. Qed.

(** The state changes only on the last cell of a route, and the leg to
    the station keeps the order and the shelf of the task. *)
Lemma planear_cambio s ps r ps' r' :
  planear_siguiente_tramo_si_llego s ps r = Some (ps', r') ->
  estado r' ≠ estado r ->
  llego r
  /\ (estado r = A_RECOGER ->
      r_pedido_id r' = r_pedido_id r /\ r_anaquel_home r' = r_anaquel_home r).
Proof.
  intros H Hne. apply planear_detalle in H
    as [[_ ->]|[(Hll & He & _ & dock & l & _ & _ & ->)
               |[(Hll & He & _ & ah & pk & l & _ & _ & _ & ->)|(Hll & He & -> & _)]]];
    [done|split; [done|]..].
  - done.
  - rewrite He. done.
  - rewrite He. done.
Qed.

Lemma resolver_robot_tarea props ts st r st' r' :
  resolver_robot props ts st r = Some (st', r') ->
  r_pedido_id r' = r_pedido_id r /\ r_anaquel_home r' = r_anaquel_home r.
Proof.
  intros H. apply resolver_robot_detalle in H
    as (c & _ & [(_ & -> & _)|[(_ & _ & -> & _)|(_ & _ & -> & _)]]); done.
Qed.

(** A robot that is given an order and a route of one cell stands on the
    pickup cell of the shelf. *)
Lemma asignar_robot_en_pickup s r s' r' i :
  estado r = INACTIVO ->
  asignar_robot s r = Some (s', r', i) -> estado r' = A_RECOGER -> llego r' ->
  exists pid ah, r_pedido_id r' = Some pid /\ r_anaquel_home r' = Some ah
    /\ elegir_objetivo_adyacente (grid s) ah = Some (pos r).
Proof.
  intros Hin H He Hll. apply asignar_robot_casos in H.
  destruct H as [Hc|mi p pend1 ah ed Hc Hp Hrem Hah Hed Hpk
                 |mi p pend1 ah ed pickup Hc Hp Hrem Hah Hed Hpk Hl
                 |mi p pend1 ah ed pickup l Hc Hp Hrem Hah Hed Hpk Hl].
  - congruence.
  - done.
  - done.
  - exists (pedido_id p), ah. split; [done|]. split; [done|].
    destruct Hll as [_ Hlen]. simpl in Hlen.
    apply a_estrella_es_ruta in Hl as (Hh & Hla & _).
    destruct l as [|c [|c' l]]; simpl in Hlen; [done| |lia].
    simpl in Hh, Hla. congruence.
Qed.

(** X15. From one tick to the next a robot keeps its state or advances
    along the cycle idle, to the shelf, to the station, back to the shelf,
    idle, by one state.  The one advance by two states is from idle to
    the station, and it happens only when the robot is given an order
    whose shelf has as pickup cell the cell on which the robot stands.  A
    busy robot changes its state only when its route is not empty and its
    index is at the last cell of it. *)
Theorem ciclo_de_estados s s' i r r' :
  step s = Some s' ->
  lista_robots s !! i = Some r -> lista_robots s' !! i = Some r' ->
  transicion (estado r) (estado r')
  /\ (estado r = INACTIVO -> estado r' = A_ESTACION ->
      exists pid ah, r_pedido_id r' = Some pid /\ r_anaquel_home r' = Some ah
        /\ elegir_objetivo_adyacente (grid s) ah = Some (pos r))
  /\ (estado r ≠ INACTIVO -> estado r' ≠ estado r -> llego r).
Proof.
  intros H Hi Hi'. apply step_cada in H as (s2 & props & _ & HF).
  destruct (Forall2_lookup_l _ _ _ _ _ HF Hi) as (y & Hy & ra & rc & Ha & Hpl & _ & Hres).
  assert (y = r') as -> by congruence.
  destruct Hpl as (ps0 & ps1 & Hpl). destruct Hres as (st0 & st1 & Hres).
  pose proof (resolver_robot_tarea _ _ _ _ _ _ Hres) as [Hpid Hah].
  apply resolver_robot_estado in Hres.
  pose proof (planear_estado _ _ _ _ _ Hpl) as [Htr Hin].
  rewrite ocupar_estado in Htr, Hin. rewrite Hres, Hpid, Hah.
  destruct Ha as [->|(He & s0 & s1 & j & Hm & Ha)].
  - split; [done|]. split.
    + intros He Hest. rewrite (Hin He) in Hest. done.
    + intros _ Hne. apply llego_ocupar.
      eapply planear_cambio; [done|]. by rewrite ocupar_estado.
  - split; [|split; [|congruence]].
    + destruct (asignar_robot_estado _ _ _ _ _ He Ha) as [Ha'|Ha']; rewrite He.
      * rewrite (Hin Ha'). simpl. auto.
      * rewrite Ha' in Htr. simpl in *. destruct Htr as [-> | ->]; auto.
    + intros _ Hest.
      destruct (asignar_robot_estado _ _ _ _ _ He Ha) as [Ha'|Ha'].
      { rewrite (Hin Ha') in Hest. done. }
      destruct (planear_cambio _ _ _ _ _ Hpl) as [Hll Hk].
      { rewrite ocupar_estado. congruence. }
      destruct Hk as [-> ->]; [by rewrite ocupar_estado|].
      destruct (ocupar_tarea ra) as (-> & -> & _).
      destruct (asignar_robot_en_pickup _ _ _ _ _ He Ha Ha' (llego_ocupar _ Hll))
        as (pid & ah & ? & ? & Hpk).
      exists pid, ah. split; [done|]. split; [done|].
      destruct Hm as (<- & _). done.
Qed.

Lemma ciclo_de_estados_witness :
  transicion INACTIVO A_ESTACION
  /\ exists pid ah, r_pedido_id (robot_de ej_en_pickup1 0) = Some pid
       /\ r_anaquel_home (robot_de ej_en_pickup1 0) = Some ah
       /\ elegir_objetivo_adyacente (grid ej_en_pickup) ah
          = Some (pos (robot_de ej_en_pickup 0)).
Proof.
  destruct (ciclo_de_estados ej_en_pickup ej_en_pickup1 0
              (robot_de ej_en_pickup 0) (robot_de ej_en_pickup1 0))
    as (H1 & H2 & _); [vm_compute; reflexivity..|].
  split; [exact H1|]. apply H2; vm_compute; reflexivity.
Defined.

(** * The counters of a robot *)

Lemma asignar_robot_contadores s r s' r' i :
  asignar_robot s r = Some (s', r', i) ->
  pos r' = pos r /\ ticks_espera r' = ticks_espera r
  /\ celdas_movidas r' = celdas_movidas r /\ ticks_ocupado r' = ticks_ocupado r.
Proof. intros H. apply asignar_robot_casos in H. by destruct H. Qed.

Lemma planear_contadores s ps r ps' r' :
  planear_siguiente_tramo_si_llego s ps r = Some (ps', r') ->
  pos r' = pos r /\ ticks_espera r' = ticks_espera r
  /\ celdas_movidas r' = celdas_movidas r /\ ticks_ocupado r' = ticks_ocupado r.
Proof.
  intros H. apply planear_detalle in H
    as [[_ ->]|[(_ & _ & _ & dock & l & _ & _ & ->)
               |[(_ & _ & _ & ah & pk & l & _ & _ & _ & ->)|(_ & _ & -> & _)]]]; done.
Qed.

Lemma ocupar_contadores r :
  pos (ocupar r) = pos r /\ ticks_espera (ocupar r) = ticks_espera r
  /\ celdas_movidas (ocupar r) = celdas_movidas r
  /\ ticks_ocupado r <= ticks_ocupado (ocupar r) <= ticks_ocupado r + 1.
Proof. unfold ocupar. case_bool_decide; simpl; repeat split; lia. Qed.

(** What a tick does to the counters of one robot. *)
Lemma step_contadores s s' i r r' :
  step s = Some s' ->
  lista_robots s !! i = Some r -> lista_robots s' !! i = Some r' ->
  ticks_ocupado r <= ticks_ocupado r' <= ticks_ocupado r + 1
  /\ ((pos r' = pos r /\ celdas_movidas r' = celdas_movidas r
       /\ ticks_espera r <= ticks_espera r' <= ticks_espera r + 1)
      \/ (pos r' ≠ pos r /\ celdas_movidas r' = celdas_movidas r + 1
          /\ ticks_espera r' = ticks_espera r)).
Proof.
  intros H Hi Hi'. apply step_cada in H as (s2 & props & _ & HF).
  destruct (Forall2_lookup_l _ _ _ _ _ HF Hi) as (y & Hy & ra & rc & Ha & Hpl & _ & Hres).
  assert (y = r') as -> by congruence.
  destruct Hpl as (ps0 & ps1 & Hpl). destruct Hres as (st0 & st1 & Hres).
  assert (pos ra = pos r /\ ticks_espera ra = ticks_espera r
          /\ celdas_movidas ra = celdas_movidas r /\ ticks_ocupado ra = ticks_ocupado r)
    as (Hp1 & He1 & Hc1 & Ho1).
  { destruct Ha as [->|(_ & s0 & s1 & j & _ & Ha)]; [done|].
    by eapply asignar_robot_contadores. }
  destruct (ocupar_contadores ra) as (Hp2 & He2 & Hc2 & Ho2).
  destruct (planear_contadores _ _ _ _ _ Hpl) as (Hp3 & He3 & Hc3 & Ho3).
  apply resolver_robot_detalle in Hres
    as (c & _ & [(_ & -> & _)|[(Hne & _ & -> & _)|(_ & _ & -> & _)]]); simpl.
  - split; [lia|]. left. repeat split; try congruence; lia.
  - split; [lia|]. right. repeat split; try congruence; try lia.
  - split; [lia|]. left. repeat split; try congruence; lia.
Qed.

Lemma resolver_eventos props ts : forall rs st st' rs',
  resolver props ts st rs = Some (st', rs') ->
  res_eventos_alto st' - res_eventos_alto st
  = suma (ticks_espera <$> rs') - suma (ticks_espera <$> rs).
Proof.
  induction rs as [|r rs IH]; intros st st' rs' H.
  - injection H as <- <-. simpl. lia.
  - apply resolver_cons in H as (st1 & r1 & rs1 & H1 & H2 & ->).
    specialize (IH _ _ _ H2). rewrite !fmap_cons. unfold suma in *. simpl.
    apply resolver_robot_detalle in H1
      as (c & _ & [(_ & -> & _ & _ & He)|[(_ & _ & -> & _ & _ & He)|(_ & _ & -> & _ & _ & He)]]);
      simpl; lia.
Qed.

Lemma step_eventos s s' :
  step s = Some s' ->
  eventos_alto s' - eventos_alto s
  = suma (ticks_espera <$> lista_robots s') - suma (ticks_espera <$> lista_robots s).
Proof.
  intros H. apply step_fases in H
    as (s1 & s2 & ps3 & props & rs3 & st & H1 & H2 & H3 & H4 & _ & _ & _ & _ & _ & _ & _
        & _ & Hev & _).
  apply liberar_pedidos_marco in H1 as (Hm1 & Hr1 & _).
  destruct (asignar_pedidos_cada _ _ H2) as [Hm2 HF2].
  pose proof (proponer_cada _ _ _ _ _ _ _ H3) as HF3.
  apply resolver_eventos in H4. simpl in H4.
  assert (ticks_espera <$> rs3 = ticks_espera <$> lista_robots s) as Heq.
  { rewrite <- Hr1. transitivity (ticks_espera <$> lista_robots s2).
    - apply Forall2_fmap_eq. eapply Forall2_impl; [exact HF3|]. simpl.
      intros x y (ps0 & ps1 & Hpl & _).
      destruct (planear_contadores _ _ _ _ _ Hpl) as (_ & -> & _).
      by destruct (ocupar_contadores x) as (_ & -> & _).
    - apply Forall2_fmap_eq. eapply Forall2_impl; [exact HF2|]. simpl.
      intros x y [->|(_ & s0 & s3 & i & _ & Ha)]; [done|].
      by destruct (asignar_robot_contadores _ _ _ _ _ Ha) as (_ & -> & _). }
  assert (eventos_alto s2 = eventos_alto s) as Hev2.
  { destruct (marco_trans _ _ _ Hm1 Hm2) as (_&_&_&_&_&_&_&_&_&?). done. }
  rewrite Hev, <- Heq, <- Hev2. done.
Qed.

Lemma construir_inicio g ed ah robots spawn ps sd s :
  construir g ed ah robots spawn ps sd = Some s ->
  tick s = 0 /\ eventos_alto s = 0 /\ conteo_deadlock s = 0
  /\ Forall (fun r => estado r = INACTIVO /\ ruta r = [] /\ idx_ruta r = 0%nat
                      /\ ticks_espera r = 0 /\ celdas_movidas r = 0
                      /\ ticks_ocupado r = 0 /\ r_pedido_id r = None
                      /\ r_anaquel_home r = None /\ r_estacion_dock r = None)
       (lista_robots s)
  /\ NoDup (obtener_ids_robots s)
  /\ Z.of_nat (length (lista_robots s)) = Z.max 0 robots.
Proof.
  intros Hc. pose proof Hc as Hc'.
  apply construir_robots in Hc' as (_ & _ & Ht & _ & _ & _ & Hlen & Hrob).
  assert (eventos_alto s = 0 /\ conteo_deadlock s = 0) as [He Hd].
  { unfold construir in Hc. destruct (_ <? _); [done|].
    destruct (mapM _ _); [|done]. by injection Hc as <-. }
  split; [done|]. split; [done|]. split; [done|]. split.
  - apply Forall_forall. intros r Hr. apply list_elem_of_lookup in Hr as [i Hi].
    apply Hrob in Hi as (_ & c & _ & ->). done.
  - split; [|lia]. unfold obtener_ids_robots. apply NoDup_alt.
    intros i j k. rewrite !list_lookup_fmap.
    destruct (lista_robots s !! i) as [ri|] eqn:Hi; [|done].
    destruct (lista_robots s !! j) as [rj|] eqn:Hj; [|done].
    apply Hrob in Hi as (_ & ci & _ & ->). apply Hrob in Hj as (_ & cj & _ & ->).
    simpl. intros [= <-] [= Hij]. lia.
Qed.

Lemma suma_ceros (l : list Z) : Forall (fun z => z = 0) l -> suma l = 0.
Proof. induction 1 as [|z l -> _ IH]; unfold suma in *; simpl; [done | lia]. Qed.

Lemma run_eventos n : forall s s',
  run n s = Some s' ->
  eventos_alto s' - eventos_alto s
  = suma (ticks_espera <$> lista_robots s') - suma (ticks_espera <$> lista_robots s).
Proof.
  induction n as [|n IH]; intros s s' H; simpl in H; [injection H as <-; lia|].
  destruct (step s) as [s1|] eqn:Hs; [|done]. simpl in H.
  pose proof (IH _ _ H). pose proof (step_eventos _ _ Hs). lia.
Qed.

(** X16. In every run of a simulator as it is built, [eventos_alto] is
    the sum of the [ticks_espera] of the robots: every refused move is
    counted once in the simulator and once in the robot that was
    refused. *)
Theorem eventos_alto_es_la_suma g ed ah robots spawn ps sd s0 n s :
  construir g ed ah robots spawn ps sd = Some s0 -> run n s0 = Some s ->
  eventos_alto s = suma (ticks_espera <$> lista_robots s).
Proof.
  intros Hc Hr. destruct (construir_inicio _ _ _ _ _ _ _ _ Hc)
    as (_ & He0 & _ & Hrob & _ & Hlen).
  pose proof (run_eventos _ _ _ Hr) as Hev.
  assert (suma (ticks_espera <$> lista_robots s0) = 0) as H0.
  { apply suma_ceros, Forall_fmap. eapply Forall_impl; [done|]. simpl.
    by intros r (_&_&_&?&_). }
  lia.
Qed.

Lemma eventos_alto_es_la_suma_witness :
  eventos_alto ej_s1 = suma (ticks_espera <$> lista_robots ej_s1).
Proof.
  apply (eventos_alto_es_la_suma ej_pasillo {[0 := (1, 0)]} {[0 := (6, 0); 1 := (0, 0)]} 2
           [(3, 0); (4, 0)] ej_pedidos 0 ej_s0 1 ej_s1); vm_compute; reflexivity.
Defined.

Lemma step_ocupado s s' :
  step s = Some s' ->
  Forall (fun r => 0 <= ticks_ocupado r <= tick s) (lista_robots s) ->
  Forall (fun r => 0 <= ticks_ocupado r <= tick s') (lista_robots s').
Proof.
  intros H HP. destruct (step_marco _ _ H) as (Ht & _).
  apply Forall_forall. intros r' Hr'. apply list_elem_of_lookup in Hr' as [i Hi'].
  assert (is_Some (lista_robots s !! i)) as [r Hi].
  { apply lookup_lt_is_Some. apply lookup_lt_Some in Hi'.
    pose proof (step_ids _ _ H) as Hid. unfold obtener_ids_robots in Hid.
    by rewrite <- (length_fmap robot_id), <- Hid, length_fmap. }
  destruct (step_contadores _ _ _ _ _ H Hi Hi') as [Ho _].
  rewrite Forall_forall in HP. specialize (HP r (list_elem_of_lookup_2 _ _ _ Hi)). lia.
Qed.

Lemma run_ocupado n : forall s s',
  run n s = Some s' ->
  Forall (fun r => 0 <= ticks_ocupado r <= tick s) (lista_robots s) ->
  Forall (fun r => 0 <= ticks_ocupado r <= tick s') (lista_robots s').
Proof.
  induction n as [|n IH]; intros s s' H HP; simpl in H; [by injection H as <-|].
  destruct (step s) as [s1|] eqn:Hs; [|done]. simpl in H.
  eapply IH; [done|]. by eapply step_ocupado.
Qed.

(** X17. In every run of a simulator as it is built no robot has been
    busy for more ticks than have passed: [ticks_ocupado] lies between 0
    and the tick, so it does not exceed [max(1, tick)], by which the
    metrics divide it. *)
Theorem ocupado_acotado g ed ah robots spawn ps sd s0 n s :
  construir g ed ah robots spawn ps sd = Some s0 -> run n s0 = Some s ->
  Forall (fun r => 0 <= ticks_ocupado r <= tick s
                   /\ ticks_ocupado r <= Z.max 1 (tick s)) (lista_robots s).
Proof.
  intros Hc Hr. destruct (construir_inicio _ _ _ _ _ _ _ _ Hc)
    as (Ht0 & _ & _ & Hrob & _).
  assert (Forall (fun r => 0 <= ticks_ocupado r <= tick s) (lista_robots s)) as Hoc.
  { eapply run_ocupado; [done|]. eapply Forall_impl; [done|]. simpl.
    intros r (_&_&_&_&_&->&_). lia. }
  eapply Forall_impl; [done|]. simpl. intros r Hx. lia.
Qed.

Lemma ocupado_acotado_witness :
  Forall (fun r => 0 <= ticks_ocupado r <= tick ej_vuelta4
                   /\ ticks_ocupado r <= Z.max 1 (tick ej_vuelta4))
    (lista_robots ej_vuelta4).
Proof.
  apply (ocupado_acotado [[0; 0; 1]] {[0 := (0, 0)]} {[0 := (2, 0)]} 1 [(0, 0)]
           [mkPedido 0 0 0 0 None None] 0 ej_vuelta 4 ej_vuelta4);
    vm_compute; reflexivity.
Defined.

(** * One cell per tick *)

Lemma enlazada_lookup l : forall i a b,
  enlazada l -> l !! i = Some a -> l !! S i = Some b -> distancia a b = 1.
Proof.
  induction l as [|x l IH]; intros i a b Hen Ha Hb; [done|].
  destruct i as [|i]; simpl in Ha, Hb.
  - injection Ha as ->. destruct l as [|y l]; [done|]. injection Hb as ->.
    by destruct Hen.
  - destruct Hen as [_ Hen]. by eapply IH.
Qed.

Lemma en_su_ruta_nueva grid r l (c : Celda) e :
  AEstrella.a_estrella grid (pos r) c = Some l -> pos (e r) = pos r ->
  en_su_ruta (con_ruta (e r) l).
Proof.
  intros Hl Hp. apply a_estrella_es_ruta in Hl as (Hh & _ & _ & Hen).
  split; [done|]. right. simpl. rewrite Hp. by rewrite <- head_lookup.
Qed.

Lemma asignar_robot_en_su_ruta s r s' r' i :
  en_su_ruta r -> asignar_robot s r = Some (s', r', i) -> en_su_ruta r'.
Proof.
  intros Hr H. apply asignar_robot_casos in H.
  destruct H as [| | |mi p pend1 ah ed pickup l _ _ _ _ _ _ Hl]; try done.
  by apply (en_su_ruta_nueva (grid s) r l pickup (fun r => tarea_de s r p ah ed)).
Qed.

Lemma ocupar_en_su_ruta r : en_su_ruta r -> en_su_ruta (ocupar r).
Proof. unfold ocupar. by case_bool_decide. Qed.

Lemma planear_en_su_ruta s ps r ps' r' :
  en_su_ruta r -> planear_siguiente_tramo_si_llego s ps r = Some (ps', r') ->
  en_su_ruta r'.
Proof.
  intros Hr H. apply planear_detalle in H
    as [[_ ->]|[(_ & _ & _ & dock & l & _ & Hl & ->)
               |[(_ & _ & _ & ah & pk & l & _ & _ & Hl & ->)|(_ & _ & -> & _)]]];
    [done| | |].
  - by apply (en_su_ruta_nueva (grid s) r l dock (fun r => con_estado r A_ESTACION)).
  - by apply (en_su_ruta_nueva (grid s) r l pk (fun r => con_estado r RETORNO)).
  - split; [done | by left].
Qed.

Lemma propuesta_siguiente r c :
  propuesta r = Some c -> c ≠ pos r -> ruta r !! S (idx_ruta r) = Some c.
Proof.
  unfold propuesta. destruct (bool_decide _ || es_vacia _); [by intros [= <-]|].
  destruct (_ <? _); [done | by intros [= <-]].
Qed.

Lemma resolver_robot_en_su_ruta props ts st r st' r' :
  props !! robot_id r = propuesta r -> en_su_ruta r ->
  resolver_robot props ts st r = Some (st', r') ->
  en_su_ruta r'
  /\ (pos r' = pos r \/ distancia (pos r) (pos r') = 1).
Proof.
  intros Hown [Hen Hpos] H. apply resolver_robot_detalle in H
    as (c & Hc & [(_ & -> & _)|[(Hne & _ & -> & _)|(_ & _ & -> & _)]]).
  - split; [done | by left].
  - rewrite Hown in Hc. pose proof (propuesta_siguiente _ _ Hc Hne) as Hsig.
    destruct Hpos as [Hnil|Hpos]; [by rewrite Hnil in Hsig|].
    split; [split; [done | by right]|]. right. simpl.
    by eapply enlazada_lookup.
  - split; [done | by left].
Qed.

Lemma step_en_su_ruta s s' :
  NoDup (obtener_ids_robots s) -> Forall en_su_ruta (lista_robots s) ->
  step s = Some s' ->
  Forall2 (fun r r' => en_su_ruta r'
             /\ (pos r' = pos r \/ distancia (pos r) (pos r') = 1))
    (lista_robots s) (lista_robots s').
Proof.
  intros Hnd HP H. apply step_cada in H as (s2 & props & _ & HF).
  apply Forall2_same_length_lookup. split; [by eapply Forall2_length|].
  intros i r r' Hi Hi'.
  destruct (Forall2_lookup_l _ _ _ _ _ HF Hi)
    as (y & Hy & ra & rc & Ha & (ps0 & ps1 & Hpl) & Hown & st0 & st1 & Hres).
  assert (y = r') as -> by congruence.
  rewrite Forall_forall in HP. pose proof (HP r (list_elem_of_lookup_2 _ _ _ Hi)) as Hr.
  assert (en_su_ruta ra /\ pos ra = pos r) as [Hra Hpa].
  { destruct Ha as [->|(_ & s0 & s1 & j & _ & Ha)]; [done|].
    split; [by eapply asignar_robot_en_su_ruta|].
    by destruct (asignar_robot_contadores _ _ _ _ _ Ha). }
  pose proof (planear_en_su_ruta _ _ _ _ _ (ocupar_en_su_ruta _ Hra) Hpl) as Hrc.
  assert (pos rc = pos r) as Hpc.
  { destruct (planear_contadores _ _ _ _ _ Hpl) as [-> _].
    destruct (ocupar_contadores ra) as [-> _]. done. }
  rewrite <- Hpc. by eapply resolver_robot_en_su_ruta; eauto.
Qed.

Lemma Forall2_Forall_r {A} (R : A -> A -> Prop) (P : A -> Prop) l k :
  Forall2 R l k -> (forall x y, R x y -> P y) -> Forall P k.
Proof. induction 1; intros HR; constructor; eauto. Qed.

Lemma run_en_su_ruta n : forall s s',
  NoDup (obtener_ids_robots s) -> Forall en_su_ruta (lista_robots s) ->
  run n s = Some s' ->
  NoDup (obtener_ids_robots s') /\ Forall en_su_ruta (lista_robots s').
Proof.
  induction n as [|n IH]; intros s s' Hnd HP H; simpl in H; [by injection H as <-|].
  destruct (step s) as [s1|] eqn:Hs; [|done]. simpl in H.
  eapply IH; [| |done].
  - by rewrite (step_ids _ _ Hs).
  - eapply Forall2_Forall_r; [by eapply step_en_su_ruta|]. by intros x y [? _].
Qed.

(** X18. In every run of a simulator as it is built, in one tick a
    robot stays on its cell or moves to a cell one step away, which is the
    next cell of its route; [celdas_movidas] counts exactly the ticks in
    which it moved, and [ticks_espera] is left alone in those. *)
Theorem un_paso_por_tick g ed ah robots spawn ps sd s0 n s s' i r r' :
  construir g ed ah robots spawn ps sd = Some s0 -> run n s0 = Some s ->
  step s = Some s' ->
  lista_robots s !! i = Some r -> lista_robots s' !! i = Some r' ->
  (pos r' = pos r /\ celdas_movidas r' = celdas_movidas r)
  \/ (distancia (pos r) (pos r') = 1
      /\ ruta r' !! idx_ruta r' = Some (pos r')
      /\ celdas_movidas r' = celdas_movidas r + 1
      /\ ticks_espera r' = ticks_espera r).
Proof.
  intros Hc Hr Hs Hi Hi'.
  destruct (construir_inicio _ _ _ _ _ _ _ _ Hc) as (_ & _ & _ & Hrob & Hnd0 & _).
  destruct (run_en_su_ruta n s0 s) as [Hnd HP]; [done| |done|].
  { eapply Forall_impl; [done|]. simpl. intros x (_ & Hx & _).
    split; [by rewrite Hx | by left]. }
  pose proof (step_en_su_ruta _ _ Hnd HP Hs) as HF.
  destruct (Forall2_lookup_l _ _ _ _ _ HF Hi) as (y & Hy & [Hen Hroute] & Hmov).
  assert (y = r') as -> by congruence.
  destruct (step_contadores _ _ _ _ _ Hs Hi Hi')
    as [_ [(Hp & Hcm & _)|(Hp & Hcm & He)]]; [by left|].
  right. destruct Hmov as [Hmov|Hmov]; [done|]. split; [done|].
  split; [|done]. destruct Hroute as [Hnil|Hroute]; [|done].
  exfalso. apply Hp. clear -Hs Hi Hi' Hnil Hnd HP.
  apply step_cada in Hs as (s2 & props & _ & HF).
  destruct (Forall2_lookup_l _ _ _ _ _ HF Hi)
    as (y & Hy & ra & rc & Ha & (ps0 & ps1 & Hpl) & Hown & st0 & st1 & Hres).
  assert (y = r') as -> by congruence.
  assert (pos ra = pos r) as Hpa.
  { destruct Ha as [->|(_ & s0 & s1 & j & _ & Ha)]; [done|].
    by destruct (asignar_robot_contadores _ _ _ _ _ Ha). }
  assert (pos rc = pos r) as Hpc.
  { destruct (planear_contadores _ _ _ _ _ Hpl) as [-> _].
    destruct (ocupar_contadores ra) as [-> _]. done. }
  apply resolver_robot_detalle in Hres
    as (c & Hc & [(_ & -> & _)|[(Hne & _ & -> & _)|(_ & _ & -> & _)]]); try done.
  simpl in Hnil. rewrite (Hown Hnd) in Hc.
  apply propuesta_siguiente in Hc; [|done]. by rewrite Hnil in Hc.
Qed.

Lemma un_paso_por_tick_witness :
  (pos (robot_de ej_s1 0) = pos (robot_de ej_s0 0)
   /\ celdas_movidas (robot_de ej_s1 0) = celdas_movidas (robot_de ej_s0 0))
  \/ (distancia (pos (robot_de ej_s0 0)) (pos (robot_de ej_s1 0)) = 1
      /\ ruta (robot_de ej_s1 0) !! idx_ruta (robot_de ej_s1 0)
         = Some (pos (robot_de ej_s1 0))
      /\ celdas_movidas (robot_de ej_s1 0) = celdas_movidas (robot_de ej_s0 0) + 1
      /\ ticks_espera (robot_de ej_s1 0) = ticks_espera (robot_de ej_s0 0)).
Proof.
  apply (un_paso_por_tick ej_pasillo {[0 := (1, 0)]} {[0 := (6, 0); 1 := (0, 0)]} 2
           [(3, 0); (4, 0)] ej_pedidos 0 ej_s0 0 ej_s0 ej_s1 0);
    vm_compute; reflexivity.
Defined.

(** * The two queues of the orders *)

Lemma liberar_bucle_spec ps t : forall nl pend nl' pend',
  liberar_bucle ps t nl pend = Some (nl', pend') ->
  exists sal, nl = sal ++ nl' /\ pend' = pend ++ sal
    /\ forall i, i ∈ sal -> exists p, ps !! i = Some p /\ tick_creacion p <= t.
Proof.
  induction nl as [|i nl IH]; intros pend nl' pend' H; simpl in H.
  - injection H as <- <-. exists []. simpl. rewrite ?app_nil_r. split; [done|]. split; [done|].
    by intros i ?%elem_of_nil.
  - destruct (ps !! i) as [p|] eqn:Hp; [|done]. simpl in H.
    destruct (tick_creacion p <=? t) eqn:Hc.
    + apply Z.leb_le in Hc. apply IH in H as (sal & -> & -> & Hsal).
      exists (i :: sal). split; [done|]. split; [by rewrite <- app_assoc|].
      intros j [->|Hj]%elem_of_cons; [by exists p | by apply Hsal].
    + injection H as <- <-. exists []. simpl. rewrite ?app_nil_r. split; [done|]. split; [done|].
      by intros j ?%elem_of_nil.
Qed.

Lemma liberar_pedidos_spec s s' :
  liberar_pedidos s = Some s' ->
  marco s s' /\ lista_robots s' = lista_robots s /\ pedidos s' = pedidos s
  /\ exists sal, no_liberados s = sal ++ no_liberados s'
       /\ pendientes s' = pendientes s ++ sal
       /\ forall i, i ∈ sal ->
            exists p, pedidos s !! i = Some p /\ tick_creacion p <= tick s.
Proof.
  intros H. destruct (liberar_pedidos_marco _ _ H) as (Hm & Hr & Hp).
  do 3 (split; [done|]). unfold liberar_pedidos in H.
  destruct (liberar_bucle _ _ _ _) as [[nl pe]|] eqn:Hb; [|done]. simpl in H.
  injection H as <-. simpl. by apply liberar_bucle_spec in Hb.
Qed.

Lemma Colas_perm s s' :
  pedidos s' = pedidos s -> en_espera s' ≡ₚ en_espera s -> Colas s -> Colas s'.
Proof.
  intros Hp He [Hnd Hes Hr]. split.
  - by rewrite He.
  - intros i p. rewrite Hp, He. apply Hes.
  - intros i. rewrite Hp, He. apply Hr.
Qed.

Lemma Colas_ext s s' :
  pedidos s' = pedidos s -> pendientes s' = pendientes s ->
  no_liberados s' = no_liberados s -> Colas s -> Colas s'.
Proof.
  intros Hp Hpe Hnl. apply Colas_perm; [done|]. unfold en_espera. by rewrite Hpe, Hnl.
Qed.

Lemma liberar_pedidos_colas s s' :
  liberar_pedidos s = Some s' -> Colas s -> Colas s'.
Proof.
  intros H. apply liberar_pedidos_spec in H as (_ & _ & Hp & sal & Hnl & Hpe & _).
  apply Colas_perm; [done|]. unfold en_espera. rewrite Hnl, Hpe.
  rewrite <- !app_assoc. rewrite (Permutation_app_comm sal).
  by rewrite <- !app_assoc.
Qed.

Lemma con_asignacion_revertida p t :
  tick_asignacion p = None -> con_asignacion (con_asignacion p t) None = p.
Proof. destruct p. simpl. by intros ->. Qed.

(** An attempt that fails leaves the orders as they were and moves the
    index to the end of the pending queue. *)
Lemma cola_revertida_spec s mi p pend1 :
  Colas s -> pedidos s !! mi = Some p ->
  lista_remove mi (pendientes s) = Some pend1 ->
  pedidos (cola_revertida s mi p pend1) = pedidos s
  /\ pendientes (cola_revertida s mi p pend1) ≡ₚ pendientes s
  /\ en_espera (cola_revertida s mi p pend1) ≡ₚ en_espera s.
Proof.
  intros HC Hp Hrem. apply lista_remove_spec in Hrem as (l1 & l2 & Hpend & _ & ->).
  assert (tick_asignacion p = None) as Hnone.
  { apply (col_espera s HC mi p Hp). unfold en_espera. rewrite Hpend. set_solver. }
  assert (pendientes (cola_revertida s mi p (l1 ++ l2)) ≡ₚ pendientes s) as Hperm.
  { simpl. rewrite Hpend. rewrite <- app_assoc.
    apply Permutation_app_head. symmetry. apply Permutation_cons_append. }
  split.
  - simpl. rewrite con_asignacion_revertida by done. by apply list_insert_id.
  - split; [done|]. unfold en_espera. by rewrite Hperm.
Qed.

Lemma asignar_robot_colas s r s' r' i :
  Colas s -> asignar_robot s r = Some (s', r', i) -> Colas s'.
Proof.
  intros HC H. apply asignar_robot_casos in H.
  destruct H as [He|mi p pend1 ah ed He Hp Hrem Hah Hed Hpk
                |mi p pend1 ah ed pickup He Hp Hrem Hah Hed Hpk Hl
                |mi p pend1 ah ed pickup l He Hp Hrem Hah Hed Hpk Hl]; [done| | |].
  - destruct (cola_revertida_spec _ _ _ _ HC Hp Hrem) as (Hps & _ & Hperm).
    by eapply Colas_perm.
  - destruct (cola_revertida_spec _ _ _ _ HC Hp Hrem) as (Hps & _ & Hperm).
    by eapply Colas_perm.
  - apply lista_remove_spec in Hrem as (l1 & l2 & Hpend & _ & ->).
    set (s' := con_cola s _ _).
    assert (en_espera s ≡ₚ mi :: en_espera s') as Hperm.
    { unfold en_espera. simpl. rewrite Hpend.
      rewrite (app_assoc (no_liberados s)), <- Permutation_middle.
      by rewrite <- app_assoc. }
    destruct HC as [Hnd Hes Hr]. rewrite Hperm in Hnd.
    apply NoDup_cons in Hnd as [Hnin Hnd]. split; [done| |].
    + intros j q Hq. simpl in Hq.
      destruct (decide (j = mi)) as [->|Hne].
      * rewrite list_lookup_insert_eq in Hq by (by eapply lookup_lt_Some).
        injection Hq as <-. simpl. split; [done | by intros ?].
      * rewrite list_lookup_insert_ne in Hq by done.
        rewrite (Hes j q Hq), Hperm. set_solver.
    + intros j Hj. simpl. rewrite length_insert. apply Hr. rewrite Hperm. by right.
Qed.

Lemma completar_pedido_asignacion t pid ps :
  Forall2 (fun p p' => tick_asignacion p' = tick_asignacion p) ps (completar_pedido t pid ps).
Proof.
  induction ps as [|p ps IH]; simpl; [constructor|].
  destruct (pedido_id p =? pid); constructor; try done.
  apply Forall2_same_length_lookup_2; [done|]. intros i x y Hx Hy. congruence.
Qed.

Lemma planear_asignacion s ps r ps' r' :
  planear_siguiente_tramo_si_llego s ps r = Some (ps', r') ->
  Forall2 (fun p p' => tick_asignacion p' = tick_asignacion p) ps ps'.
Proof.
  intros H.
  assert (Forall2 (fun p p' : Pedido => tick_asignacion p' = tick_asignacion p) ps ps)
    as Hrefl.
  { apply Forall2_same_length_lookup_2; [done|]. intros i x y Hx Hy. congruence. }
  apply planear_detalle in H
    as [[-> _]|[(_&_&->&_)|[(_&_&->&_)|(_&_&_&->)]]]; try done.
  destruct (r_pedido_id r); [apply completar_pedido_asignacion | done].
Qed.

Lemma Colas_asignacion s ps ps' :
  Forall2 (fun p p' => tick_asignacion p' = tick_asignacion p) ps ps' ->
  Colas (con_pedidos s ps) -> Colas (con_pedidos s ps').
Proof.
  intros HF [Hnd Hes Hr]. split; [done| |].
  - intros i p' Hp'. simpl in Hp'.
    destruct (Forall2_lookup_r _ _ _ _ _ HF Hp') as (p & Hp & Heq).
    rewrite Heq. by apply (Hes i p).
  - intros i Hi. simpl. rewrite <- (Forall2_length _ _ _ HF). by apply Hr.
Qed.

Lemma run_colas n s s' : run n s = Some s' -> Colas s -> Colas s'.
Proof.
  intros H HC.
  destruct (run_inv Colas (fun _ _ => True)) with (n := n) (s := s) (s' := s')
    as [HC' _]; try done.
  - intros s0 s1 (Hp & Hpe & Hnl & _). split; [by apply Colas_ext | done].
  - intros s0 s1 HJ Hl. split; [by eapply liberar_pedidos_colas | done].
  - intros s0 r s1 r' i HJ _ _ _ Ha. split; [by eapply asignar_robot_colas | done].
  - intros s0 ps r ps' r' HJ _ Hpl. split; [|done].
    eapply Colas_asignacion; [|done]. by eapply planear_asignacion.
  - by apply Forall_true.
Qed.

Lemma colas_al_construir g ed ah robots spawn ps sd s :
  construir g ed ah robots spawn ps sd = Some s ->
  Forall (fun p => tick_asignacion p = None) ps -> Colas s.
Proof.
  intros Hc Hn. pose proof (cola_inicial _ _ _ _ _ _ _ _ Hc) as (Hpe & Hperm & _).
  apply construir_robots in Hc as (_&_&_&_&Hps&_).
  assert (en_espera s ≡ₚ seq 0 (length ps)) as He.
  { unfold en_espera. by rewrite Hpe, app_nil_r. }
  split.
  - rewrite He. apply NoDup_seq.
  - intros i p Hp. rewrite Hps in Hp. rewrite He, elem_of_seq.
    rewrite Forall_forall in Hn. pose proof (Hn p (list_elem_of_lookup_2 _ _ _ Hp)).
    apply lookup_lt_Some in Hp. split; [lia | done].
  - intros i. rewrite He, elem_of_seq, Hps. lia.
Qed.

(** X19. In every run of a simulator built from orders that are not
    assigned and pairwise different, so that no order object is listed
    twice, no order is lost and none is queued twice: the two queues
    together hold each index at most once, and an order waits in one of
    them exactly when it has no assignment tick. *)
Theorem pedidos_en_cola g ed ah robots spawn ps sd s0 n s :
  construir g ed ah robots spawn ps sd = Some s0 ->
  NoDup ps ->
  Forall (fun p => tick_asignacion p = None) ps ->
  run n s0 = Some s ->
  NoDup (no_liberados s ++ pendientes s)
  /\ forall i p, pedidos s !! i = Some p ->
       (tick_asignacion p = None <-> i ∈ no_liberados s ++ pendientes s).
Proof.
  intros Hc _ Hn Hr.
  pose proof (run_colas _ _ _ Hr (colas_al_construir _ _ _ _ _ _ _ _ Hc Hn)) as [Hnd He _].
  done.
Qed.

Lemma pedidos_en_cola_witness :
  NoDup (no_liberados ej_s1 ++ pendientes ej_s1)
  /\ forall i p, pedidos ej_s1 !! i = Some p ->
       (tick_asignacion p = None <-> i ∈ no_liberados ej_s1 ++ pendientes ej_s1).
Proof.
  apply (pedidos_en_cola ej_pasillo {[0 := (1, 0)]} {[0 := (6, 0); 1 := (0, 0)]} 2
           [(3, 0); (4, 0)] ej_pedidos 0 ej_s0 1 ej_s1).
  - vm_compute. reflexivity.
  - apply (bool_decide_unpack _). vm_compute. exact I.
  - apply (bool_decide_unpack _). vm_compute. exact I.
  - vm_compute. reflexivity.
Defined.

(** * The time stamps of the orders *)

Lemma elem_of_insert_inv {A} (l : list A) i x y :
  y ∈ <[i := x]> l -> y = x \/ y ∈ l.
Proof.
  intros Hy. apply list_elem_of_lookup in Hy as [j Hj].
  destruct (decide (i = j)) as [->|Hne].
  - destruct (decide (j < length l)%nat).
    + rewrite list_lookup_insert_eq in Hj by done. left. congruence.
    + rewrite list_insert_ge in Hj by lia. right. by eapply list_elem_of_lookup_2.
  - rewrite list_lookup_insert_ne in Hj by done. right. by eapply list_elem_of_lookup_2.
Qed.

Lemma Tiempos_mono s s' :
  pedidos s' = pedidos s -> (forall i, i ∈ pendientes s' -> i ∈ pendientes s) ->
  tick s <= tick s' -> Tiempos s -> Tiempos s'.
Proof.
  intros Hp Hpe Ht [H1 H2 H3]. split.
  - intros i p Hi Hpi. rewrite Hp in Hpi. specialize (H1 i p (Hpe i Hi) Hpi). lia.
  - intros p ta Hin Hta. rewrite Hp in Hin. specialize (H2 p ta Hin Hta). lia.
  - intros p tc Hin Htc. rewrite Hp in Hin.
    destruct (H3 p tc Hin Htc) as (ta & Hta & ?). exists ta. split; [done | lia].
Qed.

Lemma con_pedido_mono ps ps' q :
  Forall2 (fun p p' => pedido_id p' = pedido_id p
                       /\ tick_asignacion p' = tick_asignacion p) ps ps' ->
  con_pedido ps q -> con_pedido ps' q.
Proof.
  intros HF Hq He. destruct (Hq He) as (i & p & Hp & Hid & Hta).
  destruct (Forall2_lookup_l _ _ _ _ _ HF Hp) as (p' & Hp' & Hid' & Hta').
  exists i, p'. split; [done|]. by rewrite Hid', Hta'.
Qed.

Lemma completar_pedido_unico t (ps : list Pedido) : forall (i : nat) p,
  NoDup (pedido_id <$> ps) -> ps !! i = Some p ->
  completar_pedido t (pedido_id p) ps = <[i := con_completado p (Some t)]> ps.
Proof.
  induction ps as [|q ps IH]; intros i p Hnd Hi; [done|].
  rewrite fmap_cons in Hnd. apply NoDup_cons in Hnd as [Hnin Hnd].
  destruct i as [|i]; simpl in Hi.
  - injection Hi as ->. simpl. by rewrite Z.eqb_refl.
  - simpl. rewrite (proj2 (Z.eqb_neq _ _)).
    + f_equal. by apply IH.
    + intros Heq. apply Hnin. rewrite Heq. apply list_elem_of_fmap.
      exists p. split; [done|]. by eapply list_elem_of_lookup_2.
Qed.

Lemma ids_insert (ps : list Pedido) (i : nat) (p p1 : Pedido) :
  ps !! i = Some p -> pedido_id p1 = pedido_id p ->
  pedido_id <$> <[i := p1]> ps = pedido_id <$> ps.
Proof.
  intros Hp Hid. rewrite list_fmap_insert, Hid. apply list_insert_id.
  by rewrite list_lookup_fmap, Hp.
Qed.

Lemma liberar_pedidos_tiempos s s' :
  liberar_pedidos s = Some s' -> Tiempos s -> Tiempos s'.
Proof.
  intros H [H1 H2 H3].
  apply liberar_pedidos_spec in H as (Hm & _ & Hp & sal & Hnl & Hpe & Hsal).
  assert (tick s' = tick s) as Ht by (by destruct Hm as (_&_&_&_&?&_)).
  split.
  - intros i p Hi Hpi. rewrite Hp in Hpi. rewrite Ht. rewrite Hpe in Hi.
    apply elem_of_app in Hi as [Hi|Hi]; [by eapply H1|].
    destruct (Hsal i Hi) as (p' & Hp' & Hle). congruence.
  - intros p ta. rewrite Hp, Ht. apply H2.
  - intros p tc. rewrite Hp, Ht. apply H3.
Qed.

Lemma asignar_robot_tiempos s r s' r' i :
  Colas s -> Tiempos s -> NoDup (pedido_id <$> pedidos s) ->
  con_pedido (pedidos s) r ->
  asignar_robot s r = Some (s', r', i) ->
  Tiempos s' /\ NoDup (pedido_id <$> pedidos s')
  /\ con_pedido (pedidos s') r'
  /\ forall q, con_pedido (pedidos s) q -> con_pedido (pedidos s') q.
Proof.
  intros HC HT Hnd Hr H. apply asignar_robot_casos in H.
  destruct H as [He|mi p pend1 ah ed He Hp Hrem Hah Hed Hpk
                |mi p pend1 ah ed pickup He Hp Hrem Hah Hed Hpk Hl
                |mi p pend1 ah ed pickup l He Hp Hrem Hah Hed Hpk Hl].
  - done.
  - destruct (cola_revertida_spec _ _ _ _ HC Hp Hrem) as (Hps & Hpe & _).
    rewrite Hps. split; [|by split; [|split; [intros ?|]]].
    apply (Tiempos_mono s); [done | | done | done]. intros j. by rewrite Hpe.
  - destruct (cola_revertida_spec _ _ _ _ HC Hp Hrem) as (Hps & Hpe & _).
    rewrite Hps. split; [|by split; [|split; [intros ?|]]].
    apply (Tiempos_mono s); [done | | done | done]. intros j. by rewrite Hpe.
  - apply lista_remove_spec in Hrem as (l1 & l2 & Hpend & _ & ->).
    assert (mi ∈ pendientes s) as Hmi by (rewrite Hpend; set_solver).
    assert (tick_asignacion p = None) as Hnone.
    { apply (col_espera s HC mi p Hp). unfold en_espera. set_solver. }
    assert (forall j, j ∈ l1 ++ l2 -> j ∈ pendientes s /\ j ≠ mi) as Hsub.
    { intros j Hj. split; [rewrite Hpend; set_solver|]. intros ->.
      pose proof (col_nodup s HC) as Hnd'. unfold en_espera in Hnd'.
      apply NoDup_app in Hnd' as (_ & _ & Hnd'). rewrite Hpend in Hnd'.
      rewrite <- (Permutation_middle l1 l2 mi) in Hnd'.
      by apply NoDup_cons in Hnd' as [? _]. }
    destruct HT as [H1 H2 H3]. simpl. split; [split|]; simpl.
    + intros j q Hj Hq. destruct (Hsub j Hj) as [Hjp Hne].
      rewrite list_lookup_insert_ne in Hq by done. by eapply H1.
    + intros q ta Hq Hta. apply elem_of_insert_inv in Hq as [->|Hq]; [|by eapply H2].
      simpl in Hta. injection Hta as <-. specialize (H1 mi p Hmi Hp). simpl. lia.
    + intros q tc Hq Htc. apply elem_of_insert_inv in Hq as [->|Hq]; [|by eapply H3].
      simpl in Htc. destruct (H3 p tc) as (ta & Hta & _);
        [by eapply list_elem_of_lookup_2 | done | congruence].
    + split; [by rewrite (ids_insert _ _ p)|]. split.
      * intros _. exists mi, (con_asignacion p (Some (tick s))).
        split; [|by split; [|eexists]].
        apply list_lookup_insert_eq. by eapply lookup_lt_Some.
      * intros q Hq Heq. destruct (Hq Heq) as (j & pq & Hpq & Hid & Hta).
        exists j, pq. split; [|done]. rewrite list_lookup_insert_ne; [done|].
        intros <-. rewrite Hp in Hpq. injection Hpq as <-. rewrite Hnone in Hta.
        by destruct Hta.
Qed.

Lemma con_pedido_campos ps r r' :
  (estado r' ≠ INACTIVO -> estado r ≠ INACTIVO) -> r_pedido_id r' = r_pedido_id r ->
  con_pedido ps r -> con_pedido ps r'.
Proof. intros He Hid Hr He'. rewrite Hid. by apply Hr, He. Qed.

Lemma Forall2_insert_der {A} (R : A -> A -> Prop) (l : list A) (i : nat) x y :
  (forall z, R z z) -> l !! i = Some x -> R x y -> Forall2 R l (<[i := y]> l).
Proof.
  intros Hrefl Hi Hxy. rewrite <- (list_insert_id l i x Hi) at 1.
  apply Forall2_insert; [|done].
  apply Forall2_same_length_lookup_2; [done|]. intros j a b Ha Hb.
  assert (a = b) as -> by congruence. apply Hrefl.
Qed.

Lemma planear_tiempos s ps r ps' r' :
  Tiempos (con_pedidos s ps) -> NoDup (pedido_id <$> ps) -> con_pedido ps r ->
  planear_siguiente_tramo_si_llego s ps (ocupar r) = Some (ps', r') ->
  Tiempos (con_pedidos s ps') /\ NoDup (pedido_id <$> ps') /\ con_pedido ps' r'
  /\ Forall2 (fun p p' => pedido_id p' = pedido_id p
                          /\ tick_asignacion p' = tick_asignacion p) ps ps'.
Proof.
  intros HT Hnd Hr H.
  assert (Forall2 (fun p p' : Pedido => pedido_id p' = pedido_id p
                     /\ tick_asignacion p' = tick_asignacion p) ps ps) as Hrefl.
  { apply Forall2_same_length_lookup_2; [done|]. intros i x y Hx Hy.
    assert (x = y) as -> by congruence. done. }
  assert (con_pedido ps (ocupar r)) as Hro.
  { eapply con_pedido_campos; [| |done]; unfold ocupar; by case_bool_decide. }
  apply planear_detalle in H
    as [[-> ->]|[(_ & He & -> & dock & l & _ & _ & ->)
               |[(_ & He & -> & ah & pk & l & _ & _ & _ & ->)|(_ & He & -> & ->)]]].
  - done.
  - do 2 (split; [done|]). split; [|done].
    eapply con_pedido_campos; [| |exact Hro]; [intros _; congruence | done].
  - do 2 (split; [done|]). split; [|done].
    eapply con_pedido_campos; [| |exact Hro]; [intros _; congruence | done].
  - destruct Hro as (i & p & Hp & Hid & ta & Hta); [congruence|].
    rewrite Hid, (completar_pedido_unico _ _ _ _ Hnd Hp).
    destruct HT as [H1 H2 H3]. simpl in H1, H2, H3.
    pose proof (list_elem_of_lookup_2 _ _ _ Hp) as Hin.
    split; [split; simpl|].
    + intros j q Hj Hq. destruct (decide (i = j)) as [<-|Hne].
      * rewrite list_lookup_insert_eq in Hq by (by eapply lookup_lt_Some).
        injection Hq as <-. simpl. by eapply H1.
      * rewrite list_lookup_insert_ne in Hq by done. by eapply H1.
    + intros q tq Hq Htq. apply elem_of_insert_inv in Hq as [->|Hq]; [|by eapply H2].
      simpl in *. by eapply H2.
    + intros q tc Hq Htc. apply elem_of_insert_inv in Hq as [->|Hq]; [|by eapply H3].
      simpl in *. injection Htc as <-. exists ta. split; [done|].
      specialize (H2 p ta Hin Hta). lia.
    + split; [by rewrite (ids_insert _ _ p)|]. split; [by intros ?|].
      by apply (Forall2_insert_der _ _ _ p).
Qed.

Lemma resolver_robot_campos props ts st r st' r' :
  resolver_robot props ts st r = Some (st', r') ->
  estado r' = estado r /\ r_pedido_id r' = r_pedido_id r
  /\ r_estacion_dock r' = r_estacion_dock r /\ r_anaquel_home r' = r_anaquel_home r.
Proof.
  intros H. apply resolver_robot_detalle in H
    as (c & _ & [(_ & -> & _)|[(_ & _ & -> & _)|(_ & _ & -> & _)]]); done.
Qed.

Lemma run_tiempos n s s' :
  run n s = Some s' ->
  Colas s -> Tiempos s -> NoDup (pedido_id <$> pedidos s) ->
  Forall (con_pedido (pedidos s)) (lista_robots s) ->
  Tiempos s'.
Proof.
  intros H HC HT Hnd HP.
  destruct (run_inv (fun s => Colas s /\ Tiempos s /\ NoDup (pedido_id <$> pedidos s))
              (fun s r => con_pedido (pedidos s) r))
    with (n := n) (s := s) (s' := s') as [(_ & HT' & _) _]; try done.
  - intros s0 s1 (Hp & Hpe & Hnl & _ & _ & _ & Ht). split.
    + intros (HC0 & HT0 & Hnd0). split; [by apply (Colas_ext s0)|].
      split; [|by rewrite Hp]. apply (Tiempos_mono s0); [done| |lia|done].
      intros i. by rewrite Hpe.
    + intros q. by rewrite Hp.
  - intros s0 s1 (HC0 & HT0 & Hnd0) Hl.
    pose proof (liberar_pedidos_marco _ _ Hl) as (_ & _ & Hp). rewrite Hp.
    split; [|done]. split; [by eapply liberar_pedidos_colas|].
    split; [by eapply liberar_pedidos_tiempos | done].
  - intros s0 r s1 r' i (HC0 & HT0 & Hnd0) Hr _ _ Ha.
    destruct (asignar_robot_tiempos _ _ _ _ _ HC0 HT0 Hnd0 Hr Ha) as (? & ? & ? & ?).
    split; [|done]. split; [by eapply asignar_robot_colas | done].
  - intros s0 ps r ps' r' (HC0 & HT0 & Hnd0) Hr Hpl. simpl in *.
    destruct (planear_tiempos _ _ _ _ _ HT0 Hnd0 Hr Hpl) as (? & ? & ? & HF).
    split; [|split; [done|]].
    + split; [|done]. eapply Colas_asignacion; [|done].
      eapply Forall2_impl; [done|]. by intros ?? [_ ?].
    + intros q. by apply con_pedido_mono.
  - intros s0 props ts st r st' r' Hr Hres.
    destruct (resolver_robot_campos _ _ _ _ _ _ Hres) as (He & Hid & _).
    eapply con_pedido_campos; [| |done]; [congruence | done].
Qed.

(** X20. In every run of a simulator built from orders that are neither
    assigned nor complete and whose identifiers are distinct, the time
    stamps of an order follow one another: an order is assigned at or
    after its creation tick, and an order that is complete was assigned,
    at or before the tick of its completion; no stamp lies after the
    current tick. *)
Theorem tiempos_en_orden g ed ah robots spawn ps sd s0 n s i p :
  construir g ed ah robots spawn ps sd = Some s0 ->
  pedidos_nuevos ps -> NoDup (pedido_id <$> ps) ->
  run n s0 = Some s -> pedidos s !! i = Some p ->
  (forall ta, tick_asignacion p = Some ta -> tick_creacion p <= ta <= tick s)
  /\ (forall tc, tick_completado p = Some tc ->
        exists ta, tick_asignacion p = Some ta
          /\ tick_creacion p <= ta /\ ta <= tc <= tick s).
Proof.
  intros Hc Hnew Hnd Hr Hp%list_elem_of_lookup_2.
  assert (Forall (fun p => tick_asignacion p = None) ps) as Hnone.
  { eapply Forall_impl; [done|]. by intros ? [? _]. }
  pose proof (colas_al_construir _ _ _ _ _ _ _ _ Hc Hnone) as HC.
  pose proof (cola_inicial _ _ _ _ _ _ _ _ Hc) as (Hpe & _).
  destruct (construir_inicio _ _ _ _ _ _ _ _ Hc) as (_ & _ & _ & Hrob & _).
  pose proof (construir_robots _ _ _ _ _ _ _ _ Hc) as (_&_&_&_&Hps&_).
  destruct (run_tiempos n s0 s Hr HC) as [H1 H2 H3].
  - split.
    + intros j q Hj. rewrite Hpe in Hj. by apply elem_of_nil in Hj.
    + intros q ta Hq Hta. rewrite Hps in Hq. rewrite Forall_forall in Hnone.
      rewrite (Hnone q Hq) in Hta. done.
    + intros q tc Hq Htc. rewrite Hps in Hq. unfold pedidos_nuevos in Hnew.
      rewrite Forall_forall in Hnew. destruct (Hnew q Hq) as [_ Hn]. congruence.
  - by rewrite Hps.
  - eapply Forall_impl; [done|]. simpl. intros r (He & _) Hne. done.
  - split; [intros ta Hta; by apply H2|]. intros tc Htc.
    destruct (H3 p tc Hp Htc) as (ta & Hta & Hle). exists ta. split; [done|].
    specialize (H2 p ta Hp Hta). lia.
Qed.

Lemma tiempos_en_orden_witness :
  pedidos ej_vuelta4 = [mkPedido 0 0 0 0 (Some 0) (Some 3)]
  /\ exists ta, Some 0 = Some ta /\ 0 <= ta /\ ta <= 3 <= tick ej_vuelta4.
Proof.
  split; [vm_compute; reflexivity|].
  apply (tiempos_en_orden [[0; 0; 1]] {[0 := (0, 0)]} {[0 := (2, 0)]} 1 [(0, 0)]
           [mkPedido 0 0 0 0 None None] 0 ej_vuelta 4 ej_vuelta4 0
           (mkPedido 0 0 0 0 (Some 0) (Some 3))).
  - vm_compute. reflexivity.
  - apply (bool_decide_unpack _). vm_compute. exact I.
  - apply (bool_decide_unpack _). vm_compute. exact I.
  - vm_compute. reflexivity.
  - vm_compute. reflexivity.
  - reflexivity.
Defined.

(** * The orders not yet released *)

Lemma creacion_mismos ps ps' i :
  Forall2 mismo_pedido ps ps' -> creacion ps' i = creacion ps i.
Proof.
  intros HF. unfold creacion. destruct (ps !! i) as [p|] eqn:Hp.
  - destruct (Forall2_lookup_l _ _ _ _ _ HF Hp) as (p' & -> & _ & _ & _ & Ht). done.
  - apply lookup_ge_None in Hp. rewrite (Forall2_length _ _ _ HF) in Hp.
    apply lookup_ge_None in Hp. by rewrite Hp.
Qed.

Lemma asignar_pedidos_no_liberados s s' :
  asignar_pedidos s = Some s' -> no_liberados s' = no_liberados s.
Proof.
  intros H.
  destruct (asignar_pedidos_inv (fun s0 => no_liberados s0 = no_liberados s)
              (fun _ _ => True)) with (s := s) (s' := s') as [Hn _]; try done.
  - intros s0 r s1 r' i Hn _ _ _ Ha. split; [|done].
    apply asignar_robot_marco in Ha as (_ & _ & -> & _). done.
  - by apply Forall_true.
Qed.

Lemma step_no_liberados s s' :
  Forall (fun i => (i < length (pedidos s))%nat) (no_liberados s) ->
  en_orden (pedidos s) (no_liberados s) ->
  step s = Some s' ->
  no_liberados s' = filter (fun i => tick s < creacion (pedidos s) i) (no_liberados s).
Proof.
  intros Hr Ho H. apply step_fases in H
    as (s1 & s2 & ps3 & props & rs3 & st & H1 & H2 & _ & _ & _ & _ & _ & _ & _ & _ & _
        & _ & _ & _ & -> & _).
  rewrite (asignar_pedidos_no_liberados _ _ H2).
  unfold liberar_pedidos in H1. rewrite Forall_forall in Hr.
  rewrite (liberar_bucle_filtra _ _ _ _ Hr Ho) in H1. simpl in H1. by injection H1 as <-.
Qed.

Lemma en_orden_filter ps (P : nat -> Prop) `{forall i, Decision (P i)} l :
  en_orden ps l -> en_orden ps (filter P l).
Proof.
  unfold en_orden. induction 1 as [|i l Hs IH Hi]; [constructor|].
  rewrite filter_cons. case_decide; [|done]. constructor; [done|].
  rewrite Forall_forall in *. intros j Hj. apply Hi.
  by apply list_elem_of_filter in Hj as [_ ?].
Qed.

Lemma en_orden_creacion ps ps' l :
  (forall i, creacion ps' i = creacion ps i) -> en_orden ps l -> en_orden ps' l.
Proof.
  intros Hc. unfold en_orden. apply ordenada_impl. intros i j. by rewrite !Hc.
Qed.

Lemma step_liberados s s' :
  Forall (fun i => (i < length (pedidos s))%nat) (no_liberados s) ->
  en_orden (pedidos s) (no_liberados s) ->
  (forall i, (i < length (pedidos s))%nat -> i ∉ no_liberados s ->
     creacion (pedidos s) i < tick s) ->
  step s = Some s' ->
  (Forall (fun i => (i < length (pedidos s'))%nat) (no_liberados s')
   /\ en_orden (pedidos s') (no_liberados s')
   /\ (forall i, (i < length (pedidos s'))%nat -> i ∉ no_liberados s' ->
         creacion (pedidos s') i < tick s'))
  /\ forall i, (i < length (pedidos s'))%nat ->
       (i ∈ no_liberados s' <-> tick s' <= creacion (pedidos s') i).
Proof.
  intros Hr Ho Hl H. pose proof (step_no_liberados _ _ Hr Ho H) as Hnl.
  pose proof (step_mismos _ _ H) as HF. destruct (step_marco _ _ H) as (Ht & _).
  pose proof (Forall2_length _ _ _ HF) as Hlen.
  assert (forall i, creacion (pedidos s') i = creacion (pedidos s) i) as Hc.
  { intros i. by apply creacion_mismos. }
  rewrite Hnl, <- Hlen, Ht. split; [split; [|split]|].
  - apply Forall_forall. intros i Hi. apply list_elem_of_filter in Hi as [_ Hi].
    rewrite Forall_forall in Hr. by apply Hr.
  - apply (en_orden_creacion (pedidos s)); [done|]. by apply en_orden_filter.
  - intros i Hi Hnin. rewrite Hc. rewrite list_elem_of_filter in Hnin.
    destruct (decide (i ∈ no_liberados s)) as [Hin|Hin].
    + destruct (decide (tick s < creacion (pedidos s) i)); [|lia]. exfalso. by apply Hnin.
    + specialize (Hl i Hi Hin). lia.
  - intros i Hi. rewrite Hc, list_elem_of_filter. split; [intros [? _]; lia|].
    intros Hle. split; [lia|].
    destruct (decide (i ∈ no_liberados s)) as [Hin|Hin]; [done|].
    specialize (Hl i Hi Hin). lia.
Qed.

Lemma run_liberados n : forall s s',
  Forall (fun i => (i < length (pedidos s))%nat) (no_liberados s) ->
  en_orden (pedidos s) (no_liberados s) ->
  (forall i, (i < length (pedidos s))%nat -> i ∉ no_liberados s ->
     creacion (pedidos s) i < tick s) ->
  run n s = Some s' ->
  Forall (fun i => (i < length (pedidos s'))%nat) (no_liberados s')
  /\ en_orden (pedidos s') (no_liberados s')
  /\ (forall i, (i < length (pedidos s'))%nat -> i ∉ no_liberados s' ->
        creacion (pedidos s') i < tick s').
Proof.
  induction n as [|n IH]; intros s s' Hr Ho Hl H; simpl in H; [by injection H as <-|].
  destruct (step s) as [s1|] eqn:Hs; [|done]. simpl in H.
  destruct (step_liberados _ _ Hr Ho Hl Hs) as [(Hr1 & Ho1 & Hl1) _]. by eapply IH.
Qed.

(** X26. In every run of a simulator as it is built, after any tick the
    orders that are not yet released are exactly the orders whose creation
    tick is the current tick or a later one: each order is released in the
    tick of its creation, or in the first tick when it was created before
    the run. *)
Theorem liberados_a_tiempo g ed ah robots spawn ps sd s0 n s i p :
  construir g ed ah robots spawn ps sd = Some s0 -> run (S n) s0 = Some s ->
  pedidos s !! i = Some p ->
  (i ∈ no_liberados s <-> tick s <= tick_creacion p).
Proof.
  intros Hc Hr Hp.
  pose proof (cola_inicial _ _ _ _ _ _ _ _ Hc) as (_ & Hperm & Hord).
  pose proof (construir_robots _ _ _ _ _ _ _ _ Hc) as (_&_&_&_&Hps&_).
  replace (S n) with (n + 1)%nat in Hr by lia. rewrite run_mas_uno in Hr.
  destruct (run n s0) as [s1|] eqn:Hr1; [|done]. simpl in Hr.
  destruct (step s1) as [s2|] eqn:Hs; [|done]. simpl in Hr. injection Hr as ->.
  destruct (run_liberados n s0 s1) as (Hr' & Ho' & Hl'); [| | |done|].
  - rewrite Hps. apply Forall_forall. intros j. rewrite Hperm, elem_of_seq. lia.
  - rewrite Hps. by apply antes_en_orden.
  - intros j Hj Hnin. exfalso. apply Hnin. rewrite Hperm, elem_of_seq.
    rewrite Hps in Hj. lia.
  - destruct (step_liberados _ _ Hr' Ho' Hl' Hs) as [_ Hiff].
    rewrite (Hiff i) by (by eapply lookup_lt_Some).
    unfold creacion. by rewrite Hp.
Qed.

Lemma liberados_a_tiempo_witness :
  (1%nat ∈ no_liberados ej_cuatro3 <-> tick ej_cuatro3 <= 2)
  /\ (0%nat ∈ no_liberados ej_cuatro3 <-> tick ej_cuatro3 <= 5).
Proof.
  split.
  - apply (liberados_a_tiempo [[0]] ∅ ∅ 0 [] ej_cuatro 0 ej_cuatro_s 2 ej_cuatro3 1%nat
             (mkPedido 1 0 0 2 None None)); vm_compute; reflexivity.
  - apply (liberados_a_tiempo [[0]] ∅ ∅ 0 [] ej_cuatro 0 ej_cuatro_s 2 ej_cuatro3 0%nat
             (mkPedido 0 0 0 5 None None)); vm_compute; reflexivity.
Defined.

(** * No exception on inputs that are well formed *)

Lemma liberar_bucle_total ps t : forall nl pend,
  (forall i, i ∈ nl -> (i < length ps)%nat) -> is_Some (liberar_bucle ps t nl pend).
Proof.
  induction nl as [|i nl IH]; intros pend Hr; simpl; [by eexists|].
  destruct (lookup_lt_is_Some_2 ps i) as [p ->]; [apply Hr; by left|]. simpl.
  destruct (tick_creacion p <=? t); [|by eexists].
  apply IH. intros j Hj. apply Hr. by right.
Qed.

Lemma liberar_pedidos_total s : bien_formado s -> is_Some (liberar_pedidos s).
Proof.
  intros [Hr _]. unfold liberar_pedidos.
  destruct (liberar_bucle_total (pedidos s) (tick s) (no_liberados s) (pendientes s))
    as [[nl pe] ->]; [|by eexists].
  intros i Hi. apply Hr. unfold en_espera. set_solver.
Qed.

Lemma escanear_total s r : forall l m,
  bien_formado s -> (forall i, i ∈ l -> i ∈ pendientes s) ->
  is_Some (escanear s r l m).
Proof.
  induction l as [|pi l IH]; intros m HB Hl; simpl; [by eexists|].
  destruct HB as [Hr Hk].
  assert (is_Some (examinar s r m pi)) as [m' Hm'].
  { unfold examinar.
    destruct (lookup_lt_is_Some_2 (pedidos s) pi) as [p Hp].
    { apply Hr. unfold en_espera. apply elem_of_app. right. apply Hl. by left. }
    rewrite Hp. simpl. unfold claves_conocidas in Hk. rewrite Forall_forall in Hk.
    destruct (Hk p (list_elem_of_lookup_2 _ _ _ Hp)) as [[a Ha] _]. rewrite Ha. simpl.
    destruct (elegir_objetivo_adyacente (grid s) a); [|by eexists].
    destruct (_ <? _); by eexists. }
  rewrite Hm'. simpl. apply IH; [done|]. intros i Hi. apply Hl. by right.
Qed.

Lemma lista_remove_total x l : x ∈ l -> is_Some (lista_remove x l).
Proof.
  intros Hx. apply list_elem_of_split_l in Hx as (l1 & l2 & -> & Hnin).
  exists (l1 ++ l2). apply lista_remove_spec. by exists l1, l2.
Qed.

Lemma asignar_robot_total s r : bien_formado s -> is_Some (asignar_robot s r).
Proof.
  intros HB. unfold asignar_robot.
  destruct (escanear_total s r (examinados s) (None, 10 ^ 9) HB) as [[m d] Hm].
  { intros i Hi. unfold examinados in Hi. by apply elem_of_take in Hi as (? & ?%list_elem_of_lookup_2 & _). }
  assert (elegir_pedido s r = Some m) as Hel.
  { unfold elegir_pedido. fold (examinados s). by rewrite Hm. }
  rewrite Hel. simpl. destruct m as [mi|]; [|by eexists].
  destruct (elegir_pedido_spec _ _ _ Hel) as (_ & k & d' & Hk & _).
  assert (mi ∈ pendientes s) as Hmi.
  { unfold examinados in Hk. apply lookup_take_Some in Hk as [Hk _].
    by eapply list_elem_of_lookup_2. }
  destruct HB as [Hr Hkn].
  destruct (lookup_lt_is_Some_2 (pedidos s) mi) as [p Hp].
  { apply Hr. unfold en_espera. set_solver. }
  rewrite Hp. simpl.
  destruct (lista_remove_total mi (pendientes s) Hmi) as [pend1 ->]. simpl.
  unfold claves_conocidas in Hkn. rewrite Forall_forall in Hkn.
  destruct (Hkn p (list_elem_of_lookup_2 _ _ _ Hp)) as [[a Ha] [e He]].
  rewrite Ha. simpl. rewrite He. simpl.
  destruct (elegir_objetivo_adyacente (grid s) a); [|by eexists].
  destruct (AEstrella.a_estrella _ _ _); by eexists.
Qed.

Lemma bien_formado_mono s s' :
  Forall2 mismo_pedido (pedidos s) (pedidos s') ->
  (forall i, i ∈ en_espera s' -> i ∈ en_espera s) ->
  anaquel_home s' = anaquel_home s -> estacion_dock s' = estacion_dock s ->
  bien_formado s -> bien_formado s'.
Proof.
  intros HF He Hah Hed [Hr Hk]. split.
  - intros i Hi. rewrite <- (Forall2_length _ _ _ HF). by apply Hr, He.
  - unfold claves_conocidas in *. rewrite Forall_forall in *. intros p' Hp'.
    apply list_elem_of_lookup in Hp' as [i Hi].
    destruct (Forall2_lookup_r _ _ _ _ _ HF Hi) as (p & Hp & _ & Ha & Hs & _).
    rewrite Hah, Hed, Ha, Hs. apply Hk. by eapply list_elem_of_lookup_2.
Qed.

Lemma asignar_robot_bien_formado s r s' r' i :
  bien_formado s -> asignar_robot s r = Some (s', r', i) -> bien_formado s'.
Proof.
  intros HB H. pose proof (asignar_robot_mismos _ _ _ _ _ H) as HF.
  destruct (asignar_robot_marco _ _ _ _ _ H) as ((_ & Hed & Hah & _) & _).
  eapply bien_formado_mono; [done| |done|done|done].
  apply asignar_robot_casos in H. unfold en_espera.
  destruct H as [He|mi p pend1 ah ed He Hp Hrem Hah' Hed' Hpk
                |mi p pend1 ah ed pickup He Hp Hrem Hah' Hed' Hpk Hl
                |mi p pend1 ah ed pickup l He Hp Hrem Hah' Hed' Hpk Hl]; [done|..];
    apply lista_remove_spec in Hrem as (l1 & l2 & -> & _ & ->); simpl; set_solver.
Qed.

Lemma asignar_robot_con_dock s r s' r' i :
  con_dock r -> asignar_robot s r = Some (s', r', i) -> con_dock r'.
Proof.
  intros Hr H. apply asignar_robot_casos in H.
  destruct H; [done | by intros ? | by intros ? | intros _; simpl; by eexists].
Qed.

Lemma asignar_bucle_total : forall rs s,
  bien_formado s -> is_Some (asignar_bucle s rs).
Proof.
  induction rs as [|r rs IH]; intros s HB; simpl; [by eexists|].
  case_decide.
  - destruct (pendientes s); [by eexists|].
    destruct (asignar_robot_total s r HB) as [[[s1 r1] i] Ha]. rewrite Ha. simpl.
    destruct (IH s1) as [[s2 rs2] ->]; [by eapply asignar_robot_bien_formado|].
    by eexists.
  - destruct (IH s HB) as [[s2 rs2] ->]. by eexists.
Qed.

Lemma asignar_pedidos_total s : bien_formado s -> is_Some (asignar_pedidos s).
Proof.
  intros HB. unfold asignar_pedidos. destruct (_ || _); [by eexists|].
  destruct (asignar_bucle_total (lista_robots s) s HB) as [[s1 rs] ->]. by eexists.
Qed.

Lemma propuesta_total r : is_Some (propuesta r).
Proof.
  unfold propuesta. destruct (_ || _); [by eexists|].
  destruct (_ <? _) eqn:Hlt; [|by eexists].
  apply Z.ltb_lt in Hlt. apply lookup_lt_is_Some. lia.
Qed.

Lemma planear_total s ps r :
  con_dock r -> is_Some (planear_siguiente_tramo_si_llego s ps r).
Proof.
  intros Hd. unfold planear_siguiente_tramo_si_llego.
  destruct (_ || _); [by eexists|].
  destruct (estado r) eqn:He; try by eexists.
  - simpl. destruct Hd as [dock ->]; [congruence|]. simpl.
    destruct (AEstrella.a_estrella _ _ _); by eexists.
  - simpl. destruct (r_anaquel_home r); [|by eexists].
    destruct (elegir_objetivo_adyacente _ _); [|by eexists].
    destruct (AEstrella.a_estrella _ _ _); by eexists.
Qed.

Lemma ocupar_con_dock r : con_dock r -> con_dock (ocupar r).
Proof. unfold ocupar. by case_bool_decide. Qed.

Lemma planear_con_dock s ps r ps' r' :
  con_dock r -> planear_siguiente_tramo_si_llego s ps r = Some (ps', r') -> con_dock r'.
Proof.
  intros Hd H. apply planear_detalle in H
    as [[_ ->]|[(_ & He & _ & dock & l & Hdk & _ & ->)
               |[(_ & He & _ & ah & pk & l & _ & _ & _ & ->)|(_ & He & -> & _)]]].
  - done.
  - intros _. simpl. rewrite Hdk. by eexists.
  - intros _. simpl. apply Hd. congruence.
  - by intros ?.
Qed.

Lemma proponer_total s : forall rs ps props,
  Forall con_dock rs -> is_Some (proponer s ps props rs).
Proof.
  induction rs as [|r rs IH]; intros ps props HP; simpl; [by eexists|].
  apply Forall_cons in HP as [Hr Hrs]. fold (ocupar r).
  destruct (planear_total s ps (ocupar r) (ocupar_con_dock _ Hr)) as [[ps1 r2] ->].
  simpl. destruct (propuesta_total r2) as [c ->]. simpl.
  destruct (IH ps1 (<[robot_id r2 := c]> props) Hrs) as [[[ps2 props2] rs2] ->].
  by eexists.
Qed.

Lemma resolver_robot_total props ts st r :
  is_Some (props !! robot_id r) -> is_Some (resolver_robot props ts st r).
Proof.
  intros [c Hc]. unfold resolver_robot. rewrite Hc. simpl.
  case_decide; [by eexists|]. destruct (puede_moverse _ _ _ _); by eexists.
Qed.

Lemma resolver_total props ts : forall rs st,
  (forall r, r ∈ rs -> is_Some (props !! robot_id r)) ->
  is_Some (resolver props ts st rs).
Proof.
  induction rs as [|r rs IH]; intros st Hp; simpl; [by eexists|].
  destruct (resolver_robot_total props ts st r) as [[st1 r1] ->]; [apply Hp; by left|].
  simpl. destruct (IH st1) as [[st2 rs2] ->]; [|by eexists].
  intros q Hq. apply Hp. by right.
Qed.

Lemma liberar_pedidos_bien_formado s s' :
  bien_formado s -> liberar_pedidos s = Some s' -> bien_formado s'.
Proof.
  intros HB H. apply liberar_pedidos_spec in H
    as ((_ & Hed & Hah & _) & _ & Hp & sal & Hnl & Hpe & _).
  eapply bien_formado_mono; [| |done|done|done].
  - rewrite Hp. apply mismos_refl.
  - intros i. unfold en_espera. rewrite Hnl, Hpe. set_solver.
Qed.

Lemma asignar_pedidos_listo s s' :
  bien_formado s -> Forall con_dock (lista_robots s) ->
  asignar_pedidos s = Some s' ->
  bien_formado s' /\ Forall con_dock (lista_robots s').
Proof.
  intros HB HP H.
  apply (asignar_pedidos_inv bien_formado (fun _ r => con_dock r)) with (s := s);
    try done.
  intros s0 r s1 r' i HB0 Hr _ _ Ha.
  split; [by eapply asignar_robot_bien_formado|].
  split; [by eapply asignar_robot_con_dock | done].
Qed.

Lemma step_total s :
  bien_formado s -> Forall con_dock (lista_robots s) -> is_Some (step s).
Proof.
  intros HB HP. unfold step.
  destruct (liberar_pedidos_total s HB) as [s1 H1]. rewrite H1. simpl.
  pose proof (liberar_pedidos_bien_formado _ _ HB H1) as HB1.
  assert (Forall con_dock (lista_robots s1)) as HP1.
  { apply liberar_pedidos_marco in H1 as (_ & -> & _). done. }
  destruct (asignar_pedidos_total s1 HB1) as [s2 H2]. rewrite H2. simpl.
  destruct (asignar_pedidos_listo _ _ HB1 HP1 H2) as [HB2 HP2].
  destruct (proponer_total s2 (lista_robots s2) (pedidos s2) ∅ HP2)
    as [[[ps3 props] rs3] H3].
  rewrite H3. simpl.
  destruct (resolver_total props (tick s2 + 1) rs3
              {| res_tabla := tabla_reservas s2; res_movio_alguien := false;
                 res_eventos_alto := eventos_alto s2 |}) as [[st rs4] ->].
  { by destruct (proponer_todas _ _ _ _ _ _ _ H3) as [_ ?]. }
  by eexists.
Qed.

Lemma run_listo n s s' :
  run n s = Some s' -> bien_formado s -> Forall con_dock (lista_robots s) ->
  bien_formado s' /\ Forall con_dock (lista_robots s').
Proof.
  apply (run_inv bien_formado (fun _ r => con_dock r)).
  - intros s0 s1 (Hp & Hpe & Hnl & _ & Hed & Hah & _). split; [|done].
    apply bien_formado_mono; [| |done|done].
    + rewrite Hp. apply mismos_refl.
    + intros i. unfold en_espera. by rewrite Hpe, Hnl.
  - intros s0 s1 HB Hl. split; [by eapply liberar_pedidos_bien_formado | done].
  - intros s0 r s1 r' i HB Hr _ _ Ha.
    split; [by eapply asignar_robot_bien_formado|].
    split; [by eapply asignar_robot_con_dock | done].
  - intros s0 ps r ps' r' HB Hr Hpl.
    split; [|split; [by eapply planear_con_dock; [apply ocupar_con_dock|] | done]].
    apply (bien_formado_mono (con_pedidos s0 ps)); [| |done|done|done]; [|done].
    simpl. by eapply planear_mismos.
  - intros s0 props ts st r st' r' Hr Hres.
    destruct (resolver_robot_campos _ _ _ _ _ _ Hres) as (He & _ & Hd & _).
    intros Hne. rewrite Hd. apply Hr. congruence.
Qed.

Lemma run_total n : forall s,
  bien_formado s -> Forall con_dock (lista_robots s) -> is_Some (run n s).
Proof.
  induction n as [|n IH]; intros s HB HP; simpl; [by eexists|].
  destruct (step_total s HB HP) as [s1 Hs]. rewrite Hs. simpl.
  destruct (run_listo 1 s s1) as [HB1 HP1]; [by simpl; rewrite Hs | done | done |].
  by apply IH.
Qed.

(** X21. When there are at least as many spawn points as robots and
    every order names a shelf and a station of the two tables, the
    simulator is built and a run of any number of ticks ends without an
    exception, whatever the grid, the spawn cells and the creation ticks
    are. *)
Theorem run_sin_excepciones g ed ah robots spawn ps sd n :
  robots <= Z.of_nat (length spawn) ->
  Forall (fun p => is_Some (ah !! anaquel_id p) /\ is_Some (ed !! estacion_id p)) ps ->
  is_Some (ejecutar g ed ah robots spawn ps sd n).
Proof.
  intros Hsp Hk. unfold ejecutar.
  destruct (construir_Some g ed ah robots spawn ps sd Hsp) as [s0 Hc]. rewrite Hc. simpl.
  pose proof (cola_inicial _ _ _ _ _ _ _ _ Hc) as (Hpe & Hperm & _).
  destruct (construir_inicio _ _ _ _ _ _ _ _ Hc) as (_ & _ & _ & Hrob & _).
  assert (pedidos s0 = ps /\ anaquel_home s0 = ah /\ estacion_dock s0 = ed)
    as (Hps & Hah & Hed).
  { unfold construir in Hc. destruct (_ <? _); [done|].
    destruct (mapM _ _); [|done]. by injection Hc as <-. }
  apply run_total.
  - split.
    + intros i. unfold en_espera. rewrite Hpe, app_nil_r, Hperm, Hps, elem_of_seq. lia.
    + unfold claves_conocidas. by rewrite Hps, Hah, Hed.
  - eapply Forall_impl; [done|]. simpl. intros r (He & _) Hne. done.
Qed.

Lemma run_sin_excepciones_witness :
  is_Some (ejecutar ej_pasillo {[0 := (1, 0)]} {[0 := (6, 0); 1 := (0, 0)]} 2
             [(3, 0); (4, 0)] ej_pedidos 0 1000).
Proof.
  apply run_sin_excepciones.
  - simpl. lia.
  - apply (bool_decide_unpack _). vm_compute. exact I.
Defined.

(** * An order for a shelf that is not in the table *)

Lemma asignar_robot_sin_anaquel s r pi resto p :
  pendientes s = pi :: resto -> pedidos s !! pi = Some p ->
  anaquel_home s !! anaquel_id p = None -> asignar_robot s r = None.
Proof.
  intros Hpe Hp Hah. unfold asignar_robot, elegir_pedido. rewrite Hpe.
  simpl. unfold examinar. rewrite Hp. simpl. by rewrite Hah.
Qed.

Lemma asignar_bucle_sin_anaquel s pi resto p : forall rs,
  pendientes s = pi :: resto -> pedidos s !! pi = Some p ->
  anaquel_home s !! anaquel_id p = None ->
  (exists r, r ∈ rs /\ estado r = INACTIVO) -> asignar_bucle s rs = None.
Proof.
  induction rs as [|r rs IH]; intros Hpe Hp Hah (q & Hq & He).
  - by apply elem_of_nil in Hq.
  - simpl. case_decide as Her.
    + rewrite Hpe. by rewrite (asignar_robot_sin_anaquel _ _ _ _ _ Hpe Hp Hah).
    + rewrite IH; [done..|]. apply elem_of_cons in Hq as [->|Hq]; [done|]. by exists q.
Qed.

(** X22. An order that names a shelf missing from the table of the
    shelves stops the run: the tick in which it is the first of the
    pending queue and some robot is idle raises the exception of the
    missing key, before any robot is looked at for moving. *)
Theorem anaquel_desconocido s s1 pi resto p k r :
  liberar_pedidos s = Some s1 ->
  pendientes s1 = pi :: resto -> pedidos s1 !! pi = Some p ->
  anaquel_home s1 !! anaquel_id p = None ->
  lista_robots s1 !! k = Some r -> estado r = INACTIVO ->
  asignar_pedidos s1 = None /\ step s = None.
Proof.
  intros Hl Hpe Hp Hah Hr%list_elem_of_lookup_2 He.
  assert (asignar_pedidos s1 = None) as Ha.
  { unfold asignar_pedidos.
    assert (es_vacia (filter (fun r => estado r = INACTIVO) (lista_robots s1)) = false)
      as ->.
    { assert (r ∈ filter (fun r => estado r = INACTIVO) (lista_robots s1)) as Hin
        by (by apply list_elem_of_filter).
      by destruct (filter _ _); [apply elem_of_nil in Hin|]. }
    rewrite Hpe. simpl.
    rewrite (asignar_bucle_sin_anaquel s1 pi resto p); [done..|]. by exists r. }
  split; [done|]. unfold step. rewrite Hl. simpl. by rewrite Ha.
Qed.

Lemma anaquel_desconocido_witness :
  asignar_pedidos (default sim_vacio (liberar_pedidos ej_sin_anaquel)) = None
  /\ step ej_sin_anaquel = None.
Proof.
  apply (anaquel_desconocido ej_sin_anaquel _ 0%nat [] (mkPedido 0 9 0 0 None None)
           0%nat (crear_robot 0 (0, 0))).
  - vm_compute. reflexivity.
  - vm_compute. reflexivity.
  - vm_compute. reflexivity.
  - vm_compute. reflexivity.
  - vm_compute. reflexivity.
  - reflexivity.
Defined.

(** * The reservation table through a tick *)

(** Whatever happens to it in the second loop, a robot books the cell on
    which it ends, and its edge when it moved. *)
Lemma resolver_robot_tabla props ts st r st' r' :
  resolver_robot props ts st r = Some (st', r') ->
  reserva_celdas (res_tabla st')
  = <[((pos r').1, (pos r').2, ts) := robot_id r]> (reserva_celdas (res_tabla st))
  /\ ((pos r' = pos r
       /\ reserva_aristas (res_tabla st') = reserva_aristas (res_tabla st))
      \/ (pos r' ≠ pos r
          /\ puede_moverse (res_tabla st) (pos r) (pos r') ts = true
          /\ reserva_aristas (res_tabla st')
             = <[((pos r).1, (pos r).2, (pos r').1, (pos r').2, ts) := robot_id r]>
                 (reserva_aristas (res_tabla st)))).
Proof.
  intros H. apply resolver_robot_detalle in H
    as (c & _ & [(_ & -> & -> & _)|[(Hne & Hpm & -> & -> & _)|(_ & _ & -> & -> & _)]]);
    simpl; (split; [done|]); auto.
Qed.

Lemma resolver_tabla props ts : forall rs st st' rs',
  resolver props ts st rs = Some (st', rs') ->
  (forall x y t, t ≠ ts ->
     reserva_celdas (res_tabla st') !! (x, y, t)
     = reserva_celdas (res_tabla st) !! (x, y, t))
  /\ (forall x1 y1 x2 y2 t, t ≠ ts ->
        reserva_aristas (res_tabla st') !! (x1, y1, x2, y2, t)
        = reserva_aristas (res_tabla st) !! (x1, y1, x2, y2, t))
  /\ (forall x y, is_Some (reserva_celdas (res_tabla st') !! (x, y, ts)) <->
        is_Some (reserva_celdas (res_tabla st) !! (x, y, ts))
        \/ exists r', r' ∈ rs' /\ pos r' = (x, y))
  /\ (forall x1 y1 x2 y2,
        is_Some (reserva_aristas (res_tabla st') !! (x1, y1, x2, y2, ts)) <->
        is_Some (reserva_aristas (res_tabla st) !! (x1, y1, x2, y2, ts))
        \/ exists i r r', rs !! i = Some r /\ rs' !! i = Some r'
             /\ pos r = (x1, y1) /\ pos r' = (x2, y2) /\ pos r' ≠ pos r).
Proof.
  induction rs as [|r rs IH]; intros st st' rs' H.
  - injection H as <- <-. repeat split; try done; try (by left).
    + intros [?|(r' & Hr' & _)]; [done | by apply elem_of_nil in Hr'].
    + intros [?|(i & r & r' & Hr & _)]; [done | done].
  - apply resolver_cons in H as (st1 & r1 & rs1 & H1 & H2 & ->).
    destruct (IH _ _ _ H2) as (Hc & Ha & Hcs & Has).
    destruct (resolver_robot_tabla _ _ _ _ _ _ H1) as (Hc1 & Ha1).
    split; [|split; [|split]].
    + intros x y t Ht. rewrite Hc by done. rewrite Hc1.
      apply lookup_insert_ne. congruence.
    + intros x1 y1 x2 y2 t Ht. rewrite Ha by done.
      destruct Ha1 as [[_ ->]|(_ & _ & ->)]; [done|]. apply lookup_insert_ne. congruence.
    + intros x y. rewrite Hcs, Hc1. rewrite lookup_insert.
      case_decide as Hk.
      * split; [|intros _; left; by eexists]. intros _. right. exists r1.
        split; [by left|]. injection Hk as Hx Hy. destruct (pos r1). simpl in *. congruence.
      * split.
        -- intros [?|(r' & Hr' & Hp)]; [by left|]. right. exists r'. split; [by right | done].
        -- intros [?|(r' & [->|Hr']%elem_of_cons & Hp)]; [by left | | right; by exists r'].
           exfalso. apply Hk. by rewrite Hp.
    + intros x1 y1 x2 y2. rewrite Has. split.
      * intros [Hs|(i & q & q' & Hq & Hq' & Hp)].
        -- destruct Ha1 as [[_ Heq]|(Hne & _ & Heq)]; rewrite Heq in Hs; [by left|].
           rewrite lookup_insert in Hs. case_decide as Hk; [|by left].
           right. exists 0%nat, r, r1. do 2 (split; [done|]).
           injection Hk as ? ? ? ?. destruct (pos r), (pos r1). simpl in *.
           split; [congruence|]. split; [congruence | done].
        -- right. by exists (S i), q, q'.
      * intros [Hs|(i & q & q' & Hq & Hq' & Hpq & Hpq' & Hne)].
        -- left. destruct Ha1 as [[_ ->]|(_ & _ & ->)]; [done|].
           rewrite lookup_insert. by case_decide.
        -- destruct i as [|i]; simpl in Hq, Hq'.
           ++ injection Hq as <-. injection Hq' as <-. left.
              destruct Ha1 as [[? _]|(_ & _ & ->)]; [done|].
              rewrite Hpq, Hpq'. simpl. rewrite lookup_insert_eq. by eexists.
           ++ right. by exists i, q, q'.
Qed.

(** The robots as the second loop of a tick finds them. *)
Lemma step_resolver s s' :
  step s = Some s' ->
  exists props rs3 st,
    Forall2 (fun r rc => pos rc = pos r /\ ticks_espera rc = ticks_espera r
                         /\ robot_id rc = robot_id r) (lista_robots s) rs3
    /\ resolver props (tick s + 1)
         {| res_tabla := tabla_reservas s; res_movio_alguien := false;
            res_eventos_alto := eventos_alto s |} rs3
       = Some (st, lista_robots s')
    /\ tabla_reservas s' = res_tabla st /\ tick s' = tick s + 1.
Proof.
  intros H. apply step_fases in H
    as (s1 & s2 & ps3 & props & rs3 & st & H1 & H2 & H3 & H4 & _ & _ & _ & _ & _ & Ht
        & Htab & _).
  apply liberar_pedidos_marco in H1 as (Hm1 & Hr1 & _).
  destruct (asignar_pedidos_cada _ _ H2) as [Hm2 HF2].
  pose proof (proponer_cada _ _ _ _ _ _ _ H3) as HF3.
  destruct (marco_trans _ _ _ Hm1 Hm2) as (_ & _ & _ & _ & Htk & Htb & _ & _ & _ & Hev).
  rewrite Htk, Htb, Hev in H4. rewrite Htk in Ht.
  exists props, rs3, st. split; [|done]. rewrite <- Hr1.
  pose proof (Forall2_componer _ _ _ _ _ HF2 HF3) as HF.
  eapply Forall2_impl; [done|]. simpl.
  intros r rc (ra & Ha & ps0 & ps1 & Hpl & _).
  destruct (planear_contadores _ _ _ _ _ Hpl) as (-> & -> & _).
  rewrite (planear_id _ _ _ _ _ Hpl), ocupar_id.
  destruct (ocupar_contadores ra) as (-> & -> & _).
  destruct Ha as [->|(_ & s0 & s3 & i & _ & Ha)]; [done|].
  destruct (asignar_robot_contadores _ _ _ _ _ Ha) as (-> & -> & _).
  by rewrite (asignar_robot_id _ _ _ _ _ Ha).
Qed.

Lemma step_tabla s s' :
  step s = Some s' ->
  (forall x y t, t ≠ tick s' ->
     reserva_celdas (tabla_reservas s') !! (x, y, t)
     = reserva_celdas (tabla_reservas s) !! (x, y, t))
  /\ (forall x1 y1 x2 y2 t, t ≠ tick s' ->
        reserva_aristas (tabla_reservas s') !! (x1, y1, x2, y2, t)
        = reserva_aristas (tabla_reservas s) !! (x1, y1, x2, y2, t))
  /\ (forall x y, is_Some (reserva_celdas (tabla_reservas s') !! (x, y, tick s')) <->
        is_Some (reserva_celdas (tabla_reservas s) !! (x, y, tick s'))
        \/ exists r', r' ∈ lista_robots s' /\ pos r' = (x, y))
  /\ (forall x1 y1 x2 y2,
        is_Some (reserva_aristas (tabla_reservas s') !! (x1, y1, x2, y2, tick s')) <->
        is_Some (reserva_aristas (tabla_reservas s) !! (x1, y1, x2, y2, tick s'))
        \/ exists i r r', lista_robots s !! i = Some r /\ lista_robots s' !! i = Some r'
             /\ pos r = (x1, y1) /\ pos r' = (x2, y2) /\ pos r' ≠ pos r).
Proof.
  intros H. apply step_resolver in H as (props & rs3 & st & HF & Hres & -> & ->).
  destruct (resolver_tabla _ _ _ _ _ _ Hres) as (Hc & Ha & Hcs & Has). simpl in *.
  do 3 (split; [done|]). intros x1 y1 x2 y2. rewrite Has. split.
  - intros [?|(i & rc & r' & Hrc & Hr' & Hp & Hp' & Hne)]; [by left|]. right.
    destruct (Forall2_lookup_r _ _ _ _ _ HF Hrc) as (r & Hr & Hpr & _).
    exists i, r, r'. rewrite <- Hpr. done.
  - intros [?|(i & r & r' & Hr & Hr' & Hp & Hp' & Hne)]; [by left|]. right.
    destruct (Forall2_lookup_l _ _ _ _ _ HF Hr) as (rc & Hrc & Hpr & _).
    exists i, rc, r'. rewrite Hpr. done.
Qed.

(** X23. A tick writes the reservations of the tick it leads to and no
    other, and it removes none: the cells it books are the cells on which
    the robots end, the directed edges it books are the moves that the
    robots made. *)
Theorem tabla_de_un_tick s s' :
  step s = Some s' ->
  (forall x y t, t ≠ tick s' ->
     reserva_celdas (tabla_reservas s') !! (x, y, t)
     = reserva_celdas (tabla_reservas s) !! (x, y, t))
  /\ (forall x1 y1 x2 y2 t, t ≠ tick s' ->
        reserva_aristas (tabla_reservas s') !! (x1, y1, x2, y2, t)
        = reserva_aristas (tabla_reservas s) !! (x1, y1, x2, y2, t))
  /\ (forall x y, is_Some (reserva_celdas (tabla_reservas s') !! (x, y, tick s')) <->
        is_Some (reserva_celdas (tabla_reservas s) !! (x, y, tick s'))
        \/ exists r', r' ∈ lista_robots s' /\ pos r' = (x, y))
  /\ (forall x1 y1 x2 y2,
        is_Some (reserva_aristas (tabla_reservas s') !! (x1, y1, x2, y2, tick s')) <->
        is_Some (reserva_aristas (tabla_reservas s) !! (x1, y1, x2, y2, tick s'))
        \/ exists i r r', lista_robots s !! i = Some r /\ lista_robots s' !! i = Some r'
             /\ pos r = (x1, y1) /\ pos r' = (x2, y2) /\ pos r' ≠ pos r).
Proof. apply step_tabla. Qed.

Lemma tabla_de_un_tick_witness :
  reserva_celdas (tabla_reservas ej_s1) !! (3, 0, 0)
  = reserva_celdas (tabla_reservas ej_s0) !! (3, 0, 0)
  /\ (is_Some (reserva_celdas (tabla_reservas ej_s1) !! (4, 0, tick ej_s1)) <->
      is_Some (reserva_celdas (tabla_reservas ej_s0) !! (4, 0, tick ej_s1))
      \/ exists r', r' ∈ lista_robots ej_s1 /\ pos r' = (4, 0)).
Proof.
  destruct (tabla_de_un_tick ej_s0 ej_s1) as (H1 & _ & H3 & _);
    [vm_compute; reflexivity|].
  split; [apply H1; vm_compute; lia | apply H3].
Defined.

(** ** The table through a run *)

Lemma reservar_iniciales_dom rs x y t :
  is_Some (reserva_celdas (reservar_iniciales rs) !! (x, y, t)) <->
  t = 0 /\ exists r, r ∈ rs /\ pos r = (x, y).
Proof.
  unfold reservar_iniciales. induction rs as [|r rs IH] using rev_ind.
  - simpl. rewrite lookup_empty. split; [by intros [? ?] | by intros (_ & r & ?%elem_of_nil & _)].
  - rewrite foldl_snoc. unfold confirmar_espera at 1, reservar_celda at 1. simpl.
    rewrite lookup_insert. case_decide as Hk.
    + injection Hk as Hx Hy Ht. split; [|by eexists]. intros _. split; [done|].
      exists r. split; [set_solver|]. destruct (pos r). simpl in *. congruence.
    + rewrite IH. split.
      * intros (-> & q & Hq & Hp). split; [done|]. exists q. split; [set_solver | done].
      * intros (-> & q & [Hq|Hq%list_elem_of_singleton]%elem_of_app & Hp);
          [split; [done|]; by exists q|].
        subst q. exfalso. apply Hk. by rewrite Hp.
Qed.

Lemma reservar_iniciales_aristas rs : reserva_aristas (reservar_iniciales rs) = ∅.
Proof.
  unfold reservar_iniciales. induction rs as [|r rs IH] using rev_ind; [done|].
  by rewrite foldl_snoc.
Qed.

Lemma step_al_dia s s' :
  step s = Some s' ->
  (forall x y t, is_Some (reserva_celdas (tabla_reservas s) !! (x, y, t)) ->
     0 <= t <= tick s) ->
  (forall x1 y1 x2 y2 t,
     is_Some (reserva_aristas (tabla_reservas s) !! (x1, y1, x2, y2, t)) ->
     1 <= t <= tick s) ->
  0 <= tick s ->
  (forall x y t, is_Some (reserva_celdas (tabla_reservas s') !! (x, y, t)) ->
     0 <= t <= tick s')
  /\ (forall x1 y1 x2 y2 t,
        is_Some (reserva_aristas (tabla_reservas s') !! (x1, y1, x2, y2, t)) ->
        1 <= t <= tick s')
  /\ (forall x y, is_Some (reserva_celdas (tabla_reservas s') !! (x, y, tick s')) <->
        exists r, r ∈ lista_robots s' /\ pos r = (x, y)).
Proof.
  intros H Hc Ha Hpos. destruct (step_marco _ _ H) as (Ht & _).
  destruct (step_tabla _ _ H) as (Hc1 & Ha1 & Hcs & Has).
  split; [|split].
  - intros x y t Hs. destruct (decide (t = tick s')) as [->|Hne]; [lia|].
    rewrite Hc1 in Hs by done. apply Hc in Hs. lia.
  - intros x1 y1 x2 y2 t Hs. destruct (decide (t = tick s')) as [->|Hne]; [lia|].
    rewrite Ha1 in Hs by done. apply Ha in Hs. lia.
  - intros x y. rewrite Hcs. split; [|by right].
    intros [Hs|?]; [|done]. apply Hc in Hs. lia.
Qed.

Lemma run_al_dia g ed ah robots spawn ps sd s0 n s :
  construir g ed ah robots spawn ps sd = Some s0 -> run n s0 = Some s ->
  (forall x y t, is_Some (reserva_celdas (tabla_reservas s) !! (x, y, t)) ->
     0 <= t <= tick s)
  /\ (forall x1 y1 x2 y2 t,
        is_Some (reserva_aristas (tabla_reservas s) !! (x1, y1, x2, y2, t)) ->
        1 <= t <= tick s)
  /\ (forall x y, is_Some (reserva_celdas (tabla_reservas s) !! (x, y, tick s)) <->
        exists r, r ∈ lista_robots s /\ pos r = (x, y)).
Proof.
  intros Hc Hr.
  pose proof (construir_robots _ _ _ _ _ _ _ _ Hc) as (_ & _ & Ht0 & _ & _ & Htab & _).
  assert (0 <= tick s0
          /\ (forall x y t, is_Some (reserva_celdas (tabla_reservas s0) !! (x, y, t)) ->
                0 <= t <= tick s0)
          /\ (forall x1 y1 x2 y2 t,
                is_Some (reserva_aristas (tabla_reservas s0) !! (x1, y1, x2, y2, t)) ->
                1 <= t <= tick s0)
          /\ (forall x y, is_Some (reserva_celdas (tabla_reservas s0) !! (x, y, tick s0)) <->
                exists r, r ∈ lista_robots s0 /\ pos r = (x, y))) as H0.
  { rewrite Htab, Ht0. split; [lia|]. split; [|split].
    - intros x y t Hs. apply reservar_iniciales_dom in Hs as [-> _]. lia.
    - intros x1 y1 x2 y2 t Hs. rewrite reservar_iniciales_aristas, lookup_empty in Hs.
      by destruct Hs.
    - intros x y. rewrite reservar_iniciales_dom. naive_solver. }
  clear Hc Htab Ht0. revert s0 Hr H0. induction n as [|n IH]; intros s0 Hr H0; simpl in Hr.
  - injection Hr as <-. by destruct H0 as (_ & ? & ? & ?).
  - destruct (step s0) as [s1|] eqn:Hs; [|done]. simpl in Hr.
    apply (IH s1 Hr). destruct H0 as (Hp & Hc & Ha & _).
    destruct (step_marco _ _ Hs) as (Ht & _). split; [lia|].
    by apply (step_al_dia s0 s1).
Qed.

(** X24. In every run of a simulator as it is built the table is up to
    date: the cells reserved at the current tick are the cells on which
    the robots stand, and nothing is reserved for a later tick, so at the
    start of a tick no cell and no edge is booked for its moves. *)
Theorem reservas_al_dia g ed ah robots spawn ps sd s0 n s :
  construir g ed ah robots spawn ps sd = Some s0 -> run n s0 = Some s ->
  (forall x y t, is_Some (reserva_celdas (tabla_reservas s) !! (x, y, t)) ->
     0 <= t <= tick s)
  /\ (forall x1 y1 x2 y2 t,
        is_Some (reserva_aristas (tabla_reservas s) !! (x1, y1, x2, y2, t)) ->
        1 <= t <= tick s)
  /\ (forall x y, is_Some (reserva_celdas (tabla_reservas s) !! (x, y, tick s)) <->
        exists r, r ∈ lista_robots s /\ pos r = (x, y)).
Proof. apply run_al_dia. Qed.

Lemma reservas_al_dia_witness :
  is_Some (reserva_celdas (tabla_reservas ej_s1) !! (4, 0, tick ej_s1)) <->
  exists r, r ∈ lista_robots ej_s1 /\ pos r = (4, 0).
Proof.
  apply (reservas_al_dia ej_pasillo {[0 := (1, 0)]} {[0 := (6, 0); 1 := (0, 0)]} 2
           [(3, 0); (4, 0)] ej_pedidos 0 ej_s0 1 ej_s1); vm_compute; reflexivity.
Defined.

(** ** The first robot of the list *)

Lemma puede_moverse_fresca tr (a b : Celda) ts :
  (forall x y, reserva_celdas tr !! (x, y, ts) = None) ->
  (forall x1 y1 x2 y2, reserva_aristas tr !! (x1, y1, x2, y2, ts) = None) ->
  puede_moverse tr a b ts = true.
Proof.
  intros Hc Ha. unfold puede_moverse, celda_libre, arista_libre.
  rewrite Hc, Ha. by rewrite !bool_decide_eq_true_2.
Qed.

Lemma step_primero s s' r r' :
  (forall x y t, is_Some (reserva_celdas (tabla_reservas s) !! (x, y, t)) -> t <= tick s) ->
  (forall x1 y1 x2 y2 t,
     is_Some (reserva_aristas (tabla_reservas s) !! (x1, y1, x2, y2, t)) -> t <= tick s) ->
  step s = Some s' ->
  lista_robots s !! 0%nat = Some r -> lista_robots s' !! 0%nat = Some r' ->
  ticks_espera r' = ticks_espera r.
Proof.
  intros Hc Ha H Hr Hr'.
  apply step_resolver in H as (props & rs3 & st & HF & Hres & _).
  destruct (Forall2_lookup_l _ _ _ _ _ HF Hr) as (rc & Hrc & _ & <- & _).
  destruct rs3 as [|rc' rs3]; [done|]. injection Hrc as ->.
  apply resolver_cons in Hres as (st1 & r1 & rs1 & H1 & _ & Heq).
  rewrite Heq in Hr'. injection Hr' as ->.
  apply resolver_robot_detalle in H1
    as (c & _ & [(_ & -> & _)|[(_ & _ & -> & _)|(_ & Hpm & _)]]); [done | done |].
  simpl in Hpm. rewrite puede_moverse_fresca in Hpm; [done| |].
  - intros x y. apply eq_None_not_Some. intros Hs. apply Hc in Hs. lia.
  - intros x1 y1 x2 y2. apply eq_None_not_Some. intros Hs. apply Ha in Hs. lia.
Qed.

(** X25. In every run of a simulator as it is built the first robot of
    the list, the one with identifier 0, is never refused a move: it is
    the first to ask at every tick and the table holds nothing yet for
    the tick to come, so its [ticks_espera] stays at 0. *)
Theorem primer_robot_sin_espera g ed ah robots spawn ps sd s0 n s r :
  construir g ed ah robots spawn ps sd = Some s0 -> run n s0 = Some s ->
  lista_robots s !! 0%nat = Some r -> ticks_espera r = 0.
Proof.
  intros Hc. revert s r. induction n as [|n IH]; intros s r Hr H0.
  - simpl in Hr. injection Hr as <-.
    destruct (construir_inicio _ _ _ _ _ _ _ _ Hc) as (_ & _ & _ & Hrob & _).
    rewrite Forall_forall in Hrob.
    by destruct (Hrob r (list_elem_of_lookup_2 _ _ _ H0)) as (_&_&_&?&_).
  - replace (S n) with (n + 1)%nat in Hr by lia. rewrite run_mas_uno in Hr.
    destruct (run n s0) as [s1|] eqn:Hr1; [|done]. simpl in Hr.
    destruct (step s1) as [s2|] eqn:Hs; [|done]. simpl in Hr. injection Hr as ->.
    destruct (run_al_dia _ _ _ _ _ _ _ _ _ _ Hc Hr1) as (Hcel & Har & _).
    assert (is_Some (lista_robots s1 !! 0%nat)) as [r1 Hr1'].
    { apply lookup_lt_is_Some. apply lookup_lt_Some in H0.
      pose proof (step_ids _ _ Hs) as Hid. unfold obtener_ids_robots in Hid.
      by rewrite <- (length_fmap robot_id), <- Hid, length_fmap. }
    rewrite (step_primero s1 s r1 r); try done.
    + by apply (IH s1).
    + intros x y t Hsome. apply Hcel in Hsome. lia.
    + intros x1 y1 x2 y2 t Hsome. apply Har in Hsome. lia.
Qed.

Lemma primer_robot_sin_espera_witness :
  ticks_espera (robot_de ej_s1 0) = 0 /\ ticks_espera (robot_de ej_s1 1) = 1.
Proof.
  split; [|vm_compute; reflexivity].
  apply (primer_robot_sin_espera ej_pasillo {[0 := (1, 0)]} {[0 := (6, 0); 1 := (0, 0)]} 2
           [(3, 0); (4, 0)] ej_pedidos 0 ej_s0 1 ej_s1); vm_compute; reflexivity.
Defined.

(** ** Where two robots can meet *)

Lemma resolver_robot_celdas_mono props ts st r st' r' x y t :
  resolver_robot props ts st r = Some (st', r') ->
  is_Some (reserva_celdas (res_tabla st) !! (x, y, t)) ->
  is_Some (reserva_celdas (res_tabla st') !! (x, y, t)).
Proof.
  intros H Hs. destruct (resolver_robot_tabla _ _ _ _ _ _ H) as [-> _].
  rewrite lookup_insert. by case_decide.
Qed.

(** A robot that moves enters a cell that nobody had booked. *)
Lemma resolver_entra_libre props ts : forall rs st st' rs' j r r' x y,
  resolver props ts st rs = Some (st', rs') ->
  rs !! j = Some r -> rs' !! j = Some r' -> pos r' ≠ pos r ->
  is_Some (reserva_celdas (res_tabla st) !! (x, y, ts)) -> pos r' ≠ (x, y).
Proof.
  induction rs as [|r0 rs IH]; intros st st' rs' j r r' x y H Hj Hj' Hmov Hs; [done|].
  apply resolver_cons in H as (st1 & r1 & rs1 & H1 & H2 & ->).
  destruct j as [|j]; simpl in Hj, Hj'.
  - injection Hj as ->. injection Hj' as ->.
    destruct (resolver_robot_tabla _ _ _ _ _ _ H1) as [_ [[? _]|(_ & Hpm & _)]]; [done|].
    intros Heq. rewrite puede_moverse_y in Hpm. apply andb_true_iff in Hpm as [Hl _].
    unfold celda_libre in Hl. apply bool_decide_eq_true_1 in Hl.
    rewrite Heq in Hl. simpl in Hl. rewrite Hl in Hs. by destruct Hs.
  - eapply (IH st1); [done..|]. by eapply resolver_robot_celdas_mono.
Qed.

Lemma resolver_encuentro props ts : forall rs st st' rs' i j rj ri' rj',
  resolver props ts st rs = Some (st', rs') -> (i < j)%nat ->
  rs !! j = Some rj -> rs' !! i = Some ri' -> rs' !! j = Some rj' ->
  pos ri' = pos rj' -> pos rj' = pos rj.
Proof.
  induction rs as [|r0 rs IH]; intros st st' rs' i j rj ri' rj' H Hij Hj Hi' Hj' Heq;
    [done|].
  apply resolver_cons in H as (st1 & r1 & rs1 & H1 & H2 & ->).
  destruct j as [|j]; [lia|]. simpl in Hj, Hj'.
  destruct i as [|i]; simpl in Hi'.
  - injection Hi' as ->.
    destruct (decide (pos rj' = pos rj)) as [|Hmov]; [done|]. exfalso.
    apply (resolver_entra_libre _ _ _ _ _ _ _ _ _ (pos ri').1 (pos ri').2 H2 Hj Hj' Hmov).
    + destruct (resolver_robot_tabla _ _ _ _ _ _ H1) as [-> _].
      rewrite lookup_insert_eq. by eexists.
    + rewrite <- Heq. by destruct (pos ri').
  - eapply (IH st1 st' rs1 i j); eauto. lia.
Qed.

(** X29. When two robots end a tick on one cell, the one that stands
    later in the list did not move in that tick: a robot that moves never
    enters a cell on which a robot treated before it ends the tick. *)
Theorem encuentro_solo_por_espera s s' i j rj ri' rj' :
  step s = Some s' -> (i < j)%nat ->
  lista_robots s !! j = Some rj ->
  lista_robots s' !! i = Some ri' -> lista_robots s' !! j = Some rj' ->
  pos ri' = pos rj' -> pos rj' = pos rj.
Proof.
  intros H Hij Hj Hi' Hj' Heq.
  apply step_resolver in H as (props & rs3 & st & HF & Hres & _).
  destruct (Forall2_lookup_l _ _ _ _ _ HF Hj) as (rc & Hrc & <- & _).
  by eapply (resolver_encuentro props _ rs3 _ _ _ i j rc ri' rj').
Qed.

Lemma encuentro_solo_por_espera_witness :
  pos (robot_de ej_choque1 1) = pos (robot_de ej_choque 1).
Proof.
  apply (encuentro_solo_por_espera ej_choque ej_choque1 0 1 (robot_de ej_choque 1)
           (robot_de ej_choque1 0) (robot_de ej_choque1 1)).
  - vm_compute. reflexivity.
  - lia.
  - vm_compute. reflexivity.
  - vm_compute. reflexivity.
  - vm_compute. reflexivity.
  - vm_compute. reflexivity.
Defined.

(** * The orders shifted to tick 0 *)

Lemma foldl_min_spec (l : list Z) : forall a,
  foldl Z.min a l <= a /\ (forall x, x ∈ l -> foldl Z.min a l <= x)
  /\ foldl Z.min a l ∈ a :: l.
Proof.
  induction l as [|x l IH]; intros a; simpl.
  - split; [lia|]. split; [by intros ? ?%elem_of_nil | by left].
  - destruct (IH (Z.min a x)) as (H1 & H2 & H3). split; [lia|]. split.
    + intros y [->|Hy]%elem_of_cons; [lia | by apply H2].
    + apply elem_of_cons in H3 as [H3|H3]; [|set_solver].
      rewrite H3. destruct (Z.min_spec a x) as [[_ ->]|[_ ->]]; set_solver.
Qed.

Lemma sin_desplazar (d : Z) (l : list Pedido) :
  d = 0 -> (fun q => con_creacion q (tick_creacion q - d)) <$> l = l.
Proof.
  intros ->. induction l as [|q l IH]; [done|]. rewrite fmap_cons, IH. f_equal.
  destruct q. unfold con_creacion. simpl. f_equal. lia.
Qed.

Lemma normalizar_forma ps :
  exists d, 0 <= d
    /\ normalizar_ticks_pedidos ps
       = (fun q => con_creacion q (tick_creacion q - d)) <$> ps
    /\ (forall p, p ∈ ps -> d <= Z.max 0 (tick_creacion p))
    /\ (ps ≠ [] -> (forall p, p ∈ ps -> 0 < tick_creacion p) ->
        exists p, p ∈ ps /\ tick_creacion p = d)
    /\ (forall p, p ∈ ps -> tick_creacion p <= 0 -> d = 0).
Proof.
  destruct ps as [|p ps].
  { exists 0. split; [lia|]. split; [done|]. split; [by intros ? ?%elem_of_nil|].
    split; [done | by intros ? ?%elem_of_nil]. }
  unfold normalizar_ticks_pedidos.
  set (t0 := foldl Z.min (tick_creacion p) (tick_creacion <$> ps)).
  destruct (foldl_min_spec (tick_creacion <$> ps) (tick_creacion p)) as (H1 & H2 & H3).
  fold t0 in H1, H2, H3.
  assert (forall q, q ∈ p :: ps -> t0 <= tick_creacion q) as Hmin.
  { intros q [->|Hq]%elem_of_cons; [done|]. apply H2. by apply list_elem_of_fmap_2. }
  assert (exists q, q ∈ p :: ps /\ tick_creacion q = t0) as Hex.
  { apply elem_of_cons in H3 as [H3|H3]; [exists p; split; [by left | done]|].
    apply list_elem_of_fmap in H3 as (q & Hq & Hin). exists q. split; [by right | done]. }
  destruct (0 <? t0) eqn:Hpos.
  - apply Z.ltb_lt in Hpos. exists t0. split; [lia|]. split; [done|]. split.
    + intros q Hq. specialize (Hmin q Hq). lia.
    + split; [by intros _ _|]. intros q Hq Hle. specialize (Hmin q Hq). lia.
  - apply Z.ltb_ge in Hpos. exists 0. split; [lia|]. split; [by rewrite sin_desplazar|]. split.
    + intros q Hq. lia.
    + split; [|done]. intros _ Hall. destruct Hex as (q & Hq & Heq).
      specialize (Hall q Hq). lia.
Qed.

(** X27. On a list of orders that are pairwise different, so that no
    order object is listed twice, [normalizar_ticks_pedidos] keeps the
    orders and their order, and changes nothing of them but the creation
    ticks, which it lowers by one amount for all, so the gaps between
    orders stay; when the earliest order is created after tick 0 the
    earliest order of the result is created at tick 0, and when some order
    is created at tick 0 or before the list is returned as it is.  An
    empty list gives an empty list, and normalising twice is normalising
    once. *)
Theorem normalizar_desde_cero ps :
  NoDup ps ->
  length (normalizar_ticks_pedidos ps) = length ps
  /\ (forall i p', normalizar_ticks_pedidos ps !! i = Some p' ->
        exists p, ps !! i = Some p /\ pedido_id p' = pedido_id p
          /\ anaquel_id p' = anaquel_id p /\ estacion_id p' = estacion_id p
          /\ tick_asignacion p' = tick_asignacion p
          /\ tick_completado p' = tick_completado p)
  /\ (forall i j p q p' q', ps !! i = Some p -> ps !! j = Some q ->
        normalizar_ticks_pedidos ps !! i = Some p' ->
        normalizar_ticks_pedidos ps !! j = Some q' ->
        tick_creacion p' - tick_creacion q' = tick_creacion p - tick_creacion q)
  /\ ((0 < length ps)%nat -> Forall (fun p => 0 < tick_creacion p) ps ->
        (exists p', p' ∈ normalizar_ticks_pedidos ps /\ tick_creacion p' = 0)
        /\ forall p', p' ∈ normalizar_ticks_pedidos ps -> 0 <= tick_creacion p')
  /\ (forall p, p ∈ ps -> tick_creacion p <= 0 -> normalizar_ticks_pedidos ps = ps)
  /\ normalizar_ticks_pedidos (normalizar_ticks_pedidos ps) = normalizar_ticks_pedidos ps.
Proof.
  intros _. pose proof sin_desplazar as Hid.
  destruct (normalizar_forma ps) as (d & Hd & Heq & Hmax & Hmin & Hcero).
  split; [by rewrite Heq, length_fmap|]. split; [|split; [|split; [|split]]].
  - intros i p' Hp'. rewrite Heq, list_lookup_fmap in Hp'.
    destruct (ps !! i) as [p|]; [|done]. injection Hp' as <-. by exists p.
  - intros i j p q p' q' Hp Hq. rewrite Heq, !list_lookup_fmap, Hp, Hq.
    intros [= <-] [= <-]. simpl. lia.
  - intros Hlen Hall. rewrite Forall_forall in Hall.
    assert (ps ≠ []) as Hne by (intros ->; simpl in Hlen; lia).
    destruct (Hmin Hne Hall) as (p & Hp & Hpd). split.
    + exists (con_creacion p (tick_creacion p - d)). split; [|simpl; lia].
      rewrite Heq.
        by apply (list_elem_of_fmap_2 (fun q => con_creacion q (tick_creacion q - d))).
    + intros p'. rewrite Heq. intros (q & -> & Hq)%list_elem_of_fmap. simpl.
      specialize (Hmax q Hq). specialize (Hall q Hq). lia.
  - intros p Hp Hle. rewrite Heq. apply Hid. by eapply Hcero.
  - destruct (decide (ps = [])) as [->|Hne]; [done|].
    destruct (decide (d = 0)) as [Hd0|Hd0].
    + assert (normalizar_ticks_pedidos ps = ps) as E by (rewrite Heq; by apply Hid).
      by rewrite !E.
    + assert (forall p, p ∈ ps -> 0 < tick_creacion p) as Hall.
      { intros p Hp. destruct (decide (0 < tick_creacion p)); [done|].
        exfalso. apply Hd0. apply (Hcero p Hp). lia. }
      destruct (Hmin Hne Hall) as (p & Hp & Hpd).
      destruct (normalizar_forma (normalizar_ticks_pedidos ps))
        as (d' & Hd' & Heq' & _ & _ & Hcero').
      rewrite Heq'. apply Hid.
      apply (Hcero' (con_creacion p (tick_creacion p - d))); [|simpl; lia].
      rewrite Heq.
        by apply (list_elem_of_fmap_2 (fun q => con_creacion q (tick_creacion q - d))).
Qed.

Lemma normalizar_desde_cero_witness :
  (exists p', p' ∈ normalizar_ticks_pedidos ej_cuatro_tarde /\ tick_creacion p' = 0)
  /\ forall p', p' ∈ normalizar_ticks_pedidos ej_cuatro_tarde -> 0 <= tick_creacion p'.
Proof.
  destruct (normalizar_desde_cero ej_cuatro_tarde) as (_ & _ & _ & H & _).
  - apply (bool_decide_unpack _). vm_compute. exact I.
  - apply H.
    + simpl. lia.
    + apply (bool_decide_unpack _). vm_compute. exact I.
Defined.

(** ** The queue of the normalised orders *)

Lemma insertar_estable_ext (k k' : nat -> Z) i l :
  (forall j, j ∈ l -> (k' i <=? k' j) = (k i <=? k j)) ->
  insertar_estable k' i l = insertar_estable k i l.
Proof.
  induction l as [|j l IH]; intros Hk; simpl; [done|].
  rewrite (Hk j) by (by left). destruct (k i <=? k j); [done|].
  f_equal. apply IH. intros j' Hj'. apply Hk. by right.
Qed.

Lemma sorted_ext (k k' : nat -> Z) l :
  (forall i j, i ∈ l -> j ∈ l -> (k' i <=? k' j) = (k i <=? k j)) ->
  sorted k' l = sorted k l.
Proof.
  induction l as [|i l IH]; intros Hk; [done|].
  unfold sorted in *. simpl. rewrite IH by (intros; apply Hk; by right).
  apply insertar_estable_ext. intros j Hj.
  change (foldr _ _ _) with (sorted k l) in Hj. rewrite sorted_perm in Hj.
  apply Hk; [by left | by right].
Qed.

(** X28. Normalising a list of orders that are pairwise different, so
    that no order object is listed twice, does not change the order in
    which the simulator releases them: built from the normalised list,
    the simulator has the same queue of orders not yet released, the same
    robots and the same reservations as built from the list itself. *)
Theorem normalizar_misma_cola g ed ah robots spawn ps sd :
  NoDup ps ->
  no_liberados <$> construir g ed ah robots spawn (normalizar_ticks_pedidos ps) sd
  = no_liberados <$> construir g ed ah robots spawn ps sd
  /\ lista_robots <$> construir g ed ah robots spawn (normalizar_ticks_pedidos ps) sd
     = lista_robots <$> construir g ed ah robots spawn ps sd
  /\ tabla_reservas <$> construir g ed ah robots spawn (normalizar_ticks_pedidos ps) sd
     = tabla_reservas <$> construir g ed ah robots spawn ps sd.
Proof.
  intros _. unfold construir. destruct (_ <? _); [done|].
  destruct (mapM _ _); [|done]. simpl. split; [|done]. f_equal.
  destruct (normalizar_forma ps) as (d & _ & Heq & _).
  rewrite Heq, length_fmap. apply sorted_ext. intros i j Hi Hj.
  apply elem_of_seq in Hi, Hj. rewrite !list_lookup_fmap.
  destruct (lookup_lt_is_Some_2 ps i) as [p ->]; [lia|].
  destruct (lookup_lt_is_Some_2 ps j) as [q ->]; [lia|]. simpl.
  destruct (tick_creacion p <=? tick_creacion q) eqn:Hc.
  - apply Z.leb_le in Hc. apply Z.leb_le. lia.
  - apply Z.leb_gt in Hc. apply Z.leb_gt. lia.
Qed.

Lemma normalizar_misma_cola_witness :
  no_liberados <$> construir [[0]] ∅ ∅ 0 [] (normalizar_ticks_pedidos ej_cuatro_tarde) 0
  = no_liberados <$> construir [[0]] ∅ ∅ 0 [] ej_cuatro_tarde 0.
Proof.
  apply (normalizar_misma_cola [[0]] ∅ ∅ 0 [] ej_cuatro_tarde 0).
  apply (bool_decide_unpack _). vm_compute. exact I.
Defined.

(** ** What the report counts never goes down *)

Lemma sigue_insert ps0 ps i p p1 :
  Forall2 sigue_completado ps0 ps -> ps !! i = Some p -> sigue_completado p p1 ->
  Forall2 sigue_completado ps0 (<[i := p1]> ps).
Proof.
  intros HF Hi Hp. destruct (Forall2_lookup_r _ _ _ _ _ HF Hi) as (q & Hq & Hqp).
  rewrite <- (list_insert_id ps0 i q Hq). apply Forall2_insert; [done|].
  intros H. by apply Hp, Hqp.
Qed.

Lemma sigue_refl ps : Forall2 sigue_completado ps ps.
Proof. induction ps; [constructor|]. constructor; [by intros ?|done]. Qed.

Lemma sigue_trans ps1 ps2 ps3 :
  Forall2 sigue_completado ps1 ps2 -> Forall2 sigue_completado ps2 ps3 ->
  Forall2 sigue_completado ps1 ps3.
Proof.
  intros H. revert ps3. induction H; intros ps3 H3; inversion H3; subst;
    constructor; eauto. unfold sigue_completado in *. eauto.
Qed.

Lemma completar_pedido_sigue t pid ps :
  Forall2 sigue_completado ps (completar_pedido t pid ps).
Proof.
  induction ps as [|p ps IH]; simpl; [constructor|].
  destruct (pedido_id p =? pid); constructor;
    try apply sigue_refl; try exact IH; by intros ?.
Qed.

Lemma asignar_robot_sigue s r s' r' i :
  asignar_robot s r = Some (s', r', i) ->
  Forall2 sigue_completado (pedidos s) (pedidos s').
Proof.
  intros H. apply asignar_robot_casos in H.
  destruct H; simpl; try apply sigue_refl;
    (eapply sigue_insert; [apply sigue_refl | done | by intros ?]).
Qed.

Lemma planear_sigue s ps r ps' r' :
  planear_siguiente_tramo_si_llego s ps r = Some (ps', r') ->
  Forall2 sigue_completado ps ps'.
Proof.
  intros H. apply planear_detalle in H
    as [[-> _]|[(_&_&->&_)|[(_&_&->&_)|(_&_&_&->)]]]; try apply sigue_refl.
  destruct (r_pedido_id r); [apply completar_pedido_sigue | apply sigue_refl].
Qed.

Lemma step_sigue s s' :
  step s = Some s' -> Forall2 sigue_completado (pedidos s) (pedidos s').
Proof.
  intros H. apply step_fases in H
    as (s1 & s2 & ps3 & props & rs3 & st & H1 & H2 & H3 & H4 & _ & _ & _ & _ & Hps & _).
  apply liberar_pedidos_marco in H1 as (_ & _ & Hp1).
  destruct (asignar_pedidos_inv
              (fun s0 => Forall2 sigue_completado (pedidos s) (pedidos s0))
              (fun _ _ => True)) with (s := s1) (s' := s2) as [HJ2 _]; try done.
  - intros s0 r s0' r' i HJ _ _ _ Ha. split; [|done].
    eapply sigue_trans; [done|]. by eapply asignar_robot_sigue.
  - rewrite Hp1. apply sigue_refl.
  - by apply Forall_true.
  - destruct (proponer_inv s2 (fun ps => Forall2 sigue_completado (pedidos s) ps)
                (fun _ _ => True)) with (rs := lista_robots s2) (ps := pedidos s2)
      (props := (∅ : gmap Z Celda)) (ps' := ps3) (props' := props) (rs' := rs3)
      as [HJ3 _]; try done.
    + intros ps r ps' r' HJ _ Hpl. split; [|done].
      eapply sigue_trans; [done|]. by eapply planear_sigue.
    + by apply Forall_true.
    + by rewrite Hps.
Qed.

Lemma completados_mono ps ps' :
  Forall2 sigue_completado ps ps' ->
  (length (filter (fun p => tick_completado p ≠ None) ps)
   <= length (filter (fun p => tick_completado p ≠ None) ps'))%nat.
Proof.
  induction 1 as [|p p' ps ps' Hp _ IH]; [done|].
  rewrite !filter_cons.
  destruct (decide (tick_completado p ≠ None)) as [Hc|Hc].
  - rewrite decide_True by by apply Hp. simpl. lia.
  - destruct (decide (tick_completado p' ≠ None)); simpl; lia.
Qed.

Lemma suma_mono (f : Robot -> Z) rs rs' :
  Forall2 (fun r r' => f r <= f r' <= f r + 1) rs rs' ->
  suma (f <$> rs) <= suma (f <$> rs') <= suma (f <$> rs) + Z.of_nat (length rs).
Proof.
  induction 1 as [|r r' rs rs' Hr _ IH]; [simpl; lia|].
  rewrite !fmap_cons. unfold suma in *. simpl length. simpl foldr. lia.
Qed.

Lemma step_robots s s' :
  step s = Some s' ->
  Forall2 (fun r r' => celdas_movidas r <= celdas_movidas r' <= celdas_movidas r + 1
                       /\ ticks_espera r <= ticks_espera r' <= ticks_espera r + 1)
    (lista_robots s) (lista_robots s').
Proof.
  intros H. pose proof (step_ids _ _ H) as Hids.
  assert (length (lista_robots s') = length (lista_robots s)) as Hlen.
  { unfold obtener_ids_robots in Hids.
    by rewrite <- (length_fmap robot_id), Hids, length_fmap. }
  apply Forall2_same_length_lookup_2; [done|].
  intros i r r' Hi Hi'.
  destruct (step_contadores _ _ _ _ _ H Hi Hi')
    as (_ & [(_ & -> & ?)|(_ & -> & ->)]); lia.
Qed.

Lemma step_no_decrece s s' :
  step s = Some s' ->
  let m := metricas s in let m' := metricas s' in
  m_pedidos_totales m' = m_pedidos_totales m
  /\ m_robots m' = m_robots m
  /\ m_pedidos_completados m <= m_pedidos_completados m' <= m_pedidos_totales m
  /\ m_deadlock m <= m_deadlock m' <= m_deadlock m + 1
  /\ m_eventos_alto m <= m_eventos_alto m' <= m_eventos_alto m + m_robots m
  /\ m_distancia_total_celdas m <= m_distancia_total_celdas m'
     <= m_distancia_total_celdas m + m_robots m.
Proof.
  intros H. simpl.
  pose proof (step_sigue _ _ H) as Hs.
  pose proof (step_robots _ _ H) as Hr.
  pose proof (Forall2_length _ _ _ Hs) as Hlp.
  pose proof (Forall2_length _ _ _ Hr) as Hlr.
  split; [by rewrite Hlp|]. split; [by rewrite Hlr|].
  split; [|split; [|split]].
  - split; [apply inj_le, completados_mono, Hs|].
    rewrite Hlp. apply inj_le, length_filter.
  - rewrite (step_deadlock _ _ H). destruct (_ && _); lia.
  - pose proof (step_eventos _ _ H) as He.
    pose proof (suma_mono ticks_espera _ _
                  (Forall2_impl _ _ _ _ Hr (fun _ _ HH => proj2 HH))). lia.
  - apply (suma_mono celdas_movidas).
    eapply Forall2_impl; [exact Hr|]. by intros ? ? [? _].
Qed.

(** X30. What the report counts never goes down during a run: over [n]
    ticks the number of completed orders does not decrease and stays
    within the number of orders, the deadlock counter grows by at most
    one per tick, and the wait events and the distance grow by at most
    one per robot and tick; the numbers of orders and robots stay. *)
Theorem metricas_no_decrecen n : forall s s',
  run n s = Some s' ->
  let m := metricas s in let m' := metricas s' in
  m_pedidos_totales m' = m_pedidos_totales m
  /\ m_robots m' = m_robots m
  /\ m_pedidos_completados m <= m_pedidos_completados m' <= m_pedidos_totales m
  /\ m_deadlock m <= m_deadlock m' <= m_deadlock m + Z.of_nat n
  /\ m_eventos_alto m <= m_eventos_alto m'
     <= m_eventos_alto m + Z.of_nat n * m_robots m
  /\ m_distancia_total_celdas m <= m_distancia_total_celdas m'
     <= m_distancia_total_celdas m + Z.of_nat n * m_robots m.
Proof.
  induction n as [|n IH]; intros s s' H; simpl in H.
  - injection H as <-. cbv zeta. repeat split; try lia.
    simpl. apply inj_le, length_filter.
  - destruct (step s) as [s1|] eqn:Hs; [|done]. simpl in H.
    pose proof (step_no_decrece _ _ Hs) as H1. pose proof (IH _ _ H) as H2.
    cbv zeta in *.
    destruct H1 as (E1 & E2 & E3 & E4 & E5 & E6).
    destruct H2 as (F1 & F2 & F3 & F4 & F5 & F6).
    rewrite E1, E2 in *. nia.
Qed.

Lemma metricas_no_decrecen_witness :
  m_pedidos_completados (metricas ej_vuelta)
  <= m_pedidos_completados (metricas ej_vuelta4)
  <= m_pedidos_totales (metricas ej_vuelta).
Proof.
  destruct (metricas_no_decrecen 4 ej_vuelta ej_vuelta4) as (_ & _ & H & _);
    [vm_compute; reflexivity|].
  exact H.
Defined.
